(** * HybridPSClient: the chunk-based parameter-server client

    A shallow embedding of [client/client.py] (class [HybridPSClient]).
    The client is a stateful orchestrator; its methods are embedded as
    computations in a state-and-exception monad over the process state.

    The collaborating classes ([HybridPSManager], [ChunkList], [Chunk],
    [TensorInfoList], [ChunkTensorIndex]) and the enumerations of
    [client/const.py] are not part of the available sources; they are
    modelled from the design document, and every such definition says so
    in its documentation. *)

From stdpp Require Import gmap list sorting.
From Stdlib Require Import ZArith Lia.

Open Scope Z_scope.

(** ** Enumerations and plain data *)

(** [AccessType] of [client/const.py], as used by [get_chunk_id]. *)
Inductive AccessType := DATA | GRAD.

(** Modelled from the spec: [PSTensorStatus] of [client/const.py];
    section 3 lists the four tensor states. *)
Inductive PSTensorStatus := UNINIT | FREE | HOLD | COMPUTE.

(** [torch.device]: a type and an optional index ([torch.device('cpu')]
    has index [None]). *)
Inductive DeviceType := cpu | cuda.

Record Device := torch_device { dev_type : DeviceType; dev_index : option nat }.

(** [torch.dtype], restricted to the two types the manager stores. *)
Inductive DType := torch_float | torch_half.

#[global] Instance AccessType_eq_dec : EqDecision AccessType.
Proof. solve_decision. Defined.
#[global] Instance PSTensorStatus_eq_dec : EqDecision PSTensorStatus.
Proof. solve_decision. Defined.
#[global] Instance DeviceType_eq_dec : EqDecision DeviceType.
Proof. solve_decision. Defined.
#[global] Instance Device_eq_dec : EqDecision Device.
Proof. solve_decision. Defined.
#[global] Instance DType_eq_dec : EqDecision DType.
Proof. solve_decision. Defined.

(** A [torch.Tensor] handle: a view of [t_shape] at [t_offset] into the
    storage [t_storage], which lives on [t_device].  Two handles alias
    when they name the same storage. *)
Record Tensor := mkTensor {
  t_storage : nat;
  t_device : Device;
  t_offset : nat;
  t_shape : list nat
}.

#[global] Instance Tensor_eq_dec : EqDecision Tensor.
Proof. solve_decision. Defined.

(** [numel] of a shape, the loop of [new_tensor] (client.py 260-262). *)
Definition shape_numel (shape : list nat) : nat :=
  foldl (fun n elem => (n * elem)%nat) 1%nat shape.

(** A [torch.nn.Parameter] object together with the attributes the
    client attaches to it at run time.  An attached attribute is [None]
    while it is absent (or holds Python's [None]): reading through it
    raises [AttributeError] in both cases. *)
Record Param := mkParam {
  data : Tensor;
  grad : option Tensor;
  dtype : DType;
  requires_grad : bool;
  ps_numel : option nat;
  ps_shape : option (list nat);
  data_status : option PSTensorStatus;
  grad_status : option PSTensorStatus;
  ps_data_id : option Z;
  ps_grad_id : option Z;
  ps_data_tensor : option Tensor;
  ps_grad_tensor : option Tensor;
  ps_data_chunk_id : option nat;
  ps_grad_chunk_id : option nat;
  ps_gard_chunk_id : option nat
}.

Definition set_data (v : Tensor) (P : Param) : Param :=
  mkParam v (grad P) (dtype P) (requires_grad P) (ps_numel P) (ps_shape P)
    (data_status P) (grad_status P) (ps_data_id P) (ps_grad_id P)
    (ps_data_tensor P) (ps_grad_tensor P) (ps_data_chunk_id P)
    (ps_grad_chunk_id P) (ps_gard_chunk_id P).

Definition set_grad (v : option Tensor) (P : Param) : Param :=
  mkParam (data P) v (dtype P) (requires_grad P) (ps_numel P) (ps_shape P)
    (data_status P) (grad_status P) (ps_data_id P) (ps_grad_id P)
    (ps_data_tensor P) (ps_grad_tensor P) (ps_data_chunk_id P)
    (ps_grad_chunk_id P) (ps_gard_chunk_id P).

Definition set_ps_numel (v : option nat) (P : Param) : Param :=
  mkParam (data P) (grad P) (dtype P) (requires_grad P) v (ps_shape P)
    (data_status P) (grad_status P) (ps_data_id P) (ps_grad_id P)
    (ps_data_tensor P) (ps_grad_tensor P) (ps_data_chunk_id P)
    (ps_grad_chunk_id P) (ps_gard_chunk_id P).

Definition set_ps_shape (v : option (list nat)) (P : Param) : Param :=
  mkParam (data P) (grad P) (dtype P) (requires_grad P) (ps_numel P) v
    (data_status P) (grad_status P) (ps_data_id P) (ps_grad_id P)
    (ps_data_tensor P) (ps_grad_tensor P) (ps_data_chunk_id P)
    (ps_grad_chunk_id P) (ps_gard_chunk_id P).

Definition set_data_status (v : option PSTensorStatus) (P : Param) : Param :=
  mkParam (data P) (grad P) (dtype P) (requires_grad P) (ps_numel P) (ps_shape P)
    v (grad_status P) (ps_data_id P) (ps_grad_id P)
    (ps_data_tensor P) (ps_grad_tensor P) (ps_data_chunk_id P)
    (ps_grad_chunk_id P) (ps_gard_chunk_id P).

Definition set_grad_status (v : option PSTensorStatus) (P : Param) : Param :=
  mkParam (data P) (grad P) (dtype P) (requires_grad P) (ps_numel P) (ps_shape P)
    (data_status P) v (ps_data_id P) (ps_grad_id P)
    (ps_data_tensor P) (ps_grad_tensor P) (ps_data_chunk_id P)
    (ps_grad_chunk_id P) (ps_gard_chunk_id P).

Definition set_ps_data_id (v : option Z) (P : Param) : Param :=
  mkParam (data P) (grad P) (dtype P) (requires_grad P) (ps_numel P) (ps_shape P)
    (data_status P) (grad_status P) v (ps_grad_id P)
    (ps_data_tensor P) (ps_grad_tensor P) (ps_data_chunk_id P)
    (ps_grad_chunk_id P) (ps_gard_chunk_id P).

Definition set_ps_grad_id (v : option Z) (P : Param) : Param :=
  mkParam (data P) (grad P) (dtype P) (requires_grad P) (ps_numel P) (ps_shape P)
    (data_status P) (grad_status P) (ps_data_id P) v
    (ps_data_tensor P) (ps_grad_tensor P) (ps_data_chunk_id P)
    (ps_grad_chunk_id P) (ps_gard_chunk_id P).

Definition set_ps_data_tensor (v : option Tensor) (P : Param) : Param :=
  mkParam (data P) (grad P) (dtype P) (requires_grad P) (ps_numel P) (ps_shape P)
    (data_status P) (grad_status P) (ps_data_id P) (ps_grad_id P)
    v (ps_grad_tensor P) (ps_data_chunk_id P)
    (ps_grad_chunk_id P) (ps_gard_chunk_id P).

Definition set_ps_grad_tensor (v : option Tensor) (P : Param) : Param :=
  mkParam (data P) (grad P) (dtype P) (requires_grad P) (ps_numel P) (ps_shape P)
    (data_status P) (grad_status P) (ps_data_id P) (ps_grad_id P)
    (ps_data_tensor P) v (ps_data_chunk_id P)
    (ps_grad_chunk_id P) (ps_gard_chunk_id P).

Definition set_ps_data_chunk_id (v : option nat) (P : Param) : Param :=
  mkParam (data P) (grad P) (dtype P) (requires_grad P) (ps_numel P) (ps_shape P)
    (data_status P) (grad_status P) (ps_data_id P) (ps_grad_id P)
    (ps_data_tensor P) (ps_grad_tensor P) v
    (ps_grad_chunk_id P) (ps_gard_chunk_id P).

Definition set_ps_grad_chunk_id (v : option nat) (P : Param) : Param :=
  mkParam (data P) (grad P) (dtype P) (requires_grad P) (ps_numel P) (ps_shape P)
    (data_status P) (grad_status P) (ps_data_id P) (ps_grad_id P)
    (ps_data_tensor P) (ps_grad_tensor P) (ps_data_chunk_id P)
    v (ps_gard_chunk_id P).

Definition set_ps_gard_chunk_id (v : option nat) (P : Param) : Param :=
  mkParam (data P) (grad P) (dtype P) (requires_grad P) (ps_numel P) (ps_shape P)
    (data_status P) (grad_status P) (ps_data_id P) (ps_grad_id P)
    (ps_data_tensor P) (ps_grad_tensor P) (ps_data_chunk_id P)
    (ps_grad_chunk_id P) v.

(** ** Chunks (modelled from the spec) *)

(** Modelled from the spec: [TensorInfo] of [client/chunk_data.py]; section 3
    gives a tensor range as [{tensor_id, offset, length, status}]. *)
Record TensorInfo := mkTensorInfo {
  tensor_id : Z;
  start : nat;
  numel : nat;
  status : PSTensorStatus
}.

(** Modelled from the spec: [Chunk] of [client/chunk_data.py]; section 3 gives
    [{id, capacity (elements), dtype, device, tensor_ranges,
    recency_counter}].  [payload] names the storage that backs it. *)
Record Chunk := mkChunk {
  chunk_id : nat;
  capacity : nat;
  data_type : DType;
  device : Device;
  payload : nat;
  tensor_info_list : list TensorInfo;
  timestamp : nat
}.

(** Modelled from the spec: the derived aggregate status of a chunk,
    [ALL_FREE] iff every range is [FREE]. *)
Definition all_free (c : Chunk) : bool :=
  forallb (fun info => bool_decide (status info = FREE)) (tensor_info_list c).

(** Modelled from the spec: [HAS_COMPUTE] iff any range is [COMPUTE]. *)
Definition has_compute (c : Chunk) : bool :=
  existsb (fun info => bool_decide (status info = COMPUTE)) (tensor_info_list c).

(** Modelled from the spec: [TensorInfoList.set_status]; sets the status
    of the range that carries [tid]. *)
Definition set_status_infos (tid : Z) (st : PSTensorStatus)
    (l : list TensorInfo) : list TensorInfo :=
  map (fun info =>
         if bool_decide (tensor_id info = tid)
         then mkTensorInfo (tensor_id info) (start info) (numel info) st
         else info) l.

(** The range of [tid] in a range list, if it has one. *)
Definition find_info (tid : Z) (l : list TensorInfo) : option TensorInfo :=
  List.find (fun info => bool_decide (tensor_id info = tid)) l.

(** The status recorded for [tid] in a chunk's range list. *)
Definition info_status (tid : Z) (c : Chunk) : option PSTensorStatus :=
  status <$> find_info tid (tensor_info_list c).

(** First element past the last range of a chunk. *)
Definition boundary (c : Chunk) : nat :=
  foldr (fun info b => Nat.max (start info + numel info) b) 0%nat
        (tensor_info_list c).

Definition set_tensor_info_list (l : list TensorInfo) (c : Chunk) : Chunk :=
  mkChunk (chunk_id c) (capacity c) (data_type c) (device c) (payload c) l
          (timestamp c).

Definition set_timestamp (t : nat) (c : Chunk) : Chunk :=
  mkChunk (chunk_id c) (capacity c) (data_type c) (device c) (payload c)
          (tensor_info_list c) t.

Definition set_residence (d : Device) (st : nat) (c : Chunk) : Chunk :=
  mkChunk (chunk_id c) (capacity c) (data_type c) d st
          (tensor_info_list c) (timestamp c).

(** ** Process state *)

(** Modelled from the spec: the Device Memory Registry ([HybridPSManager]
    of [manager.py]); per device, the total capacity and the bytes
    currently reserved (section 4.1). *)
Record Manager := mkManager {
  capacity_bytes : Device -> Z;
  reserved_bytes : Device -> Z
}.

(** Modelled from the spec: [ChunkList] of [client/chunk_list.py]; the
    chunks by identifier, the next identifier to hand out (identifiers
    increase monotonically), the default chunk size and the device new
    chunks are created on (section 4.2). *)
Record ChunkList := mkChunkList {
  chunks : gmap nat Chunk;
  next_chunk_id : nat;
  default_chunk_size : nat;
  default_device : Device
}.

(** Ghost trace: the calls the client issues on its collaborators, most
    recent first. *)
Inductive Call :=
  | CallAllocate (n : nat) (dt : DType) (tid : Z)
  | CallRoomMaking (need : Z) (target : Device)
  | CallMove (cid : nat) (target : Device)
  | CallTouch (cid : nat)
  | CallDeleteFreeChunks.

(** The state the client's methods run in: the fields of the
    [HybridPSClient] object that its methods read ([chunk_list],
    [module], [ps_id], [param_data_dict], [param_grad_dict],
    [chunk_tensor_index]), the process-wide [HybridPSManager]
    singleton, the parameter objects by identity ([objects]), the
    contents of every tensor storage, and the ghost trace. *)
Record State := mkState {
  chunk_list : ChunkList;
  module : option (list nat);
  ps_id : Z;
  param_data_dict : gmap Z nat;
  param_grad_dict : gmap Z nat;
  chunk_tensor_index : gmap Z nat;
  ps_manager : Manager;
  objects : gmap nat Param;
  storages : gmap nat (list Z);
  next_storage : nat;
  calls : list Call
}.

Definition set_chunk_list (v : ChunkList) (s : State) : State :=
  mkState v (module s) (ps_id s) (param_data_dict s) (param_grad_dict s)
    (chunk_tensor_index s) (ps_manager s) (objects s) (storages s)
    (next_storage s) (calls s).

Definition set_chunks (v : gmap nat Chunk) (s : State) : State :=
  set_chunk_list
    (mkChunkList v (next_chunk_id (chunk_list s))
       (default_chunk_size (chunk_list s)) (default_device (chunk_list s))) s.

Definition set_module (v : option (list nat)) (s : State) : State :=
  mkState (chunk_list s) v (ps_id s) (param_data_dict s) (param_grad_dict s)
    (chunk_tensor_index s) (ps_manager s) (objects s) (storages s)
    (next_storage s) (calls s).

Definition set_ps_id (v : Z) (s : State) : State :=
  mkState (chunk_list s) (module s) v (param_data_dict s) (param_grad_dict s)
    (chunk_tensor_index s) (ps_manager s) (objects s) (storages s)
    (next_storage s) (calls s).

Definition set_param_data_dict (v : gmap Z nat) (s : State) : State :=
  mkState (chunk_list s) (module s) (ps_id s) v (param_grad_dict s)
    (chunk_tensor_index s) (ps_manager s) (objects s) (storages s)
    (next_storage s) (calls s).

Definition set_param_grad_dict (v : gmap Z nat) (s : State) : State :=
  mkState (chunk_list s) (module s) (ps_id s) (param_data_dict s) v
    (chunk_tensor_index s) (ps_manager s) (objects s) (storages s)
    (next_storage s) (calls s).

Definition set_chunk_tensor_index (v : gmap Z nat) (s : State) : State :=
  mkState (chunk_list s) (module s) (ps_id s) (param_data_dict s)
    (param_grad_dict s) v (ps_manager s) (objects s) (storages s)
    (next_storage s) (calls s).

Definition set_ps_manager (v : Manager) (s : State) : State :=
  mkState (chunk_list s) (module s) (ps_id s) (param_data_dict s)
    (param_grad_dict s) (chunk_tensor_index s) v (objects s) (storages s)
    (next_storage s) (calls s).

Definition set_objects (v : gmap nat Param) (s : State) : State :=
  mkState (chunk_list s) (module s) (ps_id s) (param_data_dict s)
    (param_grad_dict s) (chunk_tensor_index s) (ps_manager s) v (storages s)
    (next_storage s) (calls s).

Definition set_storages (v : gmap nat (list Z)) (n : nat) (s : State) : State :=
  mkState (chunk_list s) (module s) (ps_id s) (param_data_dict s)
    (param_grad_dict s) (chunk_tensor_index s) (ps_manager s) (objects s) v
    n (calls s).

Definition set_calls (v : list Call) (s : State) : State :=
  mkState (chunk_list s) (module s) (ps_id s) (param_data_dict s)
    (param_grad_dict s) (chunk_tensor_index s) (ps_manager s) (objects s)
    (storages s) (next_storage s) v.

(** ** The state-and-exception monad *)

(** The exceptions a method can end with.  The source raises a plain
    [RuntimeError] both in [prepare_device] (client.py 89) and in [access]
    (client.py 130); they are told apart here under the names the design
    document gives them, [UnsatisfiableAllocation] and [NotManaged].
    [AttributeError], [AssertionError] and [KeyError] are Python's own;
    the last three are the collaborators' errors of section 7. *)
Inductive Error :=
  | UnsatisfiableAllocation
  | NotManaged
  | AttributeError
  | AssertionError
  | KeyError
  | InsufficientEvictableMemory
  | CapacityExceeded
  | DuplicateBinding.

#[global] Instance Error_eq_dec : EqDecision Error.
Proof. solve_decision. Defined.

Inductive Result (A : Type) :=
  | Ok (a : A)
  | Raise (e : Error).

Arguments Ok {A} a.
Arguments Raise {A} e.

(** A method: from a state to its outcome and the state it leaves behind.
    A raised exception keeps every mutation made before it. *)
Definition M (A : Type) : Type := State -> Result A * State.

Definition ret {A} (a : A) : M A := fun s => (Ok a, s).

Definition raise {A} (e : Error) : M A := fun s => (Raise e, s).

Definition bind {A B} (m : M A) (k : A -> M B) : M B :=
  fun s => match m s with
           | (Ok a, s') => k a s'
           | (Raise e, s') => (Raise e, s')
           end.

Definition get : M State := fun s => (Ok s, s).

Definition modify (f : State -> State) : M unit := fun s => (Ok tt, f s).

Declare Scope method_scope.
Delimit Scope method_scope with method.
Notation "x <- m ;; k" := (bind m (fun x => k))
  (at level 100, m at next level, right associativity) : method_scope.
Notation "m ;; k" := (bind m (fun _ => k))
  (at level 100, right associativity) : method_scope.
Open Scope method_scope.

(** Reading through an attribute that is absent or [None]. *)
Definition attr {A} (o : option A) : M A :=
  match o with
  | Some a => ret a
  | None => raise AttributeError
  end.

(** [for x in l: body x]. *)
Fixpoint for_each {A} (l : list A) (body : A -> M unit) : M unit :=
  match l with
  | [] => ret tt
  | x :: l' => body x ;; for_each l' body
  end.

Definition log (c : Call) : M unit :=
  modify (fun s => set_calls (c :: calls s) s).

(** The parameter object behind a reference. *)
Definition param_obj (p : nat) : M Param :=
  s <- get ;; attr (objects s !! p).

(** Attribute assignment on a parameter object. *)
Definition update_param (p : nat) (f : Param -> Param) : M unit :=
  modify (fun s => set_objects (alter f p (objects s)) s).

(** [torch.zeros(shape, device=dev)]: a tensor on fresh storage. *)
Definition torch_zeros (shape : list nat) (dev : Device) : M Tensor :=
  s <- get ;;
  let st := next_storage s in
  modify (set_storages (<[st := replicate (shape_numel shape) 0]> (storages s))
                       (S st)) ;;
  ret (mkTensor st dev 0 shape).

(** The elements a tensor handle denotes. *)
Definition tensor_elems (t : Tensor) (s : State) : list Z :=
  take (shape_numel (t_shape t))
       (drop (t_offset t) (default [] (storages s !! t_storage t))).

(** [dst.copy_(src)]: overwrite the elements [dst] denotes. *)
Definition tensor_copy_ (dst : Tensor) (vals : list Z) : M unit :=
  modify (fun s =>
    let old := default [] (storages s !! t_storage dst) in
    let new := take (t_offset dst) old ++ vals
               ++ drop (t_offset dst + length vals) old in
    set_storages (<[t_storage dst := new]> (storages s)) (next_storage s) s).

Section Client.

(** [getsizeof] of [client/helper.py], the bytes one element of a dtype
    takes; the helper is not among the sources and is taken as given. *)
Variable getsizeof : DType -> Z.

(** ** The device memory registry (modelled from the spec) *)

(** Modelled from the spec: [HybridPSManager.max_mem(type, index)], the
    total capacity of a device (section 4.1). *)
Definition max_mem (ty : DeviceType) (idx : option nat) : M Z :=
  s <- get ;; ret (capacity_bytes (ps_manager s) (torch_device ty idx)).

(** Modelled from the spec: [HybridPSManager.available_mem(type, index)],
    [max - reserved] (section 4.1). *)
Definition available_mem (ty : DeviceType) (idx : option nat) : M Z :=
  s <- get ;;
  ret (capacity_bytes (ps_manager s) (torch_device ty idx)
       - reserved_bytes (ps_manager s) (torch_device ty idx)).

Definition add_reserved (d : Device) (bytes : Z) (m : Manager) : Manager :=
  mkManager (capacity_bytes m)
    (fun d' => if decide (d' = d) then reserved_bytes m d' + bytes
               else reserved_bytes m d').

(** Modelled from the spec: [reserve(tier, index, bytes)]; fails with
    [CapacityExceeded] if the reservation would push the reserved bytes
    above the capacity (section 4.1). *)
Definition reserve (d : Device) (bytes : Z) : M unit :=
  s <- get ;;
  if decide (capacity_bytes (ps_manager s) d
             < reserved_bytes (ps_manager s) d + bytes)
  then raise CapacityExceeded
  else modify (fun s => set_ps_manager (add_reserved d bytes (ps_manager s)) s).

(** Modelled from the spec: the registry's [release(tier, index, bytes)]
    (section 4.1). *)
Definition release_mem (d : Device) (bytes : Z) (m : Manager) : Manager :=
  add_reserved d (- bytes) m.

(** ** The chunk list (modelled from the spec) *)

(** Bytes a chunk reserves on its device: its full capacity. *)
Definition chunk_bytes (c : Chunk) : Z :=
  Z.of_nat (capacity c) * getsizeof (data_type c).

(** [self.chunk_list[chunk_id]]. *)
Definition getitem (cid : nat) : M Chunk :=
  s <- get ;;
  match chunks (chunk_list s) !! cid with
  | Some c => ret c
  | None => raise KeyError
  end.

Definition update_chunk (cid : nat) (f : Chunk -> Chunk) : M unit :=
  modify (fun s => set_chunks (alter f cid (chunks (chunk_list s))) s).

(** The most recently created chunk of dtype [dt]: identifiers increase
    with creation, so it is the one with the largest identifier below
    [n]. *)
Fixpoint last_chunk_of (dt : DType) (cs : gmap nat Chunk) (n : nat)
    : option (nat * Chunk) :=
  match n with
  | O => None
  | S k => match cs !! k with
           | Some c => if decide (data_type c = dt) then Some (k, c)
                       else last_chunk_of dt cs k
           | None => last_chunk_of dt cs k
           end
  end.

(** Modelled from the spec: the creation of a chunk in
    [ChunkList.allocate] (section 4.2): a new chunk of
    [max(default_chunk_size, num_elements)] elements on the default
    device, whose capacity is reserved with the registry and whose first
    range is the tensor's, in status [HOLD]. *)
Definition new_chunk (n : nat) (dt : DType) (tid : Z) : M (nat * Tensor) :=
  s <- get ;;
  let cl := chunk_list s in
  let cid := next_chunk_id cl in
  let cap := Nat.max (default_chunk_size cl) n in
  let dev := default_device cl in
  reserve dev (Z.of_nat cap * getsizeof dt) ;;
  buf <- torch_zeros [cap] dev ;;
  modify (fun s =>
    set_chunk_list
      (mkChunkList
         (<[cid := mkChunk cid cap dt dev (t_storage buf)
                     [mkTensorInfo tid 0 n HOLD] 0]> (chunks (chunk_list s)))
         (S cid) (default_chunk_size cl) (default_device cl)) s) ;;
  ret (cid, mkTensor (t_storage buf) dev 0 [n]).

(** Modelled from the spec: [ChunkList.allocate(num_elements, dtype,
    tensor_id)] (section 4.2).  The range goes into the free tail of the
    most recently created chunk of the dtype when it fits there, and
    into a new chunk otherwise.  The range starts in status [HOLD]; the
    result is the chunk identifier and the flat view of the range. *)
Definition allocate (n : nat) (dt : DType) (tid : Z) : M (nat * Tensor) :=
  log (CallAllocate n dt tid) ;;
  s <- get ;;
  match last_chunk_of dt (chunks (chunk_list s))
                      (next_chunk_id (chunk_list s)) with
  | Some (cid, c) =>
      if decide (boundary c + n <= capacity c)%nat
      then
        update_chunk cid
          (set_tensor_info_list
             (tensor_info_list c ++ [mkTensorInfo tid (boundary c) n HOLD])) ;;
        ret (cid, mkTensor (payload c) (device c) (boundary c) [n])
      else new_chunk n dt tid
  | None => new_chunk n dt tid
  end.

(** Eviction order: ascending recency, ties by identifier. *)
Definition lru_le (a b : nat * Chunk) : Prop :=
  (timestamp a.2 < timestamp b.2
   \/ (timestamp a.2 = timestamp b.2 /\ a.1 <= b.1))%nat.

#[local] Instance lru_le_dec a b : Decision (lru_le a b).
Proof. unfold lru_le. apply _. Defined.

(** Accumulate candidates until their capacities cover [need]. *)
Fixpoint accumulate (need : Z) (cands : list (nat * Chunk))
    : option (list nat) :=
  if decide (need <= 0) then Some []
  else match cands with
       | [] => None
       | kc :: rest =>
           match accumulate (need - chunk_bytes kc.2) rest with
           | Some l => Some (kc.1 :: l)
           | None => None
           end
       end.

(** The chunks eligible for eviction from [target]: resident there and
    holding no [COMPUTE] range, least recently touched first. *)
Definition eviction_candidates (target : Device) (cs : gmap nat Chunk)
    : list (nat * Chunk) :=
  merge_sort lru_le
    (filter (fun kc => device kc.2 = target /\ has_compute kc.2 = false)
            (map_to_list cs)).

(** Modelled from the spec: [ChunkList.chunk_to_move_out_for_room_making],
    the [select_eviction_victims(need_bytes, target_tier)] of section 4.2.
    Fails with [InsufficientEvictableMemory] when all eligible chunks
    together do not cover [need]. *)
Definition chunk_to_move_out_for_room_making (need : Z) (target : Device)
    : M (list nat) :=
  log (CallRoomMaking need target) ;;
  s <- get ;;
  match accumulate need (eviction_candidates target (chunks (chunk_list s))) with
  | Some l => ret l
  | None => raise InsufficientEvictableMemory
  end.

(** Whether [cid] names a chunk all of whose ranges are [FREE]. *)
Definition is_dead (cs : gmap nat Chunk) (cid : nat) : bool :=
  match cs !! cid with
  | Some c => all_free c
  | None => false
  end.

(** Modelled from the spec: [ChunkList.delete_free_chunks], the
    [reclaim_dead_chunks()] of section 4.2; removes every chunk whose
    aggregate status is [ALL_FREE], releasing its device reservation and
    deleting its tensor-index entries. *)
Definition delete_free_chunks : M unit :=
  log CallDeleteFreeChunks ;;
  modify (fun s =>
    let cs := chunks (chunk_list s) in
    let dead := filter (fun kc => all_free kc.2 = true) cs in
    let mgr := map_fold (fun _ c m => release_mem (device c) (chunk_bytes c) m)
                        (ps_manager s) dead in
    set_ps_manager mgr
      (set_chunk_tensor_index
         (filter (fun tc => is_dead cs tc.2 = false) (chunk_tensor_index s))
         (set_chunks (filter (fun kc => all_free kc.2 = false) cs) s))).

(** Modelled from the spec: [Chunk.touch], which bumps the chunk's
    recency counter (section 4.2). *)
Definition touch (cid : nat) : M unit :=
  log (CallTouch cid) ;;
  update_chunk cid (fun c => set_timestamp (S (timestamp c)) c).

(** Modelled from the spec: [TensorInfoList.set_status] on the range list
    of chunk [cid]. *)
Definition set_status (cid : nat) (tid : Z) (st : PSTensorStatus) : M unit :=
  update_chunk cid
    (fun c => set_tensor_info_list (set_status_infos tid st (tensor_info_list c)) c).

(** ** The tensor index (modelled from the spec) *)

(** Modelled from the spec: [ChunkTensorIndex.tensor_id_to_chunk_id], the
    [tensor_to_chunk] of section 4.3. *)
Definition tensor_id_to_chunk_id (tid : Z) : M (option nat) :=
  s <- get ;; ret (chunk_tensor_index s !! tid).

(** Modelled from the spec: [ChunkTensorIndex.add_tensor], the [register]
    of section 4.3; fails with [DuplicateBinding] if the tensor already
    has a chunk. *)
Definition add_tensor (tid : Z) (cid : nat) : M unit :=
  s <- get ;;
  match chunk_tensor_index s !! tid with
  | Some _ => raise DuplicateBinding
  | None => modify (fun s => set_chunk_tensor_index
                               (<[tid := cid]> (chunk_tensor_index s)) s)
  end.

(** ** Moving a chunk (modelled from the spec) *)

(** Rebinding of the handles of one range after its chunk moved to
    storage [st] on [dev]: the parameter that owns the tensor gets a view
    of the new storage at the range's offset. *)
Definition rebind (st : nat) (dev : Device) (info : TensorInfo) : M unit :=
  s <- get ;;
  let view P :=
    mkTensor st dev (start info) (default [numel info] (ps_shape P)) in
  match param_data_dict s !! tensor_id info with
  | Some p =>
      update_param p
        (fun P => set_data (view P) (set_ps_data_tensor (Some (view P)) P))
  | None =>
      match param_grad_dict s !! tensor_id info with
      | Some p =>
          update_param p
            (fun P => set_grad (Some (view P))
                        (set_ps_grad_tensor (Some (view P)) P))
      | None => ret tt
      end
  end.

(** Modelled from the spec: [Chunk.move(param_data_dict, param_grad_dict,
    target_device)], the relocation step of [move_chunk] in section 4.4.
    A no-op if the chunk is already resident on [target]; otherwise the
    capacity is reserved on [target], the backing buffer is copied
    element for element into fresh storage there, the source reservation
    is released, the chunk's device is updated and the handles of every
    tensor of the chunk are rebound. *)
Definition Chunk_move (cid : nat) (target : Device) : M unit :=
  c <- getitem cid ;;
  log (CallMove cid target) ;;
  if decide (device c = target) then ret tt
  else
    reserve target (chunk_bytes c) ;;
    s <- get ;;
    let st := next_storage s in
    modify (set_storages
              (<[st := default [] (storages s !! payload c)]> (storages s))
              (S st)) ;;
    modify (fun s => set_ps_manager
                       (release_mem (device c) (chunk_bytes c) (ps_manager s)) s) ;;
    update_chunk cid (set_residence target st) ;;
    for_each (tensor_info_list c) (rebind st target).

(** ** The client's methods (client.py) *)

(** [HybridPSClient.is_ps_param] (client.py 273-275):
    [hasattr(parameter, 'ps_data_id')]. *)
Definition is_ps_param (param : nat) : M bool :=
  s <- get ;;
  ret (match objects s !! param with
       | Some P => bool_decide (is_Some (ps_data_id P))
       | None => false
       end).

(** [HybridPSClient.is_ps_data] (client.py 281-282). *)
Definition is_ps_data (param : nat) : M bool :=
  s <- get ;;
  ret (match objects s !! param with
       | Some P => bool_decide (is_Some (ps_data_id P))
       | None => false
       end).

(** [HybridPSClient.is_ps_grad] (client.py 284-285). *)
Definition is_ps_grad (param : nat) : M bool :=
  s <- get ;;
  ret (match objects s !! param with
       | Some P => bool_decide (is_Some (ps_grad_id P))
       | None => false
       end).

(** [HybridPSClient.generate_id] (client.py 277-279). *)
Definition generate_id : M Z :=
  modify (fun s => set_ps_id (ps_id s + 1) s) ;;
  s <- get ;; ret (ps_id s).

(** [HybridPSClient.get_chunk_id] (client.py 57-70).  [AccessType] has
    the two members only, so the [TypeError] branch is never taken. *)
Definition get_chunk_id (param : nat) (access_type : AccessType)
    : M (option nat) :=
  P <- param_obj param ;;
  match access_type with
  | DATA => tid <- attr (ps_data_id P) ;; tensor_id_to_chunk_id tid
  | GRAD => tid <- attr (ps_grad_id P) ;; tensor_id_to_chunk_id tid
  end.

(** [HybridPSClient.chunk_move] (client.py 370-384). *)
Definition chunk_move (chunk_id : nat) (dev : Device) : M unit :=
  c <- getitem chunk_id ;;
  if decide (device c <> dev) then Chunk_move chunk_id dev else ret tt.

(** The tier evicted chunks go to (client.py 111-112). *)
Definition new_device (target_device : Device) : Device :=
  if decide (dev_type target_device = cuda)
  then torch_device cpu None
  else torch_device cuda (Some 0%nat).

(** [HybridPSClient.prepare_device] (client.py 72-116). *)
Definition prepare_device (target_device : Device) (need_bytes : Z) : M unit :=
  max_mem_ <- max_mem (dev_type target_device) (dev_index target_device) ;;
  if decide (max_mem_ < need_bytes) then raise UnsatisfiableAllocation
  else
    available_size <- available_mem (dev_type target_device)
                                    (dev_index target_device) ;;
    let extra_need_bytes := need_bytes - available_size in
    if decide (extra_need_bytes <= 0) then ret tt
    else
      moved_list <- chunk_to_move_out_for_room_making extra_need_bytes
                                                      target_device ;;
      for_each moved_list (fun idx => chunk_move idx (new_device target_device)).

(** [HybridPSClient.new_tensor] (client.py 250-271). *)
Definition new_tensor (shape : list nat) (dt : DType) (tid : Z)
    : M (Tensor * nat) :=
  r <- allocate (shape_numel shape) dt tid ;;
  add_tensor tid r.1 ;;
  ret (mkTensor (t_storage r.2) (t_device r.2) (t_offset r.2) shape, r.1).

(** [access], first part (client.py 133-152): resolve the chunk of the
    tensor, allocating a new range when it has none.  The assignments to
    [current_device] in this part are overwritten before they are read. *)
Definition access_resolve (param : nat) (access_type : AccessType) : M nat :=
  chunk_id <- get_chunk_id param access_type ;;
  match chunk_id with
  | Some chunk_id => ret chunk_id
  | None =>
      P <- param_obj param ;;
      match access_type with
      | DATA =>
          shape <- attr (ps_shape P) ;;
          tid <- attr (ps_data_id P) ;;
          r <- new_tensor shape (dtype P) tid ;;
          update_param param
            (fun P => set_ps_data_chunk_id (Some r.2)
                        (set_ps_data_tensor (Some r.1) P)) ;;
          ret r.2
      | GRAD =>
          shape <- attr (ps_shape P) ;;
          tid <- attr (ps_grad_id P) ;;
          r <- new_tensor shape (dtype P) tid ;;
          update_param param
            (fun P => set_ps_grad_chunk_id (Some r.2)
                        (set_ps_grad_tensor (Some r.1) P)) ;;
          ret r.2
      end
  end.

(** [access], second part (client.py 154-166): make room on the compute
    device and move the chunk there when the tensor is elsewhere. *)
Definition access_relocate (param : nat) (access_type : AccessType)
    (compute_device : Device) (chunk_id : nat) : M unit :=
  P <- param_obj param ;;
  t <- attr (match access_type with
             | DATA => ps_data_tensor P
             | GRAD => ps_grad_tensor P
             end) ;;
  let current_device := t_device t in
  if decide (compute_device <> current_device)
  then
    c <- getitem chunk_id ;;
    prepare_device compute_device
                   (Z.of_nat (capacity c) * getsizeof (data_type c)) ;;
    chunk_move chunk_id compute_device
  else ret tt.

(** [access], the fallback on the gradient path (client.py 188-194):
    when the parameter's data is not in [COMPUTE], [param.data] is set to
    a zero-filled buffer of the parameter's shape on the gradient's
    device. *)
Definition access_placeholder (param : nat) : M unit :=
  P <- param_obj param ;;
  st <- attr (data_status P) ;;
  if decide (st <> COMPUTE)
  then
    shape <- attr (ps_shape P) ;;
    g <- attr (ps_grad_tensor P) ;;
    z <- torch_zeros shape (t_device g) ;;
    update_param param (set_data z)
  else ret tt.

(** [access], last part (client.py 168-199): touch the chunk, mark the
    tensor [COMPUTE] and bind the caller's view. *)
Definition access_bind (param : nat) (access_type : AccessType)
    (chunk_id : nat) : M unit :=
  getitem chunk_id ;;
  touch chunk_id ;;
  match access_type with
  | DATA =>
      update_param param (set_data_status (Some COMPUTE)) ;;
      P <- param_obj param ;;
      t <- attr (ps_data_tensor P) ;;
      update_param param (set_data t) ;;
      getitem chunk_id ;;
      tid <- attr (ps_data_id P) ;;
      set_status chunk_id tid COMPUTE
  | GRAD =>
      update_param param (set_grad_status (Some COMPUTE)) ;;
      access_placeholder param ;;
      P <- param_obj param ;;
      g <- attr (ps_grad_tensor P) ;;
      if decide (t_device (data P) = t_device g)
      then
        update_param param (set_grad (Some g)) ;;
        getitem chunk_id ;;
        tid <- attr (ps_grad_id P) ;;
        set_status chunk_id tid COMPUTE
      else raise AssertionError
  end.

(** [HybridPSClient.access] (client.py 118-199). *)
Definition access (param : nat) (access_type : AccessType)
    (compute_device : Device) : M unit :=
  managed <- is_ps_param param ;;
  if negb managed then raise NotManaged
  else
    chunk_id <- access_resolve param access_type ;;
    access_relocate param access_type compute_device chunk_id ;;
    access_bind param access_type chunk_id.

(** [release], the status reset and the redirection of the caller's
    handle (client.py 222-232). *)
Definition release_reset (param : nat) (access_type : AccessType)
    (chunk_id : nat) (reset_to_status : PSTensorStatus) : M unit :=
  match access_type with
  | DATA =>
      getitem chunk_id ;;
      P <- param_obj param ;;
      tid <- attr (ps_data_id P) ;;
      set_status chunk_id tid reset_to_status ;;
      z <- torch_zeros [1%nat] (t_device (data P)) ;;
      update_param param (set_data z) ;;
      update_param param (set_data_status (Some reset_to_status))
  | GRAD =>
      getitem chunk_id ;;
      P <- param_obj param ;;
      tid <- attr (ps_grad_id P) ;;
      set_status chunk_id tid reset_to_status ;;
      update_param param (set_grad None) ;;
      update_param param (set_grad_status (Some reset_to_status))
  end.

(** [HybridPSClient.release] (client.py 209-235). *)
Definition release (param : nat) (access_type : AccessType)
    (reset_to_status : PSTensorStatus) : M unit :=
  chunk_id <- get_chunk_id param access_type ;;
  match chunk_id with
  | None => ret tt
  | Some chunk_id =>
      release_reset param access_type chunk_id reset_to_status ;;
      delete_free_chunks
  end.

(** [HybridPSClient.release_data] and [release_grad] (client.py 237-248). *)
Definition release_data (param : nat) (reset_to_status : PSTensorStatus)
    : M unit :=
  release param DATA reset_to_status.

Definition release_grad (param : nat) (reset_to_status : PSTensorStatus)
    : M unit :=
  release param GRAD reset_to_status.

(** [HybridPSClient.access_data] and [access_grad] (client.py 201-207). *)
Definition access_data (param : nat) (compute_device : Device) : M unit :=
  access param DATA compute_device.

Definition access_grad (param : nat) (compute_device : Device) : M unit :=
  access param GRAD compute_device.

(** [HybridPSClient._init_ps_param] (client.py 309-330). *)
Definition _init_ps_param (param : nat) : M unit :=
  managed <- is_ps_param param ;;
  if managed then ret tt
  else
    P <- param_obj param ;;
    update_param param
      (fun P => set_grad_status (Some FREE)
                  (set_data_status (Some FREE)
                     (set_ps_shape (Some (t_shape (data P)))
                        (set_ps_numel (Some (shape_numel (t_shape (data P)))) P)))) ;;
    has_data <- is_ps_data param ;;
    (if negb has_data
     then
       tid <- generate_id ;;
       update_param param (set_ps_data_id (Some tid)) ;;
       modify (fun s => set_param_data_dict (<[tid := param]> (param_data_dict s)) s) ;;
       update_param param (set_ps_data_tensor None)
     else ret tt) ;;
    has_grad <- is_ps_grad param ;;
    if negb has_grad && requires_grad P
    then
      tid <- generate_id ;;
      update_param param (set_ps_grad_id (Some tid)) ;;
      modify (fun s => set_param_grad_dict (<[tid := param]> (param_grad_dict s)) s) ;;
      update_param param (set_ps_grad_tensor None)
    else ret tt.

(** [HybridPSClient._convert_to_ps_data] (client.py 287-296).  The [data]
    of a [torch.nn.Parameter] is always a tensor, so the test
    [param.data is not None] passes. *)
Definition _convert_to_ps_data (param : nat) : M unit :=
  P <- param_obj param ;;
  shape <- attr (ps_shape P) ;;
  tid <- attr (ps_data_id P) ;;
  r <- new_tensor shape (dtype P) tid ;;
  update_param param
    (fun P => set_ps_data_chunk_id (Some r.2) (set_ps_data_tensor (Some r.1) P)) ;;
  s <- get ;;
  tensor_copy_ r.1 (tensor_elems (data P) s) ;;
  update_param param (set_data r.1) ;;
  update_param param (set_data_status (Some HOLD)).

(** [HybridPSClient._convert_to_ps_grad] (client.py 298-307); the chunk
    identifier goes to the attribute [ps_gard_chunk_id], as in the
    source. *)
Definition _convert_to_ps_grad (param : nat) : M unit :=
  P <- param_obj param ;;
  match grad P with
  | None => ret tt
  | Some g =>
      shape <- attr (ps_shape P) ;;
      tid <- attr (ps_grad_id P) ;;
      r <- new_tensor shape (dtype P) tid ;;
      update_param param
        (fun P => set_ps_gard_chunk_id (Some r.2)
                    (set_ps_grad_tensor (Some r.1) P)) ;;
      s <- get ;;
      tensor_copy_ r.1 (tensor_elems g s) ;;
      update_param param (set_grad (Some r.1)) ;;
      update_param param (set_grad_status (Some HOLD))
  end.

(** [HybridPSClient.register_param] (client.py 354-362). *)
Definition register_param (src_param : nat) : M unit :=
  _init_ps_param src_param ;;
  _convert_to_ps_data src_param ;;
  _convert_to_ps_grad src_param.

(** [HybridPSClient.release_all_grad] (client.py 386-389). *)
Definition release_all_grad : M unit :=
  s <- get ;;
  match module s with
  | Some ps => for_each ps (fun p => release_grad p FREE)
  | None => ret tt
  end.

(** [HybridPSClient.register_module] (client.py 332-352); a module is
    the list of its parameters. *)
Definition register_module (m : option (list nat)) : M unit :=
  match m with
  | Some ps =>
      modify (set_module (Some ps)) ;;
      for_each ps _init_ps_param ;;
      for_each ps _convert_to_ps_data ;;
      for_each ps _convert_to_ps_grad
  | None => ret tt
  end ;;
  release_all_grad.

End Client.

(** ** A concrete process, used to exercise the model *)

(** Element sizes of the two dtypes. *)
Definition getsizeof_torch (dt : DType) : Z :=
  match dt with
  | torch_float => 4
  | torch_half => 2
  end.

Definition dev_cpu : Device := torch_device cpu None.
Definition dev_gpu : Device := torch_device cuda (Some 0%nat).

(** Device A (the accelerator) holds 100 bytes, device B (the host) 1000. *)
Definition ex_manager : Manager :=
  mkManager (fun d => if decide (d = dev_gpu) then 100
                      else if decide (d = dev_cpu) then 1000 else 0)
            (fun _ => 0).

(** A parameter as [torch] creates it, before the client has seen it. *)
Definition plain_param (st : nat) (shape : list nat) (g : option Tensor)
    (rg : bool) : Param :=
  mkParam (mkTensor st dev_cpu 0 shape) g torch_float rg
          None None None None None None None None None None None.

(** A fresh client (client.py 30-55) next to three parameters: 0 has no
    gradient yet, 1 has one, 2 does not require one. *)
Definition ex_init : State :=
  mkState (mkChunkList ∅ 0 10 dev_cpu) None (-1) ∅ ∅ ∅ ex_manager
    (<[0%nat := plain_param 0 [3%nat] None true]>
       (<[1%nat := plain_param 1 [2%nat; 2%nat]
                     (Some (mkTensor 2 dev_cpu 0 [2%nat; 2%nat])) true]>
          (<[2%nat := plain_param 3 [2%nat] None false]> ∅)))
    (<[0%nat := [1; 2; 3]]>
       (<[1%nat := [4; 5; 6; 7]]>
          (<[2%nat := [8; 9; 10; 11]]> (<[3%nat := [12; 13]]> ∅))))
    4 [].

(** The state a method leaves behind. *)
Definition after {A} (m : M A) (s : State) : State := (m s).2.

(** Parameters 0 and 1 registered with [register_param]. *)
Definition ex_registered : State :=
  after (register_param getsizeof_torch 1%nat)
        (after (register_param getsizeof_torch 0%nat) ex_init).

(** ... then the data of parameter 0 accessed on the accelerator. *)
Definition ex_accessed : State :=
  after (access getsizeof_torch 0%nat DATA dev_gpu) ex_registered.

(** ... and released again with the default status. *)
Definition ex_released : State :=
  after (release getsizeof_torch 0%nat DATA HOLD) ex_accessed.

(** Only parameter 0 registered: its data is alone in its chunk. *)
Definition ex_alone : State :=
  after (register_param getsizeof_torch 0%nat) ex_init.

(** ... and then room made on the accelerator for 80 bytes. *)
Definition ex_evicted : State :=
  after (prepare_device getsizeof_torch dev_gpu 80) ex_released.

(** The parameter object and the chunk behind a reference. *)
Definition param_at (s : State) (p : nat) : Param :=
  default (plain_param 0 [] None false) (objects s !! p).

Definition chunk_at (s : State) (cid : nat) : Chunk :=
  default (mkChunk 0 0 torch_float dev_cpu 0 [] 0) (chunks (chunk_list s) !! cid).

(** ** Vocabulary of the properties *)

(** A parameter is under the manager's control when it carries a
    manager-assigned data identifier. *)
Definition registered (s : State) (param : nat) : Prop :=
  exists P, objects s !! param = Some P /\ is_Some (ps_data_id P).

#[global] Instance registered_dec s param : Decision (registered s param).
Proof.
  unfold registered. destruct (objects s !! param) as [P|].
  - destruct (decide (is_Some (ps_data_id P))) as [Hid|Hid].
    + left. exists P. split; [reflexivity | exact Hid].
    + right. intros (P' & HP' & Hid'). congruence.
  - right. intros (P' & HP' & _). discriminate.
Defined.

(** A method that never ends with [NotManaged]. *)
Definition no_NotManaged {A} (m : M A) : Prop :=
  forall s, (m s).1 <> Raise NotManaged.

(** A method all of whose runs, whatever their outcome, relate the state
    they start from to the state they leave by [R]. *)
Definition preserves {A} (R : relation State) (m : M A) : Prop :=
  forall s r s', m s = (r, s') -> R s s'.

(** [s'] differs from [s] by relocations of chunks only: the tensor index
    and both parameter dictionaries are the same, every chunk is still
    there with its ranges, recency counter, capacity and dtype, and every
    parameter is still there with its identifiers, statuses, shape and
    dtype.  Devices, payloads, handles, the registry, the storages and
    the trace may differ. *)
Record relocated (s s' : State) : Prop := mkRelocated {
  rel_index : chunk_tensor_index s' = chunk_tensor_index s;
  rel_data_dict : param_data_dict s' = param_data_dict s;
  rel_grad_dict : param_grad_dict s' = param_grad_dict s;
  rel_chunks : forall cid c,
    chunks (chunk_list s) !! cid = Some c ->
    exists c', chunks (chunk_list s') !! cid = Some c'
               /\ tensor_info_list c' = tensor_info_list c
               /\ timestamp c' = timestamp c
               /\ capacity c' = capacity c
               /\ data_type c' = data_type c;
  rel_objects : forall p P,
    objects s !! p = Some P ->
    exists P', objects s' !! p = Some P'
               /\ ps_data_id P' = ps_data_id P
               /\ ps_grad_id P' = ps_grad_id P
               /\ data_status P' = data_status P
               /\ grad_status P' = grad_status P
               /\ ps_shape P' = ps_shape P
               /\ dtype P' = dtype P
}.

(** Rebinding a handle leaves identifiers, statuses, shape and dtype. *)
Definition handles_only (f : Param -> Param) : Prop :=
  forall P, ps_data_id (f P) = ps_data_id P
            /\ ps_grad_id (f P) = ps_grad_id P
            /\ data_status (f P) = data_status P
            /\ grad_status (f P) = grad_status P
            /\ ps_shape (f P) = ps_shape P
            /\ dtype (f P) = dtype P.

(** The trace only grows. *)
Definition trace_grows (s s' : State) : Prop := calls s `suffix_of` calls s'.


(** The attributes of a parameter that belong to an access type: the
    tensor identifier, the manager's handle, the status and the view the
    caller sees ([param.data] or [param.grad]). *)
Definition ps_id_of (access_type : AccessType) (P : Param) : option Z :=
  match access_type with
  | DATA => ps_data_id P
  | GRAD => ps_grad_id P
  end.

Definition ps_tensor_of (access_type : AccessType) (P : Param) : option Tensor :=
  match access_type with
  | DATA => ps_data_tensor P
  | GRAD => ps_grad_tensor P
  end.

Definition status_of (access_type : AccessType) (P : Param)
    : option PSTensorStatus :=
  match access_type with
  | DATA => data_status P
  | GRAD => grad_status P
  end.

Definition view_of (access_type : AccessType) (P : Param) : option Tensor :=
  match access_type with
  | DATA => Some (data P)
  | GRAD => grad P
  end.

(** The parameter dictionaries name [param] as the owner of tensor [tid]
    for the access type, the way [_init_ps_param] fills them. *)
Definition owner (s : State) (access_type : AccessType) (tid : Z)
    (param : nat) : Prop :=
  match access_type with
  | DATA => param_data_dict s !! tid = Some param
  | GRAD => param_data_dict s !! tid = None
            /\ param_grad_dict s !! tid = Some param
  end.

(** The manager's handle of the tensor is a view of chunk [cid]: the
    chunk has a range for [tid], and the handle names the chunk's
    backing storage and device. *)
Definition handle_in_chunk (s : State) (param : nat)
    (access_type : AccessType) (tid : Z) (cid : nat) : Prop :=
  exists c P t,
    chunks (chunk_list s) !! cid = Some c
    /\ objects s !! param = Some P
    /\ ps_tensor_of access_type P = Some t
    /\ t_storage t = payload c
    /\ t_device t = device c
    /\ is_Some (find_info tid (tensor_info_list c)).


(** What a completed [new_chunk] or [allocate] returns: a chunk of the
    list that has a range for the tensor, and a view of its storage. *)
Definition allocated (tid : Z) (s s1 : State) (cid : nat) (t : Tensor) : Prop :=
  (exists c, chunks (chunk_list s1) !! cid = Some c
             /\ t_storage t = payload c /\ t_device t = device c
             /\ is_Some (find_info tid (tensor_info_list c))
             /\ exists info, info ∈ tensor_info_list c
                             /\ tensor_id info = tid /\ status info = HOLD)
  /\ objects s1 = objects s
  /\ chunk_tensor_index s1 = chunk_tensor_index s
  /\ param_data_dict s1 = param_data_dict s
  /\ param_grad_dict s1 = param_grad_dict s.

(** The parameter after the status reset of [release]. *)
Definition released_param (access_type : AccessType) (rs : PSTensorStatus)
    (fresh : nat) (P : Param) : Param :=
  match access_type with
  | DATA => set_data_status (Some rs)
              (set_data (mkTensor fresh (t_device (data P)) 0 [1%nat]) P)
  | GRAD => set_grad_status (Some rs) (set_grad None P)
  end.

(** Every parameter of [s] is still there in [s'] with its identifiers,
    statuses, shape and dtype. *)
Definition attrs_kept (s s' : State) : Prop :=
  forall p P,
    objects s !! p = Some P ->
    exists P', objects s' !! p = Some P'
               /\ ps_data_id P' = ps_data_id P
               /\ ps_grad_id P' = ps_grad_id P
               /\ data_status P' = data_status P
               /\ grad_status P' = grad_status P
               /\ ps_shape P' = ps_shape P
               /\ dtype P' = dtype P.

(** The first two parts of [access]: resolution, then admission. *)
Definition access_locate (getsizeof : DType -> Z) (param : nat)
    (access_type : AccessType) (compute_device : Device) : M nat :=
  chunk_id <- access_resolve getsizeof param access_type ;;
  access_relocate getsizeof param access_type compute_device chunk_id ;;
  ret chunk_id.


(** Tensor [tid] has a valid chunk assignment: the index binds it to a
    chunk of the chunk list. *)
Definition assigned (s : State) (tid : Z) (cid : nat) : Prop :=
  chunk_tensor_index s !! tid = Some cid
  /\ is_Some (chunks (chunk_list s) !! cid).

(** Every valid chunk assignment of [s] is still one in [s']. *)
Definition keeps_assignments (s s' : State) : Prop :=
  forall tid cid, assigned s tid cid -> assigned s' tid cid.

(** Only identifiers that [generate_id] has handed out are bound. *)
Definition index_fresh (s : State) : Prop :=
  forall tid, ps_id s < tid -> chunk_tensor_index s !! tid = None.


(** The first allocation write of a tensor of a parameter:
    [_convert_to_ps_data] or [_convert_to_ps_grad]. *)
Definition convert_to_ps (getsizeof : DType -> Z) (access_type : AccessType)
    (param : nat) : M unit :=
  match access_type with
  | DATA => _convert_to_ps_data getsizeof param
  | GRAD => _convert_to_ps_grad getsizeof param
  end.


(** The gradient of parameter 0 located on the accelerator, from
    [ex_registered]. *)
Definition ex_located : State :=
  after (access_locate getsizeof_torch 0%nat GRAD dev_gpu) ex_registered.

(** ** Well-formed states *)

(** The invariant of the client's state.  The tensor index and the range
    lists of the chunks agree; the parameter dictionaries and the
    identifiers on the parameters agree; the handle of every bound tensor
    is a view of its chunk's backing storage; chunk and tensor
    identifiers in use lie below the counters they were drawn from. *)
Record wf (s : State) : Prop := mkWf {
  wf_index_chunk : forall tid cid,
    chunk_tensor_index s !! tid = Some cid ->
    exists c, chunks (chunk_list s) !! cid = Some c
              /\ is_Some (find_info tid (tensor_info_list c));
  wf_range_index : forall cid c info,
    chunks (chunk_list s) !! cid = Some c ->
    info ∈ tensor_info_list c ->
    chunk_tensor_index s !! tensor_id info = Some cid;
  wf_owner : forall p P access_type tid,
    objects s !! p = Some P ->
    ps_id_of access_type P = Some tid ->
    owner s access_type tid p;
  wf_data_dict : forall tid p,
    param_data_dict s !! tid = Some p ->
    exists P, objects s !! p = Some P /\ ps_data_id P = Some tid;
  wf_grad_dict : forall tid p,
    param_grad_dict s !! tid = Some p ->
    exists P, objects s !! p = Some P /\ ps_grad_id P = Some tid;
  wf_handle : forall p P access_type tid cid c,
    objects s !! p = Some P ->
    ps_id_of access_type P = Some tid ->
    chunk_tensor_index s !! tid = Some cid ->
    chunks (chunk_list s) !! cid = Some c ->
    exists t, ps_tensor_of access_type P = Some t
              /\ t_storage t = payload c /\ t_device t = device c;
  wf_chunk_ids : forall cid,
    is_Some (chunks (chunk_list s) !! cid) ->
    (cid < next_chunk_id (chunk_list s))%nat;
  wf_ids : forall tid,
    ps_id s < tid ->
    chunk_tensor_index s !! tid = None
    /\ param_data_dict s !! tid = None
    /\ param_grad_dict s !! tid = None;
  wf_grad_data : forall p P,
    objects s !! p = Some P ->
    is_Some (ps_grad_id P) -> is_Some (ps_data_id P)
}.

(** Chunks that agree on what the invariant looks at: backing storage,
    device and the tensors of the ranges. *)
Definition same_layout (c c' : Chunk) : Prop :=
  payload c' = payload c
  /\ device c' = device c
  /\ tensor_id <$> tensor_info_list c' = tensor_id <$> tensor_info_list c.

(** Parameters that agree on identifiers and handles. *)
Definition same_binding (P P' : Param) : Prop :=
  ps_data_id P' = ps_data_id P
  /\ ps_grad_id P' = ps_grad_id P
  /\ ps_data_tensor P' = ps_data_tensor P
  /\ ps_grad_tensor P' = ps_grad_tensor P.

(** [s'] differs from [s] in nothing the invariant looks at. *)
Record wf_frame (s s' : State) : Prop := mkWfFrame {
  fr_index : chunk_tensor_index s' = chunk_tensor_index s;
  fr_data_dict : param_data_dict s' = param_data_dict s;
  fr_grad_dict : param_grad_dict s' = param_grad_dict s;
  fr_next_chunk_id :
    next_chunk_id (chunk_list s') = next_chunk_id (chunk_list s);
  fr_ps_id : ps_id s' = ps_id s;
  fr_chunks : forall cid,
    option_Forall2 same_layout (chunks (chunk_list s) !! cid)
                   (chunks (chunk_list s') !! cid);
  fr_objects : forall p,
    option_Forall2 same_binding (objects s !! p) (objects s' !! p)
}.

(** A method that keeps a property of the state whenever it completes. *)
Definition ok_keeps {A} (I : State -> Prop) (m : M A) : Prop :=
  forall s a s', I s -> m s = (Ok a, s') -> I s'.

#[global] Instance owner_dec s access_type tid p :
  Decision (owner s access_type tid p).
Proof. unfold owner. destruct access_type; apply _. Defined.

(** A range of the list belongs to the tensor that [p] owns for the
    access type: the rebinding loop of [Chunk.move] reaches that handle. *)
Definition hit (s : State) (l : list TensorInfo) (access_type : AccessType)
    (p : nat) : Prop :=
  Exists (fun info => owner s access_type (tensor_id info) p) l.

(** What the rebinding loop for storage [st] on [dev] does to one
    parameter. *)
Definition rebound (s : State) (l : list TensorInfo) (st : nat) (dev : Device)
    (p : nat) (P P' : Param) : Prop :=
  ps_data_id P' = ps_data_id P
  /\ ps_grad_id P' = ps_grad_id P
  /\ forall access_type,
       (hit s l access_type p ->
        exists t, ps_tensor_of access_type P' = Some t
                  /\ t_storage t = st /\ t_device t = dev)
       /\ (~ hit s l access_type p ->
           ps_tensor_of access_type P' = ps_tensor_of access_type P).

(** What an allocation of a range for [tid] does to the state: the
    chunk [cid] gains the range at the end of its list (it is a new
    chunk when there was none), the index gains the binding, and the
    rest of what the invariant looks at is unchanged. *)
Definition range_added (tid : Z) (cid : nat) (t : Tensor) (s s1 : State)
    : Prop :=
  chunk_tensor_index s !! tid = None
  /\ chunk_tensor_index s1 = <[tid := cid]> (chunk_tensor_index s)
  /\ param_data_dict s1 = param_data_dict s
  /\ param_grad_dict s1 = param_grad_dict s
  /\ ps_id s1 = ps_id s
  /\ objects s1 = objects s
  /\ (next_chunk_id (chunk_list s) <= next_chunk_id (chunk_list s1))%nat
  /\ (cid < next_chunk_id (chunk_list s1))%nat
  /\ exists cnew,
       (forall k, chunks (chunk_list s1) !! k
                  = if decide (cid = k) then Some cnew
                    else chunks (chunk_list s) !! k)
       /\ payload cnew = t_storage t
       /\ device cnew = t_device t
       /\ tensor_id <$> tensor_info_list cnew
          = from_option (fun c => tensor_id <$> tensor_info_list c) []
                        (chunks (chunk_list s) !! cid) ++ [tid]
       /\ (forall c, chunks (chunk_list s) !! cid = Some c ->
                     payload cnew = payload c /\ device cnew = device c).

(** An attribute update that stores the handle [t] of the tensor of one
    access type and leaves identifiers and the other handle alone. *)
Definition stores_handle (access_type : AccessType) (t : Tensor)
    (f : Param -> Param) : Prop :=
  forall Q,
    ps_data_id (f Q) = ps_data_id Q
    /\ ps_grad_id (f Q) = ps_grad_id Q
    /\ (exists t', ps_tensor_of access_type (f Q) = Some t'
                   /\ t_storage t' = t_storage t
                   /\ t_device t' = t_device t)
    /\ (forall k, k <> access_type ->
                  ps_tensor_of k (f Q) = ps_tensor_of k Q).

(** A state in which the client manages nothing yet: no chunk, no
    binding, no dictionary entry, and no parameter carries an
    identifier. *)
Definition unmanaged (s : State) : Prop :=
  chunks (chunk_list s) = ∅
  /\ chunk_tensor_index s = ∅
  /\ param_data_dict s = ∅
  /\ param_grad_dict s = ∅
  /\ forall p P, objects s !! p = Some P ->
                 ps_data_id P = None /\ ps_grad_id P = None.

(** Every chunk's backing storage has been handed out by the storage
    counter: a storage allocated from now on is none of them. *)
Definition storage_bounded (s : State) : Prop :=
  forall cid c,
    chunks (chunk_list s) !! cid = Some c -> (payload c < next_storage s)%nat.

(** The storage counter has not gone back from [s] to [s'], and a chunk
    of [s'] lives on the storage it had in [s] or on one handed out
    since. *)
Definition storage_grows (s s' : State) : Prop :=
  (next_storage s <= next_storage s')%nat
  /\ forall cid c',
       chunks (chunk_list s') !! cid = Some c' ->
       (payload c' < next_storage s')%nat
       \/ exists c, chunks (chunk_list s) !! cid = Some c
                    /\ payload c' = payload c.

(** The states of a client: it starts with nothing under management, and
    its state changes by completed calls of its methods; a [release] may
    also have failed. *)
Inductive reachable (getsizeof : DType -> Z) : State -> Prop :=
  | reach_start s :
      unmanaged s -> reachable getsizeof s
  | reach_register_module s m s' :
      reachable getsizeof s ->
      register_module getsizeof m s = (Ok tt, s') ->
      reachable getsizeof s'
  | reach_register_param s param s' :
      reachable getsizeof s ->
      register_param getsizeof param s = (Ok tt, s') ->
      reachable getsizeof s'
  | reach_access s param access_type dev s' :
      reachable getsizeof s ->
      access getsizeof param access_type dev s = (Ok tt, s') ->
      reachable getsizeof s'
  | reach_release s param access_type rs r s' :
      reachable getsizeof s ->
      release getsizeof param access_type rs s = (r, s') ->
      reachable getsizeof s'
  | reach_release_all_grad s s' :
      reachable getsizeof s ->
      release_all_grad getsizeof s = (Ok tt, s') ->
      reachable getsizeof s'
  | reach_chunk_move s cid dev s' :
      reachable getsizeof s ->
      chunk_move getsizeof cid dev s = (Ok tt, s') ->
      reachable getsizeof s'
  | reach_prepare_device s target need s' :
      reachable getsizeof s ->
      prepare_device getsizeof target need s = (Ok tt, s') ->
      reachable getsizeof s'.

(** ** Calls of the client's methods *)

(** One call of a public method of the client, whatever its outcome:
    [s'] is the state the call leaves behind, also when it raised. *)
Inductive client_call (getsizeof : DType -> Z) : State -> State -> Prop :=
  | call_register_module m s r s' :
      register_module getsizeof m s = (r, s') -> client_call getsizeof s s'
  | call_register_param param s r s' :
      register_param getsizeof param s = (r, s') -> client_call getsizeof s s'
  | call_access param access_type dev s r s' :
      access getsizeof param access_type dev s = (r, s') ->
      client_call getsizeof s s'
  | call_release param access_type rs s r s' :
      release getsizeof param access_type rs s = (r, s') ->
      client_call getsizeof s s'
  | call_release_all_grad s r s' :
      release_all_grad getsizeof s = (r, s') -> client_call getsizeof s s'
  | call_chunk_move cid dev s r s' :
      chunk_move getsizeof cid dev s = (r, s') -> client_call getsizeof s s'
  | call_prepare_device target need s r s' :
      prepare_device getsizeof target need s = (r, s') ->
      client_call getsizeof s s'.

(** Every parameter of [s] is still there in [s'] with the identifiers
    and the [requires_grad] flag it had. *)
Definition ids_kept (s s' : State) : Prop :=
  forall p P,
    objects s !! p = Some P ->
    exists P', objects s' !! p = Some P'
               /\ ps_data_id P' = ps_data_id P
               /\ ps_grad_id P' = ps_grad_id P
               /\ requires_grad P' = requires_grad P.

(** Every identifier a parameter carries in [s] it still carries in
    [s']. *)
Definition ids_stable (s s' : State) : Prop :=
  forall p P access_type tid,
    objects s !! p = Some P ->
    ps_id_of access_type P = Some tid ->
    exists P', objects s' !! p = Some P'
               /\ ps_id_of access_type P' = Some tid.

(** The module the client has registered is the same in [s'] as in [s]. *)
Definition module_kept (s s' : State) : Prop := module s' = module s.

(** A parameter the client cannot give a gradient identifier: it has
    none and does not require a gradient. *)
Definition frozen (s : State) (p : nat) : Prop :=
  exists P, objects s !! p = Some P
            /\ ps_grad_id P = None /\ requires_grad P = false.

(** ** The status on the parameter and the status in the chunk *)

(** The status attribute of the tensor on its parameter agrees with the
    chunk list: a bound tensor has the status its range has in its
    chunk, an unbound one is [FREE]. *)
Definition mirrored_at (s : State) (access_type : AccessType) (P : Param)
    (tid : Z) : Prop :=
  match chunk_tensor_index s !! tid with
  | Some cid => exists c, chunks (chunk_list s) !! cid = Some c
                          /\ info_status tid c = status_of access_type P
  | None => status_of access_type P = Some FREE
  end.

Definition status_mirrored (s : State) : Prop :=
  forall p P access_type tid,
    objects s !! p = Some P ->
    ps_id_of access_type P = Some tid ->
    mirrored_at s access_type P tid.

(** ... for every tensor but [tid0], which is on its way from one status
    to the next. *)
Definition status_mirrored_but (tid0 : Z) (s : State) : Prop :=
  forall p P access_type tid,
    objects s !! p = Some P ->
    ps_id_of access_type P = Some tid ->
    tid <> tid0 ->
    mirrored_at s access_type P tid.

(** Chunks with the same ranges; parameters with the same identifiers
    and statuses. *)
Definition same_ranges (c c' : Chunk) : Prop :=
  tensor_info_list c' = tensor_info_list c.

Definition same_marks (P P' : Param) : Prop :=
  ps_data_id P' = ps_data_id P
  /\ ps_grad_id P' = ps_grad_id P
  /\ data_status P' = data_status P
  /\ grad_status P' = grad_status P.

(** [s'] differs from [s] in nothing the statuses depend on. *)
Record status_frame (s s' : State) : Prop := mkStatusFrame {
  sf_index : chunk_tensor_index s' = chunk_tensor_index s;
  sf_chunks : forall cid,
    option_Forall2 same_ranges (chunks (chunk_list s) !! cid)
                   (chunks (chunk_list s') !! cid);
  sf_objects : forall p,
    option_Forall2 same_marks (objects s !! p) (objects s' !! p)
}.

(** Only the object of parameter [p] differs between [s] and [s']. *)
Definition only_param (p : nat) (s s' : State) : Prop :=
  forall q, q <> p -> objects s' !! q = objects s !! q.

(** Only chunk [cid] differs between the chunk lists of [s] and [s']. *)
Definition only_chunk (cid : nat) (s s' : State) : Prop :=
  forall j, j <> cid -> chunks (chunk_list s') !! j = chunks (chunk_list s) !! j.

(** The parameter keeps its identifiers and the status of the tensor of
    the other access type. *)
Definition marks_but (param : nat) (access_type : AccessType)
    (s s' : State) : Prop :=
  forall P,
    objects s !! param = Some P ->
    exists P', objects s' !! param = Some P'
               /\ ps_data_id P' = ps_data_id P
               /\ ps_grad_id P' = ps_grad_id P
               /\ forall k, k <> access_type ->
                    status_of k P' = status_of k P.

(** Parameter 2, which does not require a gradient, registered with
    [register_param]. *)
Definition ex_frozen : State :=
  after (register_param getsizeof_torch 2%nat) ex_init.

(** Parameter 1 after [_init_ps_param] and the conversion of its
    gradient. *)
Definition ex_converted : State :=
  after (_convert_to_ps_grad getsizeof_torch 1%nat)
        (after (_init_ps_param 1%nat) ex_init).

(** Parameter 0 alone, its data released to [FREE]: chunk 0, all of
    whose ranges are [FREE], is reclaimed. *)
Definition ex_reclaimed : State :=
  after (release getsizeof_torch 0%nat DATA FREE) ex_alone.

(** Parameter 0 alone; its gradient is accessed on the host, which
    allocates it in chunk 0, and released to [FREE]; chunk 0 is moved to
    the accelerator; the data is released to [FREE], so that chunk 0 is
    reclaimed. *)
Definition ex_grad_accessed : State :=
  after (access getsizeof_torch 0%nat GRAD dev_cpu) ex_alone.

Definition ex_grad_released : State :=
  after (release getsizeof_torch 0%nat GRAD FREE) ex_grad_accessed.

Definition ex_grad_moved : State :=
  after (chunk_move getsizeof_torch 0%nat dev_gpu) ex_grad_released.

Definition ex_stale : State :=
  after (release getsizeof_torch 0%nat DATA FREE) ex_grad_moved.

(** A module of parameters 0 and 1, registered by a fresh client, and
    then the gradient of parameter 1 accessed on the host. *)
Definition ex_module : State :=
  after (register_module getsizeof_torch (Some [0%nat; 1%nat])) ex_init.

Definition ex_module_grad : State :=
  after (access getsizeof_torch 1%nat GRAD dev_cpu) ex_module.

(** Parameter 1 after [_init_ps_param], with parameter 0 registered. *)
Definition ex_second : State := after (_init_ps_param 1%nat) ex_alone.

(** Parameter [p] exists and its object has property [Q]. *)
Definition marked (Q : Param -> Prop) (p : nat) (s : State) : Prop :=
  exists P, objects s !! p = Some P /\ Q P.

(** A property of the object of [p] that holds in [s] holds in [s']. *)
Definition keeps_mark (Q : Param -> Prop) (p : nat) (s s' : State) : Prop :=
  marked Q p s -> marked Q p s'.

(** The backing storage of every chunk holds at least as many elements
    as the chunk's capacity. *)
Definition storage_len (s : State) (k : nat) : nat :=
  length (default [] (storages s !! k)).

Definition storage_sized (s : State) : Prop :=
  forall cid c,
    chunks (chunk_list s) !! cid = Some c ->
    (capacity c <= length (default [] (storages s !! payload c)))%nat.

(** The storage counter has not gone back from [s] to [s'], and every
    chunk of [s'] either lives on an allocated storage that holds its
    capacity, or was there in [s] with the same capacity, on a storage
    that was no longer. *)
Definition storage_kept (s s' : State) : Prop :=
  (next_storage s <= next_storage s')%nat
  /\ forall cid c',
       chunks (chunk_list s') !! cid = Some c' ->
       ((payload c' < next_storage s')%nat
        /\ (capacity c' <= storage_len s' (payload c'))%nat)
       \/ exists c,
            chunks (chunk_list s) !! cid = Some c
            /\ capacity c' = capacity c
            /\ ((payload c < next_storage s)%nat ->
                (payload c' < next_storage s')%nat
                /\ (storage_len s (payload c)
                    <= storage_len s' (payload c'))%nat).

(** * Properties *)

(** ** Stepping through a method *)

Lemma bind_ok_inv {A B} (m : M A) (k : A -> M B) s b s' :
  bind m k s = (Ok b, s') ->
  exists a s1, m s = (Ok a, s1) /\ k a s1 = (Ok b, s').
Proof.
  unfold bind. destruct (m s) as [[a|e] s1]; intros H.
  - exists a, s1. split; [reflexivity | exact H].
  - discriminate.
Qed.

Lemma bind_inv {A B} (m : M A) (k : A -> M B) s r s' :
  bind m k s = (r, s') ->
  (exists a s1, m s = (Ok a, s1) /\ k a s1 = (r, s'))
  \/ (exists e, m s = (Raise e, s') /\ r = Raise e).
Proof.
  unfold bind. destruct (m s) as [[a|e] s1]; intros H.
  - left. exists a, s1. split; [reflexivity | exact H].
  - right. exists e. inversion H; subst. split; reflexivity.
Qed.

Lemma bind_step {A B} (m : M A) (k : A -> M B) s a s1 :
  m s = (Ok a, s1) -> bind m k s = k a s1.
Proof. unfold bind. intros ->. reflexivity. Qed.

Lemma device_eta (d : Device) : torch_device (dev_type d) (dev_index d) = d.
Proof. destruct d; reflexivity. Qed.

Section Properties.

Context (getsizeof : DType -> Z).

(** ** [prepare_device] *)

(** C1. When [need_bytes] exceeds the capacity the manager reports for
    [target_device], [prepare_device] raises the fatal error and leaves
    the whole state as it was: chunk list, tensor index and registry are
    unchanged, and the trace gains neither an eviction scan nor a chunk
    move. *)
Theorem prepare_device_unsatisfiable target_device need_bytes s :
  capacity_bytes (ps_manager s) target_device < need_bytes ->
  prepare_device getsizeof target_device need_bytes s
  = (Raise UnsatisfiableAllocation, s).
Proof.
  intros Hcap. unfold prepare_device, max_mem, bind, get, ret, raise.
  rewrite device_eta. destruct (decide _) as [_|Hn]; [reflexivity | lia].
Qed.

(** C2. When [need_bytes] is within the capacity of [target_device] and
    the available bytes cover it, [prepare_device] returns at once:
    the state is unchanged, so no victim was selected, no chunk moved and
    every chunk keeps its device, statuses and recency counter. *)
Theorem prepare_device_enough_room target_device need_bytes s :
  need_bytes <= capacity_bytes (ps_manager s) target_device ->
  need_bytes - (capacity_bytes (ps_manager s) target_device
                - reserved_bytes (ps_manager s) target_device) <= 0 ->
  prepare_device getsizeof target_device need_bytes s = (Ok tt, s).
Proof.
  intros Hcap Havail.
  unfold prepare_device, max_mem, available_mem, bind, get, ret, raise.
  rewrite device_eta. destruct (decide _) as [Hn|_]; [lia |].
  destruct (decide _) as [_|Hn]; [reflexivity | lia].
Qed.

(** ** [access] and the [NotManaged] error *)

Lemma no_NotManaged_ret {A} (a : A) : no_NotManaged (ret a).
Proof. intros s. discriminate. Qed.

Lemma no_NotManaged_get : no_NotManaged get.
Proof. intros s. discriminate. Qed.

Lemma no_NotManaged_modify f : no_NotManaged (modify f).
Proof. intros s. discriminate. Qed.

Lemma no_NotManaged_raise {A} e : e <> NotManaged -> no_NotManaged (@raise A e).
Proof. intros He s. simpl. congruence. Qed.

Lemma no_NotManaged_attr {A} (o : option A) : no_NotManaged (attr o).
Proof. destruct o; intros s; discriminate. Qed.

Lemma no_NotManaged_bind {A B} (m : M A) (k : A -> M B) :
  no_NotManaged m -> (forall a, no_NotManaged (k a)) -> no_NotManaged (bind m k).
Proof.
  intros Hm Hk s. unfold bind. specialize (Hm s).
  destruct (m s) as [[a|e] s1]; simpl in *.
  - apply Hk.
  - congruence.
Qed.

Lemma no_NotManaged_for_each {A} (l : list A) (body : A -> M unit) :
  (forall x, no_NotManaged (body x)) -> no_NotManaged (for_each l body).
Proof.
  intros Hb. induction l as [|x l IH]; simpl.
  - apply no_NotManaged_ret.
  - apply no_NotManaged_bind; [apply Hb | intros _; exact IH].
Qed.

Create HintDb no_nm.

#[local] Hint Resolve no_NotManaged_ret no_NotManaged_get no_NotManaged_modify
  no_NotManaged_attr : no_nm.

Ltac no_nm_step :=
  match goal with
  | |- no_NotManaged (bind _ _) => apply no_NotManaged_bind; [| intros ?]
  | |- no_NotManaged (raise _) => apply no_NotManaged_raise; discriminate
  | |- no_NotManaged (for_each _ _) => apply no_NotManaged_for_each; intros ?
  | |- no_NotManaged (match ?x with _ => _ end) => destruct x
  | |- no_NotManaged _ => solve [auto with no_nm]
  end.

Ltac no_nm := cbv zeta; repeat no_nm_step.

Lemma no_NotManaged_log c : no_NotManaged (log c).
Proof. unfold log. no_nm. Qed.

Lemma no_NotManaged_param_obj p : no_NotManaged (param_obj p).
Proof. unfold param_obj. no_nm. Qed.

Lemma no_NotManaged_update_param p f : no_NotManaged (update_param p f).
Proof. unfold update_param. no_nm. Qed.

Lemma no_NotManaged_torch_zeros shape dev : no_NotManaged (torch_zeros shape dev).
Proof. unfold torch_zeros. no_nm. Qed.

Lemma no_NotManaged_getitem cid : no_NotManaged (getitem cid).
Proof. unfold getitem. no_nm. Qed.

Lemma no_NotManaged_update_chunk cid f : no_NotManaged (update_chunk cid f).
Proof. unfold update_chunk. no_nm. Qed.

Lemma no_NotManaged_reserve d b : no_NotManaged (reserve d b).
Proof. unfold reserve. no_nm. Qed.

#[local] Hint Resolve no_NotManaged_log no_NotManaged_param_obj
  no_NotManaged_update_param no_NotManaged_torch_zeros no_NotManaged_getitem
  no_NotManaged_update_chunk no_NotManaged_reserve : no_nm.

Lemma no_NotManaged_allocate n dt tid : no_NotManaged (allocate getsizeof n dt tid).
Proof. unfold allocate, new_chunk. no_nm. Qed.

Lemma no_NotManaged_add_tensor tid cid : no_NotManaged (add_tensor tid cid).
Proof. unfold add_tensor. no_nm. Qed.

Lemma no_NotManaged_touch cid : no_NotManaged (touch cid).
Proof. unfold touch. no_nm. Qed.

Lemma no_NotManaged_set_status cid tid st : no_NotManaged (set_status cid tid st).
Proof. unfold set_status. no_nm. Qed.

Lemma no_NotManaged_rebind st dev info : no_NotManaged (rebind st dev info).
Proof. unfold rebind. no_nm. Qed.

#[local] Hint Resolve no_NotManaged_allocate no_NotManaged_add_tensor
  no_NotManaged_touch no_NotManaged_set_status no_NotManaged_rebind : no_nm.

Lemma no_NotManaged_Chunk_move cid target :
  no_NotManaged (Chunk_move getsizeof cid target).
Proof. unfold Chunk_move. no_nm. Qed.

#[local] Hint Resolve no_NotManaged_Chunk_move : no_nm.

Lemma no_NotManaged_chunk_move cid dev :
  no_NotManaged (chunk_move getsizeof cid dev).
Proof. unfold chunk_move. no_nm. Qed.

Lemma no_NotManaged_room_making need target :
  no_NotManaged (chunk_to_move_out_for_room_making getsizeof need target).
Proof. unfold chunk_to_move_out_for_room_making. no_nm. Qed.

#[local] Hint Resolve no_NotManaged_chunk_move no_NotManaged_room_making : no_nm.

Lemma no_NotManaged_prepare_device target need :
  no_NotManaged (prepare_device getsizeof target need).
Proof. unfold prepare_device, max_mem, available_mem. no_nm. Qed.

Lemma no_NotManaged_new_tensor shape dt tid :
  no_NotManaged (new_tensor getsizeof shape dt tid).
Proof. unfold new_tensor. no_nm. Qed.

Lemma no_NotManaged_get_chunk_id param access_type :
  no_NotManaged (get_chunk_id param access_type).
Proof. unfold get_chunk_id, tensor_id_to_chunk_id. no_nm. Qed.

#[local] Hint Resolve no_NotManaged_prepare_device no_NotManaged_new_tensor
  no_NotManaged_get_chunk_id : no_nm.

Lemma no_NotManaged_access_resolve param access_type :
  no_NotManaged (access_resolve getsizeof param access_type).
Proof. unfold access_resolve. no_nm. Qed.

Lemma no_NotManaged_access_relocate param access_type dev cid :
  no_NotManaged (access_relocate getsizeof param access_type dev cid).
Proof. unfold access_relocate. no_nm. Qed.

Lemma no_NotManaged_access_bind param access_type cid :
  no_NotManaged (access_bind param access_type cid).
Proof. unfold access_bind, access_placeholder. no_nm. Qed.

Lemma is_ps_param_spec param s :
  is_ps_param param s
  = (Ok (bool_decide (registered s param)), s).
Proof.
  unfold is_ps_param, bind, get, ret. f_equal. f_equal.
  destruct (decide (registered s param)) as [(P & HP & Hid)|Hn].
  - rewrite bool_decide_eq_true_2 by (exists P; split; assumption).
    rewrite HP. apply bool_decide_eq_true_2. exact Hid.
  - rewrite bool_decide_eq_false_2 by exact Hn.
    destruct (objects s !! param) as [P|] eqn:HP; [| reflexivity].
    apply bool_decide_eq_false_2. intros Hid. apply Hn.
    exists P. split; [exact HP | exact Hid].
Qed.

(** C4. [access] on a parameter that is not under the manager's control
    fails with [NotManaged] and changes nothing; on a registered
    parameter it never ends with that error. *)
Theorem access_not_managed param access_type compute_device s :
  (~ registered s param ->
   access getsizeof param access_type compute_device s = (Raise NotManaged, s))
  /\ (registered s param ->
      (access getsizeof param access_type compute_device s).1
      <> Raise NotManaged).
Proof.
  unfold access. rewrite (bind_step _ _ _ _ _ (is_ps_param_spec param s)).
  split; intros Hreg.
  - rewrite bool_decide_eq_false_2 by exact Hreg. reflexivity.
  - rewrite bool_decide_eq_true_2 by exact Hreg. simpl.
    apply no_NotManaged_bind.
    + apply no_NotManaged_access_resolve.
    + intros cid. apply no_NotManaged_bind.
      * apply no_NotManaged_access_relocate.
      * intros _. apply no_NotManaged_access_bind.
Qed.

(** ** Framing *)

Ltac st_simpl :=
  cbn [chunk_list module ps_id param_data_dict param_grad_dict
       chunk_tensor_index ps_manager objects storages next_storage calls
       set_chunk_list set_chunks set_module set_ps_id set_param_data_dict
       set_param_grad_dict set_chunk_tensor_index set_ps_manager set_objects
       set_storages set_calls chunks next_chunk_id default_chunk_size
       default_device fst snd] in *.

Section Preserves.

Context (R : relation State) `{!PreOrder R}.

Lemma preserves_ret {A} (a : A) : preserves R (ret a).
Proof. intros s r s' H. inversion H; subst. reflexivity. Qed.

Lemma preserves_raise {A} e : preserves R (@raise A e).
Proof. intros s r s' H. inversion H; subst. reflexivity. Qed.

Lemma preserves_get : preserves R get.
Proof. intros s r s' H. inversion H; subst. reflexivity. Qed.

Lemma preserves_attr {A} (o : option A) : preserves R (attr o).
Proof. destruct o; [apply preserves_ret | apply preserves_raise]. Qed.

Lemma preserves_modify f : (forall s, R s (f s)) -> preserves R (modify f).
Proof. intros Hf s r s' H. inversion H; subst. apply Hf. Qed.

Lemma preserves_bind {A B} (m : M A) (k : A -> M B) :
  preserves R m -> (forall a, preserves R (k a)) -> preserves R (bind m k).
Proof.
  intros Hm Hk s r s' H. apply bind_inv in H as [(a & s1 & H1 & H2)|(e & H1 & _)].
  - transitivity s1; [exact (Hm _ _ _ H1) | exact (Hk _ _ _ _ H2)].
  - exact (Hm _ _ _ H1).
Qed.

Lemma preserves_for_each {A} (l : list A) (body : A -> M unit) :
  (forall x, preserves R (body x)) -> preserves R (for_each l body).
Proof.
  intros Hb. induction l as [|x l IH]; simpl.
  - apply preserves_ret.
  - apply preserves_bind; [apply Hb | intros _; exact IH].
Qed.

End Preserves.

Ltac pres_step :=
  match goal with
  | |- PreOrder _ => exact _
  | |- preserves _ (bind _ _) => apply preserves_bind; [exact _ | | intros ?]
  | |- preserves _ (ret _) => apply preserves_ret
  | |- preserves _ (raise _) => apply preserves_raise
  | |- preserves _ get => apply preserves_get
  | |- preserves _ (attr _) => apply preserves_attr
  | |- preserves _ (for_each _ _) =>
      apply preserves_for_each; [exact _ | intros ?]
  | |- preserves _ (match ?x with _ => _ end) => destruct x
  end.

Ltac pres := cbv zeta; repeat pres_step.

(** *** Relocation is a preorder *)

Lemma relocated_refl s : relocated s s.
Proof.
  constructor; try reflexivity.
  - intros cid c Hc. exists c. auto.
  - intros p P HP. exists P. repeat split; auto.
Qed.

Lemma relocated_trans s1 s2 s3 :
  relocated s1 s2 -> relocated s2 s3 -> relocated s1 s3.
Proof.
  intros [i1 d1 g1 c1 o1] [i2 d2 g2 c2 o2]. constructor; try congruence.
  - intros cid c Hc. destruct (c1 _ _ Hc) as (c' & Hc' & ? & ? & ? & ?).
    destruct (c2 _ _ Hc') as (c'' & Hc'' & ? & ? & ? & ?).
    exists c''. repeat split; congruence.
  - intros p P HP. destruct (o1 _ _ HP) as (P' & HP' & ? & ? & ? & ? & ? & ?).
    destruct (o2 _ _ HP') as (P'' & HP'' & ? & ? & ? & ? & ? & ?).
    exists P''. repeat split; congruence.
Qed.

#[local] Instance relocated_preorder : PreOrder relocated.
Proof. split; [exact relocated_refl | exact relocated_trans]. Qed.

Lemma relocated_set_calls v s : relocated s (set_calls v s).
Proof. destruct (relocated_refl s). constructor; assumption. Qed.

Lemma relocated_set_ps_manager v s : relocated s (set_ps_manager v s).
Proof. destruct (relocated_refl s). constructor; assumption. Qed.

Lemma relocated_set_storages v n s : relocated s (set_storages v n s).
Proof. destruct (relocated_refl s). constructor; assumption. Qed.

Lemma relocated_set_residence cid d st s :
  relocated s (set_chunks (alter (set_residence d st) cid (chunks (chunk_list s))) s).
Proof.
  constructor; try reflexivity.
  - intros k c Hc. st_simpl. destruct (decide (k = cid)) as [->|Hne].
    + exists (set_residence d st c). rewrite lookup_alter_eq, Hc. auto.
    + exists c. rewrite lookup_alter_ne by congruence. auto.
  - intros p P HP. exists P. repeat split; auto.
Qed.

Lemma relocated_alter_param f p s :
  handles_only f -> relocated s (set_objects (alter f p (objects s)) s).
Proof.
  intros Hf. constructor; try reflexivity.
  - intros k c Hc. exists c. auto.
  - intros q P HP. st_simpl. destruct (decide (q = p)) as [->|Hne].
    + exists (f P). rewrite lookup_alter_eq, HP. split; [reflexivity | apply Hf].
    + exists P. rewrite lookup_alter_ne by congruence. repeat split; auto.
Qed.

Lemma preserves_relocated_log c : preserves relocated (log c).
Proof. apply preserves_modify. intros s. apply relocated_set_calls. Qed.

Lemma preserves_relocated_getitem cid : preserves relocated (getitem cid).
Proof. unfold getitem. pres. Qed.

Lemma preserves_relocated_reserve d b : preserves relocated (reserve d b).
Proof.
  unfold reserve. pres.
  apply preserves_modify. intros s. apply relocated_set_ps_manager.
Qed.

Lemma preserves_relocated_rebind st dev info :
  preserves relocated (rebind st dev info).
Proof.
  unfold rebind. pres; unfold update_param;
    apply preserves_modify; intros s;
    apply relocated_alter_param; intros P; repeat split.
Qed.

Lemma preserves_relocated_Chunk_move cid target :
  preserves relocated (Chunk_move getsizeof cid target).
Proof.
  unfold Chunk_move. pres.
  - apply preserves_relocated_getitem.
  - apply preserves_relocated_log.
  - apply preserves_relocated_reserve.
  - apply preserves_modify. intros s. apply relocated_set_storages.
  - apply preserves_modify. intros s. apply relocated_set_ps_manager.
  - apply preserves_modify. intros s. apply relocated_set_residence.
  - apply preserves_relocated_rebind.
Qed.

Lemma preserves_relocated_chunk_move cid dev :
  preserves relocated (chunk_move getsizeof cid dev).
Proof.
  unfold chunk_move. pres.
  - apply preserves_relocated_getitem.
  - apply preserves_relocated_Chunk_move.
Qed.

Lemma preserves_relocated_prepare_device target need :
  preserves relocated (prepare_device getsizeof target need).
Proof.
  unfold prepare_device, max_mem, available_mem,
    chunk_to_move_out_for_room_making. pres.
  - apply preserves_relocated_log.
  - apply preserves_relocated_chunk_move.
Qed.


(** ** Moving chunks *)

Lemma set_objects_same s : set_objects (objects s) s = s.
Proof. destruct s; reflexivity. Qed.

Lemma rebind_objects st dev info s :
  exists objs, rebind st dev info s = (Ok tt, set_objects objs s).
Proof.
  unfold rebind, bind, get, update_param, modify, ret.
  destruct (param_data_dict s !! tensor_id info) as [p|].
  - eexists. reflexivity.
  - destruct (param_grad_dict s !! tensor_id info) as [p|].
    + eexists. reflexivity.
    + exists (objects s). rewrite set_objects_same. reflexivity.
Qed.

Lemma for_each_rebind_objects st dev l s :
  exists objs, for_each l (rebind st dev) s = (Ok tt, set_objects objs s).
Proof.
  revert s. induction l as [|info l IH]; intros s; simpl.
  - exists (objects s). rewrite set_objects_same. reflexivity.
  - destruct (rebind_objects st dev info s) as [o1 H1].
    rewrite (bind_step _ _ _ _ _ H1).
    destruct (IH (set_objects o1 s)) as [o2 H2]. exists o2.
    rewrite H2. reflexivity.
Qed.

Lemma getitem_ok cid s c s' :
  getitem cid s = (Ok c, s') -> s' = s /\ chunks (chunk_list s) !! cid = Some c.
Proof.
  unfold getitem, bind, get, ret, raise.
  destruct (chunks (chunk_list s) !! cid) as [c0|]; intros H; inversion H.
  subst. auto.
Qed.

Lemma getitem_some cid s c :
  chunks (chunk_list s) !! cid = Some c -> getitem cid s = (Ok c, s).
Proof. intros H. unfold getitem, bind, get, ret. rewrite H. reflexivity. Qed.

(** What a completed [Chunk.move] did. *)
Lemma Chunk_move_ok cid target s s' :
  Chunk_move getsizeof cid target s = (Ok tt, s') ->
  exists c, chunks (chunk_list s) !! cid = Some c
    /\ calls s' = CallMove cid target :: calls s
    /\ ((device c = target
         /\ chunks (chunk_list s') = chunks (chunk_list s)
         /\ objects s' = objects s)
        \/ (device c <> target
            /\ chunks (chunk_list s')
               = alter (set_residence target (next_storage s)) cid
                       (chunks (chunk_list s))
            /\ exists s1,
                 objects s1 = objects s
                 /\ param_data_dict s1 = param_data_dict s
                 /\ param_grad_dict s1 = param_grad_dict s
                 /\ for_each (tensor_info_list c)
                      (rebind (next_storage s) target) s1 = (Ok tt, s'))).
Proof.
  unfold Chunk_move. intros H.
  apply bind_ok_inv in H as (c & s1 & Hget & H).
  apply getitem_ok in Hget as [-> Hc]. exists c. split; [exact Hc |].
  apply bind_ok_inv in H as ([] & s1 & Hlog & H).
  unfold log, modify in Hlog. inversion Hlog; subst s1; clear Hlog.
  destruct (decide (device c = target)) as [Hd|Hd].
  - inversion H; subst s'. split; [reflexivity |]. left. auto.
  - apply bind_ok_inv in H as ([] & s1 & Hres & H).
    unfold reserve, bind, get, raise, modify in Hres.
    destruct (decide _) in Hres; [discriminate |].
    inversion Hres; subst s1; clear Hres.
    unfold bind at 1, get at 1 in H. cbv zeta in H.
    unfold bind at 1, modify at 1 in H.
    unfold bind at 1, modify at 1 in H.
    unfold bind at 1, update_chunk at 1, modify at 1 in H.
    st_simpl.
    match type of H with for_each ?l ?f ?s0 = _ =>
      destruct (for_each_rebind_objects (next_storage s) target l s0)
        as [objs Hfe]
    end.
    pose proof Hfe as Hfe'. rewrite H in Hfe'. inversion Hfe'; subst s'.
    st_simpl. split; [reflexivity |]. right. split; [exact Hd |].
    split; [reflexivity |]. eexists. split; [| split; [| split; [| exact H]]];
      reflexivity.
Qed.

(** What a completed [chunk_move] did to the chunk list and the trace. *)
Lemma chunk_move_ok cid dev s s' :
  chunk_move getsizeof cid dev s = (Ok tt, s') ->
  exists c, chunks (chunk_list s) !! cid = Some c
    /\ ((device c = dev /\ s' = s)
        \/ (device c <> dev
            /\ chunks (chunk_list s')
               = alter (set_residence dev (next_storage s)) cid
                       (chunks (chunk_list s))
            /\ calls s' = CallMove cid dev :: calls s)).
Proof.
  unfold chunk_move. intros H.
  apply bind_ok_inv in H as (c & s1 & Hget & H).
  apply getitem_ok in Hget as [-> Hc]. exists c. split; [exact Hc |].
  destruct (decide (device c <> dev)) as [Hd|Hd].
  - right. split; [exact Hd |].
    apply Chunk_move_ok in H as (c' & Hc' & Hcalls & [(He & _)|(_ & Hch & _)]).
    + congruence.
    + auto.
  - left. inversion H. split; [| reflexivity].
    destruct (decide (device c = dev)); [assumption | contradiction].
Qed.

(** After a completed [chunk_move] the chunk resides on the device. *)
Lemma chunk_move_resident cid dev s s' :
  chunk_move getsizeof cid dev s = (Ok tt, s') ->
  exists c', chunks (chunk_list s') !! cid = Some c' /\ device c' = dev.
Proof.
  intros H. apply chunk_move_ok in H as (c & Hc & [(Hd & ->)|(Hd & Hch & _)]).
  - exists c. auto.
  - exists (set_residence dev (next_storage s) c).
    rewrite Hch, lookup_alter_eq, Hc. auto.
Qed.

(** A completed [chunk_move] changes the device of no other chunk, and
    does not change the device of a chunk that is already there. *)
Lemma chunk_move_other cid dev s s' k c :
  chunk_move getsizeof cid dev s = (Ok tt, s') ->
  chunks (chunk_list s) !! k = Some c ->
  k <> cid \/ device c = dev ->
  exists c', chunks (chunk_list s') !! k = Some c' /\ device c' = device c.
Proof.
  intros H Hk Hor.
  apply chunk_move_ok in H as (c0 & Hc0 & [(Hd & ->)|(Hd & Hch & _)]).
  - exists c. auto.
  - destruct (decide (k = cid)) as [->|Hne].
    + destruct Hor as [Hne|He]; [contradiction |]. congruence.
    + exists c. rewrite Hch, lookup_alter_ne by congruence. auto.
Qed.

(** After the eviction loop every chunk it went through, and every chunk
    that was on the new device already, resides on the new device. *)
Lemma for_each_chunk_move_resident l nd s s' cid :
  for_each l (fun idx => chunk_move getsizeof idx nd) s = (Ok tt, s') ->
  cid ∈ l \/ (exists c, chunks (chunk_list s) !! cid = Some c /\ device c = nd) ->
  exists c', chunks (chunk_list s') !! cid = Some c' /\ device c' = nd.
Proof.
  revert s. induction l as [|x l IH]; intros s H Hor; simpl in H.
  - inversion H; subst s'. destruct Hor as [Hin|Hc]; [| exact Hc].
    apply elem_of_nil in Hin. contradiction.
  - apply bind_ok_inv in H as ([] & s1 & Hx & H).
    apply (IH s1 H).
    destruct (decide (cid = x)) as [->|Hne].
    + right. apply (chunk_move_resident _ _ _ _ Hx).
    + destruct Hor as [Hin|(c & Hc & Hd)].
      * left. apply elem_of_cons in Hin as [?|?]; [contradiction | assumption].
      * right. destruct (chunk_move_other _ _ _ _ _ _ Hx Hc (or_intror Hd))
          as (c' & Hc' & Hd').
        exists c'. split; [exact Hc' | congruence].
Qed.

#[local] Instance trace_grows_preorder : PreOrder trace_grows.
Proof.
  split.
  - intros s. unfold trace_grows. reflexivity.
  - intros s1 s2 s3. unfold trace_grows. intros H1 H2. etransitivity; eassumption.
Qed.

Lemma trace_grows_chunk_move cid dev :
  preserves trace_grows (chunk_move getsizeof cid dev).
Proof.
  intros s r s' H. unfold trace_grows.
  unfold chunk_move in H.
  apply bind_inv in H as [(c & s1 & Hget & H)|(e & Hget & _)].
  2:{ unfold getitem, bind, get, ret, raise in Hget.
      destruct (chunks (chunk_list s) !! cid); inversion Hget. reflexivity. }
  apply getitem_ok in Hget as [-> Hc].
  destruct (decide (device c <> dev)); [| inversion H; reflexivity].
  unfold Chunk_move in H. rewrite (bind_step _ _ _ _ _ (getitem_some _ _ _ Hc)) in H.
  unfold bind at 1, log at 1, modify at 1 in H.
  destruct (decide (device c = dev)); [contradiction |].
  apply bind_inv in H as [([] & s1 & Hres & H)|(e & Hres & _)].
  2:{ unfold reserve, bind, get, raise, modify in Hres.
      destruct (decide _) in Hres; inversion Hres; subst.
      apply suffix_cons_r. reflexivity. }
  unfold reserve, bind, get, raise, modify in Hres.
  destruct (decide _) in Hres; [discriminate |].
  inversion Hres; subst s1; clear Hres.
  unfold bind at 1, get at 1 in H. cbv zeta in H.
  unfold bind at 1, modify at 1 in H.
  unfold bind at 1, modify at 1 in H.
  unfold bind at 1, update_chunk at 1, modify at 1 in H.
  match type of H with for_each ?l ?f ?s0 = _ =>
    destruct (for_each_rebind_objects (next_storage s) dev l s0) as [objs Hfe]
  end.
  st_simpl. rewrite H in Hfe. inversion Hfe; subst. st_simpl.
  apply suffix_cons_r. reflexivity.
Qed.

(** Every chunk the eviction loop goes through while it is elsewhere is
    handed to [Chunk.move]. *)
Lemma for_each_chunk_move_calls l nd s s' :
  for_each l (fun idx => chunk_move getsizeof idx nd) s = (Ok tt, s') ->
  NoDup l ->
  (forall cid, cid ∈ l ->
     exists c, chunks (chunk_list s) !! cid = Some c /\ device c <> nd) ->
  forall cid, cid ∈ l -> CallMove cid nd ∈ calls s'.
Proof.
  revert s. induction l as [|x l IH]; intros s H Hnd Hdev cid Hin; simpl in H.
  - apply elem_of_nil in Hin. contradiction.
  - apply bind_ok_inv in H as ([] & s1 & Hx & H).
    apply NoDup_cons in Hnd as [Hx_notin Hnd].
    assert (Hgrow : trace_grows s1 s').
    { eapply (preserves_for_each trace_grows); [| exact H].
      intros idx. apply trace_grows_chunk_move. }
    apply elem_of_cons in Hin as [->|Hin].
    + destruct (Hdev x) as (c & Hc & Hd); [left |].
      pose proof Hx as Hx'.
      apply chunk_move_ok in Hx' as (c0 & Hc0 & [(He & _)|(_ & _ & Hcalls)]).
      * congruence.
      * apply (elem_of_suffix (calls s1)); [| exact Hgrow].
        rewrite Hcalls. left.
    + apply (IH s1 H Hnd); [| exact Hin].
      intros k Hk. destruct (Hdev k) as (c & Hc & Hd); [right; exact Hk |].
      assert (k <> x) by (intros ->; contradiction).
      destruct (chunk_move_other _ _ _ _ _ _ Hx Hc (or_introl H0))
        as (c' & Hc' & Hd').
      exists c'. split; [exact Hc' | congruence].
Qed.


Lemma max_mem_eq ty idx s :
  max_mem ty idx s = (Ok (capacity_bytes (ps_manager s) (torch_device ty idx)), s).
Proof. reflexivity. Qed.

Lemma available_mem_eq ty idx s :
  available_mem ty idx s
  = (Ok (capacity_bytes (ps_manager s) (torch_device ty idx)
         - reserved_bytes (ps_manager s) (torch_device ty idx)), s).
Proof. reflexivity. Qed.

(** ** Victim selection *)

Lemma accumulate_sublist need cands l :
  accumulate getsizeof need cands = Some l -> l `sublist_of` cands.*1.
Proof.
  revert need l. induction cands as [|kc cands IH]; intros need l; simpl;
    destruct (decide (need <= 0)); intros H.
  - inversion H. apply sublist_nil_l.
  - discriminate.
  - inversion H. apply sublist_nil_l.
  - destruct (accumulate getsizeof _ cands) as [l0|] eqn:E; inversion H; subst.
    apply sublist_skip. exact (IH _ _ E).
Qed.

Lemma eviction_candidates_spec target cs k c :
  (k, c) ∈ eviction_candidates target cs ->
  cs !! k = Some c /\ device c = target /\ has_compute c = false.
Proof.
  unfold eviction_candidates. rewrite merge_sort_Permutation.
  rewrite list_elem_of_filter, elem_of_map_to_list. simpl. tauto.
Qed.

Lemma eviction_candidates_NoDup target cs :
  NoDup (eviction_candidates target cs).*1.
Proof.
  unfold eviction_candidates. rewrite merge_sort_Permutation.
  apply (sublist_NoDup _ ((map_to_list cs).*1)).
  - apply NoDup_fst_map_to_list.
  - apply fmap_sublist, sublist_filter.
Qed.

(** What a completed victim selection returns: distinct chunks, all
    resident on the target device and none holding a [COMPUTE] range. *)
Lemma room_making_ok need target s l s1 :
  chunk_to_move_out_for_room_making getsizeof need target s = (Ok l, s1) ->
  s1 = set_calls (CallRoomMaking need target :: calls s) s
  /\ NoDup l
  /\ forall cid, cid ∈ l ->
       exists c, chunks (chunk_list s) !! cid = Some c
                 /\ device c = target /\ has_compute c = false.
Proof.
  unfold chunk_to_move_out_for_room_making, bind, log, modify, get, ret, raise.
  st_simpl.
  destruct (accumulate getsizeof need _) as [l0|] eqn:E; intros H; inversion H.
  subst l0 s1. apply accumulate_sublist in E.
  split; [reflexivity |]. split.
  - eapply sublist_NoDup; [apply eviction_candidates_NoDup | exact E].
  - intros cid Hin.
    eapply elem_of_sublist in Hin; [| exact E].
    apply list_elem_of_fmap in Hin as ([k c] & -> & Hkc).
    apply eviction_candidates_spec in Hkc. exists c. exact Hkc.
Qed.

Lemma new_device_neq target : new_device target <> target.
Proof.
  unfold new_device. destruct target as [[] idx]; simpl; discriminate.
Qed.

(** C3. When [prepare_device] has to make room and completes, every
    victim the chunk list's selection returned, a chunk that was
    resident on [target_device], has been handed to [Chunk.move] and now
    resides on the other tier: the host when [target_device] is an
    accelerator, the accelerator [cuda:0] when it is the host. *)
Theorem prepare_device_evicts_to_other_tier target_device need_bytes s s' :
  prepare_device getsizeof target_device need_bytes s = (Ok tt, s') ->
  0 < need_bytes - (capacity_bytes (ps_manager s) target_device
                    - reserved_bytes (ps_manager s) target_device) ->
  (dev_type target_device = cuda ->
   new_device target_device = torch_device cpu None)
  /\ (dev_type target_device = cpu ->
      new_device target_device = torch_device cuda (Some 0%nat))
  /\ exists moved_list s1,
       chunk_to_move_out_for_room_making getsizeof
         (need_bytes - (capacity_bytes (ps_manager s) target_device
                        - reserved_bytes (ps_manager s) target_device))
         target_device s = (Ok moved_list, s1)
       /\ forall idx, idx ∈ moved_list ->
            (exists c, chunks (chunk_list s) !! idx = Some c
                       /\ device c = target_device)
            /\ (exists c', chunks (chunk_list s') !! idx = Some c'
                           /\ device c' = new_device target_device)
            /\ CallMove idx (new_device target_device) ∈ calls s'.
Proof.
  intros H Hdeficit.
  split; [| split].
  - unfold new_device. intros ->. reflexivity.
  - unfold new_device. intros ->. reflexivity.
  - unfold prepare_device in H.
    rewrite (bind_step _ _ _ _ _ (max_mem_eq _ _ s)), device_eta in H.
    destruct (decide _) in H; [discriminate |].
    rewrite (bind_step _ _ _ _ _ (available_mem_eq _ _ s)), device_eta in H.
    destruct (decide _) in H; [lia |].
    apply bind_ok_inv in H as (moved_list & s1 & Hsel & Hloop).
    exists moved_list, s1. split; [exact Hsel |].
    apply room_making_ok in Hsel as (Hs1 & Hnd & Hvict).
    assert (Hchunks : chunks (chunk_list s1) = chunks (chunk_list s))
      by (subst s1; reflexivity).
    intros idx Hin. destruct (Hvict idx Hin) as (c & Hc & Hd & _).
    split; [exists c; auto |]. split.
    + eapply for_each_chunk_move_resident; [exact Hloop | left; exact Hin].
    + eapply for_each_chunk_move_calls; [exact Hloop | exact Hnd | | exact Hin].
      intros k Hk. destruct (Hvict k Hk) as (ck & Hck & Hdk & _).
      exists ck. rewrite Hchunks. split; [exact Hck |].
      rewrite Hdk. intros Heq. symmetry in Heq.
      exact (new_device_neq _ Heq).
Qed.


(** ** Running a method step by step *)

Ltac run_total H :=
  match type of H with
  | bind ?m ?k ?s = _ => rewrite (bind_step m k s _ _ eq_refl) in H; st_simpl
  end.

Ltac run_with H E := rewrite (bind_step _ _ _ _ _ E) in H; st_simpl.

Ltac go_total :=
  match goal with
  | |- bind ?m ?k ?s = _ => rewrite (bind_step m k s _ _ eq_refl); st_simpl
  end.

Ltac go_with E := rewrite (bind_step _ _ _ _ _ E); st_simpl.

Lemma param_obj_some p s P :
  objects s !! p = Some P -> param_obj p s = (Ok P, s).
Proof. intros H. unfold param_obj, bind, get, attr, ret. rewrite H. reflexivity. Qed.

Ltac run_param H HP :=
  match type of H with
  | bind (param_obj ?p) ?k ?s = _ =>
      rewrite (bind_step _ _ _ _ _ (param_obj_some p s _ HP)) in H; st_simpl
  end.

Ltac run_getitem H Hc :=
  match type of H with
  | bind (getitem ?cid) ?k ?s = _ =>
      rewrite (bind_step _ _ _ _ _ (getitem_some cid s _ Hc)) in H; st_simpl
  end.

Lemma param_obj_ok p s P s' :
  param_obj p s = (Ok P, s') -> s' = s /\ objects s !! p = Some P.
Proof.
  unfold param_obj, bind, get, attr, ret, raise.
  destruct (objects s !! p); intros H; inversion H. subst. auto.
Qed.

Lemma attr_ok {A} (o : option A) s a s' :
  attr o s = (Ok a, s') -> o = Some a /\ s' = s.
Proof. destruct o; intros H; inversion H. subst. auto. Qed.

(** ** The range list *)

Lemma find_info_set_status tid st l :
  find_info tid (set_status_infos tid st l)
  = (fun info => mkTensorInfo (tensor_id info) (start info) (numel info) st)
      <$> find_info tid l.
Proof.
  unfold find_info, set_status_infos.
  induction l as [|info l IH]; simpl; [reflexivity |].
  destruct (bool_decide (tensor_id info = tid)) eqn:E; simpl; rewrite E.
  - reflexivity.
  - exact IH.
Qed.

Lemma info_status_set_status tid st l c :
  is_Some (find_info tid l) ->
  info_status tid (set_tensor_info_list (set_status_infos tid st l) c) = Some st.
Proof.
  intros [info Hinfo]. unfold info_status. simpl.
  rewrite find_info_set_status, Hinfo. reflexivity.
Qed.

Lemma find_info_app tid l a b st :
  is_Some (find_info tid (l ++ [mkTensorInfo tid a b st])).
Proof.
  unfold find_info. induction l as [|info l IH]; simpl.
  - rewrite bool_decide_eq_true_2 by reflexivity. eauto.
  - destruct (bool_decide (tensor_id info = tid)); [eauto | exact IH].
Qed.

(** ** The last part of [access] *)

(** What a completed gradient fallback did: nothing when the data is in
    [COMPUTE], otherwise [param.data] is a fresh zero-filled tensor. *)
Lemma access_placeholder_ok param s s1 :
  access_placeholder param s = (Ok tt, s1) ->
  exists P, objects s !! param = Some P
    /\ ((data_status P = Some COMPUTE /\ s1 = s)
        \/ (exists st shape g,
              data_status P = Some st /\ st <> COMPUTE
              /\ ps_shape P = Some shape /\ ps_grad_tensor P = Some g
              /\ s1 = set_objects
                        (alter (set_data (mkTensor (next_storage s) (t_device g)
                                                   0 shape))
                               param (objects s))
                        (set_storages
                           (<[next_storage s := replicate (shape_numel shape) 0]>
                              (storages s))
                           (S (next_storage s)) s))).
Proof.
  unfold access_placeholder. intros H.
  apply bind_ok_inv in H as (P & s0 & HP & H).
  apply param_obj_ok in HP as [-> HP]. exists P. split; [exact HP |].
  apply bind_ok_inv in H as (st & s0 & Hst & H).
  apply attr_ok in Hst as [Hst ->].
  destruct (decide (st <> COMPUTE)) as [Hne|He].
  - right.
    apply bind_ok_inv in H as (shape & s0 & Hshape & H).
    apply attr_ok in Hshape as [Hshape ->].
    apply bind_ok_inv in H as (g & s0 & Hg & H).
    apply attr_ok in Hg as [Hg ->].
    run_total H. unfold update_param, modify in H. st_simpl.
    inversion H; subst s1.
    exists st, shape, g. repeat split; auto.
  - left. inversion H; subst s1. split; [| reflexivity].
    destruct (decide (st = COMPUTE)) as [->|Hne]; [exact Hst |].
    contradiction.
Qed.

(** What the last part of a completed [access] did. *)
Lemma access_bind_ok param access_type cid s s' c2 P2 t2 tid :
  access_bind param access_type cid s = (Ok tt, s') ->
  chunks (chunk_list s) !! cid = Some c2 ->
  objects s !! param = Some P2 ->
  ps_tensor_of access_type P2 = Some t2 ->
  ps_id_of access_type P2 = Some tid ->
  chunks (chunk_list s') !! cid
  = Some (set_tensor_info_list
            (set_status_infos tid COMPUTE (tensor_info_list c2))
            (set_timestamp (S (timestamp c2)) c2))
  /\ (exists P, objects s' !! param = Some P
                /\ status_of access_type P = Some COMPUTE
                /\ view_of access_type P = Some t2
                /\ ps_tensor_of access_type P = Some t2)
  /\ calls s' = CallTouch cid :: calls s
  /\ chunk_tensor_index s' = chunk_tensor_index s.
Proof.
  intros H Hc HP Ht Hid. unfold access_bind in H.
  run_getitem H Hc. run_total H.
  destruct access_type; simpl in Ht, Hid.
  - run_total H.
    assert (HP' : alter (set_data_status (Some COMPUTE)) param (objects s) !! param
                  = Some (set_data_status (Some COMPUTE) P2))
      by (rewrite lookup_alter_eq, HP; reflexivity).
    run_param H HP'. cbn [ps_data_tensor set_data_status] in H.
    rewrite Ht in H. run_total H. run_total H.
    assert (Hc' : alter (fun c => set_timestamp (S (timestamp c)) c) cid
                        (chunks (chunk_list s)) !! cid
                  = Some (set_timestamp (S (timestamp c2)) c2))
      by (rewrite lookup_alter_eq, Hc; reflexivity).
    run_getitem H Hc'. cbn [ps_data_id set_data_status] in H.
    rewrite Hid in H. run_total H.
    unfold set_status, update_chunk, modify in H. st_simpl.
    inversion H; subst s'; clear H. st_simpl.
    split; [| split; [| split]]; try reflexivity.
    + rewrite lookup_alter_eq, Hc'. reflexivity.
    + eexists. split.
      * rewrite lookup_alter_eq, HP'. reflexivity.
      * simpl. rewrite Ht. auto.
  - run_total H.
    apply bind_ok_inv in H as ([] & s1 & Hph & H).
    assert (HP' : alter (set_grad_status (Some COMPUTE)) param (objects s) !! param
                  = Some (set_grad_status (Some COMPUTE) P2))
      by (rewrite lookup_alter_eq, HP; reflexivity).
    assert (Hc' : alter (fun c => set_timestamp (S (timestamp c)) c) cid
                        (chunks (chunk_list s)) !! cid
                  = Some (set_timestamp (S (timestamp c2)) c2))
      by (rewrite lookup_alter_eq, Hc; reflexivity).
    apply access_placeholder_ok in Hph as (P & HPph & Hcase). st_simpl.
    rewrite HP' in HPph. inversion HPph; subst P; clear HPph.
    assert (Hs1 : exists P1, objects s1 !! param = Some P1
                  /\ ps_grad_tensor P1 = Some t2 /\ ps_grad_id P1 = Some tid
                  /\ grad_status P1 = Some COMPUTE
                  /\ chunks (chunk_list s1) !! cid
                     = Some (set_timestamp (S (timestamp c2)) c2)
                  /\ calls s1 = CallTouch cid :: calls s
                  /\ chunk_tensor_index s1 = chunk_tensor_index s).
    { destruct Hcase as [(_ & ->)|(st & shape & g & _ & _ & _ & _ & ->)]; st_simpl.
      - eexists. split; [exact HP' |]. simpl. repeat split; auto.
      - eexists. split; [rewrite lookup_alter_eq, HP'; reflexivity |].
        simpl. repeat split; auto. }
    clear Hcase. destruct Hs1 as (P1 & HP1 & Ht1 & Hid1 & Hst1 & Hc1 & Hcalls & Hidx).
    run_param H HP1. rewrite Ht1 in H. run_total H.
    destruct (decide (t_device (data P1) = t_device t2)); [| discriminate].
    run_total H. run_getitem H Hc1.
    rewrite Hid1 in H. run_total H.
    unfold set_status, update_chunk, modify in H. st_simpl.
    inversion H; subst s'; clear H. st_simpl.
    split; [| split; [| split]]; auto.
    + rewrite lookup_alter_eq, Hc1. reflexivity.
    + eexists. split.
      * rewrite lookup_alter_eq, HP1. reflexivity.
      * simpl. auto.
Qed.


(** ** Allocation *)

Lemma last_chunk_of_lookup dt cs n k c :
  last_chunk_of dt cs n = Some (k, c) -> cs !! k = Some c.
Proof.
  induction n as [|n IH]; simpl; [discriminate |].
  destruct (cs !! n) as [c0|] eqn:E; [| exact IH].
  destruct (decide (data_type c0 = dt)); [| exact IH].
  intros H. inversion H; subst. exact E.
Qed.

Lemma new_chunk_ok n dt tid s cid t s1 :
  new_chunk getsizeof n dt tid s = (Ok (cid, t), s1) -> allocated tid s s1 cid t.
Proof.
  unfold new_chunk. intros H. run_total H. cbv zeta in H.
  apply bind_ok_inv in H as ([] & s0 & Hres & H).
  unfold reserve, bind, get, raise, modify in Hres.
  destruct (decide _) in Hres; [discriminate |].
  inversion Hres; subst s0; clear Hres.
  run_total H. run_total H. inversion H; subst; clear H.
  unfold allocated. st_simpl. split; [| auto].
  eexists. split; [apply lookup_insert_eq |]. simpl.
  rewrite bool_decide_eq_true_2 by reflexivity.
  split; [reflexivity |]. split; [reflexivity |]. split; [eauto |].
  eexists. split; [apply list_elem_of_singleton; reflexivity |]. auto.
Qed.

Lemma allocate_ok n dt tid s cid t s1 :
  allocate getsizeof n dt tid s = (Ok (cid, t), s1) -> allocated tid s s1 cid t.
Proof.
  unfold allocate. intros H. run_total H. run_total H.
  assert (Hnew : forall s0,
             s0 = set_calls (CallAllocate n dt tid :: calls s) s ->
             new_chunk getsizeof n dt tid s0 = (Ok (cid, t), s1) ->
             allocated tid s s1 cid t).
  { intros s0 -> Hn. apply new_chunk_ok in Hn. exact Hn. }
  destruct (last_chunk_of _ _ _) as [[k c]|] eqn:Hlast; [| eauto].
  destruct (decide _); [| eauto].
  apply last_chunk_of_lookup in Hlast.
  run_total H. inversion H; subst; clear H.
  unfold allocated. st_simpl. split; [| auto].
  eexists. split; [rewrite lookup_alter_eq, Hlast; reflexivity |]. simpl.
  split; [reflexivity |]. split; [reflexivity |].
  split; [apply find_info_app |].
  eexists. split; [apply elem_of_app; right; apply list_elem_of_singleton;
                   reflexivity |]. auto.
Qed.

Lemma new_tensor_ok shape dt tid s t cid s1 :
  new_tensor getsizeof shape dt tid s = (Ok (t, cid), s1) ->
  (exists c, chunks (chunk_list s1) !! cid = Some c
             /\ t_storage t = payload c /\ t_device t = device c
             /\ is_Some (find_info tid (tensor_info_list c))
             /\ exists info, info ∈ tensor_info_list c
                             /\ tensor_id info = tid /\ status info = HOLD)
  /\ t_shape t = shape
  /\ objects s1 = objects s
  /\ chunk_tensor_index s !! tid = None
  /\ chunk_tensor_index s1 = <[tid := cid]> (chunk_tensor_index s)
  /\ param_data_dict s1 = param_data_dict s
  /\ param_grad_dict s1 = param_grad_dict s.
Proof.
  unfold new_tensor. intros H.
  apply bind_ok_inv in H as ([k t0] & s0 & Hal & H).
  apply allocate_ok in Hal as (Hc & Hobj & Hidx & Hdd & Hgd).
  apply bind_ok_inv in H as ([] & s2 & Hadd & H).
  unfold add_tensor, bind, get, raise, modify in Hadd. simpl in Hadd.
  destruct (chunk_tensor_index s0 !! tid) eqn:E; [discriminate |].
  inversion Hadd; subst s2; clear Hadd.
  inversion H; subst; clear H. st_simpl. simpl.
  rewrite <- Hidx. repeat split; auto.
Qed.


(** ** The first part of [access] *)

Lemma get_chunk_id_eq param access_type s P tid :
  objects s !! param = Some P -> ps_id_of access_type P = Some tid ->
  get_chunk_id param access_type s = (Ok (chunk_tensor_index s !! tid), s).
Proof.
  intros HP Hid. unfold get_chunk_id. go_with (param_obj_some _ _ _ HP).
  destruct access_type; simpl in Hid; rewrite Hid; reflexivity.
Qed.

(** A completed resolution leaves the tensor bound to the chunk it
    returns, with the manager's handle a view of that chunk; a tensor
    that was bound already is resolved without any change of state. *)
Lemma access_resolve_ok param access_type s cid s1 P0 tid :
  access_resolve getsizeof param access_type s = (Ok cid, s1) ->
  objects s !! param = Some P0 ->
  ps_id_of access_type P0 = Some tid ->
  owner s access_type tid param ->
  (forall cid0, chunk_tensor_index s !! tid = Some cid0 ->
                handle_in_chunk s param access_type tid cid0) ->
  chunk_tensor_index s1 !! tid = Some cid
  /\ handle_in_chunk s1 param access_type tid cid
  /\ owner s1 access_type tid param
  /\ (exists P1, objects s1 !! param = Some P1
                 /\ ps_id_of access_type P1 = Some tid)
  /\ (forall cid0, chunk_tensor_index s !! tid = Some cid0 ->
                   cid0 = cid /\ s1 = s).
Proof.
  intros H HP Hid Hown Hcons. unfold access_resolve in H.
  run_with H (get_chunk_id_eq _ _ _ _ _ HP Hid).
  destruct (chunk_tensor_index s !! tid) as [cid0|] eqn:Hidx.
  - inversion H; subst cid0 s1; clear H.
    split; [exact Hidx |]. split; [apply Hcons; reflexivity |].
    split; [exact Hown |]. split; [eauto |].
    intros cid0 Heq. inversion Heq. auto.
  - run_param H HP.
    assert (Hgen : forall (upd : Tensor -> nat -> Param -> Param),
      (forall t k P, ps_tensor_of access_type (upd t k P) = Some t
                     /\ ps_id_of access_type (upd t k P) = ps_id_of access_type P) ->
      (shape <- attr (ps_shape P0) ;;
       tid <- attr (ps_id_of access_type P0) ;;
       r <- new_tensor getsizeof shape (dtype P0) tid ;;
       update_param param (upd r.1 r.2) ;;
       ret r.2) s = (Ok cid, s1) ->
      chunk_tensor_index s1 !! tid = Some cid
      /\ handle_in_chunk s1 param access_type tid cid
      /\ owner s1 access_type tid param
      /\ (exists P1, objects s1 !! param = Some P1
                     /\ ps_id_of access_type P1 = Some tid)
      /\ (forall cid0, None = Some cid0 -> cid0 = cid /\ s1 = s)).
    { intros upd Hupd Hrun.
      apply bind_ok_inv in Hrun as (shape & s0 & Hshape & Hrun).
      apply attr_ok in Hshape as [Hshape ->].
      rewrite Hid in Hrun. run_total Hrun.
      apply bind_ok_inv in Hrun as ([t k] & s2 & Hnew & Hrun).
      apply new_tensor_ok in Hnew
        as ((c & Hc & Hst & Hdev & Hinfo & _) & _ & Hobj & _ & Hidx' & Hdd & Hgd).
      run_total Hrun. inversion Hrun; subst cid s1; clear Hrun. st_simpl. simpl.
      destruct (Hupd t k P0) as [Hu1 Hu2].
      split; [rewrite Hidx'; apply lookup_insert_eq |].
      split; [| split; [| split]].
      - exists c, (upd t k P0), t. st_simpl.
        rewrite Hobj, lookup_alter_eq, HP. repeat split; auto.
      - unfold owner in *. st_simpl. rewrite Hdd, Hgd. exact Hown.
      - exists (upd t k P0). rewrite Hobj, lookup_alter_eq, HP.
        split; [reflexivity | congruence].
      - intros ? ?. discriminate. }
    destruct access_type; simpl in Hgen.
    + apply (Hgen (fun t k P => set_ps_data_chunk_id (Some k)
                                  (set_ps_data_tensor (Some t) P))).
      * intros t k P. split; reflexivity.
      * exact H.
    + apply (Hgen (fun t k P => set_ps_grad_chunk_id (Some k)
                                  (set_ps_grad_tensor (Some t) P))).
      * intros t k P. split; reflexivity.
      * exact H.
Qed.


(** ** Rebinding of handles *)

Lemma find_info_elem tid l :
  is_Some (find_info tid l) -> exists info, info ∈ l /\ tensor_id info = tid.
Proof.
  intros [info Hinfo]. unfold find_info in Hinfo.
  apply find_some in Hinfo as [Hin Hid].
  exists info. split; [apply list_elem_of_In; exact Hin |].
  apply bool_decide_eq_true in Hid. exact Hid.
Qed.

(** The handle of a tensor is a view of storage [st] on device [dev]. *)
Lemma rebind_handle st dev info s s' param access_type tid P :
  rebind st dev info s = (Ok tt, s') ->
  owner s access_type tid param ->
  objects s !! param = Some P ->
  exists P', objects s' !! param = Some P'
    /\ owner s' access_type tid param
    /\ ((exists t, ps_tensor_of access_type P' = Some t
                   /\ t_storage t = st /\ t_device t = dev)
        \/ (tensor_id info <> tid
            /\ ps_tensor_of access_type P' = ps_tensor_of access_type P)).
Proof.
  intros H Hown HP. unfold rebind in H. run_total H.
  destruct (param_data_dict s !! tensor_id info) as [p|] eqn:Hdd;
    [| destruct (param_grad_dict s !! tensor_id info) as [p|] eqn:Hgd].
  - unfold update_param, modify in H. inversion H; subst s'; clear H. st_simpl.
    destruct (decide (p = param)) as [->|Hne].
    + eexists. split; [rewrite lookup_alter_eq, HP; reflexivity |].
      split; [exact Hown |].
      destruct access_type; simpl in *.
      * left. eexists. split; [reflexivity |]. auto.
      * right. split; [| reflexivity]. destruct Hown as [Hn _]. congruence.
    + exists P. split; [rewrite lookup_alter_ne by congruence; exact HP |].
      split; [exact Hown |]. right. split; [| reflexivity].
      destruct access_type; simpl in *; [| destruct Hown]; congruence.
  - unfold update_param, modify in H. inversion H; subst s'; clear H. st_simpl.
    destruct (decide (p = param)) as [->|Hne].
    + eexists. split; [rewrite lookup_alter_eq, HP; reflexivity |].
      split; [exact Hown |].
      destruct access_type; simpl in *.
      * right. split; [| reflexivity]. congruence.
      * left. eexists. split; [reflexivity |]. auto.
    + exists P. split; [rewrite lookup_alter_ne by congruence; exact HP |].
      split; [exact Hown |]. right. split; [| reflexivity].
      destruct access_type; simpl in *; [| destruct Hown]; congruence.
  - inversion H; subst s'; clear H. exists P. split; [exact HP |].
    split; [exact Hown |]. right. split; [| reflexivity].
    destruct access_type; simpl in *; [| destruct Hown]; congruence.
Qed.

Lemma for_each_rebind_handle st dev l s s' param access_type tid P :
  for_each l (rebind st dev) s = (Ok tt, s') ->
  owner s access_type tid param ->
  objects s !! param = Some P ->
  (exists info, info ∈ l /\ tensor_id info = tid)
  \/ (exists t, ps_tensor_of access_type P = Some t
                /\ t_storage t = st /\ t_device t = dev) ->
  exists P' t, objects s' !! param = Some P'
    /\ ps_tensor_of access_type P' = Some t
    /\ t_storage t = st /\ t_device t = dev.
Proof.
  revert s P. induction l as [|info l IH]; intros s P H Hown HP Hor; simpl in H.
  - inversion H; subst s'. destruct Hor as [(info & Hin & _)|(t & Ht)].
    + apply elem_of_nil in Hin. contradiction.
    + exists P, t. split; [exact HP | exact Ht].
  - apply bind_ok_inv in H as ([] & s1 & Hreb & H).
    destruct (rebind_handle _ _ _ _ _ _ _ _ _ Hreb Hown HP)
      as (P1 & HP1 & Hown1 & Hcase).
    apply (IH s1 P1 H Hown1 HP1).
    destruct Hcase as [Hdone|[Hne Hsame]]; [right; exact Hdone |].
    destruct Hor as [(info' & Hin & Hid)|(t & Ht)].
    + left. exists info'. split; [| exact Hid].
      apply elem_of_cons in Hin as [->|Hin]; [contradiction | exact Hin].
    + right. exists t. rewrite Hsame. exact Ht.
Qed.

(** ** The second part of [access] *)

Lemma prepare_device_ok target need s s' :
  prepare_device getsizeof target need s = (Ok tt, s') ->
  s' = s
  \/ exists l s1,
       chunk_to_move_out_for_room_making getsizeof
         (need - (capacity_bytes (ps_manager s) target
                  - reserved_bytes (ps_manager s) target)) target s
       = (Ok l, s1)
       /\ for_each l (fun idx => chunk_move getsizeof idx (new_device target)) s1
          = (Ok tt, s').
Proof.
  unfold prepare_device. intros H.
  rewrite (bind_step _ _ _ _ _ (max_mem_eq _ _ s)), device_eta in H.
  destruct (decide _) in H; [discriminate |].
  rewrite (bind_step _ _ _ _ _ (available_mem_eq _ _ s)), device_eta in H.
  destruct (decide _) in H.
  - left. inversion H. reflexivity.
  - right. apply bind_ok_inv in H as (l & s1 & Hsel & Hloop). eauto.
Qed.

Lemma for_each_chunk_move_elsewhere l nd dev s s' cid c :
  for_each l (fun idx => chunk_move getsizeof idx nd) s = (Ok tt, s') ->
  nd <> dev ->
  chunks (chunk_list s) !! cid = Some c -> device c <> dev ->
  exists c', chunks (chunk_list s') !! cid = Some c' /\ device c' <> dev.
Proof.
  intros H Hnd. revert s c H. induction l as [|x l IH]; intros s c H Hc Hd;
    simpl in H.
  - inversion H; subst s'. exists c. auto.
  - apply bind_ok_inv in H as ([] & s1 & Hx & H).
    destruct (decide (cid = x)) as [->|Hne].
    + destruct (chunk_move_resident _ _ _ _ Hx) as (c1 & Hc1 & Hd1).
      apply (IH s1 c1 H Hc1). congruence.
    + destruct (chunk_move_other _ _ _ _ _ _ Hx Hc (or_introl Hne))
        as (c1 & Hc1 & Hd1).
      apply (IH s1 c1 H Hc1). congruence.
Qed.

Lemma prepare_device_elsewhere target need s s' cid c :
  prepare_device getsizeof target need s = (Ok tt, s') ->
  chunks (chunk_list s) !! cid = Some c -> device c <> target ->
  exists c', chunks (chunk_list s') !! cid = Some c' /\ device c' <> target.
Proof.
  intros H Hc Hd. apply prepare_device_ok in H as [->|(l & s1 & Hsel & Hloop)].
  - exists c. auto.
  - apply room_making_ok in Hsel as (-> & _ & _).
    eapply for_each_chunk_move_elsewhere; [exact Hloop | | exact Hc | exact Hd].
    apply new_device_neq.
Qed.

Lemma preserves_relocated_access_relocate param access_type dev cid :
  preserves relocated (access_relocate getsizeof param access_type dev cid).
Proof.
  unfold access_relocate, param_obj. pres.
  - apply preserves_relocated_getitem.
  - apply preserves_relocated_prepare_device.
  - apply preserves_relocated_chunk_move.
Qed.

(** After a completed admission the chunk resides on the compute device
    and the manager's handle is a view of its backing storage there.  A
    chunk that was there already is left alone; one that was elsewhere
    has been moved, after [prepare_device] made room. *)
Lemma access_relocate_ok param access_type dev cid s1 s2 tid :
  access_relocate getsizeof param access_type dev cid s1 = (Ok tt, s2) ->
  handle_in_chunk s1 param access_type tid cid ->
  owner s1 access_type tid param ->
  relocated s1 s2
  /\ (exists c2 P2 t2,
        chunks (chunk_list s2) !! cid = Some c2 /\ device c2 = dev
        /\ objects s2 !! param = Some P2
        /\ ps_tensor_of access_type P2 = Some t2
        /\ t_storage t2 = payload c2 /\ t_device t2 = dev)
  /\ (forall c1, chunks (chunk_list s1) !! cid = Some c1 ->
        (device c1 = dev -> s2 = s1)
        /\ (device c1 <> dev ->
            exists sp,
              prepare_device getsizeof dev
                (Z.of_nat (capacity c1) * getsizeof (data_type c1)) s1
              = (Ok tt, sp)
              /\ calls s2 = CallMove cid dev :: calls sp)).
Proof.
  intros H (c & P & t & Hc & HP & Ht & Hst & Hdev & Hinfo) Hown.
  split; [exact (preserves_relocated_access_relocate _ _ _ _ _ _ _ H) |].
  unfold access_relocate in H. run_param H HP.
  assert (Ht' : match access_type with
                | DATA => ps_data_tensor P
                | GRAD => ps_grad_tensor P
                end = Some t) by (destruct access_type; exact Ht).
  rewrite Ht' in H. run_total H.
  destruct (decide (dev <> t_device t)) as [Hne|He].
  - run_getitem H Hc.
    apply bind_ok_inv in H as ([] & sp & Hprep & Hmove).
    assert (Hrel : relocated s1 sp)
      by exact (preserves_relocated_prepare_device _ _ _ _ _ Hprep).
    destruct (prepare_device_elsewhere _ _ _ _ _ _ Hprep Hc) as (cp & Hcp & Hdp);
      [congruence |].
    destruct (rel_chunks _ _ Hrel _ _ Hc) as (cp' & Hcp' & Hinfos & _).
    rewrite Hcp in Hcp'. inversion Hcp'; subst cp'; clear Hcp'.
    destruct (rel_objects _ _ Hrel _ _ HP) as (Pp & HPp & _).
    unfold chunk_move in Hmove. run_getitem Hmove Hcp.
    destruct (decide (device cp <> dev)); [| contradiction].
    apply Chunk_move_ok in Hmove
      as (cp' & Hcp' & Hcalls & [(Heq & _)|(_ & Hch & sr & Hobj & Hdd & Hgd & Hloop)]);
      [congruence |].
    rewrite Hcp in Hcp'. inversion Hcp'; subst cp'; clear Hcp'.
    assert (Hownr : owner sr access_type tid param).
    { unfold owner in *. rewrite Hdd, Hgd, (rel_data_dict _ _ Hrel),
        (rel_grad_dict _ _ Hrel). exact Hown. }
    assert (HPr : objects sr !! param = Some Pp) by (rewrite Hobj; exact HPp).
    destruct (for_each_rebind_handle _ _ _ _ _ _ _ _ _ Hloop Hownr HPr)
      as (P2 & t2 & HP2 & Ht2 & Hst2 & Hdev2).
    { left. apply find_info_elem. rewrite Hinfos. exact Hinfo. }
    split.
    + exists (set_residence dev (next_storage sp) cp), P2, t2.
      rewrite Hch, lookup_alter_eq, Hcp. simpl. repeat split; auto.
    + intros c1 Hc1. rewrite Hc in Hc1. inversion Hc1; subst c1.
      split; [intros Hcontra; congruence |].
      intros _. exists sp. split; [exact Hprep | exact Hcalls].
  - inversion H; subst s2; clear H.
    assert (Hdev' : t_device t = dev).
    { destruct (decide (dev = t_device t)) as [->|Hn]; [reflexivity |].
      contradiction. }
    split.
    + exists c, P, t. repeat split; auto. congruence.
    + intros c1 Hc1. rewrite Hc in Hc1. inversion Hc1; subst c1.
      split; [reflexivity |]. intros Hcontra. congruence.
Qed.


(** ** [access] *)

Lemma ps_id_of_relocated access_type P P' :
  ps_data_id P' = ps_data_id P -> ps_grad_id P' = ps_grad_id P ->
  ps_id_of access_type P' = ps_id_of access_type P.
Proof. destruct access_type; simpl; congruence. Qed.

(** C5. After a successful [access] of a tensor of a registered
    parameter: the tensor is bound to a chunk of the list; its status is
    [COMPUTE], in the chunk's range list and on the parameter; the last
    call issued is the touch of that chunk; the chunk resides on
    [compute_device]; and the view the caller sees is the manager's
    handle, a view of the chunk's current backing storage on that
    device.  The chunk's recency counter is one more than it was when
    the chunk had been located and brought to the device.  For a tensor
    that was bound before, the counter is one more than it was before
    the call, a chunk that was already on
    [compute_device] has not been moved, and one that was elsewhere has
    been moved by [Chunk.move] after [prepare_device] completed for its
    full capacity.  The tensor is identified by [tid], owned by [param]
    in the dictionaries, and its handle is a view of its chunk whenever
    it has one. *)
Theorem access_postcondition param access_type compute_device s s' P0 tid :
  access getsizeof param access_type compute_device s = (Ok tt, s') ->
  objects s !! param = Some P0 ->
  ps_id_of access_type P0 = Some tid ->
  owner s access_type tid param ->
  (forall cid0, chunk_tensor_index s !! tid = Some cid0 ->
                handle_in_chunk s param access_type tid cid0) ->
  exists cid c P t,
    chunk_tensor_index s' !! tid = Some cid
    /\ chunks (chunk_list s') !! cid = Some c
    /\ objects s' !! param = Some P
    /\ status_of access_type P = Some COMPUTE
    /\ info_status tid c = Some COMPUTE
    /\ (exists tr, calls s' = CallTouch cid :: tr)
    /\ device c = compute_device
    /\ view_of access_type P = Some t
    /\ ps_tensor_of access_type P = Some t
    /\ t_storage t = payload c
    /\ t_device t = compute_device
    /\ (exists s1 c1,
          access_locate getsizeof param access_type compute_device s
          = (Ok cid, s1)
          /\ chunks (chunk_list s1) !! cid = Some c1
          /\ timestamp c = S (timestamp c1))
    /\ (forall cid0 c0,
          chunk_tensor_index s !! tid = Some cid0 ->
          chunks (chunk_list s) !! cid0 = Some c0 ->
          cid0 = cid
          /\ timestamp c = S (timestamp c0)
          /\ (device c0 = compute_device ->
              calls s' = CallTouch cid :: calls s)
          /\ (device c0 <> compute_device ->
              exists sp,
                prepare_device getsizeof compute_device
                  (Z.of_nat (capacity c0) * getsizeof (data_type c0)) s
                = (Ok tt, sp)
                /\ calls s' = CallTouch cid :: CallMove cid compute_device
                                :: calls sp)).
Proof.
  intros H HP0 Hid0 Hown Hcons. unfold access in H.
  rewrite (bind_step _ _ _ _ _ (is_ps_param_spec param s)) in H.
  destruct (bool_decide (registered s param)); [| discriminate]. simpl in H.
  apply bind_ok_inv in H as (cid & s1 & Hres & H).
  apply bind_ok_inv in H as ([] & s2 & Hadm & Hbind).
  destruct (access_resolve_ok _ _ _ _ _ _ _ Hres HP0 Hid0 Hown Hcons)
    as (Hidx1 & Hhic1 & Hown1 & (P1 & HP1 & Hid1) & Hbound).
  destruct (access_relocate_ok _ _ _ _ _ _ _ Hadm Hhic1 Hown1)
    as (Hrel & (c2 & P2 & t2 & Hc2 & Hd2 & HP2 & Ht2 & Hst2 & Hdev2) & Hmoved).
  destruct Hhic1 as (c1 & P1' & t1 & Hc1 & HP1' & _ & _ & _ & Hinfo1).
  destruct (rel_chunks _ _ Hrel _ _ Hc1) as (c2' & Hc2' & Hinfos & Hts & _).
  rewrite Hc2 in Hc2'. inversion Hc2'; subst c2'; clear Hc2'.
  destruct (rel_objects _ _ Hrel _ _ HP1) as (P2' & HP2' & Hdid & Hgid & _).
  rewrite HP2 in HP2'. inversion HP2'; subst P2'; clear HP2'.
  assert (Hid2 : ps_id_of access_type P2 = Some tid)
    by (rewrite (ps_id_of_relocated _ _ _ Hdid Hgid); exact Hid1).
  destruct (access_bind_ok _ _ _ _ _ _ _ _ _ Hbind Hc2 HP2 Ht2 Hid2)
    as (Hc' & (P & HP & Hstat & Hview & Hhandle) & Hcalls & Hidx').
  eexists cid, _, P, t2.
  split; [rewrite Hidx', (rel_index _ _ Hrel); exact Hidx1 |].
  split; [exact Hc' |]. split; [exact HP |]. split; [exact Hstat |].
  split; [apply info_status_set_status; rewrite Hinfos; exact Hinfo1 |].
  split; [eauto |]. split; [exact Hd2 |]. split; [exact Hview |].
  split; [exact Hhandle |]. split; [exact Hst2 |]. split; [exact Hdev2 |].
  split.
  { exists s2, c2. split; [| split; [exact Hc2 | reflexivity]].
    unfold access_locate. rewrite (bind_step _ _ _ _ _ Hres).
    rewrite (bind_step _ _ _ _ _ Hadm). reflexivity. }
  intros cid0 c0 Hidx0 Hc0.
  destruct (Hbound _ Hidx0) as [-> ->].
  rewrite Hc1 in Hc0. inversion Hc0; subst c0; clear Hc0.
  split; [reflexivity |]. split; [simpl; congruence |].
  destruct (Hmoved _ Hc1) as [Hstay Hgo]. split.
  - intros Hd. rewrite Hcalls, (Hstay Hd). reflexivity.
  - intros Hd. destruct (Hgo Hd) as (sp & Hprep & Hcalls2).
    exists sp. split; [exact Hprep |]. rewrite Hcalls, Hcalls2. reflexivity.
Qed.


(** ** [release] *)

(** What [delete_free_chunks] does: the chunks whose ranges are all
    [FREE] go, with the index entries that point to them; parameters
    and storages are left alone. *)
Lemma delete_free_chunks_ok s1 r s' :
  delete_free_chunks getsizeof s1 = (r, s') ->
  r = Ok tt
  /\ calls s' = CallDeleteFreeChunks :: calls s1
  /\ chunks (chunk_list s')
     = filter (fun kc => all_free kc.2 = false) (chunks (chunk_list s1))
  /\ chunk_tensor_index s'
     = filter (fun tc => is_dead (chunks (chunk_list s1)) tc.2 = false)
              (chunk_tensor_index s1)
  /\ objects s' = objects s1
  /\ storages s' = storages s1
  /\ next_storage s' = next_storage s1
  /\ param_data_dict s' = param_data_dict s1
  /\ param_grad_dict s' = param_grad_dict s1.
Proof.
  unfold delete_free_chunks, bind, log, modify. intros H.
  inversion H; subst; clear H. st_simpl. repeat split; reflexivity.
Qed.

(** A [release] of a tensor that is bound to a chunk of the list
    completes; this is the state after its status reset and the state it
    returns in. *)
Lemma release_bound param access_type rs s P tid cid c :
  objects s !! param = Some P ->
  ps_id_of access_type P = Some tid ->
  chunk_tensor_index s !! tid = Some cid ->
  chunks (chunk_list s) !! cid = Some c ->
  exists s1 s',
    release_reset param access_type cid rs s = (Ok tt, s1)
    /\ delete_free_chunks getsizeof s1 = (Ok tt, s')
    /\ release getsizeof param access_type rs s = (Ok tt, s')
    /\ chunks (chunk_list s1)
       = alter (fun c => set_tensor_info_list
                           (set_status_infos tid rs (tensor_info_list c)) c)
               cid (chunks (chunk_list s))
    /\ chunk_tensor_index s1 = chunk_tensor_index s
    /\ calls s1 = calls s
    /\ objects s1 !! param
       = Some (released_param access_type rs (next_storage s) P)
    /\ (access_type = DATA ->
        storages s1 !! next_storage s = Some [0]
        /\ next_storage s1 = S (next_storage s)).
Proof.
  intros HP Hid Hidx Hc.
  assert (Hreset : exists s1,
    release_reset param access_type cid rs s = (Ok tt, s1)
    /\ chunks (chunk_list s1)
       = alter (fun c => set_tensor_info_list
                           (set_status_infos tid rs (tensor_info_list c)) c)
               cid (chunks (chunk_list s))
    /\ chunk_tensor_index s1 = chunk_tensor_index s
    /\ calls s1 = calls s
    /\ objects s1 !! param
       = Some (released_param access_type rs (next_storage s) P)
    /\ (access_type = DATA ->
        storages s1 !! next_storage s = Some [0]
        /\ next_storage s1 = S (next_storage s))).
  { unfold release_reset. destruct access_type; simpl in Hid.
    - eexists. split.
      + go_with (getitem_some _ _ _ Hc). go_with (param_obj_some _ _ _ HP).
        rewrite Hid. go_total. go_total. go_total. go_total. reflexivity.
      + st_simpl. repeat split; try reflexivity.
        * rewrite lookup_alter_eq, lookup_alter_eq, HP. reflexivity.
        * apply lookup_insert_eq.
    - eexists. split.
      + go_with (getitem_some _ _ _ Hc). go_with (param_obj_some _ _ _ HP).
        rewrite Hid. go_total. go_total. go_total. reflexivity.
      + st_simpl. repeat split; try reflexivity; try discriminate.
        rewrite lookup_alter_eq, lookup_alter_eq, HP. reflexivity. }
  destruct Hreset as (s1 & Hreset & Hfacts).
  destruct (delete_free_chunks getsizeof s1) as [r s'] eqn:Hdel.
  destruct (delete_free_chunks_ok _ _ _ Hdel) as (-> & _).
  exists s1, s'. split; [exact Hreset |]. split; [exact Hdel |].
  split; [| exact Hfacts].
  unfold release. rewrite (bind_step _ _ _ _ _ (get_chunk_id_eq _ _ _ _ _ HP Hid)).
  rewrite Hidx. rewrite (bind_step _ _ _ _ _ Hreset). exact Hdel.
Qed.

(** A [release] of a tensor that is bound to no chunk returns at once. *)
Lemma release_unbound param access_type rs s P tid :
  objects s !! param = Some P ->
  ps_id_of access_type P = Some tid ->
  chunk_tensor_index s !! tid = None ->
  release getsizeof param access_type rs s = (Ok tt, s).
Proof.
  intros HP Hid Hidx. unfold release.
  rewrite (bind_step _ _ _ _ _ (get_chunk_id_eq _ _ _ _ _ HP Hid)).
  rewrite Hidx. reflexivity.
Qed.

(** Reading the identifier of a tensor that has none fails, in
    [get_chunk_id], before anything is changed. *)
Lemma get_chunk_id_missing param access_type s P :
  objects s !! param = Some P ->
  ps_id_of access_type P = None ->
  get_chunk_id param access_type s = (Raise AttributeError, s).
Proof.
  intros HP Hid. unfold get_chunk_id. go_with (param_obj_some _ _ _ HP).
  destruct access_type; simpl in Hid; rewrite Hid; reflexivity.
Qed.

Lemma release_missing param access_type rs s P :
  objects s !! param = Some P ->
  ps_id_of access_type P = None ->
  release getsizeof param access_type rs s = (Raise AttributeError, s).
Proof.
  intros HP Hid. unfold release.
  pose proof (get_chunk_id_missing _ _ _ _ HP Hid) as Hget.
  unfold bind. rewrite Hget. reflexivity.
Qed.


Lemma all_free_set_status tid rs l c :
  is_Some (find_info tid l) -> rs <> FREE ->
  all_free (set_tensor_info_list (set_status_infos tid rs l) c) = false.
Proof.
  intros [info Hinfo] Hrs. unfold all_free. simpl.
  unfold find_info in Hinfo. induction l as [|x l IH]; simpl in *; [discriminate |].
  destruct (bool_decide (tensor_id x = tid)) eqn:E; simpl.
  - rewrite bool_decide_eq_false_2 by exact Hrs. reflexivity.
  - rewrite (IH Hinfo). apply andb_false_r.
Qed.

(** C6 (as amended). A [release] of a tensor that carries an identifier
    and is bound to a chunk of the list, whatever the access type and
    the status to reset to, completes and runs the reclamation before
    it returns: the last call issued is [delete_free_chunks], the chunks
    left are those that have a range that is not [FREE], and the index
    entries left are those of the chunks left.  A [release] of a tensor
    that carries an identifier and is bound to no chunk returns at once
    and leaves the state as it is.  A [release] of a tensor that carries
    no identifier raises [AttributeError] and leaves the state as it is:
    neither of the two reclaims. *)
Theorem release_reclaims_when_bound param access_type rs s P :
  objects s !! param = Some P ->
  (forall tid cid c,
     ps_id_of access_type P = Some tid ->
     chunk_tensor_index s !! tid = Some cid ->
     chunks (chunk_list s) !! cid = Some c ->
     exists s1 s',
       release_reset param access_type cid rs s = (Ok tt, s1)
       /\ release getsizeof param access_type rs s = (Ok tt, s')
       /\ calls s' = CallDeleteFreeChunks :: calls s
       /\ (forall k c', chunks (chunk_list s') !! k = Some c' <->
                        chunks (chunk_list s1) !! k = Some c'
                        /\ all_free c' = false)
       /\ (forall t k, chunk_tensor_index s' !! t = Some k <->
                       chunk_tensor_index s !! t = Some k
                       /\ is_dead (chunks (chunk_list s1)) k = false))
  /\ (forall tid,
        ps_id_of access_type P = Some tid ->
        chunk_tensor_index s !! tid = None ->
        release getsizeof param access_type rs s = (Ok tt, s))
  /\ (ps_id_of access_type P = None ->
      release getsizeof param access_type rs s = (Raise AttributeError, s)).
Proof.
  intros HP. split; [| split].
  - intros tid cid c Hid Hidx Hc.
    destruct (release_bound param access_type rs s P tid cid c HP Hid Hidx Hc)
      as (s1 & s' & Hreset & Hdel & Hrel & _ & Hidx1 & Hcalls1 & _).
    destruct (delete_free_chunks_ok _ _ _ Hdel)
      as (_ & Hcalls & Hchunks & Hindex & _).
    exists s1, s'. split; [exact Hreset |]. split; [exact Hrel |].
    split; [rewrite Hcalls, Hcalls1; reflexivity |]. split.
    + intros k c'. rewrite Hchunks, map_lookup_filter_Some. reflexivity.
    + intros t k. rewrite Hindex, map_lookup_filter_Some, Hidx1. reflexivity.
  - intros tid Hid Hidx. exact (release_unbound _ _ _ _ _ _ HP Hid Hidx).
  - intros Hid. exact (release_missing _ _ _ _ _ HP Hid).
Qed.

(** C7. A [release] of a tensor that is bound to a chunk holding a
    range for it completes, and its status reset sets the status of the
    tensor in the chunk's range list to exactly [reset_to_status]; the
    chunk keeps its backing storage, and it is still in the list with
    that status when [release] returns unless the reclamation removed
    it.  The parameter's own status attribute is [reset_to_status] too.
    When the status is [FREE], the view the caller is left with does
    not alias the chunk's backing storage. *)
Theorem release_sets_status param access_type rs s P tid cid c :
  objects s !! param = Some P ->
  ps_id_of access_type P = Some tid ->
  chunk_tensor_index s !! tid = Some cid ->
  chunks (chunk_list s) !! cid = Some c ->
  is_Some (find_info tid (tensor_info_list c)) ->
  (payload c < next_storage s)%nat ->
  exists s1 s' c1 P1,
    release_reset param access_type cid rs s = (Ok tt, s1)
    /\ release getsizeof param access_type rs s = (Ok tt, s')
    /\ chunks (chunk_list s1) !! cid = Some c1
    /\ info_status tid c1 = Some rs
    /\ payload c1 = payload c
    /\ (forall c', chunks (chunk_list s') !! cid = Some c' -> c' = c1)
    /\ (all_free c1 = false -> chunks (chunk_list s') !! cid = Some c1)
    /\ objects s' !! param = Some P1
    /\ status_of access_type P1 = Some rs
    /\ (rs = FREE ->
        forall t, view_of access_type P1 = Some t -> t_storage t <> payload c1).
Proof.
  intros HP Hid Hidx Hc Hinfo Hfresh.
  destruct (release_bound param access_type rs s P tid cid c HP Hid Hidx Hc)
    as (s1 & s' & Hreset & Hdel & Hrel & Hchunks1 & _ & _ & HP1 & _).
  destruct (delete_free_chunks_ok _ _ _ Hdel)
    as (_ & _ & Hchunks & _ & Hobj & _).
  exists s1, s', (set_tensor_info_list
                    (set_status_infos tid rs (tensor_info_list c)) c),
    (released_param access_type rs (next_storage s) P).
  split; [exact Hreset |]. split; [exact Hrel |].
  assert (Hc1 : chunks (chunk_list s1) !! cid
                = Some (set_tensor_info_list
                          (set_status_infos tid rs (tensor_info_list c)) c))
    by (rewrite Hchunks1, lookup_alter_eq, Hc; reflexivity).
  split; [exact Hc1 |].
  split; [apply info_status_set_status; exact Hinfo |].
  split; [reflexivity |]. split.
  { intros c'. rewrite Hchunks, map_lookup_filter_Some, Hc1.
    intros [Heq _]. congruence. }
  split.
  { intros Hlive. rewrite Hchunks, map_lookup_filter_Some. auto. }
  split; [rewrite Hobj; exact HP1 |].
  split; [destruct access_type; reflexivity |].
  intros _ t Hview. destruct access_type; simpl in Hview.
  - inversion Hview; subst t. simpl. lia.
  - discriminate.
Qed.

(** C10 (as amended). Releasing the data of a parameter with the
    default status [HOLD], while its tensor is bound to a chunk holding
    a range for it, leaves the chunk in the list with the tensor in
    [HOLD], and yet redirects [param.data] to a freshly allocated buffer
    of one zero element on the device the data was on: the caller's
    handle no longer aliases the chunk's backing storage.  Releasing the
    gradient of a parameter whose gradient tensor is bound to a chunk
    sets [param.grad] to [None] whatever the status to reset to.  A
    release of a tensor that carries an identifier and is bound to no
    chunk returns at once, whatever the access type and the status: it
    leaves the state, and with it [param.data] and [param.grad], as
    they are. *)
Theorem release_redirects_view param s P :
  objects s !! param = Some P ->
  (forall tid cid c,
     ps_data_id P = Some tid ->
     chunk_tensor_index s !! tid = Some cid ->
     chunks (chunk_list s) !! cid = Some c ->
     is_Some (find_info tid (tensor_info_list c)) ->
     (payload c < next_storage s)%nat ->
     exists s' P' c',
       release getsizeof param DATA HOLD s = (Ok tt, s')
       /\ chunks (chunk_list s') !! cid = Some c'
       /\ payload c' = payload c
       /\ info_status tid c' = Some HOLD
       /\ objects s' !! param = Some P'
       /\ data_status P' = Some HOLD
       /\ data P' = mkTensor (next_storage s) (t_device (data P)) 0 [1%nat]
       /\ tensor_elems (data P') s' = [0]
       /\ next_storage s' = S (next_storage s)
       /\ t_storage (data P') <> payload c')
  /\ (forall rs tid cid c,
        ps_grad_id P = Some tid ->
        chunk_tensor_index s !! tid = Some cid ->
        chunks (chunk_list s) !! cid = Some c ->
        exists s' P',
          release getsizeof param GRAD rs s = (Ok tt, s')
          /\ objects s' !! param = Some P'
          /\ grad P' = None
          /\ grad_status P' = Some rs)
  /\ (forall access_type rs tid,
        ps_id_of access_type P = Some tid ->
        chunk_tensor_index s !! tid = None ->
        release getsizeof param access_type rs s = (Ok tt, s)).
Proof.
  intros HP. split; [| split].
  - intros tid cid c Hid Hidx Hc Hinfo Hfresh.
    destruct (release_bound param DATA HOLD s P tid cid c HP Hid Hidx Hc)
      as (s1 & s' & _ & Hdel & Hrel & Hchunks1 & _ & _ & HP1 & Hsto).
    destruct (Hsto eq_refl) as [Hzero Hnext].
    destruct (delete_free_chunks_ok _ _ _ Hdel)
      as (_ & _ & Hchunks & _ & Hobj & Hstor & Hnext' & _).
    eexists s', _, (set_tensor_info_list
                      (set_status_infos tid HOLD (tensor_info_list c)) c).
    split; [exact Hrel |]. split.
    { rewrite Hchunks, map_lookup_filter_Some, Hchunks1, lookup_alter_eq, Hc.
      split; [reflexivity |]. simpl.
      apply all_free_set_status; [exact Hinfo | discriminate]. }
    split; [reflexivity |].
    split; [apply info_status_set_status; exact Hinfo |].
    split; [rewrite Hobj; exact HP1 |]. simpl.
    split; [reflexivity |]. split; [reflexivity |]. split.
    { unfold tensor_elems. simpl. rewrite Hstor, Hzero. reflexivity. }
    split; [congruence |]. lia.
  - intros rs tid cid c Hid Hidx Hc.
    destruct (release_bound param GRAD rs s P tid cid c HP Hid Hidx Hc)
      as (s1 & s' & _ & Hdel & Hrel & _ & _ & _ & HP1 & _).
    destruct (delete_free_chunks_ok _ _ _ Hdel) as (_ & _ & _ & _ & Hobj & _).
    eexists s', _. split; [exact Hrel |].
    split; [rewrite Hobj; exact HP1 |]. split; reflexivity.
  - intros access_type rs tid Hid Hidx.
    exact (release_unbound _ _ _ _ _ _ HP Hid Hidx).
Qed.


(** ** The gradient fallback *)

#[local] Instance attrs_kept_preorder : PreOrder attrs_kept.
Proof.
  split.
  - intros s p P HP. exists P. repeat split; auto.
  - intros s1 s2 s3 H12 H23 p P HP.
    destruct (H12 _ _ HP) as (P' & HP' & ? & ? & ? & ? & ? & ?).
    destruct (H23 _ _ HP') as (P'' & HP'' & ? & ? & ? & ? & ? & ?).
    exists P''. repeat split; congruence.
Qed.

Lemma attrs_kept_same_objects s s' : objects s' = objects s -> attrs_kept s s'.
Proof. intros Heq p P HP. exists P. rewrite Heq. repeat split; auto. Qed.

Lemma attrs_kept_alter_param f p s :
  handles_only f -> attrs_kept s (set_objects (alter f p (objects s)) s).
Proof. intros Hf. exact (rel_objects _ _ (relocated_alter_param f p s Hf)). Qed.

Lemma preserves_attrs_kept_relocated {A} (m : M A) :
  preserves relocated m -> preserves attrs_kept m.
Proof. intros Hm s r s' H. exact (rel_objects _ _ (Hm _ _ _ H)). Qed.

Lemma preserves_attrs_kept_new_tensor shape dt tid :
  preserves attrs_kept (new_tensor getsizeof shape dt tid).
Proof.
  unfold new_tensor, allocate, new_chunk, add_tensor, reserve, torch_zeros,
    update_chunk, log.
  pres; apply preserves_modify; intros s; apply attrs_kept_same_objects;
    reflexivity.
Qed.

Lemma preserves_attrs_kept_access_resolve param access_type :
  preserves attrs_kept (access_resolve getsizeof param access_type).
Proof.
  unfold access_resolve, get_chunk_id, param_obj, tensor_id_to_chunk_id.
  pres; try apply preserves_attrs_kept_new_tensor;
    unfold update_param; apply preserves_modify; intros s;
    apply attrs_kept_alter_param; intros P; repeat split.
Qed.

Lemma preserves_attrs_kept_access_locate param access_type dev :
  preserves attrs_kept (access_locate getsizeof param access_type dev).
Proof.
  unfold access_locate. pres.
  - apply preserves_attrs_kept_access_resolve.
  - apply preserves_attrs_kept_relocated, preserves_relocated_access_relocate.
Qed.

Lemma access_placeholder_some param s P st shape g :
  objects s !! param = Some P ->
  data_status P = Some st -> st <> COMPUTE ->
  ps_shape P = Some shape -> ps_grad_tensor P = Some g ->
  access_placeholder param s
  = (Ok tt,
     set_objects
       (alter (set_data (mkTensor (next_storage s) (t_device g) 0 shape))
              param (objects s))
       (set_storages
          (<[next_storage s := replicate (shape_numel shape) 0]> (storages s))
          (S (next_storage s)) s)).
Proof.
  intros HP Hst Hne Hshape Hg. unfold access_placeholder.
  go_with (param_obj_some _ _ _ HP). rewrite Hst. go_total.
  destruct (decide (st <> COMPUTE)); [| contradiction].
  rewrite Hshape. go_total. rewrite Hg. go_total. go_total. reflexivity.
Qed.

Lemma access_unfold param access_type dev s :
  registered s param ->
  access getsizeof param access_type dev s
  = bind (access_locate getsizeof param access_type dev)
         (fun chunk_id => access_bind param access_type chunk_id) s.
Proof.
  intros Hreg. unfold access, access_locate.
  rewrite (bind_step _ _ _ _ _ (is_ps_param_spec param s)).
  rewrite bool_decide_eq_true_2 by exact Hreg. simpl.
  unfold bind. destruct (access_resolve _ _ _ s) as [[cid|e] s1]; [| reflexivity].
  destruct (access_relocate _ _ _ _ _ s1) as [[[]|e] s2]; reflexivity.
Qed.

(** C8. Accessing the gradient of a registered parameter whose data
    status is not [COMPUTE] does not fail on that account: once the
    gradient's chunk has been located and brought to the device, the access
    completes.  [param.data] is then a fresh zero-filled buffer of the
    parameter's shape on the device of the gradient; [param.grad] is
    bound to the gradient handle, and the gradient is marked [COMPUTE]
    on the parameter and in the chunk's range list. *)
Theorem access_grad_placeholder param compute_device s P st shape tid
    cid s1 c P1 g :
  objects s !! param = Some P ->
  is_Some (ps_data_id P) ->
  data_status P = Some st -> st <> COMPUTE ->
  ps_shape P = Some shape ->
  ps_grad_id P = Some tid ->
  access_locate getsizeof param GRAD compute_device s = (Ok cid, s1) ->
  chunks (chunk_list s1) !! cid = Some c ->
  objects s1 !! param = Some P1 ->
  ps_grad_tensor P1 = Some g ->
  exists s' P' c',
    access getsizeof param GRAD compute_device s = (Ok tt, s')
    /\ objects s' !! param = Some P'
    /\ data P' = mkTensor (next_storage s1) (t_device g) 0 shape
    /\ tensor_elems (data P') s' = replicate (shape_numel shape) 0
    /\ grad P' = Some g
    /\ grad_status P' = Some COMPUTE
    /\ data_status P' = Some st
    /\ chunks (chunk_list s') !! cid = Some c'
    /\ (is_Some (find_info tid (tensor_info_list c)) ->
        info_status tid c' = Some COMPUTE).
Proof.
  intros HP Hreg Hst Hne Hshape Hid Hloc Hc HP1 Hg.
  destruct (preserves_attrs_kept_access_locate _ _ _ _ _ _ Hloc _ _ HP)
    as (P1' & HP1' & _ & Hgid & Hds & _ & Hsh & _).
  rewrite HP1 in HP1'. inversion HP1'; subst P1'; clear HP1'.
  rewrite Hst in Hds. rewrite Hshape in Hsh. rewrite Hid in Hgid.
  rewrite access_unfold by (exists P; auto).
  rewrite (bind_step _ _ _ _ _ Hloc).
  eexists _, _, _. split.
  { unfold access_bind. go_with (getitem_some _ _ _ Hc). go_total. go_total.
    erewrite bind_step; cycle 1.
    { apply (access_placeholder_some _ _ (set_grad_status (Some COMPUTE) P1)
               st shape g); st_simpl; auto.
      rewrite lookup_alter_eq, HP1. reflexivity. }
    st_simpl.
    erewrite bind_step; cycle 1.
    { apply param_obj_some. st_simpl.
      rewrite lookup_alter_eq, lookup_alter_eq, HP1. reflexivity. }
    cbn [ps_grad_tensor set_data set_grad_status]. rewrite Hg. go_total.
    cbn [data set_data set_grad_status t_device].
    destruct (decide (t_device g = t_device g)); [| contradiction].
    go_total.
    erewrite bind_step; cycle 1.
    { apply getitem_some. st_simpl. rewrite lookup_alter_eq, Hc. reflexivity. }
    cbn [ps_grad_id set_data set_grad_status]. rewrite Hgid. go_total.
    reflexivity. }
  st_simpl. split.
  { rewrite !lookup_alter_eq, HP1. reflexivity. }
  simpl. split; [reflexivity |]. split.
  { unfold tensor_elems. simpl. rewrite lookup_insert_eq. simpl.
    rewrite drop_0, take_replicate, Nat.min_id. reflexivity. }
  split; [reflexivity |]. split; [reflexivity |]. split; [exact Hds |]. split.
  { rewrite !lookup_alter_eq, Hc. reflexivity. }
  intros Hinfo. apply info_status_set_status. exact Hinfo.
Qed.


(** ** Chunk assignments *)

#[local] Instance keeps_assignments_preorder : PreOrder keeps_assignments.
Proof.
  split.
  - intros s t k H. exact H.
  - intros s1 s2 s3 H12 H23 t k H. apply H23, H12, H.
Qed.

Lemma keeps_assignments_same s s' :
  chunk_tensor_index s' = chunk_tensor_index s ->
  chunks (chunk_list s') = chunks (chunk_list s) ->
  keeps_assignments s s'.
Proof. intros Hi Hc t k [H1 H2]. split; [rewrite Hi | rewrite Hc]; assumption. Qed.

Lemma keeps_assignments_alter f cid s :
  keeps_assignments s (set_chunks (alter f cid (chunks (chunk_list s))) s).
Proof.
  intros t k [H1 [c Hc]]. split; [exact H1 |]. st_simpl.
  rewrite lookup_alter. destruct (decide (cid = k)) as [->|Hne].
  - rewrite Hc. simpl. eauto.
  - rewrite Hc. eauto.
Qed.

Lemma preserves_keeps_assignments_relocated {A} (m : M A) :
  preserves relocated m -> preserves keeps_assignments m.
Proof.
  intros Hm s r s' H t k [H1 [c Hc]]. specialize (Hm _ _ _ H).
  split; [rewrite (rel_index _ _ Hm); exact H1 |].
  destruct (rel_chunks _ _ Hm _ _ Hc) as (c' & Hc' & _). eauto.
Qed.

Ltac keeps_leaf :=
  match goal with
  | |- preserves keeps_assignments (modify _) =>
      apply preserves_modify; intros ?;
      first [ apply keeps_assignments_same; reflexivity
            | apply keeps_assignments_alter ]
  | |- preserves keeps_assignments (update_chunk _ _) =>
      unfold update_chunk; apply preserves_modify; intros ?;
      apply keeps_assignments_alter
  end.

Lemma preserves_keeps_assignments_new_tensor shape dt tid :
  preserves keeps_assignments (new_tensor getsizeof shape dt tid).
Proof.
  unfold new_tensor. apply preserves_bind; [exact _ | | intros r].
  - unfold allocate, new_chunk, reserve, torch_zeros, update_chunk, log.
    pres; try keeps_leaf;
      (apply preserves_modify; intros s0 t0 k0 [H1 [c0 Hc0]];
       split; [exact H1 |]; st_simpl; rewrite lookup_insert;
       destruct (decide _); eauto).
  - apply preserves_bind; [exact _ | | intros _; apply preserves_ret; exact _].
    intros s r' s' H. unfold add_tensor in H. run_total H.
    destruct (chunk_tensor_index s !! tid) eqn:E.
    + inversion H; subst. reflexivity.
    + inversion H; subst. intros t k [H1 H2]. split; [| exact H2]. st_simpl.
      rewrite lookup_insert_ne; [exact H1 |]. congruence.
Qed.

Lemma preserves_keeps_assignments_access param access_type dev :
  preserves keeps_assignments (access getsizeof param access_type dev).
Proof.
  unfold access. apply preserves_bind; [exact _ | | intros managed].
  { unfold is_ps_param. pres. }
  destruct (negb managed); [apply preserves_raise; exact _ |].
  apply preserves_bind; [exact _ | | intros cid].
  { unfold access_resolve, get_chunk_id, param_obj, tensor_id_to_chunk_id,
      update_param.
    pres; try keeps_leaf; apply preserves_keeps_assignments_new_tensor. }
  apply preserves_bind; [exact _ | | intros _].
  { apply preserves_keeps_assignments_relocated,
      preserves_relocated_access_relocate. }
  unfold access_bind, access_placeholder, getitem, touch, log, update_chunk,
    update_param, param_obj, torch_zeros, set_status.
  pres; keeps_leaf.
Qed.

Lemma preserves_keeps_assignments_release_reset param access_type cid rs :
  preserves keeps_assignments (release_reset param access_type cid rs).
Proof.
  unfold release_reset, getitem, update_chunk, update_param, param_obj,
    torch_zeros, set_status.
  pres; keeps_leaf.
Qed.

Lemma get_chunk_id_state param access_type s r s' :
  get_chunk_id param access_type s = (r, s') -> s' = s.
Proof.
  unfold get_chunk_id, param_obj, tensor_id_to_chunk_id, bind, get, attr, ret,
    raise.
  destruct (objects s !! param) as [P|]; [| intros H; inversion H; reflexivity].
  destruct access_type.
  - destruct (ps_data_id P); intros H; inversion H; reflexivity.
  - destruct (ps_grad_id P); intros H; inversion H; reflexivity.
Qed.

(** A [release] takes the chunk assignment of a tensor away only by
    reclaiming its chunk, all of whose ranges are [FREE] at that time. *)
Lemma release_assignment param access_type rs s r s' tid cid :
  release getsizeof param access_type rs s = (r, s') ->
  assigned s tid cid ->
  assigned s' tid cid
  \/ exists cid0 s1 c1,
       release_reset param access_type cid0 rs s = (Ok tt, s1)
       /\ chunks (chunk_list s1) !! cid = Some c1
       /\ all_free c1 = true
       /\ chunk_tensor_index s' !! tid = None
       /\ chunks (chunk_list s') !! cid = None.
Proof.
  intros H Has. unfold release in H.
  apply bind_inv in H as [(o & s0 & Hget & H)|(e & Hget & _)].
  2:{ apply get_chunk_id_state in Hget. subst s'. left. exact Has. }
  apply get_chunk_id_state in Hget. subst s0.
  destruct o as [cid0|]; [| inversion H; subst; left; exact Has].
  apply bind_inv in H as [([] & s1 & Hreset & Hdel)|(e & Hreset & _)].
  2:{ left. exact (preserves_keeps_assignments_release_reset _ _ _ _ _ _ _
                     Hreset _ _ Has). }
  destruct (preserves_keeps_assignments_release_reset _ _ _ _ _ _ _
              Hreset _ _ Has) as [Hidx1 [c1 Hc1]].
  destruct (delete_free_chunks_ok _ _ _ Hdel)
    as (_ & _ & Hchunks & Hindex & _).
  destruct (all_free c1) eqn:Hfree.
  - right. exists cid0, s1, c1. split; [exact Hreset |].
    split; [exact Hc1 |]. split; [exact Hfree |]. split.
    + rewrite Hindex. apply map_lookup_filter_None. right.
      intros k Hk. simpl. rewrite Hidx1 in Hk. inversion Hk; subst k.
      unfold is_dead. rewrite Hc1, Hfree. discriminate.
    + rewrite Hchunks. apply map_lookup_filter_None. right.
      intros c' Hc'. simpl. rewrite Hc1 in Hc'. inversion Hc'; subst c'.
      rewrite Hfree. discriminate.
  - left. split.
    + rewrite Hindex. apply map_lookup_filter_Some. split; [exact Hidx1 |].
      simpl. unfold is_dead. rewrite Hc1. exact Hfree.
    + exists c1. rewrite Hchunks. apply map_lookup_filter_Some. auto.
Qed.


(** ** Registration *)

Lemma is_ps_data_some p s P :
  objects s !! p = Some P ->
  is_ps_data p s = (Ok (bool_decide (is_Some (ps_data_id P))), s).
Proof. intros H. unfold is_ps_data, bind, get, ret. rewrite H. reflexivity. Qed.

Lemma is_ps_grad_some p s P :
  objects s !! p = Some P ->
  is_ps_grad p s = (Ok (bool_decide (is_Some (ps_grad_id P))), s).
Proof. intros H. unfold is_ps_grad, bind, get, ret. rewrite H. reflexivity. Qed.

Lemma not_registered s param P :
  objects s !! param = Some P -> ps_data_id P = None -> ~ registered s param.
Proof.
  intros HP Hid (P' & HP' & [x Hx]). rewrite HP in HP'. inversion HP'; subst.
  congruence.
Qed.

(** [_init_ps_param] on a parameter the client has not seen: it
    completes; both statuses start as [FREE]; the data tensor, and the
    gradient tensor of a parameter that requires a gradient, get the next
    identifiers and are bound to no chunk. *)
Lemma init_ps_param_fresh param s P :
  objects s !! param = Some P ->
  ps_data_id P = None -> ps_grad_id P = None ->
  index_fresh s ->
  exists s1 P1,
    _init_ps_param param s = (Ok tt, s1)
    /\ objects s1 !! param = Some P1
    /\ data_status P1 = Some FREE
    /\ grad_status P1 = Some FREE
    /\ ps_data_id P1 = Some (ps_id s + 1)
    /\ ps_data_tensor P1 = None
    /\ chunk_tensor_index s1 !! (ps_id s + 1) = None
    /\ param_data_dict s1 !! (ps_id s + 1) = Some param
    /\ (requires_grad P = true ->
        ps_grad_id P1 = Some (ps_id s + 2)
        /\ ps_grad_tensor P1 = None
        /\ chunk_tensor_index s1 !! (ps_id s + 2) = None
        /\ param_grad_dict s1 !! (ps_id s + 2) = Some param)
    /\ (requires_grad P = false -> ps_grad_id P1 = None).
Proof.
  intros HP Hdid Hgid Hfresh.
  assert (Hidx1 : chunk_tensor_index s !! (ps_id s + 1) = None)
    by (apply Hfresh; lia).
  assert (Hidx2 : chunk_tensor_index s !! (ps_id s + 2) = None)
    by (apply Hfresh; lia).
  assert (Hrun : forall k : M unit,
    _init_ps_param param s
    = (if negb (bool_decide (is_Some (ps_grad_id P))) && requires_grad P
       then
         tid <- generate_id ;;
         update_param param (set_ps_grad_id (Some tid)) ;;
         modify (fun s => set_param_grad_dict
                            (<[tid := param]> (param_grad_dict s)) s) ;;
         update_param param (set_ps_grad_tensor None)
       else ret tt)
        (set_objects
           (alter (set_ps_data_tensor None) param
              (alter (set_ps_data_id (Some (ps_id s + 1))) param
                 (alter (fun P => set_grad_status (Some FREE)
                           (set_data_status (Some FREE)
                              (set_ps_shape (Some (t_shape (data P)))
                                 (set_ps_numel
                                    (Some (shape_numel (t_shape (data P)))) P))))
                    param (objects s))))
           (set_param_data_dict (<[ps_id s + 1 := param]> (param_data_dict s))
              (set_ps_id (ps_id s + 1) s)))).
  { intros _. unfold _init_ps_param.
    rewrite (bind_step _ _ _ _ _ (is_ps_param_spec param s)).
    rewrite bool_decide_eq_false_2 by exact (not_registered _ _ _ HP Hdid).
    rewrite (bind_step _ _ _ _ _ (param_obj_some _ _ _ HP)).
    go_total.
    erewrite bind_step; cycle 1.
    { apply is_ps_data_some. st_simpl. rewrite lookup_alter_eq, HP.
      reflexivity. }
    cbn [ps_data_id set_grad_status set_data_status set_ps_shape set_ps_numel].
    rewrite Hdid, bool_decide_eq_false_2 by (apply is_Some_None). cbn [negb].
    erewrite bind_step; cycle 1.
    { repeat go_total. reflexivity. }
    st_simpl.
    erewrite bind_step; cycle 1.
    { apply is_ps_grad_some. st_simpl. rewrite !lookup_alter_eq, HP.
      reflexivity. }
    reflexivity. }
  rewrite (Hrun (ret tt)). clear Hrun.
  rewrite Hgid, bool_decide_eq_false_2 by (apply is_Some_None). cbn [negb andb].
  destruct (requires_grad P) eqn:Hrg.
  - eexists _, _. split.
    { repeat go_total. reflexivity. }
    st_simpl. split; [rewrite !lookup_alter_eq, HP; reflexivity |]. simpl.
    repeat split; try reflexivity; try discriminate; try exact Hidx1.
    + apply lookup_insert_eq.
    + replace (ps_id s + 1 + 1) with (ps_id s + 2) by lia. reflexivity.
    + exact Hidx2.
    + replace (ps_id s + 1 + 1) with (ps_id s + 2) by lia. apply lookup_insert_eq.
  - eexists _, _. split; [reflexivity |].
    st_simpl. split; [rewrite !lookup_alter_eq, HP; reflexivity |]. simpl.
    repeat split; try reflexivity; try discriminate; try exact Hidx1;
      try (intros _; exact Hgid).
    apply lookup_insert_eq.
Qed.

(** The first allocation write of a tensor: once [new_tensor] has given
    it a range, the handle is stored with [store], the payload is copied
    in and the view and status are set with [finish]. *)
Lemma convert_ok (store : Tensor -> nat -> Param -> Param)
    (bind_view : Tensor -> Param -> Param) (mark : Param -> Param)
    shape dt tid param vals s s2 P :
  (r <- new_tensor getsizeof shape dt tid ;;
   update_param param (store r.1 r.2) ;;
   s <- get ;;
   tensor_copy_ r.1 (vals s) ;;
   update_param param (bind_view r.1) ;;
   update_param param mark) s = (Ok tt, s2) ->
  objects s !! param = Some P ->
  exists cid c t info,
    chunk_tensor_index s !! tid = None
    /\ assigned s2 tid cid
    /\ chunks (chunk_list s2) !! cid = Some c
    /\ info ∈ tensor_info_list c
    /\ tensor_id info = tid /\ status info = HOLD
    /\ t_storage t = payload c
    /\ objects s2 !! param = Some (mark (bind_view t (store t cid P))).
Proof.
  intros H HP.
  apply bind_ok_inv in H as ([t cid] & s1 & Hnew & H).
  apply new_tensor_ok in Hnew
    as ((c & Hc & Hst & _ & _ & info & Hin & Hid & Hhold)
        & _ & Hobj & Hunbound & Hidx & _).
  run_total H. run_total H. run_total H. run_total H.
  unfold update_param, modify in H. inversion H; subst s2; clear H. st_simpl.
  exists cid, c, t, info. split; [exact Hunbound |]. split.
  { split; [st_simpl; rewrite Hidx; apply lookup_insert_eq |].
    st_simpl. eauto. }
  split; [exact Hc |]. repeat split; auto.
  rewrite !lookup_alter_eq, Hobj, HP. reflexivity.
Qed.

(** [_convert_to_ps_data]: a completed first allocation write leaves
    the data tensor in [HOLD], on the parameter and in a range of the
    chunk it is now bound to. *)
Lemma convert_to_ps_data_ok param s P tid s2 :
  _convert_to_ps_data getsizeof param s = (Ok tt, s2) ->
  objects s !! param = Some P ->
  ps_data_id P = Some tid ->
  exists cid c P2 info,
    chunk_tensor_index s !! tid = None
    /\ assigned s2 tid cid
    /\ chunks (chunk_list s2) !! cid = Some c
    /\ info ∈ tensor_info_list c
    /\ tensor_id info = tid /\ status info = HOLD
    /\ objects s2 !! param = Some P2
    /\ data_status P2 = Some HOLD
    /\ ps_data_tensor P2 = Some (data P2)
    /\ t_storage (data P2) = payload c.
Proof.
  intros H HP Hid. unfold _convert_to_ps_data in H. run_param H HP.
  apply bind_ok_inv in H as (shape & s0 & Hshape & H).
  apply attr_ok in Hshape as [Hshape ->].
  rewrite Hid in H. run_total H.
  destruct (convert_ok
              (fun t k P => set_ps_data_chunk_id (Some k)
                              (set_ps_data_tensor (Some t) P))
              set_data (set_data_status (Some HOLD))
              shape (dtype P) tid param (tensor_elems (data P)) s s2 P)
    as (cid & c & t & info & Hun & Has & Hc & Hin & Hti & Hst & Hsto & HP2).
  { rewrite <- H. unfold bind.
    destruct (new_tensor _ _ _ _ s) as [[r|e] s1]; reflexivity. }
  { exact HP. }
  eexists cid, c, _, info. split; [exact Hun |]. split; [exact Has |].
  split; [exact Hc |]. split; [exact Hin |]. split; [exact Hti |].
  split; [exact Hst |]. split; [exact HP2 |]. simpl.
  split; [reflexivity |]. split; [reflexivity | exact Hsto].
Qed.

(** [_convert_to_ps_grad], for a parameter that has a gradient. *)
Lemma convert_to_ps_grad_ok param s P g tid s2 :
  _convert_to_ps_grad getsizeof param s = (Ok tt, s2) ->
  objects s !! param = Some P ->
  grad P = Some g ->
  ps_grad_id P = Some tid ->
  exists cid c P2 info,
    chunk_tensor_index s !! tid = None
    /\ assigned s2 tid cid
    /\ chunks (chunk_list s2) !! cid = Some c
    /\ info ∈ tensor_info_list c
    /\ tensor_id info = tid /\ status info = HOLD
    /\ objects s2 !! param = Some P2
    /\ grad_status P2 = Some HOLD
    /\ ps_grad_tensor P2 = grad P2
    /\ (exists t, grad P2 = Some t /\ t_storage t = payload c).
Proof.
  intros H HP Hg Hid. unfold _convert_to_ps_grad in H. run_param H HP.
  rewrite Hg in H.
  apply bind_ok_inv in H as (shape & s0 & Hshape & H).
  apply attr_ok in Hshape as [Hshape ->].
  rewrite Hid in H. run_total H.
  destruct (convert_ok
              (fun t k P => set_ps_gard_chunk_id (Some k)
                              (set_ps_grad_tensor (Some t) P))
              (fun t => set_grad (Some t)) (set_grad_status (Some HOLD))
              shape (dtype P) tid param (tensor_elems g) s s2 P)
    as (cid & c & t & info & Hun & Has & Hc & Hin & Hti & Hst & Hsto & HP2).
  { rewrite <- H. unfold bind.
    destruct (new_tensor _ _ _ _ s) as [[r|e] s1]; reflexivity. }
  { exact HP. }
  eexists cid, c, _, info. split; [exact Hun |]. split; [exact Has |].
  split; [exact Hc |]. split; [exact Hin |]. split; [exact Hti |].
  split; [exact Hst |]. split; [exact HP2 |]. simpl.
  split; [reflexivity |]. split; [reflexivity |].
  exists t. split; [reflexivity | exact Hsto].
Qed.


(** ** The invariant *)

Lemma find_info_is_Some tid l :
  is_Some (find_info tid l) <-> tid ∈ tensor_id <$> l.
Proof.
  unfold find_info. induction l as [|info l IH]; simpl.
  - split; [intros [x Hx]; discriminate | intros H; apply elem_of_nil in H; contradiction].
  - destruct (bool_decide (tensor_id info = tid)) eqn:E.
    + apply bool_decide_eq_true in E. subst tid. split; [intros _; left | eauto].
    + apply bool_decide_eq_false in E. rewrite IH. split.
      * intros H. right. exact H.
      * intros H. apply elem_of_cons in H as [H|H]; [congruence | exact H].
Qed.

#[local] Instance same_layout_equiv : Equivalence same_layout.
Proof.
  split.
  - intros c. repeat split.
  - intros c c' (H1 & H2 & H3). repeat split; congruence.
  - intros c1 c2 c3 (H1 & H2 & H3) (G1 & G2 & G3). repeat split; congruence.
Qed.

#[local] Instance same_binding_equiv : Equivalence same_binding.
Proof.
  split.
  - intros P. repeat split.
  - intros P P' (H1 & H2 & H3 & H4). repeat split; congruence.
  - intros P1 P2 P3 (H1 & H2 & H3 & H4) (G1 & G2 & G3 & G4).
    repeat split; congruence.
Qed.

#[local] Instance wf_frame_preorder : PreOrder wf_frame.
Proof.
  split.
  - intros s. constructor; reflexivity.
  - intros s1 s2 s3 [i1 d1 g1 n1 p1 c1 o1] [i2 d2 g2 n2 p2 c2 o2].
    constructor; try congruence; intros k; etransitivity; eauto.
Qed.

Lemma frame_chunk_back s s' cid c' :
  wf_frame s s' -> chunks (chunk_list s') !! cid = Some c' ->
  exists c, chunks (chunk_list s) !! cid = Some c /\ same_layout c c'.
Proof.
  intros Hf Hc. pose proof (fr_chunks _ _ Hf cid) as H. rewrite Hc in H.
  inversion H; subst. eauto.
Qed.

Lemma frame_chunk_fwd s s' cid c :
  wf_frame s s' -> chunks (chunk_list s) !! cid = Some c ->
  exists c', chunks (chunk_list s') !! cid = Some c' /\ same_layout c c'.
Proof.
  intros Hf Hc. pose proof (fr_chunks _ _ Hf cid) as H. rewrite Hc in H.
  inversion H; subst. eauto.
Qed.

Lemma frame_param_back s s' p P' :
  wf_frame s s' -> objects s' !! p = Some P' ->
  exists P, objects s !! p = Some P /\ same_binding P P'.
Proof.
  intros Hf HP. pose proof (fr_objects _ _ Hf p) as H. rewrite HP in H.
  inversion H; subst. eauto.
Qed.

Lemma frame_param_fwd s s' p P :
  wf_frame s s' -> objects s !! p = Some P ->
  exists P', objects s' !! p = Some P' /\ same_binding P P'.
Proof.
  intros Hf HP. pose proof (fr_objects _ _ Hf p) as H. rewrite HP in H.
  inversion H; subst. eauto.
Qed.

Lemma same_binding_id access_type P P' :
  same_binding P P' -> ps_id_of access_type P' = ps_id_of access_type P.
Proof. intros (H1 & H2 & _). destruct access_type; simpl; congruence. Qed.

Lemma same_binding_tensor access_type P P' :
  same_binding P P' ->
  ps_tensor_of access_type P' = ps_tensor_of access_type P.
Proof. intros (_ & _ & H3 & H4). destruct access_type; simpl; congruence. Qed.

Lemma owner_frame s s' access_type tid p :
  param_data_dict s' = param_data_dict s ->
  param_grad_dict s' = param_grad_dict s ->
  owner s access_type tid p -> owner s' access_type tid p.
Proof. intros Hd Hg. unfold owner. rewrite Hd, Hg. auto. Qed.

(** The invariant only looks at what a frame leaves alone. *)
Lemma wf_frame_wf s s' : wf s -> wf_frame s s' -> wf s'.
Proof.
  intros Hwf Hf. constructor.
  - intros tid cid Hidx. rewrite (fr_index _ _ Hf) in Hidx.
    destruct (wf_index_chunk _ Hwf _ _ Hidx) as (c & Hc & Hinfo).
    destruct (frame_chunk_fwd _ _ _ _ Hf Hc) as (c' & Hc' & _ & _ & Hids).
    exists c'. split; [exact Hc' |].
    apply find_info_is_Some. rewrite Hids. apply find_info_is_Some, Hinfo.
  - intros cid c' info Hc' Hin. rewrite (fr_index _ _ Hf).
    destruct (frame_chunk_back _ _ _ _ Hf Hc') as (c & Hc & _ & _ & Hids).
    assert (Hmem : tensor_id info ∈ tensor_id <$> tensor_info_list c)
      by (rewrite <- Hids; apply list_elem_of_fmap_2; exact Hin).
    apply list_elem_of_fmap in Hmem as (info0 & -> & Hin0).
    exact (wf_range_index _ Hwf _ _ _ Hc Hin0).
  - intros p P' access_type tid HP' Hid.
    destruct (frame_param_back _ _ _ _ Hf HP') as (P & HP & Hsb).
    rewrite (same_binding_id _ _ _ Hsb) in Hid.
    apply (owner_frame s s'); [apply Hf | apply Hf |].
    exact (wf_owner _ Hwf _ _ _ _ HP Hid).
  - intros tid p Hd. rewrite (fr_data_dict _ _ Hf) in Hd.
    destruct (wf_data_dict _ Hwf _ _ Hd) as (P & HP & Hid).
    destruct (frame_param_fwd _ _ _ _ Hf HP) as (P' & HP' & (H1 & _)).
    exists P'. split; [exact HP' | congruence].
  - intros tid p Hd. rewrite (fr_grad_dict _ _ Hf) in Hd.
    destruct (wf_grad_dict _ Hwf _ _ Hd) as (P & HP & Hid).
    destruct (frame_param_fwd _ _ _ _ Hf HP) as (P' & HP' & (_ & H2 & _)).
    exists P'. split; [exact HP' | congruence].
  - intros p P' access_type tid cid c' HP' Hid Hidx Hc'.
    destruct (frame_param_back _ _ _ _ Hf HP') as (P & HP & Hsb).
    destruct (frame_chunk_back _ _ _ _ Hf Hc') as (c & Hc & Hpay & Hdev & _).
    rewrite (same_binding_id _ _ _ Hsb) in Hid.
    rewrite (fr_index _ _ Hf) in Hidx.
    destruct (wf_handle _ Hwf _ _ _ _ _ _ HP Hid Hidx Hc) as (t & Ht & H1 & H2).
    exists t. rewrite (same_binding_tensor _ _ _ Hsb).
    split; [exact Ht |]. split; congruence.
  - intros cid [c' Hc']. rewrite (fr_next_chunk_id _ _ Hf).
    destruct (frame_chunk_back _ _ _ _ Hf Hc') as (c & Hc & _).
    apply (wf_chunk_ids _ Hwf). eauto.
  - intros tid Hlt. rewrite (fr_ps_id _ _ Hf) in Hlt.
    rewrite (fr_index _ _ Hf), (fr_data_dict _ _ Hf), (fr_grad_dict _ _ Hf).
    exact (wf_ids _ Hwf _ Hlt).
  - intros p P' HP' Hg.
    destruct (frame_param_back _ _ _ _ Hf HP') as (P & HP & (H1 & H2 & _)).
    rewrite H1. apply (wf_grad_data _ Hwf _ _ HP). rewrite <- H2. exact Hg.
Qed.

(** *** Steps that are frames *)

Lemma wf_frame_same s s' :
  chunk_list s' = chunk_list s ->
  ps_id s' = ps_id s ->
  param_data_dict s' = param_data_dict s ->
  param_grad_dict s' = param_grad_dict s ->
  chunk_tensor_index s' = chunk_tensor_index s ->
  objects s' = objects s ->
  wf_frame s s'.
Proof.
  intros H1 H2 H3 H4 H5 H6. constructor; try congruence; intros k.
  - rewrite H1. reflexivity.
  - rewrite H6. reflexivity.
Qed.

Lemma wf_frame_alter_chunk f cid s :
  (forall c, same_layout c (f c)) ->
  wf_frame s (set_chunks (alter f cid (chunks (chunk_list s))) s).
Proof.
  intros Hf. constructor; try reflexivity. intros k. st_simpl.
  rewrite lookup_alter. destruct (decide (cid = k)) as [->|Hne].
  - destruct (chunks (chunk_list s) !! k); constructor. apply Hf.
  - reflexivity.
Qed.

Lemma wf_frame_alter_param f p s :
  (forall P, same_binding P (f P)) ->
  wf_frame s (set_objects (alter f p (objects s)) s).
Proof.
  intros Hf. constructor; try reflexivity. intros k. st_simpl.
  rewrite lookup_alter. destruct (decide (p = k)) as [->|Hne].
  - destruct (objects s !! k); constructor. apply Hf.
  - reflexivity.
Qed.

Lemma same_layout_set_status tid st c :
  same_layout c (set_tensor_info_list
                   (set_status_infos tid st (tensor_info_list c)) c).
Proof.
  repeat split. simpl. unfold set_status_infos.
  rewrite <- list_fmap_compose. apply list_fmap_ext. intros i info _. simpl.
  destruct (bool_decide _); reflexivity.
Qed.

Ltac frame_leaf :=
  match goal with
  | |- preserves wf_frame (modify _) =>
      apply preserves_modify; intros ?;
      first [ apply wf_frame_same; reflexivity
            | apply wf_frame_alter_param; intros ?; repeat split
            | apply wf_frame_alter_chunk; intros ?;
              first [ apply same_layout_set_status | repeat split ] ]
  end.

Lemma preserves_wf_frame_access_bind param access_type cid :
  preserves wf_frame (access_bind param access_type cid).
Proof.
  unfold access_bind, access_placeholder, getitem, touch, log, set_status,
    update_chunk, update_param, param_obj, torch_zeros.
  pres; frame_leaf.
Qed.

Lemma preserves_wf_frame_release_reset param access_type cid rs :
  preserves wf_frame (release_reset param access_type cid rs).
Proof.
  unfold release_reset, getitem, set_status, update_chunk, update_param,
    param_obj, torch_zeros.
  pres; frame_leaf.
Qed.

Lemma preserves_wf_frame_get_chunk_id param access_type :
  preserves wf_frame (get_chunk_id param access_type).
Proof. unfold get_chunk_id, param_obj, tensor_id_to_chunk_id. pres. Qed.

(** *** Reclamation *)

Lemma wf_delete_free_chunks s r s' :
  wf s -> delete_free_chunks getsizeof s = (r, s') -> wf s'.
Proof.
  intros Hwf H. unfold delete_free_chunks, bind, log, modify in H.
  inversion H; subst r s'; clear H.
  assert (Hlive : forall cid c,
            chunks (chunk_list s) !! cid = Some c -> all_free c = false ->
            is_dead (chunks (chunk_list s)) cid = false).
  { intros cid c Hc Hf. unfold is_dead. rewrite Hc. exact Hf. }
  constructor; st_simpl.
  - intros tid cid Hidx. apply map_lookup_filter_Some in Hidx as [Hidx Hd].
    simpl in Hd. destruct (wf_index_chunk _ Hwf _ _ Hidx) as (c & Hc & Hinfo).
    exists c. split; [| exact Hinfo]. apply map_lookup_filter_Some.
    split; [exact Hc |]. simpl. unfold is_dead in Hd. rewrite Hc in Hd. exact Hd.
  - intros cid c info Hc Hin. apply map_lookup_filter_Some in Hc as [Hc Hf].
    simpl in Hf. apply map_lookup_filter_Some.
    split; [exact (wf_range_index _ Hwf _ _ _ Hc Hin) |]. simpl.
    exact (Hlive _ _ Hc Hf).
  - intros p P access_type tid HP Hid.
    exact (wf_owner _ Hwf _ _ _ _ HP Hid).
  - exact (wf_data_dict _ Hwf).
  - exact (wf_grad_dict _ Hwf).
  - intros p P access_type tid cid c HP Hid Hidx Hc.
    apply map_lookup_filter_Some in Hidx as [Hidx _].
    apply map_lookup_filter_Some in Hc as [Hc _].
    exact (wf_handle _ Hwf _ _ _ _ _ _ HP Hid Hidx Hc).
  - intros cid [c Hc]. apply map_lookup_filter_Some in Hc as [Hc _].
    apply (wf_chunk_ids _ Hwf). eauto.
  - intros tid Hlt. destruct (wf_ids _ Hwf _ Hlt) as (H1 & H2 & H3).
    split; [| auto]. apply map_lookup_filter_None. left. exact H1.
  - exact (wf_grad_data _ Hwf).
Qed.

(** [release] keeps the invariant. *)
Lemma wf_release param access_type rs s r s' :
  wf s -> release getsizeof param access_type rs s = (r, s') -> wf s'.
Proof.
  intros Hwf H. unfold release in H.
  apply bind_inv in H as [(o & s0 & Hget & H)|(e & Hget & _)].
  2:{ apply get_chunk_id_state in Hget. subst s'. exact Hwf. }
  apply get_chunk_id_state in Hget. subst s0.
  destruct o as [cid|]; [| inversion H; subst; exact Hwf].
  apply bind_inv in H as [([] & s1 & Hreset & Hdel)|(e & Hreset & _)].
  - eapply wf_delete_free_chunks; [| exact Hdel].
    eapply wf_frame_wf; [exact Hwf |].
    exact (preserves_wf_frame_release_reset _ _ _ _ _ _ _ Hreset).
  - eapply wf_frame_wf; [exact Hwf |].
    exact (preserves_wf_frame_release_reset _ _ _ _ _ _ _ Hreset).
Qed.

(** *** Moving a chunk *)

Lemma rebind_all st dev info s s' :
  rebind st dev info s = (Ok tt, s') ->
  (exists objs, s' = set_objects objs s)
  /\ forall p, option_Forall2 (rebound s [info] st dev p)
                              (objects s !! p) (objects s' !! p).
Proof.
  intros H. split.
  { destruct (rebind_objects st dev info s) as [objs Ho]. rewrite H in Ho.
    inversion Ho. eauto. }
  assert (Hhit : forall k p, hit s [info] k p <-> owner s k (tensor_id info) p).
  { intros k p. unfold hit. rewrite Exists_cons, Exists_nil. tauto. }
  unfold rebind in H. run_total H. intros p.
  destruct (param_data_dict s !! tensor_id info) as [q|] eqn:Hdd;
    [| destruct (param_grad_dict s !! tensor_id info) as [q|] eqn:Hgd].
  - unfold update_param, modify in H. inversion H; subst s'; clear H. st_simpl.
    rewrite lookup_alter. destruct (decide (q = p)) as [->|Hne].
    + destruct (objects s !! p) as [P|]; constructor.
      split; [reflexivity |]. split; [reflexivity |].
      intros k. rewrite Hhit. destruct k; simpl; split.
      * intros _. eexists. split; [reflexivity |]. auto.
      * intros Hn. contradiction.
      * intros [Hn _]. congruence.
      * intros _. reflexivity.
    + destruct (objects s !! p) as [P|]; constructor.
      split; [reflexivity |]. split; [reflexivity |].
      intros k. rewrite Hhit. destruct k; simpl; split; try reflexivity.
      * intros Ho. congruence.
      * intros [Hn _]. congruence.
  - unfold update_param, modify in H. inversion H; subst s'; clear H. st_simpl.
    rewrite lookup_alter. destruct (decide (q = p)) as [->|Hne].
    + destruct (objects s !! p) as [P|]; constructor.
      split; [reflexivity |]. split; [reflexivity |].
      intros k. rewrite Hhit. destruct k; simpl; split.
      * intros Ho. congruence.
      * intros _. reflexivity.
      * intros _. eexists. split; [reflexivity |]. auto.
      * intros Hn. exfalso. apply Hn. auto.
    + destruct (objects s !! p) as [P|]; constructor.
      split; [reflexivity |]. split; [reflexivity |].
      intros k. rewrite Hhit. destruct k; simpl; split; try reflexivity.
      * intros Ho. congruence.
      * intros [_ Ho]. congruence.
  - inversion H; subst s'; clear H.
    destruct (objects s !! p) as [P|]; constructor.
    split; [reflexivity |]. split; [reflexivity |].
    intros k. rewrite Hhit. destruct k; simpl; split; try reflexivity.
    + intros Ho. congruence.
    + intros [_ Ho]. congruence.
Qed.

Lemma hit_set_objects objs s l k p :
  hit (set_objects objs s) l k p <-> hit s l k p.
Proof. reflexivity. Qed.

Lemma for_each_rebind_all st dev l s s' :
  for_each l (rebind st dev) s = (Ok tt, s') ->
  (exists objs, s' = set_objects objs s)
  /\ forall p, option_Forall2 (rebound s l st dev p)
                              (objects s !! p) (objects s' !! p).
Proof.
  revert s. induction l as [|info l IH]; intros s H; simpl in H.
  - inversion H; subst s'. split.
    + exists (objects s). symmetry. apply set_objects_same.
    + intros p. destruct (objects s !! p) as [P|]; constructor.
      split; [reflexivity |]. split; [reflexivity |].
      intros k. unfold hit. rewrite Exists_nil. split; [tauto | reflexivity].
  - apply bind_ok_inv in H as ([] & s1 & Hreb & H).
    destruct (rebind_all _ _ _ _ _ Hreb) as [[o1 ->] Hone].
    destruct (IH _ H) as [[o2 ->] Hrest]. split; [eexists; reflexivity |].
    intros p. specialize (Hone p). specialize (Hrest p). st_simpl.
    destruct Hone as [P P1 (Hd1 & Hg1 & Hk1)|]; [| inversion Hrest; constructor].
    inversion Hrest as [P1' P' (Hd2 & Hg2 & Hk2)|]; subst. constructor.
    split; [congruence |]. split; [congruence |].
    intros k. destruct (Hk1 k) as [Hk1y Hk1n]. destruct (Hk2 k) as [Hk2y Hk2n].
    assert (Hcons : hit s (info :: l) k p
                    <-> hit s [info] k p \/ hit s l k p).
    { unfold hit. rewrite !Exists_cons, Exists_nil. tauto. }
    destruct (decide (hit s l k p)) as [Hl|Hl].
    + split; [intros _; apply Hk2y; exact Hl |].
      intros Hn. exfalso. apply Hn, Hcons. auto.
    + split.
      * intros Hh. apply Hcons in Hh as [Hh|Hh]; [| contradiction].
        rewrite (Hk2n Hl). apply Hk1y. exact Hh.
      * intros Hn. rewrite (Hk2n Hl). apply Hk1n. intros Hh.
        apply Hn, Hcons. auto.
Qed.

(** The state in which a [Chunk.move] that has to move runs its
    rebinding loop. *)
Lemma Chunk_move_run cid target s s' c :
  Chunk_move getsizeof cid target s = (Ok tt, s') ->
  chunks (chunk_list s) !! cid = Some c ->
  device c <> target ->
  exists mgr sto,
    for_each (tensor_info_list c) (rebind (next_storage s) target)
      (set_chunks (alter (set_residence target (next_storage s)) cid
                         (chunks (chunk_list s)))
         (set_ps_manager mgr
            (set_storages sto (S (next_storage s))
               (set_calls (CallMove cid target :: calls s) s))))
    = (Ok tt, s').
Proof.
  intros H Hc Hd. unfold Chunk_move in H. run_getitem H Hc. run_total H.
  destruct (decide (device c = target)); [contradiction |].
  apply bind_ok_inv in H as ([] & s1 & Hres & H).
  unfold reserve, bind, get, raise, modify in Hres.
  destruct (decide _) in Hres; [discriminate |].
  inversion Hres; subst s1; clear Hres.
  run_total H. cbv zeta in H. run_total H. run_total H. run_total H.
  eexists _, _. exact H.
Qed.

Lemma owner_has_id s access_type tid p P :
  wf s -> owner s access_type tid p -> objects s !! p = Some P ->
  ps_id_of access_type P = Some tid.
Proof.
  intros Hwf Hown HP. destruct access_type; simpl in *.
  - destruct (wf_data_dict _ Hwf _ _ Hown) as (P' & HP' & Hid). congruence.
  - destruct Hown as [_ Hown].
    destruct (wf_grad_dict _ Hwf _ _ Hown) as (P' & HP' & Hid). congruence.
Qed.

(** A completed [Chunk.move] keeps the invariant. *)
Lemma wf_Chunk_move cid target s s' :
  wf s -> Chunk_move getsizeof cid target s = (Ok tt, s') -> wf s'.
Proof.
  intros Hwf H.
  destruct (Chunk_move_ok _ _ _ _ H) as (c & Hc & _ & Hcase).
  destruct (decide (device c = target)) as [Hd|Hd].
  { eapply wf_frame_wf; [exact Hwf |].
    unfold Chunk_move in H. run_getitem H Hc. run_total H.
    destruct (decide (device c = target)); [| contradiction].
    inversion H; subst s'. apply wf_frame_same; reflexivity. }
  clear Hcase.
  destruct (Chunk_move_run _ _ _ _ _ H Hc Hd) as (mgr & sto & Hloop).
  destruct (for_each_rebind_all _ _ _ _ _ Hloop) as [[objs ->] Hreb].
  clear H Hloop. st_simpl.
  set (st := next_storage s) in *.
  assert (Hch : forall k c',
            alter (set_residence target st) cid (chunks (chunk_list s)) !! k
            = Some c' ->
            exists c0, chunks (chunk_list s) !! k = Some c0
                       /\ tensor_info_list c' = tensor_info_list c0
                       /\ ((k = cid /\ c0 = c /\ payload c' = st
                            /\ device c' = target)
                           \/ (k <> cid /\ c' = c0))).
  { intros k c'. rewrite lookup_alter. destruct (decide (cid = k)) as [<-|Hne].
    - rewrite Hc. simpl. intros Heq. inversion Heq; subst c'. exists c.
      split; [reflexivity |]. split; [reflexivity |]. left. auto.
    - intros Hk. exists c'. split; [exact Hk |]. split; [reflexivity |].
      right. split; [congruence | reflexivity]. }
  assert (Hobj : forall p P',
            objs !! p = Some P' ->
            exists P, objects s !! p = Some P
                      /\ rebound s (tensor_info_list c) st target p P P').
  { intros p P' HP'. specialize (Hreb p). rewrite HP' in Hreb.
    inversion Hreb as [P P'' Hr|]; subst. exists P. split; [congruence |].
    exact Hr. }
  assert (Hid : forall k P P' p, rebound s (tensor_info_list c) st target p P P' ->
                                 ps_id_of k P' = ps_id_of k P).
  { intros k P P' p (H1 & H2 & _). destruct k; simpl; congruence. }
  constructor; st_simpl.
  - intros tid k Hidx. destruct (wf_index_chunk _ Hwf _ _ Hidx) as (c0 & Hc0 & Hi).
    rewrite lookup_alter. destruct (decide (cid = k)) as [<-|Hne].
    + rewrite Hc0. simpl. eexists. split; [reflexivity |]. exact Hi.
    + eauto.
  - intros k c' info Hc' Hin. destruct (Hch _ _ Hc') as (c0 & Hc0 & Hl & _).
    rewrite Hl in Hin. exact (wf_range_index _ Hwf _ _ _ Hc0 Hin).
  - intros p P' k tid HP' Hi. destruct (Hobj _ _ HP') as (P & HP & Hr).
    rewrite (Hid _ _ _ _ Hr) in Hi. exact (wf_owner _ Hwf _ _ _ _ HP Hi).
  - intros tid p Hd'. destruct (wf_data_dict _ Hwf _ _ Hd') as (P & HP & Hi).
    specialize (Hreb p). rewrite HP in Hreb.
    inversion Hreb as [P0 P' (H1 & _)|]; subst. exists P'.
    split; [reflexivity | congruence].
  - intros tid p Hd'. destruct (wf_grad_dict _ Hwf _ _ Hd') as (P & HP & Hi).
    specialize (Hreb p). rewrite HP in Hreb.
    inversion Hreb as [P0 P' (_ & H2 & _)|]; subst. exists P'.
    split; [reflexivity | congruence].
  - intros p P' k tid k' c' HP' Hi Hidx Hc'.
    destruct (Hobj _ _ HP') as (P & HP & Hr).
    pose proof Hi as Hi0. rewrite (Hid _ _ _ _ Hr) in Hi0.
    destruct Hr as (_ & _ & Hk). destruct (Hk k) as [Hy Hn].
    destruct (Hch _ _ Hc') as (c0 & Hc0 & Hl & [(-> & -> & Hp & Hdv)|(Hne & ->)]).
    + destruct Hy as (t & Ht & Hts & Htd).
      { destruct (wf_index_chunk _ Hwf _ _ Hidx) as (c1 & Hc1 & Hinfo).
        rewrite Hc in Hc1. inversion Hc1; subst c1.
        apply find_info_elem in Hinfo as (info & Hin & Htid).
        apply Exists_exists. exists info. split; [exact Hin |].
        rewrite Htid. exact (wf_owner _ Hwf _ _ _ _ HP Hi0). }
      exists t. split; [exact Ht |]. split; congruence.
    + rewrite Hn.
      * exact (wf_handle _ Hwf _ _ _ _ _ _ HP Hi0 Hidx Hc0).
      * intros Hh. apply Exists_exists in Hh as (info & Hin & Hown).
        pose proof (owner_has_id _ _ _ _ _ Hwf Hown HP) as Hi1.
        assert (tensor_id info = tid) by congruence. subst tid.
        pose proof (wf_range_index _ Hwf _ _ _ Hc Hin) as Hidx'. congruence.
  - intros k [c' Hc']. destruct (Hch _ _ Hc') as (c0 & Hc0 & _).
    apply (wf_chunk_ids _ Hwf). eauto.
  - exact (wf_ids _ Hwf).
  - intros p P' HP' Hg. destruct (Hobj _ _ HP') as (P & HP & (H1 & H2 & _)).
    rewrite H1. apply (wf_grad_data _ Hwf _ _ HP). rewrite <- H2. exact Hg.
Qed.

Lemma wf_chunk_move cid dev : ok_keeps wf (chunk_move getsizeof cid dev).
Proof.
  intros s [] s' Hwf H. unfold chunk_move in H.
  apply bind_ok_inv in H as (c & s1 & Hget & H).
  apply getitem_ok in Hget as [-> Hc].
  destruct (decide (device c <> dev)).
  - exact (wf_Chunk_move _ _ _ _ Hwf H).
  - inversion H; subst. exact Hwf.
Qed.

Lemma ok_keeps_for_each {A} (I : State -> Prop) (l : list A) body :
  (forall x, ok_keeps I (body x)) -> ok_keeps I (for_each l body).
Proof.
  intros Hb. induction l as [|x l IH]; intros s [] s' HI H; simpl in H.
  - inversion H; subst. exact HI.
  - apply bind_ok_inv in H as ([] & s1 & Hx & H).
    exact (IH _ _ _ (Hb x _ _ _ HI Hx) H).
Qed.

Lemma wf_prepare_device target need :
  ok_keeps wf (prepare_device getsizeof target need).
Proof.
  intros s [] s' Hwf H.
  apply prepare_device_ok in H as [->|(l & s1 & Hsel & Hloop)]; [exact Hwf |].
  apply room_making_ok in Hsel as (-> & _ & _).
  eapply (ok_keeps_for_each wf); [| | exact Hloop].
  - intros idx. apply wf_chunk_move.
  - eapply wf_frame_wf; [exact Hwf |]. apply wf_frame_same; reflexivity.
Qed.

Lemma wf_access_relocate param access_type dev cid :
  ok_keeps wf (access_relocate getsizeof param access_type dev cid).
Proof.
  intros s [] s' Hwf H. unfold access_relocate in H.
  apply bind_ok_inv in H as (P & s0 & HP & H).
  apply param_obj_ok in HP as [-> HP].
  apply bind_ok_inv in H as (t & s0 & Ht & H).
  apply attr_ok in Ht as [Ht ->].
  destruct (decide _).
  - apply bind_ok_inv in H as (c & s0 & Hget & H).
    apply getitem_ok in Hget as [-> Hc].
    apply bind_ok_inv in H as ([] & sp & Hprep & H).
    eapply wf_chunk_move; [| exact H].
    exact (wf_prepare_device _ _ _ _ _ Hwf Hprep).
  - inversion H; subst. exact Hwf.
Qed.

(** *** Allocation *)

Lemma last_chunk_of_lt dt cs n k c :
  last_chunk_of dt cs n = Some (k, c) -> (k < n)%nat.
Proof.
  induction n as [|n IH]; simpl; [discriminate |].
  destruct (cs !! n) as [c0|] eqn:E.
  - destruct (decide (data_type c0 = dt)).
    + intros H. inversion H; subst. lia.
    + intros H. specialize (IH H). lia.
  - intros H. specialize (IH H). lia.
Qed.

Lemma new_tensor_effect shape dt tid s t cid s1 :
  wf s ->
  new_tensor getsizeof shape dt tid s = (Ok (t, cid), s1) ->
  range_added tid cid t s s1.
Proof.
  intros Hwf H. unfold new_tensor in H.
  apply bind_ok_inv in H as ([k t0] & s0 & Hal & H).
  apply bind_ok_inv in H as ([] & s2 & Hadd & H).
  inversion H; subst t cid s2; clear H. simpl.
  unfold add_tensor, bind, get, raise, modify in Hadd.
  destruct (chunk_tensor_index s0 !! tid) eqn:Hnone; [discriminate |].
  inversion Hadd; subst s1; clear Hadd. st_simpl.
  unfold allocate in Hal. run_total Hal. run_total Hal.
  assert (Hnew : new_chunk getsizeof (shape_numel shape) dt tid
                   (set_calls (CallAllocate (shape_numel shape) dt tid :: calls s) s)
                 = (Ok (k, t0), s0) ->
                 range_added tid k t0 s
                   (set_chunk_tensor_index (<[tid:=k]> (chunk_tensor_index s0)) s0)).
  { clear Hal. intros Hn. unfold new_chunk in Hn. run_total Hn. cbv zeta in Hn.
    apply bind_ok_inv in Hn as ([] & s2 & Hres & Hn).
    unfold reserve, bind, get, raise, modify in Hres.
    destruct (decide _) in Hres; [discriminate |].
    inversion Hres; subst s2; clear Hres.
    run_total Hn. run_total Hn. inversion Hn; subst k t0 s0; clear Hn.
    st_simpl. simpl in Hnone.
    assert (Hfree : chunks (chunk_list s) !! next_chunk_id (chunk_list s) = None).
    { destruct (chunks (chunk_list s) !! next_chunk_id (chunk_list s)) eqn:E;
        [| reflexivity].
      assert (Hlt := wf_chunk_ids _ Hwf (next_chunk_id (chunk_list s))
                       (ex_intro _ _ E)). lia. }
    unfold range_added. st_simpl.
    repeat (split; [first [reflexivity | exact Hnone | lia] |]).
    eexists. split; [intros k; apply lookup_insert |].
    rewrite Hfree. simpl. split; [reflexivity |]. split; [reflexivity |].
    split; [reflexivity |]. intros cx Hcx. discriminate. }
  destruct (last_chunk_of _ _ _) as [[k0 c]|] eqn:Hlast; [| exact (Hnew Hal)].
  destruct (decide _); [| exact (Hnew Hal)]. clear Hnew.
  pose proof (last_chunk_of_lt _ _ _ _ _ Hlast) as Hlt.
  apply last_chunk_of_lookup in Hlast.
  run_total Hal. inversion Hal; subst k t0 s0; clear Hal. st_simpl.
  simpl in Hnone. unfold range_added. st_simpl.
  repeat (split; [first [reflexivity | exact Hnone | lia] |]).
  eexists. split.
  { intros k. rewrite lookup_alter. destruct (decide (k0 = k)) as [->|Hne].
    - rewrite Hlast. reflexivity.
    - reflexivity. }
  rewrite Hlast. simpl. rewrite fmap_app.
  split; [reflexivity |]. split; [reflexivity |]. split; [reflexivity |].
  intros c0 Hc0. inversion Hc0; subst. auto.
Qed.

Lemma slot_unique s p P k q Q k' tid :
  wf s ->
  objects s !! p = Some P -> ps_id_of k P = Some tid ->
  objects s !! q = Some Q -> ps_id_of k' Q = Some tid ->
  q = p /\ k' = k.
Proof.
  intros Hwf HP Hid HQ Hid'.
  pose proof (wf_owner _ Hwf _ _ _ _ HP Hid) as Ho.
  pose proof (wf_owner _ Hwf _ _ _ _ HQ Hid') as Ho'.
  destruct k, k'; simpl in Ho, Ho'.
  - split; [congruence | reflexivity].
  - destruct Ho'. congruence.
  - destruct Ho. congruence.
  - destruct Ho, Ho'. split; [congruence | reflexivity].
Qed.

Lemma owned_id_bound s p P k tid :
  wf s -> objects s !! p = Some P -> ps_id_of k P = Some tid -> tid <= ps_id s.
Proof.
  intros Hwf HP Hid. pose proof (wf_owner _ Hwf _ _ _ _ HP Hid) as Ho.
  destruct (Z_le_gt_dec tid (ps_id s)) as [Hle|Hgt]; [exact Hle |].
  destruct (wf_ids _ Hwf tid) as (_ & H2 & H3); [lia |].
  destruct k; simpl in Ho; [| destruct Ho]; congruence.
Qed.

(** An allocation followed by the store of the handle keeps the
    invariant. *)
Lemma wf_range_added k p P tid cid t s s1 f :
  wf s ->
  objects s !! p = Some P -> ps_id_of k P = Some tid ->
  range_added tid cid t s s1 ->
  stores_handle k t f ->
  wf (set_objects (alter f p (objects s1)) s1).
Proof.
  intros Hwf HP Hid
    (Hnone & Hidx & Hdd & Hgd & Hps & Hobj & Hnext & Hlt
     & cnew & Hch & Hpay & Hdev & Hids & Hold) Hf.
  assert (Hobj' : forall q Q',
            alter f p (objects s1) !! q = Some Q' ->
            exists Q, objects s !! q = Some Q
                      /\ ps_data_id Q' = ps_data_id Q
                      /\ ps_grad_id Q' = ps_grad_id Q
                      /\ (forall k', (q <> p \/ k' <> k) ->
                                     ps_tensor_of k' Q' = ps_tensor_of k' Q)
                      /\ (q = p ->
                          exists t', ps_tensor_of k Q' = Some t'
                                     /\ t_storage t' = t_storage t
                                     /\ t_device t' = t_device t)).
  { intros q Q'. rewrite Hobj, lookup_alter.
    destruct (decide (p = q)) as [<-|Hne].
    - rewrite HP. simpl. intros Heq. inversion Heq; subst Q'.
      destruct (Hf P) as (H1 & H2 & H3 & H4). exists P.
      split; [reflexivity |]. split; [exact H1 |]. split; [exact H2 |].
      split; [| intros _; exact H3].
      intros k' [Hn|Hn]; [contradiction | exact (H4 _ Hn)].
    - intros HQ. exists Q'. split; [exact HQ |]. split; [reflexivity |].
      split; [reflexivity |]. split; [reflexivity |]. congruence. }
  assert (Hid_eq : forall k' Q Q',
            ps_data_id Q' = ps_data_id Q -> ps_grad_id Q' = ps_grad_id Q ->
            ps_id_of k' Q' = ps_id_of k' Q).
  { intros k' Q Q' H1 H2. destruct k'; simpl; congruence. }
  assert (Hold_some : forall t0, t0 <> tid ->
            chunk_tensor_index s !! t0 = Some cid ->
            exists c, chunks (chunk_list s) !! cid = Some c
                      /\ is_Some (find_info t0 (tensor_info_list c))).
  { intros t0 _ Ht0. exact (wf_index_chunk _ Hwf _ _ Ht0). }
  constructor; st_simpl.
  - intros t0 k0. rewrite Hidx, lookup_insert.
    destruct (decide (tid = t0)) as [<-|Hne].
    + intros Heq. inversion Heq; subst k0. exists cnew.
      split; [rewrite Hch, decide_True by reflexivity; reflexivity |].
      apply find_info_is_Some. rewrite Hids. apply elem_of_app. right. left.
    + intros Ht0. destruct (wf_index_chunk _ Hwf _ _ Ht0) as (c & Hc & Hi).
      rewrite Hch. destruct (decide (cid = k0)) as [<-|Hne'].
      * exists cnew. split; [reflexivity |]. apply find_info_is_Some.
        rewrite Hids, Hc. simpl. apply elem_of_app. left.
        apply find_info_is_Some, Hi.
      * eauto.
  - intros k0 c' info. rewrite Hch, Hidx.
    destruct (decide (cid = k0)) as [<-|Hne].
    + intros Heq Hin. inversion Heq; subst c'.
      assert (Hmem : tensor_id info ∈ tensor_id <$> tensor_info_list cnew)
        by (apply list_elem_of_fmap_2; exact Hin).
      rewrite Hids in Hmem. apply elem_of_app in Hmem as [Hmem|Hmem].
      * destruct (chunks (chunk_list s) !! cid) as [c|] eqn:Hc; simpl in Hmem;
          [| apply elem_of_nil in Hmem; contradiction].
        apply list_elem_of_fmap in Hmem as (info0 & Heq0 & Hin0).
        rewrite lookup_insert. destruct (decide _); [reflexivity |].
        rewrite Heq0. exact (wf_range_index _ Hwf _ _ _ Hc Hin0).
      * apply list_elem_of_singleton in Hmem. rewrite Hmem.
        apply lookup_insert_eq.
    + intros Hc Hin. pose proof (wf_range_index _ Hwf _ _ _ Hc Hin) as Hi.
      rewrite lookup_insert_ne; [exact Hi | congruence].
  - intros q Q' k' t0 HQ' Hi. destruct (Hobj' _ _ HQ') as (Q & HQ & H1 & H2 & _).
    rewrite (Hid_eq _ _ _ H1 H2) in Hi.
    apply (owner_frame s); [exact Hdd | exact Hgd |].
    exact (wf_owner _ Hwf _ _ _ _ HQ Hi).
  - intros t0 q. rewrite Hdd. intros Hd.
    destruct (wf_data_dict _ Hwf _ _ Hd) as (Q & HQ & Hi).
    rewrite Hobj, lookup_alter. destruct (decide (p = q)) as [<-|Hne].
    + rewrite HQ. simpl. eexists. split; [reflexivity |].
      destruct (Hf Q) as (H1 & _). congruence.
    + eauto.
  - intros t0 q. rewrite Hgd. intros Hd.
    destruct (wf_grad_dict _ Hwf _ _ Hd) as (Q & HQ & Hi).
    rewrite Hobj, lookup_alter. destruct (decide (p = q)) as [<-|Hne].
    + rewrite HQ. simpl. eexists. split; [reflexivity |].
      destruct (Hf Q) as (_ & H2 & _). congruence.
    + eauto.
  - intros q Q' k' t0 k0 c' HQ' Hi. rewrite Hidx, Hch.
    destruct (Hobj' _ _ HQ') as (Q & HQ & H1 & H2 & Hother & Hself).
    rewrite (Hid_eq _ _ _ H1 H2) in Hi.
    rewrite lookup_insert. destruct (decide (tid = t0)) as [<-|Hne].
    + intros Heq. inversion Heq; subst k0. rewrite decide_True by reflexivity.
      intros Heq'. inversion Heq'; subst c'.
      destruct (slot_unique _ _ _ _ _ _ _ _ Hwf HP Hid HQ Hi) as [-> ->].
      destruct (Hself eq_refl) as (t' & Ht' & Hs' & Hd').
      exists t'. split; [exact Ht' |]. split; congruence.
    + intros Ht0 Hc'.
      assert (Hslot : q <> p \/ k' <> k).
      { destruct (decide (q = p)) as [->|]; [| auto].
        destruct (decide (k' = k)) as [->|]; [| auto].
        rewrite HP in HQ. inversion HQ; subst Q. congruence. }
      rewrite (Hother _ Hslot).
      destruct (decide (cid = k0)) as [<-|Hne'].
      * inversion Hc'; subst c'.
        destruct (wf_index_chunk _ Hwf _ _ Ht0) as (c & Hc & _).
        destruct (Hold _ Hc) as [Hp Hd].
        destruct (wf_handle _ Hwf _ _ _ _ _ _ HQ Hi Ht0 Hc) as (t' & Ht' & Hs' & Hd').
        exists t'. split; [exact Ht' |]. split; congruence.
      * exact (wf_handle _ Hwf _ _ _ _ _ _ HQ Hi Ht0 Hc').
  - intros k0 [c' Hc']. rewrite Hch in Hc'.
    destruct (decide (cid = k0)) as [<-|Hne]; [exact Hlt |].
    assert (Hk := wf_chunk_ids _ Hwf k0 (ex_intro _ _ Hc')). lia.
  - intros t0 Hgt. rewrite Hps in Hgt. rewrite Hidx, Hdd, Hgd.
    destruct (wf_ids _ Hwf _ Hgt) as (H1 & H2 & H3). split; [| auto].
    rewrite lookup_insert_ne; [exact H1 |].
    pose proof (owned_id_bound _ _ _ _ _ Hwf HP Hid). lia.
  - intros q Q' HQ' Hg. destruct (Hobj' _ _ HQ') as (Q & HQ & H1 & H2 & _).
    rewrite H1. apply (wf_grad_data _ Hwf _ _ HQ). rewrite <- H2. exact Hg.
Qed.

(** *** [access] *)

Lemma get_chunk_id_ok param access_type s o s' :
  get_chunk_id param access_type s = (Ok o, s') ->
  exists P tid, objects s !! param = Some P
                /\ ps_id_of access_type P = Some tid
                /\ o = chunk_tensor_index s !! tid
                /\ s' = s.
Proof.
  unfold get_chunk_id. intros H.
  apply bind_ok_inv in H as (P & s0 & HP & H).
  apply param_obj_ok in HP as [-> HP].
  assert (Hgen : (tid <- attr (ps_id_of access_type P) ;;
                  tensor_id_to_chunk_id tid) s = (Ok o, s')).
  { destruct access_type; exact H. }
  clear H. apply bind_ok_inv in Hgen as (tid & s0 & Hid & H).
  apply attr_ok in Hid as [Hid ->].
  unfold tensor_id_to_chunk_id, bind, get, ret in H. inversion H; subst.
  exists P, tid. auto.
Qed.

Lemma stores_handle_data t k0 :
  stores_handle DATA t
    (fun P => set_ps_data_chunk_id (Some k0) (set_ps_data_tensor (Some t) P)).
Proof.
  intros Q. split; [reflexivity |]. split; [reflexivity |]. split.
  - exists t. auto.
  - intros k Hk. destruct k; [contradiction | reflexivity].
Qed.

Lemma stores_handle_grad (set_cid : option nat -> Param -> Param) t k0 :
  (forall v Q, ps_data_id (set_cid v Q) = ps_data_id Q
               /\ ps_grad_id (set_cid v Q) = ps_grad_id Q
               /\ ps_data_tensor (set_cid v Q) = ps_data_tensor Q
               /\ ps_grad_tensor (set_cid v Q) = ps_grad_tensor Q) ->
  stores_handle GRAD t
    (fun P => set_cid (Some k0) (set_ps_grad_tensor (Some t) P)).
Proof.
  intros Hset Q. destruct (Hset (Some k0) (set_ps_grad_tensor (Some t) Q))
    as (H1 & H2 & H3 & H4).
  split; [rewrite H1; reflexivity |]. split; [rewrite H2; reflexivity |]. split.
  - exists t. simpl. rewrite H4. auto.
  - intros k Hk. destruct k; [| contradiction]. simpl. rewrite H3. reflexivity.
Qed.

Lemma stores_handle_reshape access_type t t' f :
  t_storage t' = t_storage t -> t_device t' = t_device t ->
  stores_handle access_type t' f -> stores_handle access_type t f.
Proof.
  intros Hs Hd Hf Q. destruct (Hf Q) as (H1 & H2 & (t0 & Ht0 & Hs0 & Hd0) & H4).
  split; [exact H1 |]. split; [exact H2 |]. split; [| exact H4].
  exists t0. split; [exact Ht0 |]. split; congruence.
Qed.

Lemma wf_access_resolve param access_type :
  ok_keeps wf (access_resolve getsizeof param access_type).
Proof.
  intros s cid s1 Hwf H. unfold access_resolve in H.
  apply bind_ok_inv in H as (o & s0 & Hget & H).
  apply get_chunk_id_ok in Hget as (P & tid & HP & Hid & -> & ->).
  destruct (chunk_tensor_index s !! tid) as [k|] eqn:Hidx.
  { inversion H; subst. exact Hwf. }
  run_param H HP.
  destruct access_type; simpl in Hid.
  - apply bind_ok_inv in H as (shape & s0 & Hshape & H).
    apply attr_ok in Hshape as [Hshape ->]. rewrite Hid in H. run_total H.
    apply bind_ok_inv in H as ([t k] & s2 & Hnew & H).
    run_total H. inversion H; subst cid s1; clear H. simpl.
    eapply (wf_range_added DATA); [exact Hwf | exact HP | exact Hid | |].
    + exact (new_tensor_effect _ _ _ _ _ _ _ Hwf Hnew).
    + apply stores_handle_data.
  - apply bind_ok_inv in H as (shape & s0 & Hshape & H).
    apply attr_ok in Hshape as [Hshape ->]. rewrite Hid in H. run_total H.
    apply bind_ok_inv in H as ([t k] & s2 & Hnew & H).
    run_total H. inversion H; subst cid s1; clear H. simpl.
    eapply (wf_range_added GRAD); [exact Hwf | exact HP | exact Hid | |].
    + exact (new_tensor_effect _ _ _ _ _ _ _ Hwf Hnew).
    + apply (stores_handle_grad set_ps_grad_chunk_id). intros v Q.
      repeat split.
Qed.

(** A completed [access] keeps the invariant. *)
Lemma wf_access param access_type dev :
  ok_keeps wf (access getsizeof param access_type dev).
Proof.
  intros s [] s' Hwf H. unfold access in H.
  rewrite (bind_step _ _ _ _ _ (is_ps_param_spec param s)) in H.
  destruct (bool_decide (registered s param)); [| discriminate]. simpl in H.
  apply bind_ok_inv in H as (cid & s1 & Hres & H).
  apply bind_ok_inv in H as ([] & s2 & Hrel & Hbind).
  eapply wf_frame_wf;
    [| exact (preserves_wf_frame_access_bind _ _ _ _ _ _ Hbind)].
  eapply wf_access_relocate; [| exact Hrel].
  exact (wf_access_resolve _ _ _ _ _ Hwf Hres).
Qed.

(** *** Registration *)

Lemma wf_convert (store : Tensor -> nat -> Param -> Param)
    (bind_view : Tensor -> Param -> Param) (mark : Param -> Param)
    k shape dt tid param vals s s2 P :
  wf s ->
  objects s !! param = Some P -> ps_id_of k P = Some tid ->
  (forall t cid, stores_handle k t (store t cid)) ->
  (forall t Q, same_binding Q (bind_view t Q)) ->
  (forall Q, same_binding Q (mark Q)) ->
  (r <- new_tensor getsizeof shape dt tid ;;
   update_param param (store r.1 r.2) ;;
   s <- get ;;
   tensor_copy_ r.1 (vals s) ;;
   update_param param (bind_view r.1) ;;
   update_param param mark) s = (Ok tt, s2) ->
  wf s2.
Proof.
  intros Hwf HP Hid Hstore Hview Hmark H.
  apply bind_ok_inv in H as ([t cid] & s1 & Hnew & H).
  apply bind_ok_inv in H as ([] & s1' & Hupd & H).
  unfold update_param, modify in Hupd. inversion Hupd; subst s1'; clear Hupd.
  assert (Hwf1 : wf (set_objects (alter (store t cid) param (objects s1)) s1)).
  { eapply (wf_range_added k); [exact Hwf | exact HP | exact Hid | |].
    - exact (new_tensor_effect _ _ _ _ _ _ _ Hwf Hnew).
    - apply Hstore. }
  eapply wf_frame_wf; [exact Hwf1 |].
  revert H. generalize (set_objects (alter (store t cid) param (objects s1)) s1).
  intros s0 H. simpl in H.
  eapply (preserves_bind wf_frame); [| | exact H].
  - apply preserves_get. exact _.
  - intros sx. unfold tensor_copy_, update_param. pres; frame_leaf.
    all: first [apply Hview | apply Hmark].
Qed.

Lemma wf_convert_to_ps_data param :
  ok_keeps wf (_convert_to_ps_data getsizeof param).
Proof.
  intros s [] s2 Hwf H. unfold _convert_to_ps_data in H.
  apply bind_ok_inv in H as (P & s0 & HP & H).
  apply param_obj_ok in HP as [-> HP].
  apply bind_ok_inv in H as (shape & s0 & Hshape & H).
  apply attr_ok in Hshape as [Hshape ->].
  apply bind_ok_inv in H as (tid & s0 & Hid & H).
  apply attr_ok in Hid as [Hid ->].
  eapply (wf_convert
            (fun t k P => set_ps_data_chunk_id (Some k)
                            (set_ps_data_tensor (Some t) P))
            set_data (set_data_status (Some HOLD)) DATA
            shape (dtype P) tid param (tensor_elems (data P)) s s2 P);
    [exact Hwf | exact HP | exact Hid | | | | exact H].
  - intros t cid. apply stores_handle_data.
  - intros t Q. repeat split.
  - intros Q. repeat split.
Qed.

Lemma wf_convert_to_ps_grad param :
  ok_keeps wf (_convert_to_ps_grad getsizeof param).
Proof.
  intros s [] s2 Hwf H. unfold _convert_to_ps_grad in H.
  apply bind_ok_inv in H as (P & s0 & HP & H).
  apply param_obj_ok in HP as [-> HP].
  destruct (grad P) as [g|]; [| inversion H; subst; exact Hwf].
  apply bind_ok_inv in H as (shape & s0 & Hshape & H).
  apply attr_ok in Hshape as [Hshape ->].
  apply bind_ok_inv in H as (tid & s0 & Hid & H).
  apply attr_ok in Hid as [Hid ->].
  eapply (wf_convert
            (fun t k P => set_ps_gard_chunk_id (Some k)
                            (set_ps_grad_tensor (Some t) P))
            (fun t => set_grad (Some t)) (set_grad_status (Some HOLD)) GRAD
            shape (dtype P) tid param (tensor_elems g) s s2 P);
    [exact Hwf | exact HP | exact Hid | | | | exact H].
  - intros t cid. apply (stores_handle_grad set_ps_gard_chunk_id).
    intros v Q. repeat split.
  - intros t Q. repeat split.
  - intros Q. repeat split.
Qed.

(** Handing a fresh identifier to the tensor of one access type of a
    parameter keeps the invariant. *)
Lemma wf_assign k p P P' s s' :
  wf s ->
  objects s !! p = Some P ->
  ps_id_of k P = None ->
  (k = DATA -> ps_grad_id P = None) ->
  (k = GRAD -> is_Some (ps_data_id P)) ->
  chunk_list s' = chunk_list s ->
  chunk_tensor_index s' = chunk_tensor_index s ->
  ps_id s' = ps_id s + 1 ->
  (forall tid, param_data_dict s' !! tid
               = if decide (k = DATA /\ tid = ps_id s + 1) then Some p
                 else param_data_dict s !! tid) ->
  (forall tid, param_grad_dict s' !! tid
               = if decide (k = GRAD /\ tid = ps_id s + 1) then Some p
                 else param_grad_dict s !! tid) ->
  (forall q, objects s' !! q = if decide (p = q) then Some P'
                               else objects s !! q) ->
  ps_id_of k P' = Some (ps_id s + 1) ->
  (forall k', k' <> k -> ps_id_of k' P' = ps_id_of k' P
                         /\ ps_tensor_of k' P' = ps_tensor_of k' P) ->
  wf s'.
Proof.
  intros Hwf HP Hnoid Hdata Hgrad Hcl Hidx Hps Hdd Hgd Hobj Hid' Hother.
  set (new := ps_id s + 1) in *.
  assert (Hfresh : chunk_tensor_index s !! new = None
                   /\ param_data_dict s !! new = None
                   /\ param_grad_dict s !! new = None)
    by (apply (wf_ids _ Hwf); unfold new; lia).
  destruct Hfresh as (Hf1 & Hf2 & Hf3).
  assert (Hold : forall q Q k' tid,
            objects s !! q = Some Q -> ps_id_of k' Q = Some tid -> tid <> new).
  { intros q Q k' tid HQ Hi.
    pose proof (owned_id_bound _ _ _ _ _ Hwf HQ Hi). unfold new. lia. }
  assert (Hback : forall q Q' k' tid,
            objects s' !! q = Some Q' -> ps_id_of k' Q' = Some tid ->
            (q = p /\ k' = k /\ tid = new /\ Q' = P')
            \/ (tid <> new
                /\ exists Q, objects s !! q = Some Q
                             /\ ps_id_of k' Q = Some tid
                             /\ ps_tensor_of k' Q' = ps_tensor_of k' Q)).
  { intros q Q' k' tid. rewrite Hobj. destruct (decide (p = q)) as [<-|Hne].
    - intros Heq Hi. inversion Heq; subst Q'.
      destruct (decide (k' = k)) as [->|Hk].
      + left. rewrite Hid' in Hi. inversion Hi. auto.
      + right. destruct (Hother _ Hk) as [H1 H2]. rewrite H1 in Hi.
        split; [exact (Hold _ _ _ _ HP Hi) |]. exists P. auto.
    - intros HQ Hi. right. split; [exact (Hold _ _ _ _ HQ Hi) |].
      exists Q'. auto. }
  constructor.
  - intros tid cid. rewrite Hidx, Hcl. apply (wf_index_chunk _ Hwf).
  - intros cid c info. rewrite Hidx, Hcl. apply (wf_range_index _ Hwf).
  - intros q Q' k' tid HQ' Hi.
    destruct (Hback _ _ _ _ HQ' Hi)
      as [(-> & -> & -> & ->)|(Hne & Q & HQ & HiQ & _)].
    + destruct k; simpl.
      * rewrite Hdd, decide_True by auto. reflexivity.
      * rewrite Hdd, Hgd, decide_False, decide_True by (auto; intros []; congruence).
        auto.
    + pose proof (wf_owner _ Hwf _ _ _ _ HQ HiQ) as Ho.
      destruct k'; simpl in *.
      * rewrite Hdd, decide_False by (intros []; congruence). exact Ho.
      * rewrite Hdd, Hgd, !decide_False by (intros []; congruence). exact Ho.
  - intros tid q. rewrite Hdd. destruct (decide _) as [[-> ->]|Hn].
    + intros Heq. inversion Heq; subst q. exists P'.
      rewrite Hobj, decide_True by reflexivity. auto.
    + intros Hd. destruct (wf_data_dict _ Hwf _ _ Hd) as (Q & HQ & Hi).
      rewrite Hobj. destruct (decide (p = q)) as [<-|Hne]; [| eauto].
      rewrite HP in HQ. inversion HQ; subst Q. exists P'.
      split; [reflexivity |].
      destruct k; simpl in Hnoid; [congruence |].
      destruct (Hother DATA) as [H1 _]; [discriminate |]. simpl in H1. congruence.
  - intros tid q. rewrite Hgd. destruct (decide _) as [[-> ->]|Hn].
    + intros Heq. inversion Heq; subst q. exists P'.
      rewrite Hobj, decide_True by reflexivity. auto.
    + intros Hd. destruct (wf_grad_dict _ Hwf _ _ Hd) as (Q & HQ & Hi).
      rewrite Hobj. destruct (decide (p = q)) as [<-|Hne]; [| eauto].
      rewrite HP in HQ. inversion HQ; subst Q. exists P'.
      split; [reflexivity |].
      destruct k; simpl in Hnoid; [| congruence].
      destruct (Hother GRAD) as [H1 _]; [discriminate |]. simpl in H1. congruence.
  - intros q Q' k' tid cid c HQ' Hi. rewrite Hidx, Hcl. intros Hix Hc.
    destruct (Hback _ _ _ _ HQ' Hi)
      as [(-> & -> & -> & ->)|(Hne & Q & HQ & HiQ & Ht)].
    + congruence.
    + rewrite Ht. exact (wf_handle _ Hwf _ _ _ _ _ _ HQ HiQ Hix Hc).
  - intros cid. rewrite Hcl. apply (wf_chunk_ids _ Hwf).
  - intros tid Hgt. rewrite Hps in Hgt. rewrite Hidx, Hdd, Hgd.
    rewrite !decide_False by (intros []; unfold new in *; lia).
    apply (wf_ids _ Hwf). lia.
  - intros q Q'. rewrite Hobj. destruct (decide (p = q)) as [<-|Hne].
    + intros Heq _. inversion Heq; subst Q'. destruct k.
      * simpl in Hid'. rewrite Hid'. eauto.
      * destruct (Hother DATA) as [H1 _]; [discriminate |]. simpl in H1.
        rewrite H1. apply Hgrad. reflexivity.
    + apply (wf_grad_data _ Hwf).
Qed.

(** The block of [_init_ps_param] that hands the data tensor its
    identifier. *)
Lemma wf_assign_data param s P :
  wf s -> objects s !! param = Some P ->
  ps_data_id P = None -> ps_grad_id P = None ->
  exists s1,
    (tid <- generate_id ;;
     update_param param (set_ps_data_id (Some tid)) ;;
     modify (fun s => set_param_data_dict
                        (<[tid := param]> (param_data_dict s)) s) ;;
     update_param param (set_ps_data_tensor None)) s = (Ok tt, s1)
    /\ wf s1
    /\ objects s1 !! param
       = Some (set_ps_data_tensor None
                 (set_ps_data_id (Some (ps_id s + 1)) P)).
Proof.
  intros Hwf HP Hdid Hgid. eexists. split; [repeat go_total; reflexivity |].
  assert (Hobj : forall q,
            alter (set_ps_data_tensor None) param
              (alter (set_ps_data_id (Some (ps_id s + 1))) param (objects s))
              !! q
            = if decide (param = q)
              then Some (set_ps_data_tensor None
                           (set_ps_data_id (Some (ps_id s + 1)) P))
              else objects s !! q).
  { intros q. destruct (decide (param = q)) as [<-|Hne].
    - rewrite !lookup_alter_eq, HP. reflexivity.
    - rewrite !lookup_alter_ne by exact Hne. reflexivity. }
  split.
  - apply (wf_assign DATA param P
             (set_ps_data_tensor None (set_ps_data_id (Some (ps_id s + 1)) P))
             s); try exact Hwf; try exact HP; try exact Hdid;
      try reflexivity.
    + intros _. exact Hgid.
    + discriminate.
    + intros tid. st_simpl. destruct (decide (DATA = DATA /\ tid = ps_id s + 1))
        as [[_ ->]|Hn].
      * apply lookup_insert_eq.
      * apply lookup_insert_ne. intros <-. apply Hn. auto.
    + exact Hobj.
    + intros [] Hk; [congruence |]. split; reflexivity.
  - st_simpl. rewrite Hobj, decide_True by reflexivity. reflexivity.
Qed.

(** The block of [_init_ps_param] that hands the gradient tensor its
    identifier. *)
Lemma wf_assign_grad param s P :
  wf s -> objects s !! param = Some P ->
  is_Some (ps_data_id P) -> ps_grad_id P = None ->
  exists s1,
    (tid <- generate_id ;;
     update_param param (set_ps_grad_id (Some tid)) ;;
     modify (fun s => set_param_grad_dict
                        (<[tid := param]> (param_grad_dict s)) s) ;;
     update_param param (set_ps_grad_tensor None)) s = (Ok tt, s1)
    /\ wf s1.
Proof.
  intros Hwf HP Hdid Hgid. eexists. split; [repeat go_total; reflexivity |].
  apply (wf_assign GRAD param P
           (set_ps_grad_tensor None (set_ps_grad_id (Some (ps_id s + 1)) P))
           s); try exact Hwf; try exact HP; try exact Hgid; try reflexivity.
  - discriminate.
  - intros _. exact Hdid.
  - intros tid. st_simpl. destruct (decide (GRAD = GRAD /\ tid = ps_id s + 1))
      as [[_ ->]|Hn].
    + apply lookup_insert_eq.
    + apply lookup_insert_ne. intros <-. apply Hn. auto.
  - intros q. st_simpl. destruct (decide (param = q)) as [<-|Hne].
    + rewrite !lookup_alter_eq, HP. reflexivity.
    + rewrite !lookup_alter_ne by exact Hne. reflexivity.
  - intros [] Hk; [| congruence]. split; reflexivity.
Qed.

Lemma wf_init_ps_param param : ok_keeps wf (_init_ps_param param).
Proof.
  intros s [] s2 Hwf H. unfold _init_ps_param in H.
  rewrite (bind_step _ _ _ _ _ (is_ps_param_spec param s)) in H.
  destruct (decide (registered s param)) as [Hr|Hn].
  { rewrite bool_decide_eq_true_2 in H by exact Hr.
    inversion H; subst. exact Hwf. }
  rewrite bool_decide_eq_false_2 in H by exact Hn.
  apply bind_ok_inv in H as (P & s0 & HP & H).
  apply param_obj_ok in HP as [-> HP].
  assert (Hdid : ps_data_id P = None).
  { destruct (ps_data_id P) as [x|] eqn:E; [| reflexivity].
    exfalso. apply Hn. exists P. split; [exact HP |]. rewrite E. eauto. }
  assert (Hgid : ps_grad_id P = None).
  { destruct (ps_grad_id P) as [x|] eqn:E; [| reflexivity].
    destruct (wf_grad_data _ Hwf _ _ HP) as [y Hy];
      [rewrite E; eauto | congruence]. }
  apply bind_ok_inv in H as ([] & sa & Hupd & H).
  assert (Hwfa : wf sa).
  { unfold update_param, modify in Hupd. inversion Hupd; subst sa.
    eapply wf_frame_wf; [exact Hwf |]. apply wf_frame_alter_param.
    intros Q. repeat split. }
  assert (HPa : exists Pa, objects sa !! param = Some Pa
                           /\ ps_data_id Pa = None /\ ps_grad_id Pa = None).
  { unfold update_param, modify in Hupd. inversion Hupd; subst sa.
    st_simpl. rewrite lookup_alter_eq, HP. eexists. split; [reflexivity |].
    split; [exact Hdid | exact Hgid]. }
  destruct HPa as (Pa & HPa & Hdida & Hgida). clear Hupd.
  rewrite (bind_step _ _ _ _ _ (is_ps_data_some _ _ _ HPa)) in H.
  rewrite Hdida, bool_decide_eq_false_2 in H by (apply is_Some_None).
  cbn [negb] in H.
  destruct (wf_assign_data param sa Pa Hwfa HPa Hdida Hgida)
    as (sb & Hrun & Hwfb & HPb).
  rewrite (bind_step _ _ _ _ _ Hrun) in H.
  rewrite (bind_step _ _ _ _ _ (is_ps_grad_some _ _ _ HPb)) in H.
  cbn [ps_grad_id set_ps_data_tensor set_ps_data_id] in H.
  rewrite Hgida, bool_decide_eq_false_2 in H by (apply is_Some_None).
  cbn [negb andb] in H.
  destruct (requires_grad P); [| inversion H; subst; exact Hwfb].
  destruct (wf_assign_grad param sb _ Hwfb HPb) as (sc & Hrunc & Hwfc).
  - simpl. eauto.
  - exact Hgida.
  - rewrite Hrunc in H. inversion H; subst. exact Hwfc.
Qed.

(** [register_param] keeps the invariant. *)
Lemma wf_register_param param :
  ok_keeps wf (register_param getsizeof param).
Proof.
  intros s [] s' Hwf H. unfold register_param in H.
  apply bind_ok_inv in H as ([] & s1 & H1 & H).
  apply bind_ok_inv in H as ([] & s2 & H2 & H3).
  eapply wf_convert_to_ps_grad; [| exact H3].
  eapply wf_convert_to_ps_data; [| exact H2].
  exact (wf_init_ps_param _ _ _ _ Hwf H1).
Qed.

(** [release_all_grad] keeps the invariant. *)
Lemma wf_release_all_grad : ok_keeps wf (release_all_grad getsizeof).
Proof.
  intros s [] s' Hwf H. unfold release_all_grad in H.
  rewrite (bind_step _ _ _ _ _ (eq_refl : get s = (Ok s, s))) in H.
  destruct (module s) as [ps|]; [| inversion H; subst; exact Hwf].
  eapply (ok_keeps_for_each wf); [| exact Hwf | exact H].
  intros p s0 a s1 Hwf0 Hrel. exact (wf_release _ _ _ _ _ _ Hwf0 Hrel).
Qed.

(** [register_module] keeps the invariant. *)
Lemma wf_register_module m :
  ok_keeps wf (register_module getsizeof m).
Proof.
  intros s [] s' Hwf H. unfold register_module in H.
  apply bind_ok_inv in H as ([] & s3 & H & Hrel).
  eapply wf_release_all_grad; [| exact Hrel].
  destruct m as [ps|]; [| inversion H; subst; exact Hwf].
  apply bind_ok_inv in H as ([] & s0 & H0 & H).
  apply bind_ok_inv in H as ([] & s1 & H1 & H).
  apply bind_ok_inv in H as ([] & s2 & H2 & H3).
  eapply (ok_keeps_for_each wf); [apply wf_convert_to_ps_grad | | exact H3].
  eapply (ok_keeps_for_each wf); [apply wf_convert_to_ps_data | | exact H2].
  eapply (ok_keeps_for_each wf); [apply wf_init_ps_param | | exact H1].
  unfold modify in H0. inversion H0; subst s0.
  eapply wf_frame_wf; [exact Hwf |]. apply wf_frame_same; reflexivity.
Qed.

(** A state in which nothing is managed yet satisfies the invariant. *)
Lemma wf_unmanaged s : unmanaged s -> wf s.
Proof.
  intros (Hc & Hi & Hd & Hg & Hp). constructor.
  - intros tid cid. rewrite Hi, lookup_empty. discriminate.
  - intros cid c info. rewrite Hc, lookup_empty. discriminate.
  - intros p P [] tid HP Hid; destruct (Hp _ _ HP) as [H1 H2]; simpl in Hid;
      congruence.
  - intros tid p. rewrite Hd, lookup_empty. discriminate.
  - intros tid p. rewrite Hg, lookup_empty. discriminate.
  - intros p P k tid cid c _ _. rewrite Hi, lookup_empty. discriminate.
  - intros cid. rewrite Hc, lookup_empty. intros [x Hx]. discriminate.
  - intros tid _. rewrite Hi, Hd, Hg, !lookup_empty. auto.
  - intros p P HP [x Hx]. destruct (Hp _ _ HP). congruence.
Qed.

(** In a well-formed state the tensors of a parameter meet the
    conditions under which [access] was specified: the dictionaries name
    the parameter as their owner, and the handle of a bound tensor is a
    view of its chunk. *)
Lemma wf_access_conditions s param P access_type tid :
  wf s ->
  objects s !! param = Some P ->
  ps_id_of access_type P = Some tid ->
  owner s access_type tid param
  /\ forall cid, chunk_tensor_index s !! tid = Some cid ->
                 handle_in_chunk s param access_type tid cid.
Proof.
  intros Hwf HP Hid. split; [exact (wf_owner _ Hwf _ _ _ _ HP Hid) |].
  intros cid Hidx.
  destruct (wf_index_chunk _ Hwf _ _ Hidx) as (c & Hc & Hinfo).
  destruct (wf_handle _ Hwf _ _ _ _ _ _ HP Hid Hidx Hc) as (t & Ht & Hst & Hdev).
  exists c, P, t. repeat split; assumption.
Qed.

(** ** Backing storages are never reused *)

#[global] Instance storage_grows_preorder : PreOrder storage_grows.
Proof.
  split.
  - intros s. split; [lia |]. intros cid c Hc. right. eauto.
  - intros s1 s2 s3 [Hn12 H12] [Hn23 H23]. split; [lia |].
    intros cid c3 Hc3. destruct (H23 _ _ Hc3) as [Hlt|(c2 & Hc2 & Hp)]; [auto |].
    destruct (H12 _ _ Hc2) as [Hlt|(c1 & Hc1 & Hp1)].
    + left. lia.
    + right. exists c1. split; [exact Hc1 | congruence].
Qed.

Lemma storage_grows_bounded s s' :
  storage_bounded s -> storage_grows s s' -> storage_bounded s'.
Proof.
  intros Hb [Hn H] cid c' Hc'.
  destruct (H _ _ Hc') as [Hlt|(c & Hc & Hp)]; [exact Hlt |].
  specialize (Hb _ _ Hc). lia.
Qed.

Lemma storage_grows_sub s s' :
  (next_storage s <= next_storage s')%nat ->
  (forall cid c, chunks (chunk_list s') !! cid = Some c ->
                 exists c0, chunks (chunk_list s) !! cid = Some c0
                            /\ payload c = payload c0) ->
  storage_grows s s'.
Proof. intros Hn H. split; [exact Hn |]. intros cid c Hc. right. eauto. Qed.

Lemma storage_grows_same s s' :
  chunks (chunk_list s') = chunks (chunk_list s) ->
  next_storage s' = next_storage s ->
  storage_grows s s'.
Proof.
  intros Hc Hn. apply storage_grows_sub; [lia |].
  intros cid c. rewrite Hc. eauto.
Qed.

Lemma storage_grows_alter f cid s :
  (forall c, payload (f c) = payload c) ->
  storage_grows s (set_chunks (alter f cid (chunks (chunk_list s))) s).
Proof.
  intros Hf. apply storage_grows_sub; [reflexivity |].
  intros k c. st_simpl. rewrite lookup_alter.
  destruct (decide (cid = k)) as [->|Hne]; [| eauto].
  destruct (chunks (chunk_list s) !! k) as [c0|]; [| discriminate].
  simpl. intros Heq. inversion Heq; subst c. eauto.
Qed.

Lemma preserves_storage_grows_torch_zeros shape dev :
  preserves storage_grows (torch_zeros shape dev).
Proof.
  intros s r s' H. unfold torch_zeros, bind, get, modify, ret in H.
  inversion H; subst r s'; clear H.
  apply storage_grows_sub; [st_simpl; lia |]. intros cid c Hc. eauto.
Qed.

Lemma preserves_storage_grows_delete_free_chunks :
  preserves storage_grows (delete_free_chunks getsizeof).
Proof.
  intros s r s' H. unfold delete_free_chunks, bind, log, modify in H.
  inversion H; subst r s'; clear H.
  apply storage_grows_sub; [reflexivity |]. intros cid c. st_simpl.
  rewrite map_lookup_filter_Some. intros [Hc _]. eauto.
Qed.

Ltac sto_leaf :=
  match goal with
  | |- preserves storage_grows (modify _) =>
      apply preserves_modify; intros ?;
      first [ apply storage_grows_same; reflexivity
            | apply storage_grows_alter; intros ?; reflexivity ]
  | |- preserves storage_grows (update_chunk _ _) =>
      unfold update_chunk; apply preserves_modify; intros ?;
      apply storage_grows_alter; intros ?; reflexivity
  | |- preserves storage_grows (torch_zeros _ _) =>
      apply preserves_storage_grows_torch_zeros
  | |- preserves storage_grows (delete_free_chunks _) =>
      apply preserves_storage_grows_delete_free_chunks
  end.

Lemma preserves_storage_grows_rebind st dev info :
  preserves storage_grows (rebind st dev info).
Proof. unfold rebind, update_param. pres; sto_leaf. Qed.

Lemma preserves_storage_grows_reserve d b :
  preserves storage_grows (reserve d b).
Proof. unfold reserve. pres; sto_leaf. Qed.

(** A new chunk lives on the storage that was allocated for it. *)
Lemma preserves_storage_grows_new_chunk n dt tid :
  preserves storage_grows (new_chunk getsizeof n dt tid).
Proof.
  intros s r s' H. unfold new_chunk in H. run_total H. cbv zeta in H.
  apply bind_inv in H as [([] & s0 & Hres & H)|(e & Hres & _)].
  2:{ exact (preserves_storage_grows_reserve _ _ _ _ _ Hres). }
  transitivity s0; [exact (preserves_storage_grows_reserve _ _ _ _ _ Hres) |].
  clear Hres. run_total H. run_total H. inversion H; subst r s'; clear H.
  split; [st_simpl; lia |]. intros cid c. st_simpl.
  rewrite lookup_insert. destruct (decide _) as [Heq|Hne].
  - intros Hc. inversion Hc; subst c. left. simpl. lia.
  - intros Hc. right. eauto.
Qed.

(** A moved chunk lives on the storage its elements were copied to. *)
Lemma preserves_storage_grows_Chunk_move cid target :
  preserves storage_grows (Chunk_move getsizeof cid target).
Proof.
  intros s r s' H. unfold Chunk_move in H.
  apply bind_inv in H as [(c & s0 & Hget & H)|(e & Hget & _)].
  2:{ unfold getitem, bind, get, ret, raise in Hget.
      destruct (chunks (chunk_list s) !! cid); inversion Hget; reflexivity. }
  apply getitem_ok in Hget as [-> Hc]. run_total H.
  destruct (decide (device c = target)).
  { inversion H; subst. apply storage_grows_same; reflexivity. }
  apply bind_inv in H as [([] & s0 & Hres & H)|(e & Hres & _)].
  2:{ etransitivity;
        [| exact (preserves_storage_grows_reserve _ _ _ _ _ Hres)].
      apply storage_grows_same; reflexivity. }
  apply preserves_storage_grows_reserve in Hres.
  run_total H. cbv zeta in H. run_total H. run_total H. run_total H.
  etransitivity; [| eapply preserves_for_each; [exact _ | | exact H]].
  2:{ intros info. apply preserves_storage_grows_rebind. }
  destruct Hres as [Hn Hch]. split; [st_simpl; lia |].
  intros k c'. st_simpl. rewrite lookup_alter.
  destruct (decide (cid = k)) as [->|Hne].
  - destruct (chunks (chunk_list s0) !! k) as [c0|]; [| discriminate].
    simpl. intros Heq. inversion Heq; subst c'. left. simpl. lia.
  - intros Hk. destruct (Hch _ _ Hk) as [Hlt|Hold]; [left; lia | right].
    destruct Hold as (c0 & Hc0 & Hp). st_simpl. eauto.
Qed.

Lemma preserves_storage_grows_chunk_move cid dev :
  preserves storage_grows (chunk_move getsizeof cid dev).
Proof.
  unfold chunk_move, getitem. pres;
    apply preserves_storage_grows_Chunk_move.
Qed.

Lemma preserves_storage_grows_prepare_device target need :
  preserves storage_grows (prepare_device getsizeof target need).
Proof.
  unfold prepare_device, max_mem, available_mem,
    chunk_to_move_out_for_room_making, log.
  pres; first [sto_leaf | apply preserves_storage_grows_chunk_move].
Qed.

Lemma preserves_storage_grows_new_tensor shape dt tid :
  preserves storage_grows (new_tensor getsizeof shape dt tid).
Proof.
  unfold new_tensor, allocate, add_tensor, log.
  pres; first [sto_leaf | apply preserves_storage_grows_new_chunk].
Qed.

Lemma preserves_storage_grows_get_chunk_id param access_type :
  preserves storage_grows (get_chunk_id param access_type).
Proof.
  unfold get_chunk_id, param_obj, tensor_id_to_chunk_id. pres.
Qed.

Lemma preserves_storage_grows_access param access_type dev :
  preserves storage_grows (access getsizeof param access_type dev).
Proof.
  unfold access, is_ps_param, access_resolve, access_relocate, access_bind,
    access_placeholder, getitem, touch, log, set_status, param_obj,
    update_param.
  pres;
    first [ sto_leaf
          | apply preserves_storage_grows_get_chunk_id
          | apply preserves_storage_grows_new_tensor
          | apply preserves_storage_grows_prepare_device
          | apply preserves_storage_grows_chunk_move ].
Qed.

Lemma preserves_storage_grows_release param access_type rs :
  preserves storage_grows (release getsizeof param access_type rs).
Proof.
  unfold release, release_reset, getitem, set_status, param_obj, update_param.
  pres; first [sto_leaf | apply preserves_storage_grows_get_chunk_id].
Qed.

Lemma preserves_storage_grows_init_ps_param param :
  preserves storage_grows (_init_ps_param param).
Proof.
  unfold _init_ps_param, is_ps_param, is_ps_data, is_ps_grad, generate_id,
    param_obj, update_param.
  pres; sto_leaf.
Qed.

Lemma preserves_storage_grows_convert_to_ps_data param :
  preserves storage_grows (_convert_to_ps_data getsizeof param).
Proof.
  unfold _convert_to_ps_data, tensor_copy_, param_obj, update_param.
  pres; first [sto_leaf | apply preserves_storage_grows_new_tensor].
Qed.

Lemma preserves_storage_grows_convert_to_ps_grad param :
  preserves storage_grows (_convert_to_ps_grad getsizeof param).
Proof.
  unfold _convert_to_ps_grad, tensor_copy_, param_obj, update_param.
  pres; first [sto_leaf | apply preserves_storage_grows_new_tensor].
Qed.

Lemma preserves_storage_grows_register_param param :
  preserves storage_grows (register_param getsizeof param).
Proof.
  unfold register_param.
  pres; first [ apply preserves_storage_grows_init_ps_param
              | apply preserves_storage_grows_convert_to_ps_data
              | apply preserves_storage_grows_convert_to_ps_grad ].
Qed.

Lemma preserves_storage_grows_release_all_grad :
  preserves storage_grows (release_all_grad getsizeof).
Proof.
  unfold release_all_grad, release_grad.
  pres; apply preserves_storage_grows_release.
Qed.

Lemma preserves_storage_grows_register_module m :
  preserves storage_grows (register_module getsizeof m).
Proof.
  unfold register_module.
  pres; first [ sto_leaf
              | apply preserves_storage_grows_init_ps_param
              | apply preserves_storage_grows_convert_to_ps_data
              | apply preserves_storage_grows_convert_to_ps_grad
              | apply preserves_storage_grows_release_all_grad ].
Qed.

(** ** The invariant holds in every state of a client *)

Lemma reachable_wf s :
  reachable getsizeof s -> wf s /\ storage_bounded s.
Proof.
  induction 1 as [s Hs | s m s' _ [IH1 IH2] H | s p s' _ [IH1 IH2] H
                 | s p k dev s' _ [IH1 IH2] H | s p k rs r s' _ [IH1 IH2] H
                 | s s' _ [IH1 IH2] H | s cid dev s' _ [IH1 IH2] H
                 | s target need s' _ [IH1 IH2] H].
  - split; [exact (wf_unmanaged _ Hs) |].
    destruct Hs as (Hc & _). intros cid c. rewrite Hc, lookup_empty.
    discriminate.
  - split; [exact (wf_register_module _ _ _ _ IH1 H) |].
    exact (storage_grows_bounded _ _ IH2
             (preserves_storage_grows_register_module _ _ _ _ H)).
  - split; [exact (wf_register_param _ _ _ _ IH1 H) |].
    exact (storage_grows_bounded _ _ IH2
             (preserves_storage_grows_register_param _ _ _ _ H)).
  - split; [exact (wf_access _ _ _ _ _ _ IH1 H) |].
    exact (storage_grows_bounded _ _ IH2
             (preserves_storage_grows_access _ _ _ _ _ _ H)).
  - split; [exact (wf_release _ _ _ _ _ _ IH1 H) |].
    exact (storage_grows_bounded _ _ IH2
             (preserves_storage_grows_release _ _ _ _ _ _ H)).
  - split; [exact (wf_release_all_grad _ _ _ IH1 H) |].
    exact (storage_grows_bounded _ _ IH2
             (preserves_storage_grows_release_all_grad _ _ _ H)).
  - split; [exact (wf_chunk_move _ _ _ _ _ IH1 H) |].
    exact (storage_grows_bounded _ _ IH2
             (preserves_storage_grows_chunk_move _ _ _ _ _ H)).
  - split; [exact (wf_prepare_device _ _ _ _ _ IH1 H) |].
    exact (storage_grows_bounded _ _ IH2
             (preserves_storage_grows_prepare_device _ _ _ _ _ H)).
Qed.

(** X8. In every state of a client, a tensor of a parameter is owned by the
    parameter in the dictionaries, and the handle of a bound tensor is a
    view of its chunk: the conditions under which [access] was
    specified. *)
Lemma reachable_access_conditions s param P access_type tid :
  reachable getsizeof s ->
  objects s !! param = Some P ->
  ps_id_of access_type P = Some tid ->
  owner s access_type tid param
  /\ forall cid, chunk_tensor_index s !! tid = Some cid ->
                 handle_in_chunk s param access_type tid cid.
Proof.
  intros Hr. apply wf_access_conditions. exact (proj1 (reachable_wf _ Hr)).
Qed.

(** X9. In every state of a client, a bound tensor has its chunk in the
    list, the chunk has a range for it, and the chunk's backing storage
    is none that is still to be allocated: the conditions under which
    [release] was specified. *)
Lemma reachable_release_conditions s tid cid :
  reachable getsizeof s ->
  chunk_tensor_index s !! tid = Some cid ->
  exists c, chunks (chunk_list s) !! cid = Some c
            /\ is_Some (find_info tid (tensor_info_list c))
            /\ (payload c < next_storage s)%nat.
Proof.
  intros Hr Hidx. destruct (reachable_wf _ Hr) as [Hwf Hb].
  destruct (wf_index_chunk _ Hwf _ _ Hidx) as (c & Hc & Hinfo).
  exists c. split; [exact Hc |]. split; [exact Hinfo |]. exact (Hb _ _ Hc).
Qed.


(** ** Identifiers *)

#[global] Instance ids_kept_preorder : PreOrder ids_kept.
Proof.
  split.
  - intros s p P HP. exists P. auto.
  - intros s1 s2 s3 H12 H23 p P HP.
    destruct (H12 _ _ HP) as (P2 & HP2 & Hd & Hg & Hr).
    destruct (H23 _ _ HP2) as (P3 & HP3 & Hd3 & Hg3 & Hr3).
    exists P3. repeat split; congruence.
Qed.

#[global] Instance ids_stable_preorder : PreOrder ids_stable.
Proof.
  split.
  - intros s p P k tid HP Hid. exists P. auto.
  - intros s1 s2 s3 H12 H23 p P k tid HP Hid.
    destruct (H12 _ _ _ _ HP Hid) as (P2 & HP2 & Hid2).
    exact (H23 _ _ _ _ HP2 Hid2).
Qed.

Lemma ids_kept_stable s s' : ids_kept s s' -> ids_stable s s'.
Proof.
  intros H p P k tid HP Hid. destruct (H _ _ HP) as (P' & HP' & Hd & Hg & _).
  exists P'. split; [exact HP' |]. destruct k; simpl in *; congruence.
Qed.

Lemma preserves_ids_stable_kept {A} (m : M A) :
  preserves ids_kept m -> preserves ids_stable m.
Proof. intros Hm s r s' H. exact (ids_kept_stable _ _ (Hm _ _ _ H)). Qed.

Lemma ids_kept_same s s' : objects s' = objects s -> ids_kept s s'.
Proof. intros Ho p P HP. exists P. rewrite Ho. auto. Qed.

Lemma ids_kept_alter f p s :
  (forall P, ps_data_id (f P) = ps_data_id P
             /\ ps_grad_id (f P) = ps_grad_id P
             /\ requires_grad (f P) = requires_grad P) ->
  ids_kept s (set_objects (alter f p (objects s)) s).
Proof.
  intros Hf q Q HQ. st_simpl. rewrite lookup_alter.
  destruct (decide (p = q)) as [->|Hne].
  - rewrite HQ. simpl. exists (f Q). split; [reflexivity | apply Hf].
  - exists Q. auto.
Qed.

Ltac ids_leaf :=
  match goal with
  | |- preserves ids_kept (modify _) =>
      apply preserves_modify; intros ?;
      first [ apply ids_kept_same; reflexivity
            | apply ids_kept_alter; intros ?; repeat split; reflexivity ]
  | |- preserves ids_kept (update_param _ _) =>
      unfold update_param; apply preserves_modify; intros ?;
      apply ids_kept_alter; intros ?; repeat split; reflexivity
  | |- preserves ids_kept (update_chunk _ _) =>
      unfold update_chunk; apply preserves_modify; intros ?;
      apply ids_kept_same; reflexivity
  end.

Lemma preserves_ids_kept_chunk_move cid dev :
  preserves ids_kept (chunk_move getsizeof cid dev).
Proof.
  unfold chunk_move, Chunk_move, getitem, log, reserve, rebind.
  pres; ids_leaf.
Qed.

Lemma preserves_ids_kept_prepare_device target need :
  preserves ids_kept (prepare_device getsizeof target need).
Proof.
  unfold prepare_device, max_mem, available_mem,
    chunk_to_move_out_for_room_making, log.
  pres; first [ids_leaf | apply preserves_ids_kept_chunk_move].
Qed.

Lemma preserves_ids_kept_new_tensor shape dt tid :
  preserves ids_kept (new_tensor getsizeof shape dt tid).
Proof.
  unfold new_tensor, allocate, new_chunk, add_tensor, log, reserve,
    torch_zeros.
  pres; ids_leaf.
Qed.

Lemma preserves_ids_kept_get_chunk_id param access_type :
  preserves ids_kept (get_chunk_id param access_type).
Proof. unfold get_chunk_id, param_obj, tensor_id_to_chunk_id. pres. Qed.

Lemma preserves_ids_kept_access param access_type dev :
  preserves ids_kept (access getsizeof param access_type dev).
Proof.
  unfold access, is_ps_param, access_resolve, access_relocate, access_bind,
    access_placeholder, getitem, touch, log, set_status, param_obj,
    torch_zeros.
  pres;
    first [ ids_leaf
          | apply preserves_ids_kept_get_chunk_id
          | apply preserves_ids_kept_new_tensor
          | apply preserves_ids_kept_prepare_device
          | apply preserves_ids_kept_chunk_move ].
Qed.

Lemma preserves_ids_kept_release param access_type rs :
  preserves ids_kept (release getsizeof param access_type rs).
Proof.
  unfold release, release_reset, delete_free_chunks, getitem, set_status,
    param_obj, torch_zeros, log.
  pres; first [ids_leaf | apply preserves_ids_kept_get_chunk_id].
Qed.

Lemma preserves_ids_kept_convert_to_ps_data param :
  preserves ids_kept (_convert_to_ps_data getsizeof param).
Proof.
  unfold _convert_to_ps_data, tensor_copy_, param_obj.
  pres; first [ids_leaf | apply preserves_ids_kept_new_tensor].
Qed.

Lemma preserves_ids_kept_convert_to_ps_grad param :
  preserves ids_kept (_convert_to_ps_grad getsizeof param).
Proof.
  unfold _convert_to_ps_grad, tensor_copy_, param_obj.
  pres; first [ids_leaf | apply preserves_ids_kept_new_tensor].
Qed.

Lemma preserves_ids_kept_release_all_grad :
  preserves ids_kept (release_all_grad getsizeof).
Proof.
  unfold release_all_grad, release_grad.
  pres; apply preserves_ids_kept_release.
Qed.

(** What [_init_ps_param] does, read off its three exits: nothing for a
    parameter that has a data identifier; [AttributeError] for a missing
    object; otherwise the data tensor gets the next identifier, and the
    gradient tensor the one after it when the parameter requires a
    gradient and has no gradient identifier yet. *)
Lemma init_ps_param_effect param s r s' :
  _init_ps_param param s = (r, s') ->
  (r = Ok tt /\ s' = s /\ registered s param)
  \/ (r = Raise AttributeError /\ s' = s /\ objects s !! param = None)
  \/ exists P P',
       objects s !! param = Some P /\ ps_data_id P = None /\ r = Ok tt
       /\ objects s' !! param = Some P'
       /\ (forall q, q <> param -> objects s' !! q = objects s !! q)
       /\ ps_data_id P' = Some (ps_id s + 1)
       /\ requires_grad P' = requires_grad P
       /\ (if negb (bool_decide (is_Some (ps_grad_id P))) && requires_grad P
           then ps_grad_id P' = Some (ps_id s + 2)
                /\ ps_id s' = ps_id s + 2
                /\ param_grad_dict s'
                   = <[ps_id s + 2 := param]> (param_grad_dict s)
           else ps_grad_id P' = ps_grad_id P
                /\ ps_id s' = ps_id s + 1
                /\ param_grad_dict s' = param_grad_dict s)
       /\ param_data_dict s' = <[ps_id s + 1 := param]> (param_data_dict s)
       /\ data_status P' = Some FREE /\ grad_status P' = Some FREE
       /\ data P' = data P /\ grad P' = grad P
       /\ chunk_list s' = chunk_list s
       /\ chunk_tensor_index s' = chunk_tensor_index s
       /\ storages s' = storages s
       /\ next_storage s' = next_storage s.
Proof.
  intros H. unfold _init_ps_param in H.
  rewrite (bind_step _ _ _ _ _ (is_ps_param_spec param s)) in H.
  destruct (decide (registered s param)) as [Hr|Hn].
  { rewrite bool_decide_eq_true_2 in H by exact Hr.
    inversion H; subst. left. auto. }
  rewrite bool_decide_eq_false_2 in H by exact Hn. right.
  destruct (objects s !! param) as [P|] eqn:HP.
  2:{ left. unfold param_obj, bind, get, attr, raise in H. rewrite HP in H.
      inversion H; subst. auto. }
  right.
  assert (Hdid : ps_data_id P = None)
    by (destruct (ps_data_id P) eqn:E; [| reflexivity];
        exfalso; apply Hn; exists P; rewrite E; eauto).
  rewrite (bind_step _ _ _ _ _ (param_obj_some _ _ _ HP)) in H.
  run_total H.
  erewrite bind_step in H; cycle 1.
  { apply is_ps_data_some. st_simpl. rewrite lookup_alter_eq, HP. reflexivity. }
  cbn [ps_data_id set_grad_status set_data_status set_ps_shape set_ps_numel]
    in H.
  rewrite Hdid, bool_decide_eq_false_2 in H by (apply is_Some_None).
  cbn [negb] in H.
  erewrite bind_step in H; cycle 1.
  { repeat go_total. reflexivity. }
  st_simpl.
  erewrite bind_step in H; cycle 1.
  { apply is_ps_grad_some. st_simpl. rewrite !lookup_alter_eq, HP. reflexivity. }
  cbn [ps_grad_id set_ps_data_tensor set_ps_data_id set_grad_status
       set_data_status set_ps_shape set_ps_numel] in H.
  exists P.
  destruct (negb (bool_decide (is_Some (ps_grad_id P))) && requires_grad P).
  - repeat run_total H. unfold update_param, modify in H.
    inversion H; subst r s'; clear H. st_simpl.
    eexists. split; [reflexivity |]. split; [exact Hdid |].
    split; [reflexivity |].
    split; [rewrite !lookup_alter_eq, HP; reflexivity |].
    split; [intros q Hq; rewrite !lookup_alter_ne by congruence; reflexivity |].
    cbn. replace (ps_id s + 1 + 1) with (ps_id s + 2) by lia.
    repeat split; reflexivity.
  - inversion H; subst r s'; clear H. st_simpl.
    eexists. split; [reflexivity |]. split; [exact Hdid |].
    split; [reflexivity |].
    split; [rewrite !lookup_alter_eq, HP; reflexivity |].
    split; [intros q Hq; rewrite !lookup_alter_ne by congruence; reflexivity |].
    cbn. repeat split; reflexivity.
Qed.

(** Whatever its outcome, [_init_ps_param] takes no identifier away and
    changes none. *)
Lemma preserves_ids_stable_init_ps_param param :
  preserves ids_stable (_init_ps_param param).
Proof.
  intros s r s' H.
  apply init_ps_param_effect in H
    as [(_ & -> & _)|[(_ & -> & _)|(P & P' & HP & Hdid & _ & HP' & Hother
                                      & _ & _ & Hg & _)]];
    [reflexivity | reflexivity |].
  intros q Q k tid HQ Hid. destruct (decide (q = param)) as [->|Hne].
  - rewrite HP in HQ. inversion HQ; subst Q. exists P'. split; [exact HP' |].
    destruct k; simpl in *; [congruence |].
    rewrite Hid in Hg. rewrite bool_decide_eq_true_2 in Hg by eauto.
    simpl in Hg. destruct Hg as (Hg & _). congruence.
  - exists Q. rewrite (Hother _ Hne). auto.
Qed.

Lemma preserves_ids_stable_register_param param :
  preserves ids_stable (register_param getsizeof param).
Proof.
  unfold register_param.
  pres; first [ apply preserves_ids_stable_init_ps_param
              | apply preserves_ids_stable_kept,
                  preserves_ids_kept_convert_to_ps_data
              | apply preserves_ids_stable_kept,
                  preserves_ids_kept_convert_to_ps_grad ].
Qed.

Lemma preserves_ids_stable_register_module m :
  preserves ids_stable (register_module getsizeof m).
Proof.
  unfold register_module.
  pres; first [ apply preserves_ids_stable_init_ps_param
              | apply preserves_ids_stable_kept,
                  preserves_ids_kept_convert_to_ps_data
              | apply preserves_ids_stable_kept,
                  preserves_ids_kept_convert_to_ps_grad
              | apply preserves_ids_stable_kept,
                  preserves_ids_kept_release_all_grad
              | apply preserves_modify; intros ?;
                apply ids_kept_stable, ids_kept_same; reflexivity ].
Qed.

(** X2. An identifier, once a parameter carries it, is there to stay: no
    call of a method of the client, completed or failed, removes or
    changes the data or gradient identifier of any parameter. *)
Theorem identifiers_never_change s s' p P access_type tid :
  client_call getsizeof s s' ->
  objects s !! p = Some P ->
  ps_id_of access_type P = Some tid ->
  exists P', objects s' !! p = Some P' /\ ps_id_of access_type P' = Some tid.
Proof.
  intros Hcall HP Hid.
  assert (Hst : ids_stable s s'); [| exact (Hst _ _ _ _ HP Hid)].
  destruct Hcall as [m s r s' H | q s r s' H | q k dev s r s' H
                    | q k rs s r s' H | s r s' H | cid dev s r s' H
                    | target need s r s' H].
  - exact (preserves_ids_stable_register_module _ _ _ _ H).
  - exact (preserves_ids_stable_register_param _ _ _ _ H).
  - exact (ids_kept_stable _ _ (preserves_ids_kept_access _ _ _ _ _ _ H)).
  - exact (ids_kept_stable _ _ (preserves_ids_kept_release _ _ _ _ _ _ H)).
  - exact (ids_kept_stable _ _ (preserves_ids_kept_release_all_grad _ _ _ H)).
  - exact (ids_kept_stable _ _ (preserves_ids_kept_chunk_move _ _ _ _ _ H)).
  - exact (ids_kept_stable _ _
             (preserves_ids_kept_prepare_device _ _ _ _ _ H)).
Qed.

(** ** Tensors without an identifier *)

(** X4. [release] does not test [is_ps_param]: on a tensor that has no
    identifier, be it of a parameter the client has never seen, it fails
    with the [AttributeError] of the attribute read in [get_chunk_id],
    and so does [access] on the gradient of a registered parameter that
    has no gradient identifier.  Either way the state is untouched. *)
Theorem missing_identifier_raises_AttributeError param access_type s P :
  objects s !! param = Some P ->
  ps_id_of access_type P = None ->
  (forall rs,
     release getsizeof param access_type rs s = (Raise AttributeError, s))
  /\ (is_Some (ps_data_id P) ->
      forall dev,
        access getsizeof param access_type dev s = (Raise AttributeError, s)).
Proof.
  intros HP Hid. split.
  - intros rs. exact (release_missing _ _ _ _ _ HP Hid).
  - intros Hreg dev. unfold access.
    rewrite (bind_step _ _ _ _ _ (is_ps_param_spec param s)).
    rewrite bool_decide_eq_true_2 by (exists P; auto). cbn [negb].
    unfold access_resolve.
    pose proof (get_chunk_id_missing _ _ _ _ HP Hid) as Hget.
    unfold bind at 1 2. rewrite Hget. reflexivity.
Qed.

(** ** Registration *)

Lemma init_ps_param_registered param s :
  registered s param -> _init_ps_param param s = (Ok tt, s).
Proof.
  intros Hr. unfold _init_ps_param.
  rewrite (bind_step _ _ _ _ _ (is_ps_param_spec param s)).
  rewrite bool_decide_eq_true_2 by exact Hr. reflexivity.
Qed.

(** X3. [_init_ps_param] is idempotent: run again on the state a completed
    run has left, it completes and changes nothing, so no parameter gets
    a second pair of identifiers. *)
Theorem init_ps_param_idempotent param s s1 :
  _init_ps_param param s = (Ok tt, s1) ->
  _init_ps_param param s1 = (Ok tt, s1).
Proof.
  intros H. apply init_ps_param_registered.
  apply init_ps_param_effect in H
    as [(_ & -> & Hr)|[(Hr & _)|(P & P' & _ & _ & _ & HP' & _ & Hid & _)]].
  - exact Hr.
  - discriminate.
  - exists P'. split; [exact HP' |]. rewrite Hid. eauto.
Qed.

#[global] Instance module_kept_preorder : PreOrder module_kept.
Proof.
  split; [intros s; reflexivity |].
  intros s1 s2 s3 H12 H23. unfold module_kept in *. congruence.
Qed.

Ltac module_leaf :=
  match goal with
  | |- preserves module_kept (modify _) =>
      apply preserves_modify; intros ?; reflexivity
  | |- preserves module_kept (update_param _ _) =>
      unfold update_param; apply preserves_modify; intros ?; reflexivity
  | |- preserves module_kept (update_chunk _ _) =>
      unfold update_chunk; apply preserves_modify; intros ?; reflexivity
  end.

Lemma preserves_module_kept_init_ps_param param :
  preserves module_kept (_init_ps_param param).
Proof.
  unfold _init_ps_param, is_ps_param, is_ps_data, is_ps_grad, generate_id,
    param_obj.
  pres; module_leaf.
Qed.

Lemma preserves_module_kept_new_tensor shape dt tid :
  preserves module_kept (new_tensor getsizeof shape dt tid).
Proof.
  unfold new_tensor, allocate, new_chunk, add_tensor, log, reserve,
    torch_zeros.
  pres; module_leaf.
Qed.

Lemma preserves_module_kept_convert_to_ps_data param :
  preserves module_kept (_convert_to_ps_data getsizeof param).
Proof.
  unfold _convert_to_ps_data, tensor_copy_, param_obj.
  pres; first [module_leaf | apply preserves_module_kept_new_tensor].
Qed.

Lemma preserves_module_kept_convert_to_ps_grad param :
  preserves module_kept (_convert_to_ps_grad getsizeof param).
Proof.
  unfold _convert_to_ps_grad, tensor_copy_, param_obj.
  pres; first [module_leaf | apply preserves_module_kept_new_tensor].
Qed.

Lemma frozen_ids_kept s s' p : frozen s p -> ids_kept s s' -> frozen s' p.
Proof.
  intros (P & HP & Hg & Hr) Hk.
  destruct (Hk _ _ HP) as (P' & HP' & _ & Hg' & Hr').
  exists P'. repeat split; congruence.
Qed.

Lemma frozen_init_ps_param p q : ok_keeps (fun s => frozen s p) (_init_ps_param q).
Proof.
  intros s [] s' (P & HP & Hg & Hr) H.
  apply init_ps_param_effect in H
    as [(_ & -> & _)|[(_ & -> & _)|(Q & Q' & HQ & _ & _ & HQ' & Hother
                                      & _ & Hrg & Hgrad & _)]].
  - exists P. auto.
  - exists P. auto.
  - destruct (decide (p = q)) as [->|Hne].
    + rewrite HP in HQ. inversion HQ; subst Q. exists Q'.
      split; [exact HQ' |]. rewrite Hr, andb_false_r in Hgrad.
      destruct Hgrad as (Hg' & _). split; congruence.
    + exists P. rewrite (Hother _ Hne). auto.
Qed.

(** A loop over a list that contains an element on which the body
    cannot complete does not complete. *)
Lemma for_each_blocked {A} (I : State -> Prop) (l : list A)
    (body : A -> M unit) x s s' :
  x ∈ l ->
  (forall y, ok_keeps I (body y)) ->
  (forall s0 a s1, I s0 -> body x s0 <> (Ok a, s1)) ->
  I s -> for_each l body s <> (Ok tt, s').
Proof.
  intros Hin Hkeep Hblock. revert s.
  induction l as [|y l IH]; intros s HI H; [inversion Hin |].
  simpl in H. apply bind_ok_inv in H as ([] & s1 & Hy & H).
  apply elem_of_cons in Hin as [->|Hin].
  - exact (Hblock _ _ _ HI Hy).
  - exact (IH Hin _ (Hkeep _ _ _ _ HI Hy) H).
Qed.

(** X5. [register_module] ends with [release_all_grad], which releases the
    gradient of every parameter of the module; a parameter that does not
    require a gradient was given no gradient identifier, so the release
    of its gradient raises.  Hence [register_module] fails on every
    module that has such a parameter. *)
Theorem register_module_fails_on_frozen_parameter ps p P s :
  p ∈ ps ->
  objects s !! p = Some P ->
  ps_grad_id P = None ->
  requires_grad P = false ->
  exists e s', register_module getsizeof (Some ps) s = (Raise e, s').
Proof.
  intros Hin HP Hg Hr.
  destruct (register_module getsizeof (Some ps) s) as [[[]|e] s'] eqn:H;
    [exfalso | eauto].
  unfold register_module in H.
  apply bind_ok_inv in H as ([] & s4 & H & Hrel).
  apply bind_ok_inv in H as ([] & s0 & H0 & H).
  apply bind_ok_inv in H as ([] & s1 & H1 & H).
  apply bind_ok_inv in H as ([] & s2 & H2 & H3).
  unfold modify in H0. inversion H0; subst s0; clear H0.
  assert (Hf0 : frozen (set_module (Some ps) s) p) by (exists P; auto).
  assert (Hf1 : frozen s1 p).
  { eapply (ok_keeps_for_each (fun s => frozen s p)); [| exact Hf0 | exact H1].
    intros q. apply frozen_init_ps_param. }
  assert (Hf2 : frozen s2 p).
  { eapply frozen_ids_kept; [exact Hf1 |].
    eapply preserves_for_each; [exact _ | | exact H2].
    intros q. apply preserves_ids_kept_convert_to_ps_data. }
  assert (Hf4 : frozen s4 p).
  { eapply frozen_ids_kept; [exact Hf2 |].
    eapply preserves_for_each; [exact _ | | exact H3].
    intros q. apply preserves_ids_kept_convert_to_ps_grad. }
  assert (Hm : module s4 = Some ps).
  { transitivity (module s2).
    { eapply (preserves_for_each module_kept); [| exact H3].
      intros q. apply preserves_module_kept_convert_to_ps_grad. }
    transitivity (module s1).
    { eapply (preserves_for_each module_kept); [| exact H2].
      intros q. apply preserves_module_kept_convert_to_ps_data. }
    transitivity (module (set_module (Some ps) s)); [| reflexivity].
    eapply (preserves_for_each module_kept); [| exact H1].
    intros q. apply preserves_module_kept_init_ps_param. }
  unfold release_all_grad in Hrel.
  rewrite (bind_step _ _ _ _ _ (eq_refl : get s4 = (Ok s4, s4))) in Hrel.
  rewrite Hm in Hrel.
  eapply (for_each_blocked (fun s => frozen s p)); [exact Hin | | | exact Hf4
                                                    | exact Hrel].
  - intros q s5 a s6 Hf Hq. eapply frozen_ids_kept; [exact Hf |].
    exact (preserves_ids_kept_release _ _ _ _ _ _ Hq).
  - intros s5 a s6 (Q & HQ & HgQ & _) Hq. unfold release_grad in Hq.
    assert (Hid : ps_id_of GRAD Q = None) by exact HgQ.
    rewrite (release_missing _ _ _ _ _ HQ Hid) in Hq. discriminate.
Qed.

(** ** Consequences of the invariant *)

(** X1. Identifiers are unique: in every state of a client, a number
    identifies at most one tensor, so two parameters never share an
    identifier and the data and the gradient of a parameter never carry
    the same one. *)
Theorem identifiers_are_unique s p q P Q k k' tid :
  reachable getsizeof s ->
  objects s !! p = Some P ->
  objects s !! q = Some Q ->
  ps_id_of k P = Some tid ->
  ps_id_of k' Q = Some tid ->
  p = q /\ k = k'.
Proof.
  intros Hr HP HQ HidP HidQ. destruct (reachable_wf _ Hr) as [Hwf _].
  pose proof (wf_owner _ Hwf _ _ _ _ HP HidP) as Hp.
  pose proof (wf_owner _ Hwf _ _ _ _ HQ HidQ) as Hq.
  destruct k, k'; simpl in Hp, Hq.
  - split; [congruence | reflexivity].
  - destruct Hq. congruence.
  - destruct Hp. congruence.
  - destruct Hp, Hq. split; [congruence | reflexivity].
Qed.

(** X10. Nothing dangles in a state of a client: every range of every chunk
    of the list is indexed to that chunk, every entry of the two
    parameter dictionaries names a parameter that carries the
    identifier, and the identifier and chunk counters lie at or beyond
    everything in use. *)
Theorem no_dangling_entries s :
  reachable getsizeof s ->
  (forall cid c info,
     chunks (chunk_list s) !! cid = Some c ->
     info ∈ tensor_info_list c ->
     chunk_tensor_index s !! tensor_id info = Some cid)
  /\ (forall tid p,
        param_data_dict s !! tid = Some p ->
        exists P, objects s !! p = Some P /\ ps_data_id P = Some tid)
  /\ (forall tid p,
        param_grad_dict s !! tid = Some p ->
        exists P, objects s !! p = Some P /\ ps_grad_id P = Some tid)
  /\ (forall p P access_type tid,
        objects s !! p = Some P ->
        ps_id_of access_type P = Some tid -> tid <= ps_id s)
  /\ (forall cid,
        is_Some (chunks (chunk_list s) !! cid) ->
        (cid < next_chunk_id (chunk_list s))%nat).
Proof.
  intros Hr. destruct (reachable_wf _ Hr) as [Hwf _].
  split; [exact (wf_range_index _ Hwf) |].
  split; [exact (wf_data_dict _ Hwf) |].
  split; [exact (wf_grad_dict _ Hwf) |].
  split; [| exact (wf_chunk_ids _ Hwf)].
  intros p P k tid HP Hid. exact (owned_id_bound _ _ _ _ _ Hwf HP Hid).
Qed.

(** ** The chunk identifier kept on the parameter *)

(** X6. A completed conversion of the data records the chunk it was given
    in [ps_data_chunk_id].  A completed conversion of the gradient
    records it in [ps_gard_chunk_id], the attribute the source assigns,
    and leaves [ps_grad_chunk_id] as it was. *)
Theorem conversion_records_chunk_id param s P s2 :
  objects s !! param = Some P ->
  (forall tid,
     ps_data_id P = Some tid ->
     _convert_to_ps_data getsizeof param s = (Ok tt, s2) ->
     exists cid P2,
       chunk_tensor_index s2 !! tid = Some cid
       /\ objects s2 !! param = Some P2
       /\ ps_data_chunk_id P2 = Some cid)
  /\ (forall tid g,
        ps_grad_id P = Some tid ->
        grad P = Some g ->
        _convert_to_ps_grad getsizeof param s = (Ok tt, s2) ->
        exists cid P2,
          chunk_tensor_index s2 !! tid = Some cid
          /\ objects s2 !! param = Some P2
          /\ ps_gard_chunk_id P2 = Some cid
          /\ ps_grad_chunk_id P2 = ps_grad_chunk_id P).
Proof.
  intros HP. split.
  - intros tid Hid H. unfold _convert_to_ps_data in H. run_param H HP.
    apply bind_ok_inv in H as (shape & s0 & Hshape & H).
    apply attr_ok in Hshape as [Hshape ->].
    rewrite Hid in H. run_total H.
    destruct (convert_ok
                (fun t k P => set_ps_data_chunk_id (Some k)
                                (set_ps_data_tensor (Some t) P))
                set_data (set_data_status (Some HOLD))
                shape (dtype P) tid param (tensor_elems (data P)) s s2 P H HP)
      as (cid & c & t & info & _ & [Hidx _] & _ & _ & _ & _ & _ & HP2).
    eexists cid, _. split; [exact Hidx |]. split; [exact HP2 | reflexivity].
  - intros tid g Hid Hg H. unfold _convert_to_ps_grad in H. run_param H HP.
    rewrite Hg in H.
    apply bind_ok_inv in H as (shape & s0 & Hshape & H).
    apply attr_ok in Hshape as [Hshape ->].
    rewrite Hid in H. run_total H.
    destruct (convert_ok
                (fun t k P => set_ps_gard_chunk_id (Some k)
                                (set_ps_grad_tensor (Some t) P))
                (fun t => set_grad (Some t)) (set_grad_status (Some HOLD))
                shape (dtype P) tid param (tensor_elems g) s s2 P H HP)
      as (cid & c & t & info & _ & [Hidx _] & _ & _ & _ & _ & _ & HP2).
    eexists cid, _. split; [exact Hidx |]. split; [exact HP2 |].
    split; reflexivity.
Qed.

(** ** Moving a chunk *)

(** X7. [chunk_move] is idempotent: after a completed move the chunk is on
    the device, and moving it there again changes nothing, not even the
    trace of calls on the chunk list. *)
Theorem chunk_move_idempotent cid dev s s1 :
  chunk_move getsizeof cid dev s = (Ok tt, s1) ->
  chunk_move getsizeof cid dev s1 = (Ok tt, s1).
Proof.
  intros H. destruct (chunk_move_resident _ _ _ _ H) as (c' & Hc' & Hd).
  unfold chunk_move. rewrite (bind_step _ _ _ _ _ (getitem_some _ _ _ Hc')).
  destruct (decide (device c' <> dev)) as [Hne|_]; [contradiction | reflexivity].
Qed.

(** ** The layout of an allocation *)

Lemma alter_as_insert {K A} `{Countable K} (f : A -> A) (k : K)
    (m : gmap K A) x :
  m !! k = Some x -> alter f k m = <[k := f x]> m.
Proof.
  intros Hk. apply map_eq. intros j. rewrite lookup_alter, lookup_insert.
  destruct (decide (k = j)) as [->|Hne]; [rewrite Hk |]; reflexivity.
Qed.

Lemma last_chunk_of_dtype dt cs n k c :
  last_chunk_of dt cs n = Some (k, c) -> data_type c = dt.
Proof.
  induction n as [|n IH]; simpl; [discriminate |].
  destruct (cs !! n) as [c0|]; [| exact IH].
  destruct (decide (data_type c0 = dt)) as [Hd|]; [| exact IH].
  intros H. inversion H. congruence.
Qed.

(** What a completed [new_tensor] did, in full: the tensor, unbound
    before, is bound to the chunk returned; that chunk is either the most
    recent chunk of the dtype, with the new range in [HOLD] appended at
    its boundary, or a new chunk on fresh zero-filled storage with the
    range at offset 0; the view has the requested shape and lies within
    the chunk's capacity. *)
Lemma new_tensor_layout shape dt tid s t cid s1 :
  new_tensor getsizeof shape dt tid s = (Ok (t, cid), s1) ->
  exists cnew off,
    chunk_tensor_index s !! tid = None
    /\ chunk_tensor_index s1 = <[tid := cid]> (chunk_tensor_index s)
    /\ objects s1 = objects s
    /\ param_data_dict s1 = param_data_dict s
    /\ param_grad_dict s1 = param_grad_dict s
    /\ ps_id s1 = ps_id s
    /\ module s1 = module s
    /\ chunks (chunk_list s1) = <[cid := cnew]> (chunks (chunk_list s))
    /\ t = mkTensor (payload cnew) (device cnew) off shape
    /\ (off + shape_numel shape <= capacity cnew)%nat
    /\ data_type cnew = dt
    /\ ((exists c,
           chunks (chunk_list s) !! cid = Some c
           /\ off = boundary c
           /\ cnew = set_tensor_info_list
                       (tensor_info_list c
                        ++ [mkTensorInfo tid off (shape_numel shape) HOLD]) c
           /\ storages s1 = storages s
           /\ next_storage s1 = next_storage s)
        \/ (cid = next_chunk_id (chunk_list s)
            /\ off = 0%nat
            /\ tensor_info_list cnew
               = [mkTensorInfo tid 0 (shape_numel shape) HOLD]
            /\ payload cnew = next_storage s
            /\ capacity cnew
               = Nat.max (default_chunk_size (chunk_list s))
                         (shape_numel shape)
            /\ storages s1
               = <[next_storage s := replicate (capacity cnew) 0]>
                   (storages s)
            /\ next_storage s1 = S (next_storage s))).
Proof.
  intros H. unfold new_tensor in H.
  apply bind_ok_inv in H as ([k t0] & s0 & Hal & H).
  apply bind_ok_inv in H as ([] & s2 & Hadd & H).
  inversion H; subst t cid s2; clear H. simpl.
  unfold add_tensor, bind, get, raise, modify in Hadd.
  destruct (chunk_tensor_index s0 !! tid) eqn:Hnone; [discriminate |].
  inversion Hadd; subst s1; clear Hadd. st_simpl.
  unfold allocate in Hal. run_total Hal. run_total Hal.
  set (n := shape_numel shape) in *.
  assert (Hnew : new_chunk getsizeof n dt tid
                   (set_calls (CallAllocate n dt tid :: calls s) s)
                 = (Ok (k, t0), s0) ->
    exists cnew off,
      chunk_tensor_index s !! tid = None
      /\ <[tid := k]> (chunk_tensor_index s0) = <[tid := k]> (chunk_tensor_index s)
      /\ objects s0 = objects s
      /\ param_data_dict s0 = param_data_dict s
      /\ param_grad_dict s0 = param_grad_dict s
      /\ ps_id s0 = ps_id s
      /\ module s0 = module s
      /\ chunks (chunk_list s0) = <[k := cnew]> (chunks (chunk_list s))
      /\ mkTensor (t_storage t0) (t_device t0) (t_offset t0) shape
         = mkTensor (payload cnew) (device cnew) off shape
      /\ (off + n <= capacity cnew)%nat
      /\ data_type cnew = dt
      /\ ((exists c,
             chunks (chunk_list s) !! k = Some c
             /\ off = boundary c
             /\ cnew = set_tensor_info_list
                         (tensor_info_list c ++ [mkTensorInfo tid off n HOLD]) c
             /\ storages s0 = storages s
             /\ next_storage s0 = next_storage s)
          \/ (k = next_chunk_id (chunk_list s)
              /\ off = 0%nat
              /\ tensor_info_list cnew = [mkTensorInfo tid 0 n HOLD]
              /\ payload cnew = next_storage s
              /\ capacity cnew
                 = Nat.max (default_chunk_size (chunk_list s)) n
              /\ storages s0
                 = <[next_storage s := replicate (capacity cnew) 0]>
                     (storages s)
              /\ next_storage s0 = S (next_storage s)))).
  { clear Hal. intros Hn. unfold new_chunk in Hn. run_total Hn. cbv zeta in Hn.
    apply bind_ok_inv in Hn as ([] & s2 & Hres & Hn).
    unfold reserve, bind, get, raise, modify in Hres.
    destruct (decide _) in Hres; [discriminate |].
    inversion Hres; subst s2; clear Hres.
    run_total Hn. run_total Hn. inversion Hn; subst k t0 s0; clear Hn.
    st_simpl. simpl in Hnone.
    eexists _, 0%nat. split; [exact Hnone |].
    repeat (split; [reflexivity |]).
    split; [simpl; lia |]. split; [reflexivity |].
    right. simpl. repeat split; try reflexivity.
    f_equal. f_equal. unfold shape_numel. simpl. lia. }
  destruct (last_chunk_of _ _ _) as [[k0 c]|] eqn:Hlast; [| exact (Hnew Hal)].
  destruct (decide _) as [Hfit|]; [| exact (Hnew Hal)]. clear Hnew.
  pose proof (last_chunk_of_dtype _ _ _ _ _ Hlast) as Hdt.
  apply last_chunk_of_lookup in Hlast.
  run_total Hal. inversion Hal; subst k t0 s0; clear Hal. st_simpl.
  simpl in Hnone.
  eexists _, (boundary c). split; [exact Hnone |].
  split; [reflexivity |]. split; [reflexivity |]. split; [reflexivity |].
  split; [reflexivity |]. split; [reflexivity |]. split; [reflexivity |].
  split; [exact (alter_as_insert _ _ _ _ Hlast) |].
  split; [reflexivity |]. split; [exact Hfit |]. split; [exact Hdt |].
  left. exists c. repeat split; reflexivity || exact Hlast.
Qed.

(** ** Statuses: framing *)

#[global] Instance same_ranges_equiv : Equivalence same_ranges.
Proof.
  unfold same_ranges. split.
  - intros c. reflexivity.
  - intros c c' H. congruence.
  - intros c1 c2 c3 H1 H2. congruence.
Qed.

#[global] Instance same_marks_equiv : Equivalence same_marks.
Proof.
  unfold same_marks. split.
  - intros P. auto.
  - intros P P' (H1 & H2 & H3 & H4). repeat split; congruence.
  - intros P1 P2 P3 (H1 & H2 & H3 & H4) (H5 & H6 & H7 & H8).
    repeat split; congruence.
Qed.

#[global] Instance status_frame_preorder : PreOrder status_frame.
Proof.
  split.
  - intros s. constructor; [reflexivity | |]; intros k; reflexivity.
  - intros s1 s2 s3 [Hi Hc Ho] [Hi' Hc' Ho']. constructor.
    + congruence.
    + intros k. etransitivity; [apply Hc | apply Hc'].
    + intros k. etransitivity; [apply Ho | apply Ho'].
Qed.

Lemma status_frame_same s s' :
  chunk_tensor_index s' = chunk_tensor_index s ->
  chunks (chunk_list s') = chunks (chunk_list s) ->
  objects s' = objects s ->
  status_frame s s'.
Proof.
  intros Hi Hc Ho. constructor; [exact Hi | |]; intros k.
  - rewrite Hc. reflexivity.
  - rewrite Ho. reflexivity.
Qed.

Lemma status_frame_alter_chunk f cid s :
  (forall c, tensor_info_list (f c) = tensor_info_list c) ->
  status_frame s (set_chunks (alter f cid (chunks (chunk_list s))) s).
Proof.
  intros Hf. constructor; [reflexivity | | intros k; reflexivity].
  intros k. st_simpl. rewrite lookup_alter.
  destruct (decide (cid = k)) as [->|Hne]; [| reflexivity].
  destruct (chunks (chunk_list s) !! k); constructor. apply Hf.
Qed.

Lemma status_frame_alter_param f p s :
  (forall P, same_marks P (f P)) ->
  status_frame s (set_objects (alter f p (objects s)) s).
Proof.
  intros Hf. constructor; [reflexivity | intros k; reflexivity |].
  intros k. st_simpl. rewrite lookup_alter.
  destruct (decide (p = k)) as [->|Hne]; [| reflexivity].
  destruct (objects s !! k); constructor. apply Hf.
Qed.

Ltac sf_leaf :=
  match goal with
  | |- preserves status_frame (modify _) =>
      apply preserves_modify; intros ?;
      first [ apply status_frame_same; reflexivity
            | apply status_frame_alter_chunk; intros ?; reflexivity
            | apply status_frame_alter_param; intros ?; repeat split ]
  | |- preserves status_frame (update_param _ _) =>
      unfold update_param; apply preserves_modify; intros ?;
      apply status_frame_alter_param; intros ?; repeat split
  | |- preserves status_frame (update_chunk _ _) =>
      unfold update_chunk; apply preserves_modify; intros ?;
      apply status_frame_alter_chunk; intros ?; reflexivity
  end.

Lemma preserves_status_frame_chunk_move cid dev :
  preserves status_frame (chunk_move getsizeof cid dev).
Proof.
  unfold chunk_move, Chunk_move, getitem, log, reserve, rebind.
  pres; sf_leaf.
Qed.

Lemma preserves_status_frame_prepare_device target need :
  preserves status_frame (prepare_device getsizeof target need).
Proof.
  unfold prepare_device, max_mem, available_mem,
    chunk_to_move_out_for_room_making, log.
  pres; first [sf_leaf | apply preserves_status_frame_chunk_move].
Qed.

Lemma preserves_status_frame_access_relocate param access_type dev cid :
  preserves status_frame (access_relocate getsizeof param access_type dev cid).
Proof.
  unfold access_relocate, param_obj, getitem.
  pres; first [ sf_leaf
              | apply preserves_status_frame_prepare_device
              | apply preserves_status_frame_chunk_move ].
Qed.

Lemma mirrored_at_frame s s' k P P' tid :
  status_frame s s' ->
  status_of k P' = status_of k P ->
  mirrored_at s k P tid -> mirrored_at s' k P' tid.
Proof.
  intros [Hi Hc _] Hst. unfold mirrored_at. rewrite Hi, Hst.
  destruct (chunk_tensor_index s !! tid) as [cid|]; [| auto].
  intros (c & Hcid & Hinfo). specialize (Hc cid). rewrite Hcid in Hc.
  inversion Hc as [c0 c' Hsame|]; subst. exists c'. split; [reflexivity |].
  unfold info_status. rewrite Hsame. exact Hinfo.
Qed.

Lemma status_frame_back s s' p P' :
  status_frame s s' -> objects s' !! p = Some P' ->
  exists P, objects s !! p = Some P /\ same_marks P P'.
Proof.
  intros [_ _ Ho] HP'. specialize (Ho p). rewrite HP' in Ho.
  inversion Ho; subst. eauto.
Qed.

Lemma same_marks_id k P P' : same_marks P P' -> ps_id_of k P' = ps_id_of k P.
Proof. intros (H1 & H2 & _). destruct k; assumption. Qed.

Lemma same_marks_status k P P' :
  same_marks P P' -> status_of k P' = status_of k P.
Proof. intros (_ & _ & H3 & H4). destruct k; assumption. Qed.

Lemma status_mirrored_frame s s' :
  status_mirrored s -> status_frame s s' -> status_mirrored s'.
Proof.
  intros HS Hf p P' k tid HP' Hid.
  destruct (status_frame_back _ _ _ _ Hf HP') as (P & HP & Hm).
  rewrite (same_marks_id _ _ _ Hm) in Hid.
  exact (mirrored_at_frame _ _ _ _ _ _ Hf (same_marks_status _ _ _ Hm)
           (HS _ _ _ _ HP Hid)).
Qed.

Lemma status_mirrored_but_frame tid0 s s' :
  status_mirrored_but tid0 s -> status_frame s s' ->
  status_mirrored_but tid0 s'.
Proof.
  intros HS Hf p P' k tid HP' Hid Hne.
  destruct (status_frame_back _ _ _ _ Hf HP') as (P & HP & Hm).
  rewrite (same_marks_id _ _ _ Hm) in Hid.
  exact (mirrored_at_frame _ _ _ _ _ _ Hf (same_marks_status _ _ _ Hm)
           (HS _ _ _ _ HP Hid Hne)).
Qed.

#[global] Instance only_param_preorder p : PreOrder (only_param p).
Proof.
  split.
  - intros s q _. reflexivity.
  - intros s1 s2 s3 H12 H23 q Hq. rewrite (H23 _ Hq). exact (H12 _ Hq).
Qed.

Lemma only_param_same p s s' : objects s' = objects s -> only_param p s s'.
Proof. intros Ho q _. rewrite Ho. reflexivity. Qed.

Lemma only_param_alter f p s :
  only_param p s (set_objects (alter f p (objects s)) s).
Proof. intros q Hq. st_simpl. apply lookup_alter_ne. congruence. Qed.

Ltac op_leaf :=
  match goal with
  | |- preserves (only_param _) (modify _) =>
      apply preserves_modify; intros ?;
      first [ apply only_param_same; reflexivity | apply only_param_alter ]
  | |- preserves (only_param _) (update_param _ _) =>
      unfold update_param; apply preserves_modify; intros ?;
      apply only_param_alter
  | |- preserves (only_param _) (update_chunk _ _) =>
      unfold update_chunk; apply preserves_modify; intros ?;
      apply only_param_same; reflexivity
  end.

Lemma preserves_only_param_release_reset param access_type cid rs :
  preserves (only_param param) (release_reset param access_type cid rs).
Proof.
  unfold release_reset, getitem, set_status, param_obj, torch_zeros.
  pres; op_leaf.
Qed.

Lemma preserves_only_param_access_bind param access_type cid :
  preserves (only_param param) (access_bind param access_type cid).
Proof.
  unfold access_bind, access_placeholder, getitem, touch, log, set_status,
    param_obj, torch_zeros.
  pres; op_leaf.
Qed.

(** ** Statuses: [release] *)

Lemma find_info_set_status_ne tid tid0 st l :
  tid <> tid0 ->
  find_info tid (set_status_infos tid0 st l) = find_info tid l.
Proof.
  intros Hne. unfold find_info, set_status_infos.
  induction l as [|info l IH]; simpl; [reflexivity |].
  destruct (bool_decide (tensor_id info = tid0)) eqn:E0; simpl.
  - apply bool_decide_eq_true in E0.
    rewrite !bool_decide_eq_false_2 by congruence. exact IH.
  - destruct (bool_decide (tensor_id info = tid)); [reflexivity | exact IH].
Qed.

Lemma all_free_status tid c info :
  all_free c = true -> find_info tid (tensor_info_list c) = Some info ->
  status info = FREE.
Proof.
  unfold all_free, find_info. intros Hall Hfind.
  apply find_some in Hfind as [Hin _].
  rewrite forallb_forall in Hall. specialize (Hall _ Hin).
  apply bool_decide_eq_true in Hall. exact Hall.
Qed.

(** The statuses other than that of [tid0] are in [s1] what they are in
    [s]. *)
Lemma mirrored_at_step s s1 k P tid tid0 :
  chunk_tensor_index s1 = chunk_tensor_index s ->
  (forall j c, chunks (chunk_list s) !! j = Some c ->
     exists c', chunks (chunk_list s1) !! j = Some c'
                /\ forall t, t <> tid0 -> info_status t c' = info_status t c) ->
  tid <> tid0 ->
  mirrored_at s k P tid -> mirrored_at s1 k P tid.
Proof.
  intros Hi Hc Hne. unfold mirrored_at. rewrite Hi.
  destruct (chunk_tensor_index s !! tid) as [cid|]; [| auto].
  intros (c & Hcid & Hinfo). destruct (Hc _ _ Hcid) as (c' & Hc' & Hsame).
  exists c'. split; [exact Hc' |]. rewrite (Hsame _ Hne). exact Hinfo.
Qed.

Lemma set_status_chunks_step tid0 st cid (cs cs1 : gmap nat Chunk) :
  cs1 = alter (fun c => set_tensor_info_list
                          (set_status_infos tid0 st (tensor_info_list c)) c)
              cid cs ->
  forall j c, cs !! j = Some c ->
    exists c', cs1 !! j = Some c'
               /\ forall t, t <> tid0 -> info_status t c' = info_status t c.
Proof.
  intros -> j c Hj. rewrite lookup_alter.
  destruct (decide (cid = j)) as [->|Hne].
  - rewrite Hj. simpl. eexists. split; [reflexivity |].
    intros t Ht. unfold info_status. simpl.
    rewrite (find_info_set_status_ne _ _ _ _ Ht). reflexivity.
  - exists c. auto.
Qed.

(** Reclamation keeps the mirror: a chunk goes only when all its ranges
    are [FREE], and its tensors are then unbound and [FREE]. *)
Lemma mirrored_at_delete s1 r s' k P tid :
  wf s1 ->
  delete_free_chunks getsizeof s1 = (r, s') ->
  mirrored_at s1 k P tid -> mirrored_at s' k P tid.
Proof.
  intros Hwf Hdel.
  destruct (delete_free_chunks_ok _ _ _ Hdel) as (_ & _ & Hch & Hix & _).
  unfold mirrored_at. rewrite Hix, Hch.
  destruct (chunk_tensor_index s1 !! tid) as [cid|] eqn:Hidx.
  - intros (c & Hc & Hinfo).
    destruct (wf_index_chunk _ Hwf _ _ Hidx) as (c0 & Hc0 & [info Hfind]).
    rewrite Hc in Hc0. inversion Hc0; subst c0; clear Hc0.
    destruct (all_free c) eqn:Hall.
    + assert (Hnone : filter (fun tc : Z * nat =>
                                is_dead (chunks (chunk_list s1)) tc.2 = false)
                             (chunk_tensor_index s1) !! tid = None).
      { apply map_lookup_filter_None. right. intros x Hx.
        rewrite Hidx in Hx. inversion Hx; subst x.
        simpl. unfold is_dead. rewrite Hc, Hall. discriminate. }
      rewrite Hnone, <- Hinfo. unfold info_status. rewrite Hfind. simpl.
      f_equal. exact (all_free_status _ _ _ Hall Hfind).
    + assert (Hsome : filter (fun tc : Z * nat =>
                                is_dead (chunks (chunk_list s1)) tc.2 = false)
                             (chunk_tensor_index s1) !! tid = Some cid).
      { apply map_lookup_filter_Some. split; [exact Hidx |].
        simpl. unfold is_dead. rewrite Hc. exact Hall. }
      rewrite Hsome. exists c. split; [| exact Hinfo].
      apply map_lookup_filter_Some. auto.
  - intros Hst.
    assert (Hnone : filter (fun tc : Z * nat =>
                              is_dead (chunks (chunk_list s1)) tc.2 = false)
                           (chunk_tensor_index s1) !! tid = None)
      by (apply map_lookup_filter_None; left; exact Hidx).
    rewrite Hnone. exact Hst.
Qed.

Lemma released_param_marks k rs n P :
  ps_data_id (released_param k rs n P) = ps_data_id P
  /\ ps_grad_id (released_param k rs n P) = ps_grad_id P
  /\ status_of k (released_param k rs n P) = Some rs
  /\ forall k', k' <> k ->
       status_of k' (released_param k rs n P) = status_of k' P.
Proof.
  destruct k; simpl; do 3 (split; [reflexivity |]);
    intros [] Hk; first [reflexivity | congruence].
Qed.

(** A [release], whatever its outcome, keeps the mirror. *)
Lemma status_mirrored_release param k rs s r s' :
  wf s -> status_mirrored s ->
  release getsizeof param k rs s = (r, s') ->
  status_mirrored s'.
Proof.
  intros Hwf HS H.
  destruct (get_chunk_id param k s) as [[o|e] s0] eqn:Hget.
  2:{ unfold release, bind in H. rewrite Hget in H.
      apply get_chunk_id_state in Hget. inversion H; subst. exact HS. }
  apply get_chunk_id_ok in Hget as (P & tid & HP & Hid & -> & ->).
  destruct (chunk_tensor_index s !! tid) as [cid|] eqn:Hidx.
  2:{ rewrite (release_unbound _ _ _ _ _ _ HP Hid Hidx) in H.
      inversion H; subst. exact HS. }
  destruct (wf_index_chunk _ Hwf _ _ Hidx) as (c & Hc & Hinfo).
  destruct (release_bound _ _ rs _ _ _ _ _ HP Hid Hidx Hc)
    as (s1 & s2 & Hreset & Hdel & Hrel & Hch1 & Hix1 & _ & HP1 & _).
  rewrite Hrel in H. inversion H; subst r s'; clear H.
  assert (Hwf1 : wf s1).
  { eapply wf_frame_wf; [exact Hwf |].
    exact (preserves_wf_frame_release_reset _ _ _ _ _ _ _ Hreset). }
  pose proof (preserves_only_param_release_reset _ _ _ _ _ _ _ Hreset)
    as Honly.
  destruct (released_param_marks k rs (next_storage s) P)
    as (Hd & Hg & Hst & Hother).
  assert (HS1 : status_mirrored s1).
  { intros q Q k' tid' HQ Hid'.
    destruct (decide (q = param)) as [->|Hq].
    - rewrite HP1 in HQ. inversion HQ; subst Q; clear HQ.
      assert (Hid0 : ps_id_of k' P = Some tid')
        by (destruct k'; simpl in *; congruence).
      destruct (decide (k' = k)) as [->|Hk].
      + assert (tid' = tid) by congruence. subst tid'.
        unfold mirrored_at. rewrite Hix1, Hidx.
        eexists. split; [rewrite Hch1, lookup_alter_eq, Hc; reflexivity |].
        rewrite Hst. apply info_status_set_status. exact Hinfo.
      + assert (Hne : tid' <> tid).
        { intros ->. destruct (slot_unique _ _ _ _ _ _ _ _ Hwf HP Hid HP Hid0).
          congruence. }
        pose proof (mirrored_at_step s s1 _ _ _ tid Hix1
                      (set_status_chunks_step _ _ _ _ _ Hch1) Hne
                      (HS _ _ _ _ HP Hid0)) as Hm.
        unfold mirrored_at in *. rewrite (Hother _ Hk). exact Hm.
    - rewrite (Honly _ Hq) in HQ.
      assert (Hne : tid' <> tid).
      { intros ->. destruct (slot_unique _ _ _ _ _ _ _ _ Hwf HP Hid HQ Hid').
        congruence. }
      exact (mirrored_at_step s s1 _ _ _ tid Hix1
               (set_status_chunks_step _ _ _ _ _ Hch1) Hne
               (HS _ _ _ _ HQ Hid')). }
  destruct (delete_free_chunks_ok _ _ _ Hdel) as (_ & _ & _ & _ & Hobj & _).
  intros q Q k' tid' HQ Hid'. rewrite Hobj in HQ.
  exact (mirrored_at_delete _ _ _ _ _ _ Hwf1 Hdel (HS1 _ _ _ _ HQ Hid')).
Qed.

(** ** Statuses: allocation, [access] and the conversions *)

Lemma find_info_app_ne tid l x :
  tensor_id x <> tid -> find_info tid (l ++ [x]) = find_info tid l.
Proof.
  intros Hne. unfold find_info. induction l as [|info l IH]; simpl.
  - rewrite bool_decide_eq_false_2 by exact Hne. reflexivity.
  - destruct (bool_decide (tensor_id info = tid)); [reflexivity | exact IH].
Qed.

Lemma find_info_app_new tid l x :
  find_info tid l = None -> tensor_id x = tid ->
  find_info tid (l ++ [x]) = Some x.
Proof.
  intros Hnone Hx. unfold find_info in *. induction l as [|info l IH]; simpl.
  - rewrite bool_decide_eq_true_2 by exact Hx. reflexivity.
  - simpl in Hnone. destruct (bool_decide (tensor_id info = tid));
      [discriminate | exact (IH Hnone)].
Qed.

(** A tensor that is not bound has no range in any chunk. *)
Lemma unbound_no_range s tid cid c :
  wf s -> chunk_tensor_index s !! tid = None ->
  chunks (chunk_list s) !! cid = Some c ->
  find_info tid (tensor_info_list c) = None.
Proof.
  intros Hwf Hun Hc.
  destruct (find_info tid (tensor_info_list c)) as [info|] eqn:E;
    [exfalso | reflexivity].
  unfold find_info in E. apply find_some in E as [Hin Hid].
  apply bool_decide_eq_true in Hid. apply list_elem_of_In in Hin.
  pose proof (wf_range_index _ Hwf _ _ _ Hc Hin) as Hidx.
  rewrite Hid in Hidx. congruence.
Qed.

Lemma mirrored_at_moved s s1 k P tid tid0 :
  chunk_tensor_index s1 !! tid = chunk_tensor_index s !! tid ->
  (forall j c, chunks (chunk_list s) !! j = Some c ->
     exists c', chunks (chunk_list s1) !! j = Some c'
                /\ forall t, t <> tid0 -> info_status t c' = info_status t c) ->
  tid <> tid0 ->
  mirrored_at s k P tid -> mirrored_at s1 k P tid.
Proof.
  intros Hi Hc Hne. unfold mirrored_at. rewrite Hi.
  destruct (chunk_tensor_index s !! tid) as [cid|]; [| auto].
  intros (c & Hcid & Hinfo). destruct (Hc _ _ Hcid) as (c' & Hc' & Hsame).
  exists c'. split; [exact Hc' |]. rewrite (Hsame _ Hne). exact Hinfo.
Qed.

(** After a completed [new_tensor] the new range is in [HOLD] in the
    chunk the tensor is bound to, and every other tensor is where and as
    it was. *)
Lemma status_mirrored_but_new_tensor shape dt tid s t cid s0 :
  wf s -> status_mirrored s ->
  new_tensor getsizeof shape dt tid s = (Ok (t, cid), s0) ->
  status_mirrored_but tid s0
  /\ chunk_tensor_index s0 !! tid = Some cid
  /\ (exists c, chunks (chunk_list s0) !! cid = Some c
                /\ info_status tid c = Some HOLD)
  /\ objects s0 = objects s.
Proof.
  intros Hwf HS H.
  destruct (new_tensor_layout _ _ _ _ _ _ _ H)
    as (cnew & off & Hun & Hix & Hobj & _ & _ & _ & _ & Hch & _ & _ & _ & Hcase).
  assert (Hstep : forall j c, chunks (chunk_list s) !! j = Some c ->
            exists c', chunks (chunk_list s0) !! j = Some c'
              /\ forall t0, t0 <> tid -> info_status t0 c' = info_status t0 c).
  { intros j c Hj. rewrite Hch, lookup_insert.
    destruct (decide (cid = j)) as [->|Hne]; [| eauto].
    exists cnew. split; [reflexivity |]. intros t0 Ht0.
    destruct Hcase as [(c0 & Hc0 & _ & -> & _)|(Hcid & _)].
    - rewrite Hj in Hc0. inversion Hc0; subst c0. unfold info_status. simpl.
      rewrite find_info_app_ne by (simpl; congruence). reflexivity.
    - assert (Hlt := wf_chunk_ids _ Hwf j (ex_intro _ _ Hj)). lia. }
  split; [| split; [| split]].
  - intros p P k tid' HP Hid Hne. rewrite Hobj in HP.
    apply (mirrored_at_moved s s0 _ _ _ tid); [| exact Hstep | exact Hne
                                               | exact (HS _ _ _ _ HP Hid)].
    rewrite Hix. apply lookup_insert_ne. congruence.
  - rewrite Hix. apply lookup_insert_eq.
  - exists cnew. split; [rewrite Hch; apply lookup_insert_eq |].
    unfold info_status.
    destruct Hcase as [(c0 & Hc0 & _ & -> & _)|(_ & _ & -> & _)].
    + simpl. erewrite find_info_app_new;
        [reflexivity | exact (unbound_no_range _ _ _ _ Hwf Hun Hc0)
         | reflexivity].
    + unfold find_info. simpl. rewrite bool_decide_eq_true_2 by reflexivity.
      reflexivity.
  - exact Hobj.
Qed.

#[global] Instance only_chunk_preorder cid : PreOrder (only_chunk cid).
Proof.
  split.
  - intros s j _. reflexivity.
  - intros s1 s2 s3 H12 H23 j Hj. rewrite (H23 _ Hj). exact (H12 _ Hj).
Qed.

Lemma only_chunk_same cid s s' :
  chunks (chunk_list s') = chunks (chunk_list s) -> only_chunk cid s s'.
Proof. intros Hc j _. rewrite Hc. reflexivity. Qed.

Lemma only_chunk_alter f cid s :
  only_chunk cid s (set_chunks (alter f cid (chunks (chunk_list s))) s).
Proof. intros j Hj. st_simpl. apply lookup_alter_ne. congruence. Qed.

Ltac oc_leaf :=
  match goal with
  | |- preserves (only_chunk _) (modify _) =>
      apply preserves_modify; intros ?;
      first [ apply only_chunk_same; reflexivity | apply only_chunk_alter ]
  | |- preserves (only_chunk _) (update_param _ _) =>
      unfold update_param; apply preserves_modify; intros ?;
      apply only_chunk_same; reflexivity
  | |- preserves (only_chunk _) (update_chunk _ _) =>
      unfold update_chunk; apply preserves_modify; intros ?;
      apply only_chunk_alter
  end.

Lemma preserves_only_chunk_access_bind param access_type cid :
  preserves (only_chunk cid) (access_bind param access_type cid).
Proof.
  unfold access_bind, access_placeholder, getitem, touch, log, set_status,
    param_obj, torch_zeros.
  pres; oc_leaf.
Qed.

#[global] Instance marks_but_preorder param k : PreOrder (marks_but param k).
Proof.
  split.
  - intros s P HP. exists P. auto.
  - intros s1 s2 s3 H12 H23 P HP.
    destruct (H12 _ HP) as (P2 & HP2 & Hd & Hg & Hs).
    destruct (H23 _ HP2) as (P3 & HP3 & Hd3 & Hg3 & Hs3).
    exists P3. split; [exact HP3 |]. split; [congruence |].
    split; [congruence |]. intros k' Hk. rewrite (Hs3 _ Hk). exact (Hs _ Hk).
Qed.

Lemma marks_but_same param k s s' :
  objects s' = objects s -> marks_but param k s s'.
Proof. intros Ho P HP. exists P. rewrite Ho. auto. Qed.

Lemma marks_but_alter f param k s :
  (forall P, ps_data_id (f P) = ps_data_id P
             /\ ps_grad_id (f P) = ps_grad_id P
             /\ forall k', k' <> k -> status_of k' (f P) = status_of k' P) ->
  marks_but param k s (set_objects (alter f param (objects s)) s).
Proof.
  intros Hf P HP. st_simpl. rewrite lookup_alter_eq, HP. simpl.
  exists (f P). split; [reflexivity | apply Hf].
Qed.

Ltac mb_side :=
  intros ?; split; [reflexivity |]; split; [reflexivity |];
  intros [] ?; first [reflexivity | congruence].

Ltac mb_leaf :=
  match goal with
  | |- preserves (marks_but _ _) (modify _) =>
      apply preserves_modify; intros ?;
      first [ apply marks_but_same; reflexivity
            | apply marks_but_alter; mb_side ]
  | |- preserves (marks_but _ _) (update_param _ _) =>
      unfold update_param; apply preserves_modify; intros ?;
      apply marks_but_alter; mb_side
  | |- preserves (marks_but _ _) (update_chunk _ _) =>
      unfold update_chunk; apply preserves_modify; intros ?;
      apply marks_but_same; reflexivity
  end.

Lemma preserves_marks_but_access_bind param access_type cid :
  preserves (marks_but param access_type)
            (access_bind param access_type cid).
Proof.
  unfold access_bind, access_placeholder, getitem, touch, log, set_status,
    param_obj, torch_zeros.
  pres; mb_leaf.
Qed.

Lemma status_frame_fwd s s' p P :
  status_frame s s' -> objects s !! p = Some P ->
  exists P', objects s' !! p = Some P' /\ same_marks P P'.
Proof.
  intros [_ _ Ho] HP. specialize (Ho p). rewrite HP in Ho.
  inversion Ho; subst. eauto.
Qed.

(** The first part of [access] leaves every tensor but the accessed one
    mirrored, and the accessed one bound. *)
Lemma status_mirrored_but_access_resolve param k s cid s1 :
  wf s -> status_mirrored s ->
  access_resolve getsizeof param k s = (Ok cid, s1) ->
  exists tid P1,
    status_mirrored_but tid s1
    /\ chunk_tensor_index s1 !! tid = Some cid
    /\ objects s1 !! param = Some P1
    /\ ps_id_of k P1 = Some tid.
Proof.
  intros Hwf HS H. unfold access_resolve in H.
  apply bind_ok_inv in H as (o & s0 & Hget & H).
  apply get_chunk_id_ok in Hget as (P & tid & HP & Hid & -> & ->).
  exists tid.
  destruct (chunk_tensor_index s !! tid) as [k0|] eqn:Hidx.
  { inversion H; subst. exists P. split; [| auto].
    intros p Q k' t HQ Hid' _. exact (HS _ _ _ _ HQ Hid'). }
  run_param H HP.
  destruct k; simpl in Hid.
  - apply bind_ok_inv in H as (shape & s0 & Hshape & H).
    apply attr_ok in Hshape as [Hshape ->]. rewrite Hid in H. run_total H.
    apply bind_ok_inv in H as ([t k0] & s2 & Hnew & H).
    run_total H. inversion H; subst cid s1; clear H. simpl.
    destruct (status_mirrored_but_new_tensor _ _ _ _ _ _ _ Hwf HS Hnew)
      as (Hb & Hidx0 & _ & Hobj).
    eexists. split.
    { eapply status_mirrored_but_frame; [exact Hb |].
      apply status_frame_alter_param. intros Q. repeat split. }
    split; [exact Hidx0 |]. st_simpl.
    rewrite lookup_alter_eq, Hobj, HP. split; [reflexivity | exact Hid].
  - apply bind_ok_inv in H as (shape & s0 & Hshape & H).
    apply attr_ok in Hshape as [Hshape ->]. rewrite Hid in H. run_total H.
    apply bind_ok_inv in H as ([t k0] & s2 & Hnew & H).
    run_total H. inversion H; subst cid s1; clear H. simpl.
    destruct (status_mirrored_but_new_tensor _ _ _ _ _ _ _ Hwf HS Hnew)
      as (Hb & Hidx0 & _ & Hobj).
    eexists. split.
    { eapply status_mirrored_but_frame; [exact Hb |].
      apply status_frame_alter_param. intros Q. repeat split. }
    split; [exact Hidx0 |]. st_simpl.
    rewrite lookup_alter_eq, Hobj, HP. split; [reflexivity | exact Hid].
Qed.

(** A completed [access] keeps the mirror. *)
Lemma status_mirrored_access param k dev s s' :
  wf s -> status_mirrored s ->
  access getsizeof param k dev s = (Ok tt, s') ->
  status_mirrored s'.
Proof.
  intros Hwf HS H. unfold access in H.
  rewrite (bind_step _ _ _ _ _ (is_ps_param_spec param s)) in H.
  destruct (bool_decide (registered s param)); [| discriminate]. simpl in H.
  apply bind_ok_inv in H as (cid & s1 & Hres & H).
  apply bind_ok_inv in H as ([] & s2 & Hrel & Hbind).
  pose proof (wf_access_resolve _ _ _ _ _ Hwf Hres) as Hwf1.
  pose proof (wf_access_relocate _ _ _ _ _ _ _ Hwf1 Hrel) as Hwf2.
  destruct (status_mirrored_but_access_resolve _ _ _ _ _ Hwf HS Hres)
    as (tid & P1 & Hb1 & Hidx1 & HP1 & Hid1).
  pose proof (preserves_status_frame_access_relocate _ _ _ _ _ _ _ Hrel)
    as Hf12.
  pose proof (status_mirrored_but_frame _ _ _ Hb1 Hf12) as Hb2.
  assert (Hidx2 : chunk_tensor_index s2 !! tid = Some cid)
    by (rewrite (sf_index _ _ Hf12); exact Hidx1).
  destruct (wf_index_chunk _ Hwf2 _ _ Hidx2) as (c2 & Hc2 & Hinfo2).
  destruct (status_frame_fwd _ _ _ _ Hf12 HP1) as (P2 & HP2 & Hm12).
  assert (Hid2 : ps_id_of k P2 = Some tid)
    by (rewrite (same_marks_id _ _ _ Hm12); exact Hid1).
  destruct (wf_handle _ Hwf2 _ _ _ _ _ _ HP2 Hid2 Hidx2 Hc2)
    as (t2 & Ht2 & _).
  destruct (access_bind_ok _ _ _ _ _ _ _ _ _ Hbind Hc2 HP2 Ht2 Hid2)
    as (Hc3 & (P3 & HP3 & Hstat & _) & _ & Hidx3).
  pose proof (preserves_only_param_access_bind _ _ _ _ _ _ Hbind) as Honly.
  pose proof (preserves_only_chunk_access_bind _ _ _ _ _ _ Hbind) as Hoc.
  destruct (preserves_marks_but_access_bind _ _ _ _ _ _ Hbind _ HP2)
    as (P3' & HP3' & Hd3 & Hg3 & Hother).
  rewrite HP3 in HP3'. inversion HP3'; subst P3'; clear HP3'.
  assert (Hstep : forall j c, chunks (chunk_list s2) !! j = Some c ->
            exists c', chunks (chunk_list s') !! j = Some c'
              /\ forall t0, t0 <> tid -> info_status t0 c' = info_status t0 c).
  { intros j c Hj. destruct (decide (j = cid)) as [->|Hne].
    - rewrite Hc2 in Hj. inversion Hj; subst c. eexists.
      split; [exact Hc3 |]. intros t0 Ht0. unfold info_status. simpl.
      rewrite (find_info_set_status_ne _ _ _ _ Ht0). reflexivity.
    - exists c. rewrite (Hoc _ Hne). auto. }
  intros q Q k' tid' HQ Hid'.
  destruct (decide (q = param)) as [->|Hq].
  - rewrite HP3 in HQ. inversion HQ; subst Q; clear HQ.
    assert (Hid0 : ps_id_of k' P2 = Some tid')
      by (destruct k'; simpl in *; congruence).
    destruct (decide (k' = k)) as [->|Hk].
    + assert (tid' = tid) by congruence. subst tid'.
      unfold mirrored_at. rewrite Hidx3, Hidx2.
      eexists. split; [exact Hc3 |]. rewrite Hstat.
      unfold info_status. simpl. rewrite find_info_set_status.
      destruct Hinfo2 as [info Hinfo2]. rewrite Hinfo2. reflexivity.
    + assert (Hne : tid' <> tid).
      { intros ->.
        destruct (slot_unique _ _ _ _ _ _ _ _ Hwf2 HP2 Hid2 HP2 Hid0).
        congruence. }
      pose proof (mirrored_at_moved s2 s' _ _ _ tid
                    (f_equal (fun m => m !! tid') Hidx3) Hstep Hne
                    (Hb2 _ _ _ _ HP2 Hid0 Hne)) as Hm.
      unfold mirrored_at in *. rewrite (Hother _ Hk). exact Hm.
  - rewrite (Honly _ Hq) in HQ.
    assert (Hne : tid' <> tid).
    { intros ->.
      destruct (slot_unique _ _ _ _ _ _ _ _ Hwf2 HP2 Hid2 HQ Hid').
      congruence. }
    exact (mirrored_at_moved s2 s' _ _ _ tid
             (f_equal (fun m => m !! tid') Hidx3) Hstep Hne
             (Hb2 _ _ _ _ HQ Hid' Hne)).
Qed.

Lemma mirrored_at_same s s' k k' P P' tid :
  chunk_tensor_index s' = chunk_tensor_index s ->
  chunks (chunk_list s') = chunks (chunk_list s) ->
  status_of k' P' = status_of k P ->
  mirrored_at s k P tid -> mirrored_at s' k' P' tid.
Proof.
  intros Hi Hc Hst. unfold mirrored_at. rewrite Hi, Hc, Hst. auto.
Qed.

(** The first allocation write of a tensor keeps the mirror: the new
    range is in [HOLD] and so is, in the end, the parameter. *)
Lemma status_mirrored_convert (store : Tensor -> nat -> Param -> Param)
    (bind_view : Tensor -> Param -> Param) (mark : Param -> Param)
    k shape dt tid param vals s s2 P :
  wf s -> status_mirrored s ->
  objects s !! param = Some P -> ps_id_of k P = Some tid ->
  (forall t cid Q, same_marks Q (store t cid Q)) ->
  (forall t Q, same_marks Q (bind_view t Q)) ->
  (forall Q, ps_data_id (mark Q) = ps_data_id Q
             /\ ps_grad_id (mark Q) = ps_grad_id Q
             /\ status_of k (mark Q) = Some HOLD
             /\ forall k', k' <> k -> status_of k' (mark Q) = status_of k' Q) ->
  (r <- new_tensor getsizeof shape dt tid ;;
   update_param param (store r.1 r.2) ;;
   s <- get ;;
   tensor_copy_ r.1 (vals s) ;;
   update_param param (bind_view r.1) ;;
   update_param param mark) s = (Ok tt, s2) ->
  status_mirrored s2.
Proof.
  intros Hwf HS HP Hid Hstore Hview Hmark H.
  apply bind_ok_inv in H as ([t cid] & s1 & Hnew & H).
  destruct (status_mirrored_but_new_tensor _ _ _ _ _ _ _ Hwf HS Hnew)
    as (Hb & Hidx & (c & Hc & Hhold) & Hobj).
  run_total H. run_total H. run_total H. run_total H.
  unfold update_param, modify in H. inversion H; subst s2; clear H.
  intros q Q k' tid' HQ Hid'. st_simpl.
  destruct (decide (q = param)) as [->|Hq].
  - rewrite !lookup_alter_eq, Hobj, HP in HQ. simpl in HQ.
    inversion HQ; subst Q; clear HQ.
    destruct (Hmark (bind_view t (store t cid P))) as (Hd & Hg & Hst & Hother).
    pose proof (Hview t (store t cid P)) as Hm2.
    pose proof (Hstore t cid P) as Hm1.
    assert (Hm : same_marks P (bind_view t (store t cid P)))
      by (etransitivity; eassumption).
    assert (Hid0 : ps_id_of k' P = Some tid').
    { rewrite <- (same_marks_id k' _ _ Hm), <- Hid'.
      destruct k'; simpl; congruence. }
    destruct (decide (k' = k)) as [->|Hk].
    + assert (tid' = tid) by congruence. subst tid'.
      unfold mirrored_at. st_simpl. rewrite Hidx. exists c.
      split; [exact Hc |]. rewrite Hst. exact Hhold.
    + assert (Hne : tid' <> tid).
      { intros ->. destruct (slot_unique _ _ _ _ _ _ _ _ Hwf HP Hid HP Hid0).
        congruence. }
      rewrite <- Hobj in HP.
      eapply mirrored_at_same; [reflexivity | reflexivity |
                                | exact (Hb _ _ _ _ HP Hid0 Hne)].
      rewrite (Hother _ Hk). exact (same_marks_status _ _ _ Hm).
  - rewrite !lookup_alter_ne in HQ by congruence.
    assert (Hne : tid' <> tid).
    { intros ->. rewrite Hobj in HQ.
      destruct (slot_unique _ _ _ _ _ _ _ _ Hwf HP Hid HQ Hid'). congruence. }
    eapply mirrored_at_same; [reflexivity | reflexivity | reflexivity
                              | exact (Hb _ _ _ _ HQ Hid' Hne)].
Qed.

Lemma status_mirrored_convert_to_ps_data param s s2 :
  wf s -> status_mirrored s ->
  _convert_to_ps_data getsizeof param s = (Ok tt, s2) ->
  status_mirrored s2.
Proof.
  intros Hwf HS H. unfold _convert_to_ps_data in H.
  apply bind_ok_inv in H as (P & s0 & HP & H).
  apply param_obj_ok in HP as [-> HP].
  apply bind_ok_inv in H as (shape & s0 & Hshape & H).
  apply attr_ok in Hshape as [Hshape ->].
  apply bind_ok_inv in H as (tid & s0 & Hid & H).
  apply attr_ok in Hid as [Hid ->].
  apply (status_mirrored_convert
           (fun t k P => set_ps_data_chunk_id (Some k)
                           (set_ps_data_tensor (Some t) P))
           set_data (set_data_status (Some HOLD)) DATA
           shape (dtype P) tid param (tensor_elems (data P)) s s2 P);
    [exact Hwf | exact HS | exact HP | exact Hid | | | | exact H].
  - intros t cid Q. repeat split.
  - intros t Q. repeat split.
  - intros Q. do 3 (split; [reflexivity |]).
    intros [] Hk; first [reflexivity | congruence].
Qed.

Lemma status_mirrored_convert_to_ps_grad param s s2 :
  wf s -> status_mirrored s ->
  _convert_to_ps_grad getsizeof param s = (Ok tt, s2) ->
  status_mirrored s2.
Proof.
  intros Hwf HS H. unfold _convert_to_ps_grad in H.
  apply bind_ok_inv in H as (P & s0 & HP & H).
  apply param_obj_ok in HP as [-> HP].
  destruct (grad P) as [g|]; [| inversion H; subst; exact HS].
  apply bind_ok_inv in H as (shape & s0 & Hshape & H).
  apply attr_ok in Hshape as [Hshape ->].
  apply bind_ok_inv in H as (tid & s0 & Hid & H).
  apply attr_ok in Hid as [Hid ->].
  apply (status_mirrored_convert
           (fun t k P => set_ps_gard_chunk_id (Some k)
                           (set_ps_grad_tensor (Some t) P))
           (fun t => set_grad (Some t)) (set_grad_status (Some HOLD)) GRAD
           shape (dtype P) tid param (tensor_elems g) s s2 P);
    [exact Hwf | exact HS | exact HP | exact Hid | | | | exact H].
  - intros t cid Q. repeat split.
  - intros t Q. repeat split.
  - intros Q. do 3 (split; [reflexivity |]).
    intros [] Hk; first [reflexivity | congruence].
Qed.

(** [_init_ps_param] keeps the mirror: the tensors it gives an
    identifier are unbound, and it marks them [FREE]. *)
Lemma status_mirrored_init_ps_param param s s1 :
  wf s -> status_mirrored s ->
  _init_ps_param param s = (Ok tt, s1) ->
  status_mirrored s1.
Proof.
  intros Hwf HS H.
  apply init_ps_param_effect in H
    as [(_ & -> & _)|[(Hr & _)|(P & P' & HP & Hdid & _ & HP' & Hother & Hd'
                                 & _ & Hg' & _ & Hds & Hgs & _ & _ & Hcl
                                 & Hix & _)]];
    [exact HS | discriminate |].
  assert (Hgid : ps_grad_id P = None).
  { destruct (ps_grad_id P) as [x|] eqn:E; [| reflexivity].
    destruct (wf_grad_data _ Hwf _ _ HP) as [y Hy];
      [rewrite E; eauto | congruence]. }
  rewrite Hgid, bool_decide_eq_false_2 in Hg' by (apply is_Some_None).
  cbn [negb andb] in Hg'.
  intros q Q k tid HQ Hid.
  destruct (decide (q = param)) as [->|Hq].
  - rewrite HP' in HQ. inversion HQ; subst Q; clear HQ.
    assert (Hfresh : chunk_tensor_index s !! tid = None
                     /\ status_of k P' = Some FREE).
    { destruct k; simpl in Hid |- *.
      - split; [| exact Hds]. apply (wf_ids _ Hwf).
        rewrite Hd' in Hid. inversion Hid. lia.
      - split; [| exact Hgs]. destruct (requires_grad P).
        + destruct Hg' as (Hg' & _). rewrite Hg' in Hid. inversion Hid.
          apply (wf_ids _ Hwf). lia.
        + destruct Hg' as (Hg' & _). congruence. }
    destruct Hfresh as [Hnone Hfree].
    unfold mirrored_at. rewrite Hix, Hnone. exact Hfree.
  - rewrite (Hother _ Hq) in HQ.
    eapply mirrored_at_same; [exact Hix | rewrite Hcl; reflexivity
                              | reflexivity | exact (HS _ _ _ _ HQ Hid)].
Qed.

(** ** The mirror holds in every state of a client *)

Lemma consistent_init_ps_param param :
  ok_keeps (fun s => wf s /\ status_mirrored s) (_init_ps_param param).
Proof.
  intros s [] s' [Hwf HS] H. split.
  - exact (wf_init_ps_param _ _ _ _ Hwf H).
  - exact (status_mirrored_init_ps_param _ _ _ Hwf HS H).
Qed.

Lemma consistent_convert_to_ps_data param :
  ok_keeps (fun s => wf s /\ status_mirrored s)
           (_convert_to_ps_data getsizeof param).
Proof.
  intros s [] s' [Hwf HS] H. split.
  - exact (wf_convert_to_ps_data _ _ _ _ Hwf H).
  - exact (status_mirrored_convert_to_ps_data _ _ _ Hwf HS H).
Qed.

Lemma consistent_convert_to_ps_grad param :
  ok_keeps (fun s => wf s /\ status_mirrored s)
           (_convert_to_ps_grad getsizeof param).
Proof.
  intros s [] s' [Hwf HS] H. split.
  - exact (wf_convert_to_ps_grad _ _ _ _ Hwf H).
  - exact (status_mirrored_convert_to_ps_grad _ _ _ Hwf HS H).
Qed.

Lemma consistent_release_grad rs param :
  ok_keeps (fun s => wf s /\ status_mirrored s)
           (release_grad getsizeof param rs).
Proof.
  intros s [] s' [Hwf HS] H. unfold release_grad in H. split.
  - exact (wf_release _ _ _ _ _ _ Hwf H).
  - exact (status_mirrored_release _ _ _ _ _ _ Hwf HS H).
Qed.

Lemma consistent_release_all_grad :
  ok_keeps (fun s => wf s /\ status_mirrored s) (release_all_grad getsizeof).
Proof.
  intros s [] s' HI H. unfold release_all_grad in H.
  rewrite (bind_step _ _ _ _ _ (eq_refl : get s = (Ok s, s))) in H.
  destruct (module s) as [ps|]; [| inversion H; subst; exact HI].
  eapply (ok_keeps_for_each (fun s => wf s /\ status_mirrored s));
    [| exact HI | exact H].
  intros p. apply consistent_release_grad.
Qed.

Lemma consistent_register_param param :
  ok_keeps (fun s => wf s /\ status_mirrored s)
           (register_param getsizeof param).
Proof.
  intros s [] s' HI H. unfold register_param in H.
  apply bind_ok_inv in H as ([] & s1 & H1 & H).
  apply bind_ok_inv in H as ([] & s2 & H2 & H3).
  eapply consistent_convert_to_ps_grad; [| exact H3].
  eapply consistent_convert_to_ps_data; [| exact H2].
  exact (consistent_init_ps_param _ _ _ _ HI H1).
Qed.

Lemma consistent_register_module m :
  ok_keeps (fun s => wf s /\ status_mirrored s)
           (register_module getsizeof m).
Proof.
  intros s [] s' HI H. unfold register_module in H.
  apply bind_ok_inv in H as ([] & s3 & H & Hrel).
  eapply consistent_release_all_grad; [| exact Hrel].
  destruct m as [ps|]; [| inversion H; subst; exact HI].
  apply bind_ok_inv in H as ([] & s0 & H0 & H).
  apply bind_ok_inv in H as ([] & s1 & H1 & H).
  apply bind_ok_inv in H as ([] & s2 & H2 & H3).
  eapply (ok_keeps_for_each (fun s => wf s /\ status_mirrored s));
    [apply consistent_convert_to_ps_grad | | exact H3].
  eapply (ok_keeps_for_each (fun s => wf s /\ status_mirrored s));
    [apply consistent_convert_to_ps_data | | exact H2].
  eapply (ok_keeps_for_each (fun s => wf s /\ status_mirrored s));
    [apply consistent_init_ps_param | | exact H1].
  unfold modify in H0. inversion H0; subst s0. destruct HI as [Hwf HS].
  split.
  - eapply wf_frame_wf; [exact Hwf |]. apply wf_frame_same; reflexivity.
  - eapply status_mirrored_frame; [exact HS |].
    apply status_frame_same; reflexivity.
Qed.

Lemma reachable_consistent s :
  reachable getsizeof s -> wf s /\ status_mirrored s.
Proof.
  induction 1 as [s Hs | s m s' Hr IH H | s p s' Hr IH H
                 | s p k dev s' Hr IH H | s p k rs r s' Hr IH H
                 | s s' Hr IH H | s cid dev s' Hr IH H
                 | s target need s' Hr IH H].
  - split; [exact (wf_unmanaged _ Hs) |].
    destruct Hs as (_ & _ & _ & _ & Hp). intros p P k tid HP Hid.
    destruct (Hp _ _ HP). destruct k; simpl in Hid; congruence.
  - exact (consistent_register_module _ _ _ _ IH H).
  - exact (consistent_register_param _ _ _ _ IH H).
  - destruct IH as [Hwf HS]. split.
    + exact (wf_access _ _ _ _ _ _ Hwf H).
    + exact (status_mirrored_access _ _ _ _ _ Hwf HS H).
  - destruct IH as [Hwf HS]. split.
    + exact (wf_release _ _ _ _ _ _ Hwf H).
    + exact (status_mirrored_release _ _ _ _ _ _ Hwf HS H).
  - exact (consistent_release_all_grad _ _ _ IH H).
  - destruct IH as [Hwf HS]. split.
    + exact (wf_chunk_move _ _ _ _ _ Hwf H).
    + eapply status_mirrored_frame; [exact HS |].
      exact (preserves_status_frame_chunk_move _ _ _ _ _ H).
  - destruct IH as [Hwf HS]. split.
    + exact (wf_prepare_device _ _ _ _ _ Hwf H).
    + eapply status_mirrored_frame; [exact HS |].
      exact (preserves_status_frame_prepare_device _ _ _ _ _ H).
Qed.

(** X11. The status attribute on a parameter never disagrees with the chunk
    list: in every state of a client, a tensor that is bound to a chunk
    has on its parameter the status its range has in that chunk, and a
    tensor that is bound to no chunk is [FREE]. *)
Theorem status_attribute_mirrors_chunk s p P access_type tid :
  reachable getsizeof s ->
  objects s !! p = Some P ->
  ps_id_of access_type P = Some tid ->
  match chunk_tensor_index s !! tid with
  | Some cid => exists c, chunks (chunk_list s) !! cid = Some c
                          /\ info_status tid c = status_of access_type P
  | None => status_of access_type P = Some FREE
  end.
Proof.
  intros Hr HP Hid. destruct (reachable_consistent _ Hr) as [_ HS].
  exact (HS _ _ _ _ HP Hid).
Qed.

(** ** [access] followed by [release] *)

(** After a completed [access] from a well-formed state the tensor is
    bound to a chunk on the compute device, in [COMPUTE]. *)
Lemma access_binds_on_device param k dev s s' P0 tid :
  wf s ->
  access getsizeof param k dev s = (Ok tt, s') ->
  objects s !! param = Some P0 ->
  ps_id_of k P0 = Some tid ->
  exists cid c,
    chunk_tensor_index s' !! tid = Some cid
    /\ chunks (chunk_list s') !! cid = Some c
    /\ device c = dev
    /\ info_status tid c = Some COMPUTE.
Proof.
  intros Hwf H HP0 Hid0. unfold access in H.
  rewrite (bind_step _ _ _ _ _ (is_ps_param_spec param s)) in H.
  destruct (bool_decide (registered s param)); [| discriminate]. simpl in H.
  apply bind_ok_inv in H as (cid & s1 & Hres & H).
  apply bind_ok_inv in H as ([] & s2 & Hrel & Hbind).
  destruct (wf_access_conditions _ _ _ _ _ Hwf HP0 Hid0) as [Hown Hcons].
  destruct (access_resolve_ok _ _ _ _ _ _ _ Hres HP0 Hid0 Hown Hcons)
    as (Hidx1 & Hhic1 & Hown1 & (P1 & HP1 & Hid1) & _).
  destruct (access_relocate_ok _ _ _ _ _ _ _ Hrel Hhic1 Hown1)
    as (Hrl & (c2 & P2 & t2 & Hc2 & Hd2 & HP2 & Ht2 & _) & _).
  destruct Hhic1 as (c1 & P1' & t1 & Hc1 & _ & _ & _ & _ & Hinfo1).
  destruct (rel_chunks _ _ Hrl _ _ Hc1) as (c2' & Hc2' & Hinfos & _).
  rewrite Hc2 in Hc2'. inversion Hc2'; subst c2'; clear Hc2'.
  destruct (rel_objects _ _ Hrl _ _ HP1) as (P2' & HP2' & Hdid & Hgid & _).
  rewrite HP2 in HP2'. inversion HP2'; subst P2'; clear HP2'.
  assert (Hid2 : ps_id_of k P2 = Some tid)
    by (rewrite (ps_id_of_relocated _ _ _ Hdid Hgid); exact Hid1).
  destruct (access_bind_ok _ _ _ _ _ _ _ _ _ Hbind Hc2 HP2 Ht2 Hid2)
    as (Hc' & _ & _ & Hidx').
  eexists cid, _.
  split; [rewrite Hidx', (rel_index _ _ Hrl); exact Hidx1 |].
  split; [exact Hc' |]. split; [exact Hd2 |].
  apply info_status_set_status. rewrite Hinfos. exact Hinfo1.
Qed.

(** X12. [access] followed by a [release] to a status other than [FREE]: the
    release completes, and the tensor stays bound to a chunk that is
    still in the list, on the compute device, with the status released
    to, on the parameter as in the chunk.  The chunk cannot be
    reclaimed, for one of its ranges is not [FREE]. *)
Theorem access_then_release_keeps_residence param k dev rs s s1 P tid :
  reachable getsizeof s ->
  objects s !! param = Some P ->
  ps_id_of k P = Some tid ->
  rs <> FREE ->
  access getsizeof param k dev s = (Ok tt, s1) ->
  exists s2 cid c P2,
    release getsizeof param k rs s1 = (Ok tt, s2)
    /\ chunk_tensor_index s2 !! tid = Some cid
    /\ chunks (chunk_list s2) !! cid = Some c
    /\ device c = dev
    /\ info_status tid c = Some rs
    /\ objects s2 !! param = Some P2
    /\ status_of k P2 = Some rs.
Proof.
  intros Hr HP Hid Hrs Hacc.
  destruct (reachable_wf _ Hr) as [Hwf _].
  destruct (access_binds_on_device _ _ _ _ _ _ _ Hwf Hacc HP Hid)
    as (cid & c1 & Hidx1 & Hc1 & Hdev & Hst1).
  destruct (preserves_ids_kept_access _ _ _ _ _ _ Hacc _ _ HP)
    as (P1 & HP1 & Hd & Hg & _).
  assert (Hid1 : ps_id_of k P1 = Some tid)
    by (destruct k; simpl in *; congruence).
  destruct (release_bound _ _ rs _ _ _ _ _ HP1 Hid1 Hidx1 Hc1)
    as (sr & s2 & Hreset & Hdel & Hrel & Hch & Hix & _ & HPr & _).
  destruct (delete_free_chunks_ok _ _ _ Hdel)
    as (_ & _ & Hch2 & Hix2 & Hobj2 & _).
  assert (His : is_Some (find_info tid (tensor_info_list c1))).
  { unfold info_status in Hst1.
    destruct (find_info tid (tensor_info_list c1)); [eauto | discriminate]. }
  set (c2 := set_tensor_info_list
               (set_status_infos tid rs (tensor_info_list c1)) c1).
  assert (Hcr : chunks (chunk_list sr) !! cid = Some c2)
    by (rewrite Hch, lookup_alter_eq, Hc1; reflexivity).
  assert (Hst2 : info_status tid c2 = Some rs)
    by (apply info_status_set_status; exact His).
  assert (Hlive : all_free c2 = false).
  { destruct (all_free c2) eqn:Hall; [exfalso | reflexivity].
    unfold info_status in Hst2.
    destruct (find_info tid (tensor_info_list c2)) as [info|] eqn:Hfind;
      [| discriminate].
    pose proof (all_free_status _ _ _ Hall Hfind) as Hfree.
    simpl in Hst2. congruence. }
  exists s2, cid, c2, (released_param k rs (next_storage s1) P1).
  split; [exact Hrel |].
  split.
  { rewrite Hix2. apply map_lookup_filter_Some. split; [congruence |].
    simpl. unfold is_dead. rewrite Hcr. exact Hlive. }
  split; [rewrite Hch2; apply map_lookup_filter_Some; auto |].
  split; [exact Hdev |]. split; [exact Hst2 |].
  split; [rewrite Hobj2; exact HPr |].
  destruct k; reflexivity.
Qed.

(** ** The view [new_tensor] returns *)

Lemma boundary_ge l info :
  info ∈ l ->
  (start info + numel info
   <= foldr (fun i b => Nat.max (start i + numel i) b) 0 l)%nat.
Proof.
  induction l as [|x l IH]; intros Hin; [inversion Hin |].
  apply elem_of_cons in Hin as [->|Hin]; simpl; [lia |].
  specialize (IH Hin). lia.
Qed.

(** X13. A completed [new_tensor(shape, dtype, tensor_id)] was called
    for a tensor that had no chunk; it leaves the tensor bound in the
    index to the chunk it returns; the view it returns has the requested
    shape and is a view of that chunk's backing storage; the range
    recorded for the tensor is the last of the chunk, in [HOLD], holds
    as many elements as the product of the shape (one for the empty
    shape), lies within the chunk's capacity, and begins where all
    earlier ranges of the chunk have ended. *)
Theorem new_tensor_binds_requested_view shape dt tid s t cid s1 :
  new_tensor getsizeof shape dt tid s = (Ok (t, cid), s1) ->
  chunk_tensor_index s !! tid = None
  /\ chunk_tensor_index s1 !! tid = Some cid
  /\ t_shape t = shape
  /\ exists c earlier,
       chunks (chunk_list s1) !! cid = Some c
       /\ data_type c = dt
       /\ t_storage t = payload c
       /\ t_device t = device c
       /\ tensor_info_list c
          = earlier ++ [mkTensorInfo tid (t_offset t) (shape_numel shape) HOLD]
       /\ (t_offset t + shape_numel shape <= capacity c)%nat
       /\ forall e, e ∈ earlier -> (start e + numel e <= t_offset t)%nat.
Proof.
  intros H.
  destruct (new_tensor_layout _ _ _ _ _ _ _ H)
    as (cnew & off & Hun & Hix & _ & _ & _ & _ & _ & Hch & -> & Hfit & Hdt
        & Hcase).
  split; [exact Hun |].
  split; [rewrite Hix; apply lookup_insert_eq |].
  split; [reflexivity |]. simpl.
  destruct Hcase as [(c0 & Hc0 & Hoff & Hnew & _)|(_ & Hoff & Hlist & _)].
  - exists cnew, (tensor_info_list c0).
    split; [rewrite Hch; apply lookup_insert_eq |].
    split; [exact Hdt |]. split; [reflexivity |]. split; [reflexivity |].
    split; [rewrite Hnew; reflexivity |]. split; [exact Hfit |].
    intros e He. rewrite Hoff. unfold boundary. apply boundary_ge. exact He.
  - exists cnew, [].
    split; [rewrite Hch; apply lookup_insert_eq |].
    split; [exact Hdt |]. split; [reflexivity |]. split; [reflexivity |].
    split; [rewrite Hlist, Hoff; reflexivity |]. split; [exact Hfit |].
    intros e He. inversion He.
Qed.

(** ** The state [release_all_grad] and [register_module] end in *)

#[global] Instance keeps_mark_preorder Q p : PreOrder (keeps_mark Q p).
Proof.
  split.
  - intros s H. exact H.
  - intros s1 s2 s3 H12 H23 H. exact (H23 (H12 H)).
Qed.

Lemma keeps_mark_same Q p s s' :
  objects s' = objects s -> keeps_mark Q p s s'.
Proof. intros Ho H. unfold marked in *. rewrite Ho. exact H. Qed.

Lemma keeps_mark_alter (Q : Param -> Prop) f y p s :
  (forall P, Q P -> Q (f P)) ->
  keeps_mark Q p s (set_objects (alter f y (objects s)) s).
Proof.
  intros Hf (P & HP & HQ). unfold marked. st_simpl. rewrite lookup_alter.
  destruct (decide (y = p)) as [->|Hne].
  - rewrite HP. simpl. exists (f P). auto.
  - exists P. auto.
Qed.

Ltac km_leaf :=
  match goal with
  | |- preserves (keeps_mark _ _) (modify _) =>
      apply preserves_modify; intros ?;
      first [ apply keeps_mark_same; reflexivity
            | apply keeps_mark_alter; intros ? HQ;
              first [exact HQ | reflexivity] ]
  | |- preserves (keeps_mark _ _) (update_param _ _) =>
      unfold update_param; apply preserves_modify; intros ?;
      apply keeps_mark_alter; intros ? HQ; first [exact HQ | reflexivity]
  | |- preserves (keeps_mark _ _) (update_chunk _ _) =>
      unfold update_chunk; apply preserves_modify; intros ?;
      apply keeps_mark_same; reflexivity
  end.

Lemma preserves_keeps_mark_new_tensor Q p shape dt tid :
  preserves (keeps_mark Q p) (new_tensor getsizeof shape dt tid).
Proof.
  unfold new_tensor, allocate, new_chunk, add_tensor, log, reserve,
    torch_zeros.
  pres; km_leaf.
Qed.

Lemma preserves_keeps_mark_release_grad_free p y :
  preserves (keeps_mark (fun P => grad_status P = Some FREE) p)
            (release_grad getsizeof y FREE).
Proof.
  unfold release_grad, release, release_reset, get_chunk_id,
    delete_free_chunks, tensor_id_to_chunk_id, getitem, set_status,
    param_obj, log.
  pres; km_leaf.
Qed.

Lemma preserves_data_hold_release_grad p y rs :
  preserves (keeps_mark (fun P => data_status P = Some HOLD) p)
            (release_grad getsizeof y rs).
Proof.
  unfold release_grad, release, release_reset, get_chunk_id,
    delete_free_chunks, tensor_id_to_chunk_id, getitem, set_status,
    param_obj, log.
  pres; km_leaf.
Qed.

Lemma preserves_data_hold_convert_to_ps_data p y :
  preserves (keeps_mark (fun P => data_status P = Some HOLD) p)
            (_convert_to_ps_data getsizeof y).
Proof.
  unfold _convert_to_ps_data, tensor_copy_, param_obj.
  pres; first [km_leaf | apply preserves_keeps_mark_new_tensor].
Qed.

Lemma preserves_data_hold_convert_to_ps_grad p y :
  preserves (keeps_mark (fun P => data_status P = Some HOLD) p)
            (_convert_to_ps_grad getsizeof y).
Proof.
  unfold _convert_to_ps_grad, tensor_copy_, param_obj.
  pres; first [km_leaf | apply preserves_keeps_mark_new_tensor].
Qed.

(** A loop that completes has run its body on every element: what the
    body establishes for its element, and every later run of the body
    keeps, holds for every element in the end. *)
Lemma for_each_establishes {A} (I : State -> Prop) (Q : A -> State -> Prop)
    (l : list A) (body : A -> M unit) :
  (forall y, ok_keeps I (body y)) ->
  (forall x s0 s1, I s0 -> body x s0 = (Ok tt, s1) -> Q x s1) ->
  (forall x y s0 s1, Q x s0 -> body y s0 = (Ok tt, s1) -> Q x s1) ->
  forall s s', I s -> for_each l body s = (Ok tt, s') ->
  forall x, x ∈ l -> Q x s'.
Proof.
  intros Hkeep Hest Hstay.
  assert (Hrest : forall x l0 s s',
            Q x s -> for_each l0 body s = (Ok tt, s') -> Q x s').
  { intros x l0. induction l0 as [|y l0 IH]; intros s s' HQ H; simpl in H.
    - inversion H; subst. exact HQ.
    - apply bind_ok_inv in H as ([] & s1 & Hy & H).
      exact (IH _ _ (Hstay _ _ _ _ HQ Hy) H). }
  induction l as [|y l IH]; intros s s' HI H x Hin; [inversion Hin |].
  simpl in H. apply bind_ok_inv in H as ([] & s1 & Hy & H).
  apply elem_of_cons in Hin as [->|Hin].
  - exact (Hrest _ _ _ _ (Hest _ _ _ HI Hy) H).
  - exact (IH _ _ (Hkeep _ _ _ _ HI Hy) H _ Hin).
Qed.

(** A completed release of a gradient to [FREE] leaves it [FREE] on the
    parameter, whether it was bound or not. *)
Lemma release_grad_free_marks p s s1 :
  wf s -> status_mirrored s ->
  release_grad getsizeof p FREE s = (Ok tt, s1) ->
  marked (fun P => grad_status P = Some FREE) p s1.
Proof.
  intros Hwf HS H. unfold release_grad in H.
  destruct (get_chunk_id p GRAD s) as [[o|e] s0] eqn:Hget.
  2:{ unfold release, bind in H. rewrite Hget in H. discriminate. }
  apply get_chunk_id_ok in Hget as (P & tid & HP & Hid & -> & ->).
  destruct (chunk_tensor_index s !! tid) as [cid|] eqn:Hidx.
  - destruct (wf_index_chunk _ Hwf _ _ Hidx) as (c & Hc & _).
    destruct (release_bound _ _ FREE _ _ _ _ _ HP Hid Hidx Hc)
      as (sr & s2 & _ & Hdel & Hrel & _ & _ & _ & HPr & _).
    rewrite Hrel in H. inversion H; subst s2; clear H.
    destruct (delete_free_chunks_ok _ _ _ Hdel) as (_ & _ & _ & _ & Hobj & _).
    eexists. rewrite Hobj. split; [exact HPr | reflexivity].
  - rewrite (release_unbound _ _ _ _ _ _ HP Hid Hidx) in H.
    inversion H; subst s1; clear H.
    exists P. split; [exact HP |].
    pose proof (HS _ _ _ _ HP Hid) as Hm. unfold mirrored_at in Hm.
    rewrite Hidx in Hm. exact Hm.
Qed.

Lemma release_all_grad_frees ps s s' :
  wf s -> status_mirrored s ->
  module s = Some ps ->
  release_all_grad getsizeof s = (Ok tt, s') ->
  forall p, p ∈ ps -> marked (fun P => grad_status P = Some FREE) p s'.
Proof.
  intros Hwf HS Hm H. unfold release_all_grad in H.
  rewrite (bind_step _ _ _ _ _ (eq_refl : get s = (Ok s, s))) in H.
  rewrite Hm in H.
  apply (for_each_establishes (fun s => wf s /\ status_mirrored s)
           (fun p s => marked (fun P => grad_status P = Some FREE) p s)
           ps (fun p => release_grad getsizeof p FREE)) with (s := s);
    [| | | auto | exact H].
  - intros y. apply consistent_release_grad.
  - intros x s0 s1 [Hwf0 HS0] Hx.
    exact (release_grad_free_marks _ _ _ Hwf0 HS0 Hx).
  - intros x y s0 s1 HQ Hy.
    exact (preserves_keeps_mark_release_grad_free _ _ _ _ _ Hy HQ).
Qed.

(** X14. After a completed [release_all_grad] the gradient of every
    parameter of the registered module is [FREE] on the parameter. *)
Theorem release_all_grad_frees_every_gradient ps s s' p :
  reachable getsizeof s ->
  module s = Some ps ->
  release_all_grad getsizeof s = (Ok tt, s') ->
  p ∈ ps ->
  exists P', objects s' !! p = Some P' /\ grad_status P' = Some FREE.
Proof.
  intros Hr Hm H Hin. destruct (reachable_consistent _ Hr) as [Hwf HS].
  exact (release_all_grad_frees _ _ _ Hwf HS Hm H _ Hin).
Qed.

Lemma convert_to_ps_data_marks p s s1 :
  _convert_to_ps_data getsizeof p s = (Ok tt, s1) ->
  marked (fun P => data_status P = Some HOLD) p s1.
Proof.
  intros H. assert (H0 := H). unfold _convert_to_ps_data in H0.
  apply bind_ok_inv in H0 as (P & s0 & HP & H0).
  apply param_obj_ok in HP as [-> HP].
  apply bind_ok_inv in H0 as (shape & s0 & Hshape & H0).
  apply attr_ok in Hshape as [Hshape ->].
  apply bind_ok_inv in H0 as (tid & s0 & Hid & _).
  apply attr_ok in Hid as [Hid ->].
  destruct (convert_to_ps_data_ok _ _ _ _ _ H HP Hid)
    as (cid & c & P2 & info & _ & _ & _ & _ & _ & _ & HP2 & Hst & _).
  exists P2. auto.
Qed.

(** X15. After a completed [register_module(module)] every parameter
    of the module has its data in [HOLD] and its gradient in [FREE]:
    a gradient the parameter brought along has been copied into a chunk
    and released again at once by the closing [release_all_grad]. *)
Theorem register_module_end_state ps s s' p :
  reachable getsizeof s ->
  register_module getsizeof (Some ps) s = (Ok tt, s') ->
  p ∈ ps ->
  exists P', objects s' !! p = Some P'
             /\ data_status P' = Some HOLD
             /\ grad_status P' = Some FREE.
Proof.
  intros Hr H Hin. pose proof (reachable_consistent _ Hr) as HI.
  unfold register_module in H.
  apply bind_ok_inv in H as ([] & s4 & H & Hrel).
  apply bind_ok_inv in H as ([] & s0 & H0 & H).
  apply bind_ok_inv in H as ([] & s1 & H1 & H).
  apply bind_ok_inv in H as ([] & s2 & H2 & H3).
  unfold modify in H0. inversion H0; subst s0; clear H0.
  assert (HI0 : wf (set_module (Some ps) s)
                /\ status_mirrored (set_module (Some ps) s)).
  { destruct HI as [Hwf HS]. split.
    - eapply wf_frame_wf; [exact Hwf |]. apply wf_frame_same; reflexivity.
    - eapply status_mirrored_frame; [exact HS |].
      apply status_frame_same; reflexivity. }
  assert (HI1 : wf s1 /\ status_mirrored s1).
  { eapply (ok_keeps_for_each (fun s => wf s /\ status_mirrored s));
      [apply consistent_init_ps_param | exact HI0 | exact H1]. }
  assert (HI2 : wf s2 /\ status_mirrored s2).
  { eapply (ok_keeps_for_each (fun s => wf s /\ status_mirrored s));
      [apply consistent_convert_to_ps_data | exact HI1 | exact H2]. }
  assert (HI4 : wf s4 /\ status_mirrored s4).
  { eapply (ok_keeps_for_each (fun s => wf s /\ status_mirrored s));
      [apply consistent_convert_to_ps_grad | exact HI2 | exact H3]. }
  assert (Hm : module s4 = Some ps).
  { transitivity (module s2).
    { eapply (preserves_for_each module_kept); [| exact H3].
      intros q. apply preserves_module_kept_convert_to_ps_grad. }
    transitivity (module s1).
    { eapply (preserves_for_each module_kept); [| exact H2].
      intros q. apply preserves_module_kept_convert_to_ps_data. }
    transitivity (module (set_module (Some ps) s)); [| reflexivity].
    eapply (preserves_for_each module_kept); [| exact H1].
    intros q. apply preserves_module_kept_init_ps_param. }
  assert (Hd2 : marked (fun P => data_status P = Some HOLD) p s2).
  { apply (for_each_establishes (fun _ => True)
             (fun p s => marked (fun P => data_status P = Some HOLD) p s)
             ps (_convert_to_ps_data getsizeof)) with (s := s1);
      [| | | exact I | exact H2 | exact Hin].
    - intros y s5 a s6 _ _. exact I.
    - intros x s5 s6 _ Hx. exact (convert_to_ps_data_marks _ _ _ Hx).
    - intros x y s5 s6 HQ Hy.
      exact (preserves_data_hold_convert_to_ps_data _ _ _ _ _ Hy HQ). }
  assert (Hd4 : marked (fun P => data_status P = Some HOLD) p s4).
  { eapply (preserves_for_each
              (keeps_mark (fun P => data_status P = Some HOLD) p));
      [| exact H3 | exact Hd2].
    intros q. apply preserves_data_hold_convert_to_ps_grad. }
  assert (Hd' : marked (fun P => data_status P = Some HOLD) p s').
  { revert Hd4. unfold release_all_grad in Hrel.
    rewrite (bind_step _ _ _ _ _ (eq_refl : get s4 = (Ok s4, s4))) in Hrel.
    rewrite Hm in Hrel.
    eapply (preserves_for_each
              (keeps_mark (fun P => data_status P = Some HOLD) p));
      [| exact Hrel].
    intros q. apply preserves_data_hold_release_grad. }
  destruct HI4 as [Hwf4 HS4].
  destruct (release_all_grad_frees _ _ _ Hwf4 HS4 Hm Hrel _ Hin)
    as (Pg & HPg & Hg).
  destruct Hd' as (Pd & HPd & Hd).
  rewrite HPg in HPd. inversion HPd; subst Pd.
  exists Pg. auto.
Qed.

(** ** The values of a tensor across its first allocation write *)

Lemma write_then_read (off n : nat) (vals old : list Z) :
  (off <= length old)%nat -> length vals = n ->
  take n (drop off (take off old ++ vals ++ drop (off + length vals) old))
  = vals.
Proof.
  intros Hoff Hn.
  rewrite drop_app_length' by (rewrite length_take_le; lia).
  apply take_app_length'. lia.
Qed.

(** The first allocation write copies the elements of the source into
    the range of the chunk: read through the view [new_tensor] has
    returned, the storage holds what the source held. *)
Lemma convert_values (store : Tensor -> nat -> Param -> Param)
    (bind_view : Tensor -> Param -> Param) (mark : Param -> Param)
    shape dt tid param (src : Tensor) s s2 P :
  storage_sized s ->
  (t_storage src < next_storage s)%nat ->
  length (tensor_elems src s) = shape_numel shape ->
  objects s !! param = Some P ->
  (r <- new_tensor getsizeof shape dt tid ;;
   update_param param (store r.1 r.2) ;;
   s <- get ;;
   tensor_copy_ r.1 (tensor_elems src s) ;;
   update_param param (bind_view r.1) ;;
   update_param param mark) s = (Ok tt, s2) ->
  exists t cid,
    objects s2 !! param = Some (mark (bind_view t (store t cid P)))
    /\ t_shape t = shape
    /\ tensor_elems t s2 = tensor_elems src s.
Proof.
  intros Hsized Hsrc Hlen HP H.
  apply bind_ok_inv in H as ([t cid] & s1 & Hnew & H).
  destruct (new_tensor_layout _ _ _ _ _ _ _ Hnew)
    as (cnew & off & _ & _ & Hobj & _ & _ & _ & _ & _ & -> & Hfit & _ & Hcase).
  assert (Hvals : forall objs,
            tensor_elems src (set_objects objs s1) = tensor_elems src s).
  { intros objs. unfold tensor_elems. st_simpl.
    destruct Hcase as [(_ & _ & _ & _ & -> & _)|(_ & _ & _ & _ & _ & -> & _)];
      [reflexivity |].
    rewrite lookup_insert_ne by lia. reflexivity. }
  assert (Hold : (off <= length (default [] (storages s1 !! payload cnew)))%nat).
  { destruct Hcase as [(c0 & Hc0 & Hoff & -> & -> & _)|(_ & -> & _)]; [| lia].
    simpl in *. specialize (Hsized _ _ Hc0). lia. }
  run_total H. run_total H. rewrite Hvals in H. run_total H. run_total H.
  unfold update_param, modify in H. inversion H; subst s2; clear H.
  exists (mkTensor (payload cnew) (device cnew) off shape), cid. st_simpl.
  split; [rewrite !lookup_alter_eq, Hobj, HP; reflexivity |].
  split; [reflexivity |].
  unfold tensor_elems at 1. st_simpl. cbn [t_shape t_offset t_storage].
  rewrite lookup_insert_eq. simpl.
  apply write_then_read; [exact Hold | exact Hlen].
Qed.

(** X16. A completed conversion keeps the values.  In a state in which
    the storage of every chunk holds the chunk's capacity, when the data
    of the parameter lives on an allocated storage and holds as many
    elements as [ps_shape] asks for, the [param.data] that
    [_convert_to_ps_data] leaves has shape [ps_shape] and denotes the
    same elements, now in the chunk's storage; and so for [param.grad]
    and [_convert_to_ps_grad]. *)
Theorem conversion_preserves_values param s P shape s2 :
  storage_sized s ->
  objects s !! param = Some P ->
  ps_shape P = Some shape ->
  ((t_storage (data P) < next_storage s)%nat ->
   length (tensor_elems (data P) s) = shape_numel shape ->
   _convert_to_ps_data getsizeof param s = (Ok tt, s2) ->
   exists P2,
     objects s2 !! param = Some P2
     /\ t_shape (data P2) = shape
     /\ tensor_elems (data P2) s2 = tensor_elems (data P) s)
  /\ (forall g,
        grad P = Some g ->
        (t_storage g < next_storage s)%nat ->
        length (tensor_elems g s) = shape_numel shape ->
        _convert_to_ps_grad getsizeof param s = (Ok tt, s2) ->
        exists P2 g2,
          objects s2 !! param = Some P2
          /\ grad P2 = Some g2
          /\ t_shape g2 = shape
          /\ tensor_elems g2 s2 = tensor_elems g s).
Proof.
  intros Hsized HP Hshape. split.
  - intros Hsrc Hlen H. unfold _convert_to_ps_data in H. run_param H HP.
    rewrite Hshape in H. run_total H.
    apply bind_ok_inv in H as (tid & s0 & Hid & H).
    apply attr_ok in Hid as [Hid ->].
    destruct (convert_values
                (fun t k P => set_ps_data_chunk_id (Some k)
                                (set_ps_data_tensor (Some t) P))
                set_data (set_data_status (Some HOLD))
                shape (dtype P) tid param (data P) s s2 P
                Hsized Hsrc Hlen HP H)
      as (t & cid & HP2 & Hsh & Hel).
    eexists. split; [exact HP2 |]. split; [exact Hsh | exact Hel].
  - intros g Hg Hsrc Hlen H. unfold _convert_to_ps_grad in H. run_param H HP.
    rewrite Hg, Hshape in H. run_total H.
    apply bind_ok_inv in H as (tid & s0 & Hid & H).
    apply attr_ok in Hid as [Hid ->].
    destruct (convert_values
                (fun t k P => set_ps_gard_chunk_id (Some k)
                                (set_ps_grad_tensor (Some t) P))
                (fun t => set_grad (Some t)) (set_grad_status (Some HOLD))
                shape (dtype P) tid param g s s2 P
                Hsized Hsrc Hlen HP H)
      as (t & cid & HP2 & Hsh & Hel).
    eexists _, t. split; [exact HP2 |]. split; [reflexivity |].
    split; [exact Hsh | exact Hel].
Qed.

(** ** Backing storages never shrink *)

#[global] Instance storage_kept_preorder : PreOrder storage_kept.
Proof.
  split.
  - intros s. split; [lia |]. intros cid c Hc. right. exists c.
    split; [exact Hc |]. split; [reflexivity |]. intros Hlt. split; [exact Hlt | lia].
  - intros s1 s2 s3 [Hn12 H12] [Hn23 H23]. split; [lia |].
    intros cid c3 Hc3.
    destruct (H23 _ _ Hc3) as [Hfine|(c2 & Hc2 & Hcap & Hfwd)]; [auto |].
    destruct (H12 _ _ Hc2) as [[Hlt Hlen]|(c1 & Hc1 & Hcap1 & Hfwd1)].
    + left. destruct (Hfwd Hlt) as [Hlt3 Hlen3]. split; [exact Hlt3 | lia].
    + right. exists c1. split; [exact Hc1 |]. split; [congruence |].
      intros Hlt1. destruct (Hfwd1 Hlt1) as [Hlt2 Hlen2].
      destruct (Hfwd Hlt2) as [Hlt3 Hlen3]. split; [exact Hlt3 | lia].
Qed.

Lemma storage_kept_sized s s' :
  storage_bounded s -> storage_sized s -> storage_kept s s' ->
  storage_sized s'.
Proof.
  intros Hb Hs [_ H] cid c' Hc'.
  destruct (H _ _ Hc') as [[_ Hlen]|(c & Hc & Hcap & Hfwd)]; [exact Hlen |].
  destruct (Hfwd (Hb _ _ Hc)) as [_ Hlen]. specialize (Hs _ _ Hc).
  unfold storage_len in Hlen. lia.
Qed.

Lemma storage_kept_sub s s' :
  (next_storage s <= next_storage s')%nat ->
  (forall k, (k < next_storage s)%nat ->
             (storage_len s k <= storage_len s' k)%nat) ->
  (forall cid c', chunks (chunk_list s') !! cid = Some c' ->
     exists c, chunks (chunk_list s) !! cid = Some c
               /\ capacity c' = capacity c /\ payload c' = payload c) ->
  storage_kept s s'.
Proof.
  intros Hn Hlen Hc. split; [exact Hn |]. intros cid c' Hc'. right.
  destruct (Hc _ _ Hc') as (c & Hcid & Hcap & Hp). exists c.
  split; [exact Hcid |]. split; [exact Hcap |]. intros Hlt. rewrite Hp.
  split; [lia | exact (Hlen _ Hlt)].
Qed.

Lemma storage_kept_same s s' :
  chunks (chunk_list s') = chunks (chunk_list s) ->
  storages s' = storages s ->
  next_storage s' = next_storage s ->
  storage_kept s s'.
Proof.
  intros Hc Hs Hn. apply storage_kept_sub; [lia | |].
  - intros k _. unfold storage_len. rewrite Hs. lia.
  - intros cid c'. rewrite Hc. eauto.
Qed.

Lemma storage_kept_alter f cid s :
  (forall c, capacity (f c) = capacity c /\ payload (f c) = payload c) ->
  storage_kept s (set_chunks (alter f cid (chunks (chunk_list s))) s).
Proof.
  intros Hf. apply storage_kept_sub; [reflexivity | intros k _; reflexivity |].
  intros k c. st_simpl. rewrite lookup_alter.
  destruct (decide (cid = k)) as [->|Hne]; [| eauto].
  destruct (chunks (chunk_list s) !! k) as [c0|]; [| discriminate].
  simpl. intros Heq. inversion Heq; subst c. exists c0.
  split; [reflexivity | apply Hf].
Qed.

Lemma preserves_storage_kept_torch_zeros shape dev :
  preserves storage_kept (torch_zeros shape dev).
Proof.
  intros s r s' H. unfold torch_zeros, bind, get, modify, ret in H.
  inversion H; subst r s'; clear H.
  apply storage_kept_sub; [st_simpl; lia | | intros cid c Hc; eauto].
  intros k Hk. unfold storage_len. st_simpl.
  rewrite lookup_insert_ne by lia. lia.
Qed.

(** A copy into a tensor leaves no storage shorter than it was. *)
Lemma preserves_storage_kept_tensor_copy_ dst vals :
  preserves storage_kept (tensor_copy_ dst vals).
Proof.
  intros s r s' H. unfold tensor_copy_, modify in H.
  inversion H; subst r s'; clear H.
  apply storage_kept_sub; [reflexivity | | intros cid c Hc; eauto].
  intros k _. unfold storage_len. st_simpl. rewrite lookup_insert.
  destruct (decide (t_storage dst = k)) as [->|Hne]; [| lia].
  simpl. rewrite !length_app, length_take, length_drop. lia.
Qed.

Lemma preserves_storage_kept_delete_free_chunks :
  preserves storage_kept (delete_free_chunks getsizeof).
Proof.
  intros s r s' H. unfold delete_free_chunks, bind, log, modify in H.
  inversion H; subst r s'; clear H.
  apply storage_kept_sub; [reflexivity | intros k _; reflexivity |].
  intros cid c. st_simpl. rewrite map_lookup_filter_Some. intros [Hc _]. eauto.
Qed.

Ltac sk_leaf :=
  match goal with
  | |- preserves storage_kept (modify _) =>
      apply preserves_modify; intros ?;
      first [ apply storage_kept_same; reflexivity
            | apply storage_kept_alter; intros ?; split; reflexivity ]
  | |- preserves storage_kept (update_param _ _) =>
      unfold update_param; apply preserves_modify; intros ?;
      apply storage_kept_same; reflexivity
  | |- preserves storage_kept (update_chunk _ _) =>
      unfold update_chunk; apply preserves_modify; intros ?;
      apply storage_kept_alter; intros ?; split; reflexivity
  | |- preserves storage_kept (torch_zeros _ _) =>
      apply preserves_storage_kept_torch_zeros
  | |- preserves storage_kept (tensor_copy_ _ _) =>
      apply preserves_storage_kept_tensor_copy_
  | |- preserves storage_kept (delete_free_chunks _) =>
      apply preserves_storage_kept_delete_free_chunks
  end.

Lemma preserves_storage_kept_rebind st dev info :
  preserves storage_kept (rebind st dev info).
Proof. unfold rebind. pres; sk_leaf. Qed.

Lemma preserves_storage_kept_reserve d b :
  preserves storage_kept (reserve d b).
Proof. unfold reserve. pres; sk_leaf. Qed.

(** A new chunk gets a fresh storage of as many elements as its
    capacity. *)
Lemma preserves_storage_kept_new_chunk n dt tid :
  preserves storage_kept (new_chunk getsizeof n dt tid).
Proof.
  intros s r s' H. unfold new_chunk in H. run_total H. cbv zeta in H.
  apply bind_inv in H as [([] & s0 & Hres & H)|(e & Hres & _)].
  2:{ exact (preserves_storage_kept_reserve _ _ _ _ _ Hres). }
  transitivity s0; [exact (preserves_storage_kept_reserve _ _ _ _ _ Hres) |].
  clear Hres. run_total H. run_total H. inversion H; subst r s'; clear H.
  split; [st_simpl; lia |]. intros cid c. st_simpl.
  rewrite lookup_insert. destruct (decide _) as [Heq|Hne].
  - intros Hc. inversion Hc; subst c. left. simpl. split; [lia |].
    unfold storage_len. st_simpl. rewrite lookup_insert_eq. simpl.
    rewrite length_replicate. unfold shape_numel. simpl. lia.
  - intros Hc. right. exists c. split; [exact Hc |]. split; [reflexivity |].
    intros Hlt. split; [lia |]. unfold storage_len. st_simpl.
    rewrite lookup_insert_ne by lia. lia.
Qed.

(** A moved chunk gets a fresh storage that holds a copy of the old
    one, element for element. *)
Lemma preserves_storage_kept_Chunk_move cid target :
  preserves storage_kept (Chunk_move getsizeof cid target).
Proof.
  intros s r s' H. unfold Chunk_move in H.
  apply bind_inv in H as [(c & s0 & Hget & H)|(e & Hget & _)].
  2:{ unfold getitem, bind, get, ret, raise in Hget.
      destruct (chunks (chunk_list s) !! cid); inversion Hget; reflexivity. }
  apply getitem_ok in Hget as [-> Hc]. run_total H.
  destruct (decide (device c = target)).
  { inversion H; subst. apply storage_kept_same; reflexivity. }
  apply bind_inv in H as [([] & s0 & Hres & H)|(e & Hres & _)].
  2:{ etransitivity;
        [| exact (preserves_storage_kept_reserve _ _ _ _ _ Hres)].
      apply storage_kept_same; reflexivity. }
  assert (Hs0 : chunks (chunk_list s0) = chunks (chunk_list s)
                /\ storages s0 = storages s
                /\ next_storage s0 = next_storage s).
  { unfold reserve, bind, get, raise, modify in Hres.
    destruct (decide _) in Hres; inversion Hres; subst; auto. }
  destruct Hs0 as (Hch0 & Hst0 & Hn0). clear Hres.
  run_total H. cbv zeta in H. run_total H. run_total H. run_total H.
  etransitivity; [| eapply preserves_for_each; [exact _ | | exact H]].
  2:{ intros info. apply preserves_storage_kept_rebind. }
  split; [st_simpl; lia |].
  intros k c'. st_simpl. rewrite lookup_alter, Hch0.
  destruct (decide (cid = k)) as [<-|Hne].
  - intros Heq. rewrite Hc in Heq. simpl in Heq. inversion Heq; subst c'.
    right. exists c. split; [exact Hc |]. split; [reflexivity |].
    intros Hlt. simpl. split; [lia |]. unfold storage_len. st_simpl.
    rewrite lookup_insert_eq, Hst0. simpl. lia.
  - intros Hk. right. exists c'. split; [exact Hk |].
    split; [reflexivity |]. intros Hlt. split; [lia |].
    unfold storage_len. st_simpl. rewrite lookup_insert_ne by lia.
    rewrite Hst0. lia.
Qed.

Lemma preserves_storage_kept_chunk_move cid dev :
  preserves storage_kept (chunk_move getsizeof cid dev).
Proof.
  unfold chunk_move, getitem. pres;
    apply preserves_storage_kept_Chunk_move.
Qed.

Lemma preserves_storage_kept_prepare_device target need :
  preserves storage_kept (prepare_device getsizeof target need).
Proof.
  unfold prepare_device, max_mem, available_mem,
    chunk_to_move_out_for_room_making, log.
  pres; first [sk_leaf | apply preserves_storage_kept_chunk_move].
Qed.

Lemma preserves_storage_kept_new_tensor shape dt tid :
  preserves storage_kept (new_tensor getsizeof shape dt tid).
Proof.
  unfold new_tensor, allocate, add_tensor, log.
  pres; first [sk_leaf | apply preserves_storage_kept_new_chunk].
Qed.

Lemma preserves_storage_kept_get_chunk_id param access_type :
  preserves storage_kept (get_chunk_id param access_type).
Proof.
  unfold get_chunk_id, param_obj, tensor_id_to_chunk_id. pres.
Qed.

Lemma preserves_storage_kept_access param access_type dev :
  preserves storage_kept (access getsizeof param access_type dev).
Proof.
  unfold access, is_ps_param, access_resolve, access_relocate, access_bind,
    access_placeholder, getitem, touch, log, set_status, param_obj.
  pres;
    first [ sk_leaf
          | apply preserves_storage_kept_get_chunk_id
          | apply preserves_storage_kept_new_tensor
          | apply preserves_storage_kept_prepare_device
          | apply preserves_storage_kept_chunk_move ].
Qed.

Lemma preserves_storage_kept_release param access_type rs :
  preserves storage_kept (release getsizeof param access_type rs).
Proof.
  unfold release, release_reset, getitem, set_status, param_obj.
  pres; first [sk_leaf | apply preserves_storage_kept_get_chunk_id].
Qed.

Lemma preserves_storage_kept_init_ps_param param :
  preserves storage_kept (_init_ps_param param).
Proof.
  unfold _init_ps_param, is_ps_param, is_ps_data, is_ps_grad, generate_id,
    param_obj.
  pres; sk_leaf.
Qed.

Lemma preserves_storage_kept_convert_to_ps_data param :
  preserves storage_kept (_convert_to_ps_data getsizeof param).
Proof.
  unfold _convert_to_ps_data, param_obj.
  pres; first [sk_leaf | apply preserves_storage_kept_new_tensor].
Qed.

Lemma preserves_storage_kept_convert_to_ps_grad param :
  preserves storage_kept (_convert_to_ps_grad getsizeof param).
Proof.
  unfold _convert_to_ps_grad, param_obj.
  pres; first [sk_leaf | apply preserves_storage_kept_new_tensor].
Qed.

Lemma preserves_storage_kept_register_param param :
  preserves storage_kept (register_param getsizeof param).
Proof.
  unfold register_param.
  pres; first [ apply preserves_storage_kept_init_ps_param
              | apply preserves_storage_kept_convert_to_ps_data
              | apply preserves_storage_kept_convert_to_ps_grad ].
Qed.

Lemma preserves_storage_kept_release_all_grad :
  preserves storage_kept (release_all_grad getsizeof).
Proof.
  unfold release_all_grad, release_grad.
  pres; apply preserves_storage_kept_release.
Qed.

Lemma preserves_storage_kept_register_module m :
  preserves storage_kept (register_module getsizeof m).
Proof.
  unfold register_module.
  pres; first [ sk_leaf
              | apply preserves_storage_kept_init_ps_param
              | apply preserves_storage_kept_convert_to_ps_data
              | apply preserves_storage_kept_convert_to_ps_grad
              | apply preserves_storage_kept_release_all_grad ].
Qed.

Lemma reachable_storage_sized s :
  reachable getsizeof s -> storage_sized s.
Proof.
  induction 1 as [s Hs | s m s' Hr IH H | s p s' Hr IH H
                 | s p k dev s' Hr IH H | s p k rs r s' Hr IH H
                 | s s' Hr IH H | s cid dev s' Hr IH H
                 | s target need s' Hr IH H];
    [| pose proof (proj2 (reachable_wf _ Hr)) as Hb ..].
  - destruct Hs as (Hc & _). intros cid c. rewrite Hc, lookup_empty.
    discriminate.
  - exact (storage_kept_sized _ _ Hb IH
             (preserves_storage_kept_register_module _ _ _ _ H)).
  - exact (storage_kept_sized _ _ Hb IH
             (preserves_storage_kept_register_param _ _ _ _ H)).
  - exact (storage_kept_sized _ _ Hb IH
             (preserves_storage_kept_access _ _ _ _ _ _ H)).
  - exact (storage_kept_sized _ _ Hb IH
             (preserves_storage_kept_release _ _ _ _ _ _ H)).
  - exact (storage_kept_sized _ _ Hb IH
             (preserves_storage_kept_release_all_grad _ _ _ H)).
  - exact (storage_kept_sized _ _ Hb IH
             (preserves_storage_kept_chunk_move _ _ _ _ _ H)).
  - exact (storage_kept_sized _ _ Hb IH
             (preserves_storage_kept_prepare_device _ _ _ _ _ H)).
Qed.

(** X17. In every state a client reaches, the backing storage of every
    chunk of the list has been allocated and holds at least as many
    elements as the chunk's capacity: no copy into a tensor, move of a
    chunk or allocation of a buffer ever cuts a chunk's storage short. *)
Theorem chunk_storage_holds_capacity s cid c :
  reachable getsizeof s ->
  chunks (chunk_list s) !! cid = Some c ->
  (payload c < next_storage s)%nat
  /\ (capacity c <= storage_len s (payload c))%nat.
Proof.
  intros Hr Hc. split.
  - exact (proj2 (reachable_wf _ Hr) _ _ Hc).
  - exact (reachable_storage_sized _ Hr _ _ Hc).
Qed.

(** ** The life of a tensor *)

(** C9 (as amended). [_init_ps_param] on a parameter the client has not
    seen completes and leaves each tracked tensor, the data and (when
    the parameter requires a gradient) the gradient, with a fresh
    identifier, bound to no chunk, in status [FREE].  The first
    allocation write of a tensor, when it completes, leaves it in status
    [HOLD], on the parameter and in a range of the chunk the index now
    binds it to.  A tensor with a valid chunk assignment keeps it through
    every [access], whatever its outcome, and through every [release]
    but one whose reclamation removes the tensor's chunk, all of whose
    ranges are [FREE] at that time.  A completed [access] of a tensor
    that carries an identifier and is bound to no chunk, as after such a
    reclamation, allocates it anew: it leaves the tensor bound to a
    chunk of the list on the compute device, with a range in status
    [COMPUTE]. *)
Theorem tensor_lifecycle param s P :
  objects s !! param = Some P ->
  ps_data_id P = None ->
  ps_grad_id P = None ->
  index_fresh s ->
  (exists s1 P1,
     _init_ps_param param s = (Ok tt, s1)
     /\ objects s1 !! param = Some P1
     /\ data_status P1 = Some FREE
     /\ grad_status P1 = Some FREE
     /\ ps_data_id P1 = Some (ps_id s + 1)
     /\ chunk_tensor_index s1 !! (ps_id s + 1) = None
     /\ (requires_grad P = true ->
         ps_grad_id P1 = Some (ps_id s + 2)
         /\ chunk_tensor_index s1 !! (ps_id s + 2) = None)
     /\ (requires_grad P = false -> ps_grad_id P1 = None))
  /\ (forall access_type sa Pa tid sb,
        objects sa !! param = Some Pa ->
        ps_id_of access_type Pa = Some tid ->
        (access_type = GRAD -> is_Some (grad Pa)) ->
        convert_to_ps getsizeof access_type param sa = (Ok tt, sb) ->
        exists cid c Pb info,
          chunk_tensor_index sa !! tid = None
          /\ assigned sb tid cid
          /\ chunks (chunk_list sb) !! cid = Some c
          /\ info ∈ tensor_info_list c
          /\ tensor_id info = tid
          /\ status info = HOLD
          /\ objects sb !! param = Some Pb
          /\ status_of access_type Pb = Some HOLD)
  /\ (forall sa tid cid,
        assigned sa tid cid ->
        (forall p access_type compute_device r sb,
           access getsizeof p access_type compute_device sa = (r, sb) ->
           assigned sb tid cid)
        /\ (forall p access_type rs r sb,
              release getsizeof p access_type rs sa = (r, sb) ->
              assigned sb tid cid
              \/ exists cid0 s1 c1,
                   release_reset p access_type cid0 rs sa = (Ok tt, s1)
                   /\ chunks (chunk_list s1) !! cid = Some c1
                   /\ all_free c1 = true
                   /\ chunk_tensor_index sb !! tid = None
                   /\ chunks (chunk_list sb) !! cid = None))
  /\ (forall p access_type compute_device sa Pa tid sb,
        reachable getsizeof sa ->
        objects sa !! p = Some Pa ->
        ps_id_of access_type Pa = Some tid ->
        chunk_tensor_index sa !! tid = None ->
        access getsizeof p access_type compute_device sa = (Ok tt, sb) ->
        exists cid c,
          assigned sb tid cid
          /\ chunks (chunk_list sb) !! cid = Some c
          /\ device c = compute_device
          /\ info_status tid c = Some COMPUTE).
Proof.
  intros HP Hdid Hgid Hfresh. split; [| split; [| split]].
  - destruct (init_ps_param_fresh param s P HP Hdid Hgid Hfresh)
      as (s1 & P1 & Hrun & HP1 & Hds & Hgs & Hid1 & _ & Hidx1 & _ & Hgrad & Hno).
    exists s1, P1. split; [exact Hrun |]. split; [exact HP1 |].
    split; [exact Hds |]. split; [exact Hgs |]. split; [exact Hid1 |].
    split; [exact Hidx1 |]. split; [| exact Hno].
    intros Hrg. destruct (Hgrad Hrg) as (Hg1 & _ & Hg3 & _). auto.
  - intros access_type sa Pa tid sb HPa Hid Hg Hrun.
    destruct access_type; simpl in Hid, Hrun.
    + destruct (convert_to_ps_data_ok _ _ _ _ _ Hrun HPa Hid)
        as (cid & c & Pb & info & H1 & H2 & H3 & H4 & H5 & H6 & H7 & H8 & _).
      exists cid, c, Pb, info. repeat split; auto; apply H2.
    + destruct (Hg eq_refl) as [g Hgr].
      destruct (convert_to_ps_grad_ok _ _ _ _ _ _ Hrun HPa Hgr Hid)
        as (cid & c & Pb & info & H1 & H2 & H3 & H4 & H5 & H6 & H7 & H8 & _).
      exists cid, c, Pb, info. repeat split; auto; apply H2.
  - intros sa tid cid Has. split.
    + intros p access_type compute_device r sb Hacc.
      exact (preserves_keeps_assignments_access _ _ _ _ _ _ Hacc _ _ Has).
    + intros p access_type rs r sb Hrel.
      exact (release_assignment _ _ _ _ _ _ _ _ Hrel Has).
  - intros p access_type compute_device sa Pa tid sb Hr HPa Hid _ Hacc.
    destruct (reachable_wf _ Hr) as [Hwf _].
    destruct (access_binds_on_device _ _ _ _ _ _ _ Hwf Hacc HPa Hid)
      as (cid & c & Hidx & Hc & Hdev & Hst).
    exists cid, c. split; [split; [exact Hidx | eauto] |].
    split; [exact Hc |]. split; [exact Hdev | exact Hst].
Qed.

End Properties.

(** The fatal path of the design document: 150 bytes on a device of 100. *)
Lemma prepare_device_unsatisfiable_witness :
  prepare_device getsizeof_torch dev_gpu 150 ex_accessed
  = (Raise UnsatisfiableAllocation, ex_accessed).
Proof.
  apply (prepare_device_unsatisfiable getsizeof_torch dev_gpu 150 ex_accessed).
  vm_compute. reflexivity.
Defined.

(** 40 bytes are reserved on the accelerator; 60 more fit without eviction. *)
Lemma prepare_device_enough_room_witness :
  prepare_device getsizeof_torch dev_gpu 60 ex_accessed = (Ok tt, ex_accessed).
Proof.
  apply (prepare_device_enough_room getsizeof_torch dev_gpu 60 ex_accessed).
  - vm_compute. discriminate.
  - vm_compute. discriminate.
Defined.

(** [access] of the never registered parameter 2 and of the registered
    parameter 0. *)
Lemma access_not_managed_witness :
  ~ registered ex_registered 2%nat
  /\ access getsizeof_torch 2%nat DATA dev_gpu ex_registered
     = (Raise NotManaged, ex_registered)
  /\ registered ex_registered 0%nat
  /\ (access getsizeof_torch 0%nat DATA dev_gpu ex_registered).1
     <> Raise NotManaged.
Proof.
  assert (Hno : ~ registered ex_registered 2%nat).
  { intros (P & HP & [x Hx]). vm_compute in HP. inversion HP; subst P.
    discriminate. }
  assert (Hyes : registered ex_registered 0%nat).
  { exists (param_at ex_registered 0). split; [vm_compute; reflexivity |].
    vm_compute. eauto. }
  split; [exact Hno |]. split.
  - exact (proj1 (access_not_managed getsizeof_torch 2%nat DATA dev_gpu
                    ex_registered) Hno).
  - split; [exact Hyes |].
    exact (proj2 (access_not_managed getsizeof_torch 0%nat DATA dev_gpu
                    ex_registered) Hyes).
Defined.

(** Room for 80 bytes on the accelerator, 60 of which are available:
    chunk 0, the only chunk there, goes to the host. *)
Lemma prepare_device_evicts_to_other_tier_witness :
  prepare_device getsizeof_torch dev_gpu 80 ex_released = (Ok tt, ex_evicted)
  /\ (exists c, chunks (chunk_list ex_released) !! 0%nat = Some c
                /\ device c = dev_gpu)
  /\ (exists c', chunks (chunk_list ex_evicted) !! 0%nat = Some c'
                 /\ device c' = dev_cpu)
  /\ CallMove 0 dev_cpu ∈ calls ex_evicted.
Proof.
  assert (Hrun : prepare_device getsizeof_torch dev_gpu 80 ex_released
                 = (Ok tt, ex_evicted)) by (vm_compute; reflexivity).
  split; [exact Hrun |].
  destruct (prepare_device_evicts_to_other_tier getsizeof_torch dev_gpu 80
              ex_released ex_evicted Hrun)
    as (_ & _ & moved_list & s1 & Hsel & Hall); [vm_compute; reflexivity |].
  assert (Hsel' : (chunk_to_move_out_for_room_making getsizeof_torch
                     (80 - (capacity_bytes (ps_manager ex_released) dev_gpu
                            - reserved_bytes (ps_manager ex_released) dev_gpu))
                     dev_gpu ex_released).1 = Ok [0%nat])
    by (vm_compute; reflexivity).
  rewrite Hsel in Hsel'. simpl in Hsel'. inversion Hsel'; subst moved_list.
  destruct (Hall 0%nat) as (H1 & H2 & H3); [left |].
  split; [exact H1 |]. split; [exact H2 | exact H3].
Defined.

(** The data of parameter 0, held in chunk 0 on the host, accessed on
    the accelerator. *)
Lemma access_postcondition_witness :
  access getsizeof_torch 0%nat DATA dev_gpu ex_registered = (Ok tt, ex_accessed)
  /\ exists cid c P t,
       chunk_tensor_index ex_accessed !! 0 = Some cid
       /\ chunks (chunk_list ex_accessed) !! cid = Some c
       /\ objects ex_accessed !! 0%nat = Some P
       /\ data_status P = Some COMPUTE
       /\ info_status 0 c = Some COMPUTE
       /\ device c = dev_gpu
       /\ data P = t
       /\ t_storage t = payload c.
Proof.
  assert (Hrun : access getsizeof_torch 0%nat DATA dev_gpu ex_registered
                 = (Ok tt, ex_accessed)) by (vm_compute; reflexivity).
  split; [exact Hrun |].
  destruct (access_postcondition getsizeof_torch 0%nat DATA dev_gpu
              ex_registered ex_accessed (param_at ex_registered 0) 0 Hrun)
    as (cid & c & P & t & H1 & H2 & H3 & H4 & H5 & _ & H7 & H8 & _ & H10 & _).
  - vm_compute. reflexivity.
  - vm_compute. reflexivity.
  - vm_compute. reflexivity.
  - intros cid0 Hidx. vm_compute in Hidx.
    assert (cid0 = 0%nat) as -> by congruence.
    exists (chunk_at ex_registered 0), (param_at ex_registered 0),
      (data (param_at ex_registered 0)).
    split; [vm_compute; reflexivity |]. split; [vm_compute; reflexivity |].
    split; [vm_compute; reflexivity |]. split; [vm_compute; reflexivity |].
    split; [vm_compute; reflexivity |]. vm_compute. eauto.
  - exists cid, c, P, t.
    split; [exact H1 |]. split; [exact H2 |]. split; [exact H3 |].
    split; [exact H4 |]. split; [exact H5 |]. split; [exact H7 |].
    split; [| exact H10]. unfold view_of in H8. congruence.
Defined.

(** C6, the claim as stated fails: the gradient of the registered
    parameter 0 is bound to no chunk, and releasing it returns without a
    call of [delete_free_chunks]; the state, trace included, is what it
    was. *)
Lemma release_unbound_skips_reclamation :
  ps_grad_id (param_at ex_registered 0) = Some 1
  /\ chunk_tensor_index ex_registered !! 1 = None
  /\ release getsizeof_torch 0%nat GRAD HOLD ex_registered
     = (Ok tt, ex_registered)
  /\ (CallDeleteFreeChunks ∉ calls ex_registered)
  /\ (~ exists tr, calls (after (release getsizeof_torch 0%nat GRAD HOLD)
                                ex_registered)
                   = CallDeleteFreeChunks :: tr).
Proof.
  split; [vm_compute; reflexivity |]. split; [vm_compute; reflexivity |].
  split; [vm_compute; reflexivity |]. split.
  - vm_compute. intros H. repeat (apply elem_of_cons in H as [H|H];
                                  [discriminate |]).
    apply elem_of_nil in H. exact H.
  - intros [tr H]. vm_compute in H. discriminate.
Qed.

(** The data of parameter 0, in [COMPUTE] in chunk 0, released to [FREE]. *)
Lemma release_sets_status_witness :
  exists s1 s' c1 P1,
    release_reset 0%nat DATA 0%nat FREE ex_accessed = (Ok tt, s1)
    /\ release getsizeof_torch 0%nat DATA FREE ex_accessed = (Ok tt, s')
    /\ chunks (chunk_list s1) !! 0%nat = Some c1
    /\ info_status 0 c1 = Some FREE
    /\ objects s' !! 0%nat = Some P1
    /\ data_status P1 = Some FREE
    /\ t_storage (data P1) <> payload c1.
Proof.
  destruct (release_sets_status getsizeof_torch 0%nat DATA FREE ex_accessed
              (param_at ex_accessed 0) 0 0%nat (chunk_at ex_accessed 0))
    as (s1 & s' & c1 & P1 & Hres & Hrel & Hc1 & Hst & _ & _ & _ & HP1 & Hds
        & Hview).
  - vm_compute. reflexivity.
  - vm_compute. reflexivity.
  - vm_compute. reflexivity.
  - vm_compute. reflexivity.
  - vm_compute. eauto.
  - vm_compute. lia.
  - exists s1, s', c1, P1. split; [exact Hres |]. split; [exact Hrel |].
    split; [exact Hc1 |]. split; [exact Hst |]. split; [exact HP1 |].
    split; [exact Hds |]. apply Hview; reflexivity.
Defined.

(** The gradient of parameter 0 accessed on the accelerator while its
    data is in [HOLD]. *)
Lemma access_grad_placeholder_witness :
  data_status (param_at ex_registered 0) = Some HOLD
  /\ exists s' P',
       access getsizeof_torch 0%nat GRAD dev_gpu ex_registered = (Ok tt, s')
       /\ objects s' !! 0%nat = Some P'
       /\ tensor_elems (data P') s' = [0; 0; 0]
       /\ t_device (data P') = dev_gpu
       /\ grad_status P' = Some COMPUTE
       /\ is_Some (grad P').
Proof.
  split; [vm_compute; reflexivity |].
  destruct (access_grad_placeholder getsizeof_torch 0%nat dev_gpu ex_registered
              (param_at ex_registered 0) HOLD [3%nat] 1 1%nat ex_located
              (chunk_at ex_located 1) (param_at ex_located 0)
              (default (data (param_at ex_located 0))
                       (ps_grad_tensor (param_at ex_located 0))))
    as (s' & P' & c' & Hrun & HP' & Hdata & Hzero & Hgrad & Hgs & _).
  - vm_compute. reflexivity.
  - vm_compute. eauto.
  - vm_compute. reflexivity.
  - discriminate.
  - vm_compute. reflexivity.
  - vm_compute. reflexivity.
  - vm_compute. reflexivity.
  - vm_compute. reflexivity.
  - vm_compute. reflexivity.
  - vm_compute. reflexivity.
  - exists s', P'. split; [exact Hrun |]. split; [exact HP' |].
    split; [exact Hzero |]. split; [rewrite Hdata; vm_compute; reflexivity |].
    split; [exact Hgs |]. rewrite Hgrad. eauto.
Defined.

(** C9, the claim as stated fails.  A newly registered parameter starts
    with both statuses [FREE], not [UNINIT]; and a tensor that has been
    allocated loses its chunk assignment again: the data of parameter
    0, alone in chunk 0, is bound to it after [register_param], and
    after a [release] to [FREE] the chunk is reclaimed and the tensor is
    bound to no chunk. *)
Lemma registered_tensor_starts_free_and_can_lose_its_chunk :
  data_status (param_at (after (_init_ps_param 0%nat) ex_init) 0) = Some FREE
  /\ grad_status (param_at (after (_init_ps_param 0%nat) ex_init) 0) = Some FREE
  /\ data_status (param_at (after (_init_ps_param 0%nat) ex_init) 0)
     <> Some UNINIT
  /\ ps_data_id (param_at ex_alone 0) = Some 0
  /\ chunk_tensor_index ex_alone !! 0 = Some 0%nat
  /\ is_Some (chunks (chunk_list ex_alone) !! 0%nat)
  /\ (release getsizeof_torch 0%nat DATA FREE ex_alone).1 = Ok tt
  /\ chunk_tensor_index (after (release getsizeof_torch 0%nat DATA FREE)
                               ex_alone) !! 0 = None
  /\ chunks (chunk_list (after (release getsizeof_torch 0%nat DATA FREE)
                               ex_alone)) !! 0%nat = None.
Proof.
  split; [vm_compute; reflexivity |]. split; [vm_compute; reflexivity |].
  split; [vm_compute; discriminate |]. split; [vm_compute; reflexivity |].
  split; [vm_compute; reflexivity |]. split; [vm_compute; eauto |].
  split; [vm_compute; reflexivity |]. split; vm_compute; reflexivity.
Qed.

(** The fresh client of the examples manages nothing yet, and the states
    the examples go through are states of a client. *)
Lemma ex_init_unmanaged : unmanaged ex_init.
Proof.
  repeat (split; [reflexivity |]).
  intros p P HP. revert p P HP.
  apply (map_Forall_lookup
           (fun _ P => ps_data_id P = None /\ ps_grad_id P = None)
           (objects ex_init)).
  apply map_Forall_to_list. vm_compute. repeat constructor.
Qed.

Lemma ex_released_reachable : reachable getsizeof_torch ex_released.
Proof.
  apply (reach_release _ ex_accessed 0%nat DATA HOLD (Ok tt));
    [| vm_compute; reflexivity].
  apply (reach_access _ ex_registered 0%nat DATA dev_gpu);
    [| vm_compute; reflexivity].
  apply (reach_register_param _ ex_alone 1%nat); [| vm_compute; reflexivity].
  apply (reach_register_param _ ex_init 0%nat); [| vm_compute; reflexivity].
  apply reach_start, ex_init_unmanaged.
Qed.

Lemma ex_registered_reachable : reachable getsizeof_torch ex_registered.
Proof.
  apply (reach_register_param _ ex_alone 1%nat); [| vm_compute; reflexivity].
  apply (reach_register_param _ ex_init 0%nat); [| vm_compute; reflexivity].
  apply reach_start, ex_init_unmanaged.
Qed.

Lemma ex_accessed_reachable : reachable getsizeof_torch ex_accessed.
Proof.
  apply (reach_access _ ex_registered 0%nat DATA dev_gpu);
    [exact ex_registered_reachable | vm_compute; reflexivity].
Qed.

(** ** The amended claims on the examples *)

Lemma ex_alone_reachable : reachable getsizeof_torch ex_alone.
Proof.
  apply (reach_register_param _ ex_init 0%nat); [| vm_compute; reflexivity].
  apply reach_start, ex_init_unmanaged.
Qed.

Lemma ex_reclaimed_reachable : reachable getsizeof_torch ex_reclaimed.
Proof.
  apply (reach_release _ ex_alone 0%nat DATA FREE (Ok tt));
    [exact ex_alone_reachable | vm_compute; reflexivity].
Qed.

Lemma ex_stale_reachable : reachable getsizeof_torch ex_stale.
Proof.
  apply (reach_release _ ex_grad_moved 0%nat DATA FREE (Ok tt));
    [| vm_compute; reflexivity].
  apply (reach_chunk_move _ ex_grad_released 0%nat dev_gpu);
    [| vm_compute; reflexivity].
  apply (reach_release _ ex_grad_accessed 0%nat GRAD FREE (Ok tt));
    [| vm_compute; reflexivity].
  apply (reach_access _ ex_alone 0%nat GRAD dev_cpu);
    [exact ex_alone_reachable | vm_compute; reflexivity].
Qed.

(** The data of parameter 0, bound to chunk 0, released with the
    default status; the gradient of parameter 0, which has identifier 1
    and is bound to no chunk; and the gradient of parameter 2, which
    [register_param] has left without an identifier. *)
Lemma release_reclaims_when_bound_witness :
  (exists s', release getsizeof_torch 0%nat DATA HOLD ex_accessed = (Ok tt, s')
              /\ calls s' = CallDeleteFreeChunks :: calls ex_accessed)
  /\ release getsizeof_torch 0%nat GRAD HOLD ex_accessed = (Ok tt, ex_accessed)
  /\ release getsizeof_torch 2%nat GRAD HOLD ex_frozen
     = (Raise AttributeError, ex_frozen).
Proof.
  split; [| split].
  - destruct (release_reclaims_when_bound getsizeof_torch 0%nat DATA HOLD
                ex_accessed (param_at ex_accessed 0)) as [Hb _].
    { vm_compute. reflexivity. }
    destruct (Hb 0 0%nat (chunk_at ex_accessed 0))
      as (s1 & s' & _ & Hrel & Hcalls & _).
    { vm_compute. reflexivity. }
    { vm_compute. reflexivity. }
    { vm_compute. reflexivity. }
    exists s'. split; [exact Hrel | exact Hcalls].
  - destruct (release_reclaims_when_bound getsizeof_torch 0%nat GRAD HOLD
                ex_accessed (param_at ex_accessed 0)) as (_ & Hun & _).
    { vm_compute. reflexivity. }
    apply (Hun 1); vm_compute; reflexivity.
  - destruct (release_reclaims_when_bound getsizeof_torch 2%nat GRAD HOLD
                ex_frozen (param_at ex_frozen 2)) as (_ & _ & Hno).
    { vm_compute. reflexivity. }
    apply Hno. vm_compute. reflexivity.
Defined.

(** Parameter 0, which requires a gradient: initialised by a fresh
    client; its data converted; its data, bound to chunk 0 once both
    parameters are registered, across an access; and, after the
    reclamation of its chunk, accessed on the accelerator. *)
Lemma tensor_lifecycle_witness :
  index_fresh ex_init
  /\ (exists s1 P1,
        _init_ps_param 0%nat ex_init = (Ok tt, s1)
        /\ objects s1 !! 0%nat = Some P1
        /\ data_status P1 = Some FREE
        /\ grad_status P1 = Some FREE
        /\ ps_data_id P1 = Some 0
        /\ chunk_tensor_index s1 !! 0 = None)
  /\ (exists cid Pb,
        assigned (after (_convert_to_ps_data getsizeof_torch 0%nat)
                        (after (_init_ps_param 0%nat) ex_init)) 0 cid
        /\ objects (after (_convert_to_ps_data getsizeof_torch 0%nat)
                        (after (_init_ps_param 0%nat) ex_init)) !! 0%nat
           = Some Pb
        /\ data_status Pb = Some HOLD)
  /\ assigned ex_accessed 0 0%nat
  /\ (chunk_tensor_index ex_reclaimed !! 0 = None
      /\ exists cid c,
           assigned (after (access getsizeof_torch 0%nat DATA dev_gpu)
                           ex_reclaimed) 0 cid
           /\ chunks (chunk_list (after (access getsizeof_torch 0%nat DATA
                                           dev_gpu) ex_reclaimed)) !! cid
              = Some c
           /\ device c = dev_gpu
           /\ info_status 0 c = Some COMPUTE).
Proof.
  assert (Hfresh : index_fresh ex_init).
  { intros tid _. apply lookup_empty. }
  split; [exact Hfresh |].
  destruct (tensor_lifecycle getsizeof_torch 0%nat ex_init
              (param_at ex_init 0))
    as ((s1 & P1 & H1 & H2 & H3 & H4 & H5 & H6 & _) & Hwrite & Hkeep & Hanew).
  - vm_compute. reflexivity.
  - vm_compute. reflexivity.
  - vm_compute. reflexivity.
  - exact Hfresh.
  - split; [| split; [| split; [| split]]].
    + exists s1, P1. split; [exact H1 |]. split; [exact H2 |].
      split; [exact H3 |]. split; [exact H4 |]. split; [exact H5 |]. exact H6.
    + destruct (Hwrite DATA (after (_init_ps_param 0%nat) ex_init)
                  (param_at (after (_init_ps_param 0%nat) ex_init) 0) 0
                  (after (_convert_to_ps_data getsizeof_torch 0%nat)
                         (after (_init_ps_param 0%nat) ex_init)))
        as (cid & c & Pb & info & _ & Has & _ & _ & _ & _ & HPb & Hst).
      * vm_compute. reflexivity.
      * vm_compute. reflexivity.
      * discriminate.
      * vm_compute. reflexivity.
      * exists cid, Pb. split; [exact Has |]. split; [exact HPb | exact Hst].
    + destruct (Hkeep ex_registered 0 0%nat) as [Hacc _].
      * split; [vm_compute; reflexivity | vm_compute; eauto].
      * apply (Hacc 0%nat DATA dev_gpu (Ok tt) ex_accessed).
        vm_compute. reflexivity.
    + vm_compute. reflexivity.
    + apply (Hanew 0%nat DATA dev_gpu ex_reclaimed
               (param_at ex_reclaimed 0) 0).
      * exact ex_reclaimed_reachable.
      * vm_compute. reflexivity.
      * vm_compute. reflexivity.
      * vm_compute. reflexivity.
      * vm_compute. reflexivity.
Defined.

(** The data of parameter 0, in chunk 0, released with the default
    status; the gradient of parameter 1, in chunk 1, released with the
    default status; and the gradient of parameter 0 in a state in which
    it is bound to no chunk while [param.grad] is a view. *)
Lemma release_redirects_view_witness :
  (exists s' P' c',
     release getsizeof_torch 0%nat DATA HOLD ex_accessed = (Ok tt, s')
     /\ chunks (chunk_list s') !! 0%nat = Some c'
     /\ info_status 0 c' = Some HOLD
     /\ objects s' !! 0%nat = Some P'
     /\ data_status P' = Some HOLD
     /\ tensor_elems (data P') s' = [0]
     /\ t_storage (data P') <> payload c')
  /\ (is_Some (grad (param_at ex_registered 1))
      /\ exists s' P',
           release getsizeof_torch 1%nat GRAD HOLD ex_registered = (Ok tt, s')
           /\ objects s' !! 1%nat = Some P'
           /\ grad P' = None
           /\ grad_status P' = Some HOLD)
  /\ (is_Some (grad (param_at ex_stale 0))
      /\ release getsizeof_torch 0%nat GRAD HOLD ex_stale = (Ok tt, ex_stale)).
Proof.
  split; [| split].
  - destruct (release_redirects_view getsizeof_torch 0%nat ex_accessed
                (param_at ex_accessed 0)) as [Hdata _].
    { vm_compute. reflexivity. }
    destruct (Hdata 0 0%nat (chunk_at ex_accessed 0))
      as (s' & P' & c' & H1 & H2 & _ & H4 & H5 & H6 & _ & H8 & _ & H10).
    + vm_compute. reflexivity.
    + vm_compute. reflexivity.
    + vm_compute. reflexivity.
    + vm_compute. eauto.
    + vm_compute. lia.
    + exists s', P', c'. split; [exact H1 |]. split; [exact H2 |].
      split; [exact H4 |]. split; [exact H5 |]. split; [exact H6 |].
      split; [exact H8 | exact H10].
  - split; [vm_compute; eauto |].
    destruct (release_redirects_view getsizeof_torch 1%nat ex_registered
                (param_at ex_registered 1)) as (_ & Hgrad & _).
    { vm_compute. reflexivity. }
    apply (Hgrad HOLD 3 1%nat (chunk_at ex_registered 1)).
    + vm_compute. reflexivity.
    + vm_compute. reflexivity.
    + vm_compute. reflexivity.
  - split; [vm_compute; eauto |].
    destruct (release_redirects_view getsizeof_torch 0%nat ex_stale
                (param_at ex_stale 0)) as (_ & _ & Hun).
    { vm_compute. reflexivity. }
    apply (Hun GRAD HOLD 1); vm_compute; reflexivity.
Defined.

(** C10, the claim as stated fails for gradients.  Five calls complete:
    parameter 0 is registered, its gradient is accessed on the host and
    released to [FREE], chunk 0 is moved to the accelerator, which
    rebinds [param.grad] to a view of the moved chunk, and the data is
    released to [FREE], which reclaims the chunk.  The gradient then has
    its identifier and no chunk, and a release of it, whatever the
    status, returns without touching [param.grad]: the handle is still
    the view, not [None]. *)
Lemma release_of_unbound_gradient_keeps_handle :
  (register_param getsizeof_torch 0%nat ex_init).1 = Ok tt
  /\ (access getsizeof_torch 0%nat GRAD dev_cpu ex_alone).1 = Ok tt
  /\ (release getsizeof_torch 0%nat GRAD FREE ex_grad_accessed).1 = Ok tt
  /\ (chunk_move getsizeof_torch 0%nat dev_gpu ex_grad_released).1 = Ok tt
  /\ (release getsizeof_torch 0%nat DATA FREE ex_grad_moved).1 = Ok tt
  /\ ps_grad_id (param_at ex_stale 0) = Some 1
  /\ chunk_tensor_index ex_stale !! 1 = None
  /\ grad (param_at ex_stale 0) = Some (mkTensor 6 dev_gpu 3 [3%nat])
  /\ (forall rs,
        release getsizeof_torch 0%nat GRAD rs ex_stale = (Ok tt, ex_stale))
  /\ grad (param_at (after (release getsizeof_torch 0%nat GRAD HOLD) ex_stale)
                    0)
     <> None.
Proof.
  split; [vm_compute; reflexivity |]. split; [vm_compute; reflexivity |].
  split; [vm_compute; reflexivity |]. split; [vm_compute; reflexivity |].
  split; [vm_compute; reflexivity |]. split; [vm_compute; reflexivity |].
  split; [vm_compute; reflexivity |]. split; [vm_compute; reflexivity |].
  split.
  - intros rs. destruct rs; vm_compute; reflexivity.
  - vm_compute. discriminate.
Qed.

(** ** The further properties on the examples *)

(** The data identifier of parameter 0 across the access of its data. *)
Lemma identifiers_never_change_witness :
  exists P', objects ex_accessed !! 0%nat = Some P'
             /\ ps_id_of DATA P' = Some 0.
Proof.
  apply (identifiers_never_change getsizeof_torch ex_registered ex_accessed
           0%nat (param_at ex_registered 0) DATA 0).
  - apply (call_access _ 0%nat DATA dev_gpu ex_registered (Ok tt)).
    vm_compute. reflexivity.
  - vm_compute. reflexivity.
  - vm_compute. reflexivity.
Defined.

(** Parameter 2 does not require a gradient: registered, it has no
    gradient identifier. *)
Lemma missing_identifier_raises_AttributeError_witness :
  (forall rs,
     release getsizeof_torch 2%nat GRAD rs ex_frozen
     = (Raise AttributeError, ex_frozen))
  /\ (is_Some (ps_data_id (param_at ex_frozen 2)) ->
      forall dev,
        access getsizeof_torch 2%nat GRAD dev ex_frozen
        = (Raise AttributeError, ex_frozen)).
Proof.
  apply (missing_identifier_raises_AttributeError getsizeof_torch 2%nat GRAD
           ex_frozen (param_at ex_frozen 2)).
  - vm_compute. reflexivity.
  - vm_compute. reflexivity.
Defined.

Lemma init_ps_param_idempotent_witness :
  _init_ps_param 0%nat (after (_init_ps_param 0%nat) ex_init)
  = (Ok tt, after (_init_ps_param 0%nat) ex_init).
Proof.
  apply (init_ps_param_idempotent 0%nat ex_init).
  vm_compute. reflexivity.
Defined.

(** A module of parameters 0 and 2, the second of which does not
    require a gradient. *)
Lemma register_module_fails_on_frozen_parameter_witness :
  exists e s',
    register_module getsizeof_torch (Some [0%nat; 2%nat]) ex_init
    = (Raise e, s').
Proof.
  apply (register_module_fails_on_frozen_parameter getsizeof_torch
           [0%nat; 2%nat] 2%nat (param_at ex_init 2) ex_init).
  - right. left.
  - vm_compute. reflexivity.
  - vm_compute. reflexivity.
  - vm_compute. reflexivity.
Defined.

Lemma identifiers_are_unique_witness : 0%nat = 0%nat /\ DATA = DATA.
Proof.
  apply (identifiers_are_unique getsizeof_torch ex_registered 0%nat 0%nat
           (param_at ex_registered 0) (param_at ex_registered 0) DATA DATA 0).
  - exact ex_registered_reachable.
  - vm_compute. reflexivity.
  - vm_compute. reflexivity.
  - vm_compute. reflexivity.
  - vm_compute. reflexivity.
Defined.

Lemma no_dangling_entries_witness :
  (forall cid c info,
     chunks (chunk_list ex_released) !! cid = Some c ->
     info ∈ tensor_info_list c ->
     chunk_tensor_index ex_released !! tensor_id info = Some cid)
  /\ (forall p P access_type tid,
        objects ex_released !! p = Some P ->
        ps_id_of access_type P = Some tid -> tid <= ps_id ex_released).
Proof.
  destruct (no_dangling_entries getsizeof_torch ex_released)
    as (H1 & _ & _ & H4 & _).
  - exact ex_released_reachable.
  - split; [exact H1 | exact H4].
Defined.

(** The gradient of parameter 1, converted after [_init_ps_param]. *)
Lemma conversion_records_chunk_id_witness :
  exists cid P2,
    chunk_tensor_index ex_converted !! 1 = Some cid
    /\ objects ex_converted !! 1%nat = Some P2
    /\ ps_gard_chunk_id P2 = Some cid
    /\ ps_grad_chunk_id P2 = None.
Proof.
  destruct (conversion_records_chunk_id getsizeof_torch 1%nat
              (after (_init_ps_param 1%nat) ex_init)
              (param_at (after (_init_ps_param 1%nat) ex_init) 1)
              ex_converted) as [_ Hgrad].
  - vm_compute. reflexivity.
  - destruct (Hgrad 1 (mkTensor 2 dev_cpu 0 [2%nat; 2%nat]))
      as (cid & P2 & H1 & H2 & H3 & H4).
    + vm_compute. reflexivity.
    + vm_compute. reflexivity.
    + vm_compute. reflexivity.
    + exists cid, P2. split; [exact H1 |]. split; [exact H2 |].
      split; [exact H3 |]. rewrite H4. vm_compute. reflexivity.
Defined.

Lemma chunk_move_idempotent_witness :
  chunk_move getsizeof_torch 0%nat dev_gpu
    (after (chunk_move getsizeof_torch 0%nat dev_gpu) ex_registered)
  = (Ok tt, after (chunk_move getsizeof_torch 0%nat dev_gpu) ex_registered).
Proof.
  apply (chunk_move_idempotent getsizeof_torch 0%nat dev_gpu ex_registered).
  vm_compute. reflexivity.
Defined.

Lemma status_attribute_mirrors_chunk_witness :
  exists c, chunks (chunk_list ex_accessed) !! 0%nat = Some c
            /\ info_status 0 c = Some COMPUTE.
Proof.
  assert (H := status_attribute_mirrors_chunk getsizeof_torch ex_accessed
                 0%nat (param_at ex_accessed 0) DATA 0).
  assert (Hidx : chunk_tensor_index ex_accessed !! 0 = Some 0%nat)
    by (vm_compute; reflexivity).
  rewrite Hidx in H.
  destruct H as (c & Hc & Hst).
  - exact ex_accessed_reachable.
  - vm_compute. reflexivity.
  - vm_compute. reflexivity.
  - exists c. split; [exact Hc |]. rewrite Hst. vm_compute. reflexivity.
Defined.

Lemma access_then_release_keeps_residence_witness :
  exists s2 cid c P2,
    release getsizeof_torch 0%nat DATA HOLD ex_accessed = (Ok tt, s2)
    /\ chunk_tensor_index s2 !! 0 = Some cid
    /\ chunks (chunk_list s2) !! cid = Some c
    /\ device c = dev_gpu
    /\ info_status 0 c = Some HOLD
    /\ objects s2 !! 0%nat = Some P2
    /\ status_of DATA P2 = Some HOLD.
Proof.
  apply (access_then_release_keeps_residence getsizeof_torch 0%nat DATA
           dev_gpu HOLD ex_registered ex_accessed
           (param_at ex_registered 0) 0).
  - exact ex_registered_reachable.
  - vm_compute. reflexivity.
  - vm_compute. reflexivity.
  - discriminate.
  - vm_compute. reflexivity.
Defined.

Lemma reachable_access_conditions_witness :
  owner ex_registered DATA 0 0%nat
  /\ forall cid, chunk_tensor_index ex_registered !! 0 = Some cid ->
                 handle_in_chunk ex_registered 0%nat DATA 0 cid.
Proof.
  apply (reachable_access_conditions getsizeof_torch ex_registered 0%nat
           (param_at ex_registered 0) DATA 0).
  - exact ex_registered_reachable.
  - vm_compute. reflexivity.
  - vm_compute. reflexivity.
Defined.

Lemma reachable_release_conditions_witness :
  exists c, chunks (chunk_list ex_accessed) !! 0%nat = Some c
            /\ is_Some (find_info 0 (tensor_info_list c))
            /\ (payload c < next_storage ex_accessed)%nat.
Proof.
  apply (reachable_release_conditions getsizeof_torch ex_accessed 0 0%nat).
  - exact ex_accessed_reachable.
  - vm_compute. reflexivity.
Defined.

Lemma ex_module_reachable : reachable getsizeof_torch ex_module.
Proof.
  apply (reach_register_module _ ex_init (Some [0%nat; 1%nat]));
    [| vm_compute; reflexivity].
  apply reach_start, ex_init_unmanaged.
Qed.

Lemma ex_module_grad_reachable : reachable getsizeof_torch ex_module_grad.
Proof.
  apply (reach_access _ ex_module 1%nat GRAD dev_cpu);
    [exact ex_module_reachable | vm_compute; reflexivity].
Qed.

(** The gradient of parameter 0, which has identifier 1 and no chunk,
    allocated behind the data of parameter 0 in chunk 0. *)
Lemma new_tensor_binds_requested_view_witness :
  chunk_tensor_index ex_alone !! 1 = None
  /\ chunk_tensor_index
       (after (new_tensor getsizeof_torch [3%nat] torch_float 1) ex_alone) !! 1
     = Some 0%nat
  /\ exists c earlier,
       chunks (chunk_list (after (new_tensor getsizeof_torch [3%nat]
                                    torch_float 1) ex_alone)) !! 0%nat
       = Some c
       /\ tensor_info_list c = earlier ++ [mkTensorInfo 1 3 3 HOLD]
       /\ (3 + 3 <= capacity c)%nat
       /\ forall e, e ∈ earlier -> (start e + numel e <= 3)%nat.
Proof.
  destruct (new_tensor_binds_requested_view getsizeof_torch [3%nat] torch_float
              1 ex_alone (mkTensor 4 dev_cpu 3 [3%nat]) 0%nat
              (after (new_tensor getsizeof_torch [3%nat] torch_float 1)
                     ex_alone))
    as (H1 & H2 & _ & c & earlier & Hc & _ & _ & _ & Hl & Hfit & Hbefore).
  - vm_compute. reflexivity.
  - split; [exact H1 |]. split; [exact H2 |]. exists c, earlier.
    split; [exact Hc |]. split; [exact Hl |]. split; [exact Hfit |].
    exact Hbefore.
Defined.

(** The gradient of parameter 1, in [COMPUTE] when [release_all_grad]
    is called. *)
Lemma release_all_grad_frees_every_gradient_witness :
  grad_status (param_at ex_module_grad 1) = Some COMPUTE
  /\ exists P', objects (after (release_all_grad getsizeof_torch)
                               ex_module_grad) !! 1%nat = Some P'
                /\ grad_status P' = Some FREE.
Proof.
  split; [vm_compute; reflexivity |].
  apply (release_all_grad_frees_every_gradient getsizeof_torch
           [0%nat; 1%nat] ex_module_grad).
  - exact ex_module_grad_reachable.
  - vm_compute. reflexivity.
  - vm_compute. reflexivity.
  - right. left.
Defined.

Lemma register_module_end_state_witness :
  exists P', objects ex_module !! 1%nat = Some P'
             /\ data_status P' = Some HOLD
             /\ grad_status P' = Some FREE.
Proof.
  apply (register_module_end_state getsizeof_torch [0%nat; 1%nat] ex_init).
  - apply reach_start, ex_init_unmanaged.
  - vm_compute. reflexivity.
  - right. left.
Defined.

Lemma ex_second_sized : storage_sized ex_second.
Proof.
  intros cid c. revert cid c.
  apply (map_Forall_lookup
           (fun _ c => (capacity c
                        <= length (default [] (storages ex_second
                                                 !! payload c)))%nat)).
  apply map_Forall_to_list. vm_compute. repeat constructor.
Qed.

Lemma ex_second_data_sized :
  storage_sized (after (_convert_to_ps_data getsizeof_torch 1%nat) ex_second).
Proof.
  intros cid c. revert cid c.
  apply (map_Forall_lookup
           (fun _ c =>
              (capacity c
               <= length (default []
                            (storages
                               (after (_convert_to_ps_data getsizeof_torch
                                         1%nat) ex_second)
                             !! payload c)))%nat)).
  apply map_Forall_to_list. vm_compute. repeat constructor.
Qed.

(** The data and the gradient of parameter 1, of shape 2 x 2, converted
    into chunks while parameter 0 is registered already. *)
Lemma conversion_preserves_values_witness :
  (exists P2,
     objects (after (_convert_to_ps_data getsizeof_torch 1%nat) ex_second)
       !! 1%nat = Some P2
     /\ t_shape (data P2) = [2%nat; 2%nat]
     /\ tensor_elems (data P2)
          (after (_convert_to_ps_data getsizeof_torch 1%nat) ex_second)
        = [4; 5; 6; 7])
  /\ (exists P2 g2,
        objects ex_registered !! 1%nat = Some P2
        /\ grad P2 = Some g2
        /\ t_shape g2 = [2%nat; 2%nat]
        /\ tensor_elems g2 ex_registered = [8; 9; 10; 11]).
Proof.
  split.
  - destruct (conversion_preserves_values getsizeof_torch 1%nat ex_second
                (param_at ex_second 1) [2%nat; 2%nat]
                (after (_convert_to_ps_data getsizeof_torch 1%nat) ex_second))
      as [Hdata _].
    + exact ex_second_sized.
    + vm_compute. reflexivity.
    + vm_compute. reflexivity.
    + destruct Hdata as (P2 & HP2 & Hsh & Hel).
      * vm_compute. lia.
      * vm_compute. reflexivity.
      * vm_compute. reflexivity.
      * exists P2. split; [exact HP2 |]. split; [exact Hsh |].
        rewrite Hel. vm_compute. reflexivity.
  - destruct (conversion_preserves_values getsizeof_torch 1%nat
                (after (_convert_to_ps_data getsizeof_torch 1%nat) ex_second)
                (param_at (after (_convert_to_ps_data getsizeof_torch 1%nat)
                                 ex_second) 1)
                [2%nat; 2%nat] ex_registered)
      as [_ Hgrad].
    + exact ex_second_data_sized.
    + vm_compute. reflexivity.
    + vm_compute. reflexivity.
    + destruct (Hgrad (mkTensor 2 dev_cpu 0 [2%nat; 2%nat]))
        as (P2 & g2 & HP2 & Hg2 & Hsh & Hel).
      * vm_compute. reflexivity.
      * vm_compute. lia.
      * vm_compute. reflexivity.
      * vm_compute. reflexivity.
      * exists P2, g2. split; [exact HP2 |]. split; [exact Hg2 |].
        split; [exact Hsh |]. rewrite Hel. vm_compute. reflexivity.
Defined.

(** Chunk 0 after its move to the accelerator. *)
Lemma chunk_storage_holds_capacity_witness :
  (payload (chunk_at ex_accessed 0) < next_storage ex_accessed)%nat
  /\ (capacity (chunk_at ex_accessed 0)
      <= storage_len ex_accessed (payload (chunk_at ex_accessed 0)))%nat.
Proof.
  apply (chunk_storage_holds_capacity getsizeof_torch ex_accessed 0%nat).
  - exact ex_accessed_reachable.
  - vm_compute. reflexivity.
Defined.
